(** * Open/R: KvStore merge and peer state machine, LinkState SPF, SpfSolver
    route selection and RouteDb diffing.

    A shallow embedding of the C++ sources
      - openr/if/KvStore.thrift        (Value, KvStorePeerState)
      - openr/kvstore/KvStore.h        (KvStorePeerEvent, KvStoreDb interface)
      - openr/decision/LinkState.cpp   (Link, LinkState, runSpf, getKthPaths,
                                        traceOnePath, resolveUcmpWeights)
      - openr/decision/SpfSolver.cpp   (DecisionRouteDb, buildRouteDb,
                                        filterDrainedNodes)
    with the properties the specification states about them, and further
    properties of the same code: the holds of [HoldableValue] and [Link], the
    order and equality of links, the link sets under [addLink], [removeLink]
    and [removeNode], what an SPF result and the k-th paths record, and the
    next hops that [SpfSolver] derives from them.

    Conventions.  A C++ [std::unordered_map] that is only looked up is a
    [gmap]; where the code iterates over one, the loop is a [foldl] over the
    sequence of its entries, and the lemmas about the loop hold for every
    sequence (the iteration order of an unordered container is unspecified).
    C++ exceptions and failed [CHECK]s are [None]. *)

From Stdlib Require Import ZArith Lia List Bool.
From Stdlib Require Import Strings.String Structures.OrdersEx.
From stdpp Require Import base option list gmap strings fin_maps.

Open Scope Z_scope.

(** ** Common data types *)

(** [folly::CIDRNetwork]: an address and a prefix length. *)
Abbreviation CIDRNetwork := (string * N)%type.

(** [thrift::MplsActionCode]. *)
Inductive MplsActionCode := PUSH | SWAP | PHP | POP_AND_LOOKUP.

#[global] Instance MplsActionCode_eq_dec : EqDecision MplsActionCode.
Proof. solve_decision. Defined.

#[global] Instance MplsActionCode_countable : Countable MplsActionCode.
Proof.
  refine (inj_countable'
    (fun c => match c with PUSH => 0%nat | SWAP => 1%nat | PHP => 2%nat
                         | POP_AND_LOOKUP => 3%nat end)
    (fun n => match n with 0%nat => PUSH | 1%nat => SWAP | 2%nat => PHP
                         | _ => POP_AND_LOOKUP end) _).
  abstract (by intros []).
Defined.

(** [thrift::MplsAction], as [createMplsAction] fills it. *)
Record MplsAction := mkMplsAction {
  action : MplsActionCode;
  swapLabel : option Z;
  pushLabels : option (list Z);
}.

#[global] Instance MplsAction_eq_dec : EqDecision MplsAction.
Proof. solve_decision. Defined.

Definition MplsAction_to_tuple (a : MplsAction) :=
  (action a, swapLabel a, pushLabels a).

Definition MplsAction_of_tuple
    (t : MplsActionCode * option Z * option (list Z)) : MplsAction :=
  match t with (c, s, p) => mkMplsAction c s p end.

#[global] Instance MplsAction_countable : Countable MplsAction.
Proof.
  refine (inj_countable' MplsAction_to_tuple MplsAction_of_tuple _).
  abstract (by intros []).
Defined.

(** [thrift::NextHopThrift], as [createNextHop] fills it. *)
Record NextHopThrift := mkNextHop {
  nh_address : string;
  nh_ifName : option string;
  nh_metric : Z;
  nh_mplsAction : option MplsAction;
  nh_area : option string;
  nh_neighborNodeName : option string;
  nh_weight : Z;
}.

#[global] Instance NextHopThrift_eq_dec : EqDecision NextHopThrift.
Proof. solve_decision. Defined.

Definition NextHopThrift_to_tuple (n : NextHopThrift) :=
  (nh_address n, nh_ifName n, nh_metric n, nh_mplsAction n,
   nh_area n, nh_neighborNodeName n, nh_weight n).

Definition NextHopThrift_of_tuple
    (t : string * option string * Z * option MplsAction * option string *
         option string * Z) : NextHopThrift :=
  match t with (a, i, m, ma, ar, nn, w) => mkNextHop a i m ma ar nn w end.

#[global] Instance NextHopThrift_countable : Countable NextHopThrift.
Proof.
  refine (inj_countable' NextHopThrift_to_tuple NextHopThrift_of_tuple _).
  abstract (by intros []).
Defined.

(** ** KvStore peer state machine *)

Module PeerFsm.

(** [enum KvStorePeerState] of KvStore.thrift. *)
Inductive KvStorePeerState := IDLE | SYNCING | INITIALIZED.

(** [enum class KvStorePeerEvent] of KvStore.h. *)
Inductive KvStorePeerEvent :=
  | PEER_ADD
  | PEER_DEL
  | SYNC_RESP_RCVD
  | THRIFT_API_ERROR
  | INCONSISTENCY_DETECTED.

#[global] Instance KvStorePeerState_eq_dec : EqDecision KvStorePeerState.
Proof. solve_decision. Defined.

#[global] Instance KvStorePeerEvent_eq_dec : EqDecision KvStorePeerEvent.
Proof. solve_decision. Defined.

(** Modelled from the spec: the body of [KvStoreDb::getNextState] (KvStore.h
    only declares it).  The rows are those of the transition table of the
    specification that are driven by a [KvStorePeerEvent]; the current state is
    optional as in the declaration ([None]: the peer does not exist yet), and
    the result is [None] where the table has no row or removes the peer. *)
Definition getNextState (currState : option KvStorePeerState)
    (event : KvStorePeerEvent) : option KvStorePeerState :=
  match currState, event with
  | _, PEER_DEL => None
  | None, PEER_ADD => Some IDLE
  | Some SYNCING, SYNC_RESP_RCVD => Some INITIALIZED
  | Some SYNCING, THRIFT_API_ERROR => Some IDLE
  | Some INITIALIZED, INCONSISTENCY_DETECTED => Some IDLE
  | Some INITIALIZED, THRIFT_API_ERROR => Some IDLE
  | _, _ => None
  end.

(** Modelled from the spec: the row "IDLE, (timer), SYNCING" of the same
    table; the sync timer is not a [KvStorePeerEvent]. *)
Definition syncTimerFired (currState : KvStorePeerState)
    : option KvStorePeerState :=
  match currState with
  | IDLE => Some SYNCING
  | _ => None
  end.

(** One step of a peer: an event, or the sync timer. *)
Inductive peerStep : option KvStorePeerState -> option KvStorePeerState -> Prop :=
  | step_event s e s' :
      getNextState s e = Some s' -> peerStep s (Some s')
  | step_del s :
      peerStep (Some s) None
  | step_timer s s' :
      syncTimerFired s = Some s' -> peerStep (Some s) (Some s').

End PeerFsm.

(** ** KvStore values and merge *)

Module KvStore.

(** [struct Value] of KvStore.thrift. *)
Record Value := mkValue {
  version : Z;
  originatorId : string;
  value : option string;
  ttl : Z;
  ttlVersion : Z;
  hash : option Z;
}.

(** [enum KvStoreNoMergeReason] of KvStore.thrift. *)
Inductive KvStoreNoMergeReason :=
  | UNKNOWN
  | NO_MATCHED_KEY
  | INVALID_TTL
  | OLD_VERSION
  | NO_NEED_TO_UPDATE
  | LOOP_DETECTED
  | INCONSISTENCY_DETECTED.

(** The tuple that orders values: (version, originatorId, value). *)
Abbreviation ValueContent := (Z * string * option string)%type.

Definition contentOf (v : Value) : ValueContent :=
  (version v, originatorId v, value v).

(** [value] is set: the update carries application data.  One that carries
    none is a TTL update (documentation of [Value::value]). *)
Definition hasData (v : Value) : bool :=
  match value v with
  | Some _ => true
  | None => false
  end.

(** Order on the optional [value] bytes: present values compare as byte
    strings, and an absent value is below every present one, which makes the
    order on tuples total.  The merge compares tuples only for an incoming
    value that carries data. *)
Definition compareBytes (a b : option string) : comparison :=
  match a, b with
  | None, None => Eq
  | None, Some _ => Lt
  | Some _, None => Gt
  | Some x, Some y => String.compare x y
  end.

(** Modelled from the spec: the comparison of two values, which
    [mergeKeyValues] of KvStoreUtil.cpp (not among the sources) performs:
    lexicographic on (version, originatorId, value), higher wins in each
    component, as the tie breakers of [struct Value] document. *)
Definition compareContent (a b : ValueContent) : comparison :=
  match Z.compare a.1.1 b.1.1 with
  | Eq =>
      match String.compare a.1.2 b.1.2 with
      | Eq => compareBytes a.2 b.2
      | c => c
      end
  | c => c
  end.

Definition compareValues (a b : Value) : comparison :=
  compareContent (contentOf a) (contentOf b).

(** The comparison of (version, originatorId) alone, which tells to which
    value a TTL update belongs (documentation of [Value::ttlVersion]). *)
Definition compareOrigin (a b : Value) : comparison :=
  match Z.compare (version a) (version b) with
  | Eq => String.compare (originatorId a) (originatorId b)
  | c => c
  end.

(** What a merge did with one incoming value. *)
Inductive MergeOutcome :=
  | ValueUpdated
  | TtlUpdated
  | NotMerged (reason : KvStoreNoMergeReason) (inconsistency : bool).

(** An entry of the [TtlQueue]: (deadline, key, version, ttlVersion). *)
Record TtlEntry := mkTtlEntry {
  deadline : Z;
  entryKey : string;
  entryVersion : Z;
  entryTtlVersion : Z;
}.

Section Merge.
(** [Constants::kTtlInfinity], [generateHash] and the key filter are defined
    in Constants.h and KvStoreUtil.h, which are not among the sources: they
    are parameters.  [nodeId] is the local node, [selfOriginated] tells
    whether a key is one of its self-originated keys. *)
Variable kTtlInfinity : Z.
Variable generateHash : Z -> string -> option string -> Z.
Variable filters : option (string -> Value -> bool).
Variable nodeId : string.
Variable selfOriginated : string -> bool.

(** Steps 1 and 2 of the merge: the key filter and the TTL check. *)
Definition keyMatches (key : string) (inV : Value) : bool :=
  match filters with
  | Some keyMatch => keyMatch key inV
  | None => true
  end.

Definition ttlValid (inV : Value) : bool :=
  (0 <? ttl inV) || (ttl inV =? kTtlInfinity).

(** The value as stored: the hash is recomputed locally on ingest. *)
Definition ingest (inV : Value) : Value :=
  mkValue (version inV) (originatorId inV) (value inV) (ttl inV)
    (ttlVersion inV)
    (Some (generateHash (version inV) (originatorId inV) (value inV))).

(** A TTL refresh: only the TTL fields of the local value change. *)
Definition refreshTtl (localV inV : Value) : Value :=
  mkValue (version localV) (originatorId localV) (value localV) (ttl inV)
    (ttlVersion inV) (hash localV).

(** Modelled from the spec: the merge of one incoming key/value into the
    local store, section "Merge semantics" of the specification
    ([KvStoreDb::mergePublication] is only declared in KvStore.h, and
    [mergeKeyValues] is in KvStoreUtil.cpp, not among the sources).  An
    incoming value that carries data is compared with the local one by its
    tuple.  One without data is a TTL update, as [struct Value] documents:
    with the (version, originatorId) of the local value and a higher
    ttlVersion it refreshes the TTL, and it never changes the stored tuple;
    one for another value than the local one changes nothing.
    [ttlUpdate] is the case of equal values, [oldVersion] that of an older
    incoming value, which reveals an inconsistency when it comes from the
    originator of the local value and that value is self-originated. *)
Definition ttlUpdate (local : gmap string Value) (key : string)
    (localV inV : Value) : gmap string Value * MergeOutcome :=
  if ttlVersion localV <? ttlVersion inV
  then (<[key := refreshTtl localV inV]> local, TtlUpdated)
  else (local, NotMerged NO_NEED_TO_UPDATE false).

Definition oldVersion (local : gmap string Value) (key : string)
    (localV inV : Value) : gmap string Value * MergeOutcome :=
  (local,
   NotMerged OLD_VERSION
     (bool_decide (originatorId inV = originatorId localV)
      && bool_decide (originatorId localV = nodeId)
      && selfOriginated key)).

Definition mergeKeyValue (local : gmap string Value) (key : string)
    (inV : Value) : gmap string Value * MergeOutcome :=
  if negb (keyMatches key inV) then (local, NotMerged NO_MATCHED_KEY false)
  else if negb (ttlValid inV) then (local, NotMerged INVALID_TTL false)
  else
    match local !! key with
    | None =>
        if hasData inV then (<[key := ingest inV]> local, ValueUpdated)
        else (local, NotMerged NO_NEED_TO_UPDATE false)
    | Some localV =>
        if hasData inV
        then
          match compareValues inV localV with
          | Gt => (<[key := ingest inV]> local, ValueUpdated)
          | Eq => ttlUpdate local key localV inV
          | Lt => oldVersion local key localV inV
          end
        else
          match compareOrigin inV localV with
          | Gt => (local, NotMerged NO_NEED_TO_UPDATE false)
          | Eq => ttlUpdate local key localV inV
          | Lt => oldVersion local key localV inV
          end
    end.

(** The merge of a publication: its key/values in sequence. *)
Definition mergeKeyValues (local : gmap string Value)
    (keyVals : list (string * Value)) : gmap string Value :=
  foldl (fun st (kv : string * Value) => (mergeKeyValue st kv.1 kv.2).1)
    local keyVals.

(** Modelled from the spec: the [TtlQueue], section "TTL management": a
    min-heap keyed by deadline, here the sequence in which it pops, least
    deadline first. *)
Fixpoint ttlQueuePush (e : TtlEntry) (q : list TtlEntry) : list TtlEntry :=
  match q with
  | [] => [e]
  | x :: q' =>
      if deadline e <? deadline x then e :: q else x :: ttlQueuePush e q'
  end.

(** Modelled from the spec: what is done with a popped entry: the key is
    removed when the entry's (version, ttlVersion) match the local value,
    and a stale entry is dropped. *)
Definition ttlFired (local : gmap string Value) (key : string)
    (ver ttlVer : Z) : gmap string Value :=
  match local !! key with
  | Some localV =>
      if bool_decide (version localV = ver)
         && bool_decide (ttlVersion localV = ttlVer)
      then delete key local
      else local
  | None => local
  end.

(** Modelled from the spec: the timer fires at [now]: all entries whose
    deadline is not after [now] are popped. *)
Fixpoint ttlTimerFired (now : Z) (local : gmap string Value)
    (q : list TtlEntry) : gmap string Value * list TtlEntry :=
  match q with
  | [] => (local, [])
  | e :: q' =>
      if deadline e <=? now
      then ttlTimerFired now
             (ttlFired local (entryKey e) (entryVersion e) (entryTtlVersion e))
             q'
      else (local, q)
  end.

(** What happens to a store: at the time [now] a key/value is merged, or the
    timer of the TTL queue fires. *)
Inductive StoreEvent :=
  | EvMerge (now : Z) (key : string) (inV : Value)
  | EvTimer (now : Z).

(** A value is taken into the merge when it passes the key filter and the
    TTL check and carries data. *)
Definition taken (key : string) (inV : Value) : bool :=
  keyMatches key inV && ttlValid inV && hasData inV.

(** A store with its TTL queue and, for every key, the tuples of the values
    that were taken into the merge for it since the key was last absent. *)
Record Tracked := mkTracked {
  store : gmap string Value;
  ttlQueue : list TtlEntry;
  merged : gmap string (list ValueContent);
}.

Definition mergedSince (st : Tracked) (key : string) : list ValueContent :=
  default [] (merged st !! key).

(** One event.  A value that is stored, or refreshes the TTL of the stored
    one, is enqueued with the deadline [now + ttl] unless its TTL is the
    sentinel infinity. *)
Definition trackedStep (st : Tracked) (ev : StoreEvent) : Tracked :=
  match ev with
  | EvMerge now key inV =>
      let r := mergeKeyValue (store st) key inV in
      let enqueued :=
        if ttl inV =? kTtlInfinity then ttlQueue st
        else ttlQueuePush
               (mkTtlEntry (now + ttl inV) key (version inV) (ttlVersion inV))
               (ttlQueue st) in
      mkTracked r.1
        (match r.2 with
         | ValueUpdated => enqueued
         | TtlUpdated => enqueued
         | NotMerged _ _ => ttlQueue st
         end)
        (if taken key inV
         then <[key := mergedSince st key ++ [contentOf inV]]> (merged st)
         else merged st)
  | EvTimer now =>
      let r := ttlTimerFired now (store st) (ttlQueue st) in
      mkTracked r.1 r.2
        (filter (fun kl : string * list ValueContent => is_Some (r.1 !! kl.1))
           (merged st))
  end.

Definition replay (events : list StoreEvent) : Tracked :=
  foldl trackedStep (mkTracked ∅ [] ∅) events.

End Merge.

End KvStore.




(** ** Route databases and their deltas (SpfSolver.cpp, RouteDb part) *)

Module RouteDb.

(** [thrift::PrefixEntry], reduced to the fields the solver reads. *)
Record PrefixEntry := mkPrefixEntry {
  pe_prefix : CIDRNetwork;
  pe_minNexthop : option Z;
  pe_drain_metric : Z;
}.

#[global] Instance PrefixEntry_eq_dec : EqDecision PrefixEntry.
Proof. solve_decision. Defined.

(** [RibUnicastEntry], with the fields [SpfSolver::addBestPaths] passes to
    its constructor. *)
Record RibUnicastEntry := mkRibUnicastEntry {
  prefix : CIDRNetwork;
  nexthops : gset NextHopThrift;
  bestPrefixEntry : PrefixEntry;
  bestArea : string;
  doNotInstall : bool;
  igpCost : Z;
  ucmpWeight : option Z;
  localPrefixConsidered : bool;
}.

#[global] Instance RibUnicastEntry_eq_dec : EqDecision RibUnicastEntry.
Proof. solve_decision. Defined.

(** [RibMplsEntry(label, nexthops)]. *)
Record RibMplsEntry := mkRibMplsEntry {
  label : Z;
  mpls_nexthops : gset NextHopThrift;
}.

#[global] Instance RibMplsEntry_eq_dec : EqDecision RibMplsEntry.
Proof. solve_decision. Defined.

(** The two route families (unicast keyed by prefix, MPLS keyed by label) are
    handled by the same four loops; they are written once, over the key type
    [K], the entry type [V] and the key an entry carries.  [!=] on entries is
    the value (in)equality of the entry type. *)
Section RouteFamily.
Context {K V : Type} `{Countable K} `{EqDecision V}.
Variable keyOf : V -> K.

(** Modelled from the spec: [DecisionRouteUpdate::addRouteToUpdate] and
    [addMplsRouteToUpdate] are defined in RouteUpdate.h, which is not among
    the sources.  The update set is a map (see the loop of
    [DecisionRouteDb::update], which iterates over its key/entry pairs), and
    an entry is filed under the key it carries. *)
Definition addRouteToUpdate (entry : V) (toUpdate : gmap K V) : gmap K V :=
  <[keyOf entry := entry]> toUpdate.

(** [for (auto& [prefix, entry] : newDb.unicastRoutes)]: the entries of the
    new database that are new or changed. *)
Definition routesToUpdateLoop (routes : gmap K V)
    (newEntries : list (K * V)) (delta : gmap K V) : gmap K V :=
  foldl (fun d (kv : K * V) =>
           match routes !! kv.1 with
           | None => addRouteToUpdate kv.2 d
           | Some cur =>
               if decide (cur = kv.2) then d else addRouteToUpdate kv.2 d
           end) delta newEntries.

(** [for (auto const& [prefix, _] : unicastRoutes)]: the keys of this
    database that the new one lacks. *)
Definition routesToDeleteLoop (newRoutes : gmap K V)
    (entries : list (K * V)) (toDelete : list K) : list K :=
  foldl (fun acc (kv : K * V) =>
           match newRoutes !! kv.1 with
           | None => acc ++ [kv.1]
           | Some _ => acc
           end) toDelete entries.

(** The two loops of [DecisionRouteDb::update] for one family: erase, then
    [insert_or_assign] under the entry's own key. *)
Definition eraseLoop (routes : gmap K V) (toDelete : list K) : gmap K V :=
  foldl (fun m k => delete k m) routes toDelete.

Definition assignLoop (routes : gmap K V) (toUpdate : list (K * V))
    : gmap K V :=
  foldl (fun m (kv : K * V) => <[keyOf kv.2 := kv.2]> m) routes toUpdate.

(** Representation invariant of a route map: an entry is stored under the
    key it carries ([addUnicastRoute], [addMplsRoute] and [update] keep
    it). *)
Definition keyedByOwnKey (routes : gmap K V) : Prop :=
  forall k e, routes !! k = Some e -> keyOf e = k.
End RouteFamily.

Record DecisionRouteDb := mkDecisionRouteDb {
  unicastRoutes : gmap CIDRNetwork RibUnicastEntry;
  mplsRoutes : gmap Z RibMplsEntry;
}.

Record DecisionRouteUpdate := mkDecisionRouteUpdate {
  unicastRoutesToUpdate : gmap CIDRNetwork RibUnicastEntry;
  unicastRoutesToDelete : list CIDRNetwork;
  mplsRoutesToUpdate : gmap Z RibMplsEntry;
  mplsRoutesToDelete : list Z;
}.

(** [DecisionRouteDb::calculateUpdate]. *)
Definition calculateUpdate (self newDb : DecisionRouteDb)
    : DecisionRouteUpdate :=
  {| unicastRoutesToUpdate :=
       routesToUpdateLoop prefix (unicastRoutes self)
         (map_to_list (unicastRoutes newDb)) ∅;
     unicastRoutesToDelete :=
       routesToDeleteLoop (unicastRoutes newDb)
         (map_to_list (unicastRoutes self)) [];
     mplsRoutesToUpdate :=
       routesToUpdateLoop label (mplsRoutes self)
         (map_to_list (mplsRoutes newDb)) ∅;
     mplsRoutesToDelete :=
       routesToDeleteLoop (mplsRoutes newDb)
         (map_to_list (mplsRoutes self)) [] |}.

(** [DecisionRouteDb::update]. *)
Definition update (self : DecisionRouteDb) (upd : DecisionRouteUpdate)
    : DecisionRouteDb :=
  {| unicastRoutes :=
       assignLoop prefix
         (eraseLoop (unicastRoutes self) (unicastRoutesToDelete upd))
         (map_to_list (unicastRoutesToUpdate upd));
     mplsRoutes :=
       assignLoop label
         (eraseLoop (mplsRoutes self) (mplsRoutesToDelete upd))
         (map_to_list (mplsRoutesToUpdate upd)) |}.

(** [DecisionRouteDb::addUnicastRoute] and [addMplsRoute], as [buildRouteDb]
    uses them: the entry is filed under its own prefix or label. *)
Definition addUnicastRoute (e : RibUnicastEntry) (db : DecisionRouteDb)
    : DecisionRouteDb :=
  {| unicastRoutes := <[prefix e := e]> (unicastRoutes db);
     mplsRoutes := mplsRoutes db |}.

Definition addMplsRoute (e : RibMplsEntry) (db : DecisionRouteDb)
    : DecisionRouteDb :=
  {| unicastRoutes := unicastRoutes db;
     mplsRoutes := <[label e := e]> (mplsRoutes db) |}.

(** A database whose every entry sits under its own prefix / label. *)
Definition wellKeyed (db : DecisionRouteDb) : Prop :=
  keyedByOwnKey prefix (unicastRoutes db) /\
  keyedByOwnKey label (mplsRoutes db).

End RouteDb.

(** ** Machine integers *)

(** Conversions between the integer types the sources mix. *)
Definition to_uint64 (z : Z) : Z := z mod 2 ^ 64.

Definition to_int32 (z : Z) : Z := (z + 2 ^ 31) mod 2 ^ 32 - 2 ^ 31.

Definition INT32_MAX : Z := 2 ^ 31 - 1.

(** A loop with early exit on failure: [foldlM f b l] threads the state
    through [f] and stops with [None] at the first failure. *)
Fixpoint foldlM {A B : Type} (f : B -> A -> option B) (b : B) (l : list A)
    : option B :=
  match l with
  | [] => Some b
  | x :: l' =>
      match f b x with
      | Some b' => foldlM f b' l'
      | None => None
      end
  end.

(** ** LinkState (LinkState.cpp) *)

Module LinkState.

(** Modelled from the spec: [LinkStateMetric] is declared in LinkState.h,
    which is not among the sources; it is an unsigned 64-bit integer, and
    sums of metrics wrap around. *)
Definition metricAdd (a b : Z) : Z := to_uint64 (a + b).

(** [HoldableValue<T>]: the fields, and [value()]. *)
Record HoldableValue (T : Type) := mkHoldableValue {
  val_ : T;
  heldVal_ : option T;
  holdTtl_ : Z;
}.
Arguments mkHoldableValue {T} _ _ _.
Arguments val_ {T} _.
Arguments heldVal_ {T} _.
Arguments holdTtl_ {T} _.

Definition value {T : Type} (hv : HoldableValue T) : T :=
  match heldVal_ hv with
  | Some held => held
  | None => val_ hv
  end.

(** [class Link]: the members its constructors initialise. *)
Record Link := mkLink {
  area_ : string;
  n1_ : string;
  n2_ : string;
  if1_ : string;
  if2_ : string;
  metric1_ : Z;
  metric2_ : Z;
  overload1_ : bool;
  overload2_ : bool;
  adjLabel1_ : Z;
  adjLabel2_ : Z;
  nhV41_ : string;
  nhV42_ : string;
  nhV61_ : string;
  nhV62_ : string;
  weight1_ : Z;
  weight2_ : Z;
  holdUpTtl_ : Z;
}.

(** [operator<] on [std::pair<std::string, std::string>]. *)
Definition pairLtb (a b : string * string) : bool :=
  match String.compare a.1 b.1 with
  | Lt => true
  | Gt => false
  | Eq => String.ltb a.2 b.2
  end.

(** [orderedNames_]: [std::minmax] of the two (node, interface) ends. *)
Definition orderedNames (l : Link)
    : (string * string) * (string * string) :=
  let a := (n1_ l, if1_ l) in
  let b := (n2_ l, if2_ l) in
  if pairLtb b a then (b, a) else (a, b).

(** [Link::operator==]: the hash is a function of [orderedNames_], so two
    links are equal exactly when their ordered names are. *)
Definition linkEqb (a b : Link) : bool :=
  bool_decide (orderedNames a = orderedNames b).

Definition firstNodeName (l : Link) : string := (orderedNames l).1.1.

Definition secondNodeName (l : Link) : string := (orderedNames l).2.1.

(** The accessors that throw [std::invalid_argument] for a node that is not
    an end of the link. *)
Definition fromNode {T : Type} (l : Link) (nodeName : string) (v1 v2 : T)
    : option T :=
  if bool_decide (n1_ l = nodeName) then Some v1
  else if bool_decide (n2_ l = nodeName) then Some v2
  else None.

Definition getOtherNodeName (l : Link) (nodeName : string) : option string :=
  fromNode l nodeName (n2_ l) (n1_ l).

Definition getIfaceFromNode (l : Link) (nodeName : string) : option string :=
  fromNode l nodeName (if1_ l) (if2_ l).

Definition getMetricFromNode (l : Link) (nodeName : string) : option Z :=
  fromNode l nodeName (metric1_ l) (metric2_ l).

Definition getAdjLabelFromNode (l : Link) (nodeName : string) : option Z :=
  fromNode l nodeName (adjLabel1_ l) (adjLabel2_ l).

Definition getWeightFromNode (l : Link) (nodeName : string) : option Z :=
  fromNode l nodeName (weight1_ l) (weight2_ l).

Definition getNhV4FromNode (l : Link) (nodeName : string) : option string :=
  fromNode l nodeName (nhV41_ l) (nhV42_ l).

Definition getNhV6FromNode (l : Link) (nodeName : string) : option string :=
  fromNode l nodeName (nhV61_ l) (nhV62_ l).

(** [Link::isUp]. *)
Definition isUp (l : Link) : bool :=
  bool_decide (0 = holdUpTtl_ l) && negb (overload1_ l) && negb (overload2_ l).

(** [LinkState::LinkSet]: an unordered set of links under [Link::operator==];
    the list is the iteration sequence. *)
Abbreviation LinkSet := (list Link).

Definition linkSetCount (s : LinkSet) (l : Link) : bool :=
  existsb (linkEqb l) s.

(** [LinkSet::insert]: the set afterwards, and whether the link was new. *)
Definition linkSetInsert (s : LinkSet) (l : Link) : LinkSet * bool :=
  if linkSetCount s l then (s, false) else (s ++ [l], true).

(** [LinkState::Path]. *)
Abbreviation Path := (list Link).

(** Modelled from the spec: [LinkState::PathLink] and
    [LinkState::NodeSpfResult] are declared in LinkState.h, which is not among
    the sources.  A node's result is its metric, the links of its shortest
    paths with the node before it on each, and its next hops; [reset] starts
    over with a strictly better metric. *)
Record PathLink := mkPathLink {
  link : Link;
  prevNode : string;
}.

Record NodeSpfResult := mkNodeSpfResult {
  metric : Z;
  pathLinks : list PathLink;
  nextHops : gset string;
}.

Definition resetResult (newMetric : Z) : NodeSpfResult :=
  mkNodeSpfResult newMetric [] ∅.

Definition addPath (l : Link) (prev : string) (r : NodeSpfResult)
    : NodeSpfResult :=
  mkNodeSpfResult (metric r) (pathLinks r ++ [mkPathLink l prev]) (nextHops r).

Definition addNextHops (toInsert : gset string) (r : NodeSpfResult)
    : NodeSpfResult :=
  mkNodeSpfResult (metric r) (pathLinks r) (nextHops r ∪ toInsert).

Definition addNextHop (toInsert : string) (r : NodeSpfResult)
    : NodeSpfResult :=
  mkNodeSpfResult (metric r) (pathLinks r) (nextHops r ∪ {[toInsert]}).

Abbreviation SpfResult := (gmap string NodeSpfResult).

(** Modelled from the spec: [DijkstraQ<T>] is declared in LinkState.h, which
    is not among the sources.  It is a min-priority queue of named nodes:
    [insertNode] adds a node with a metric, [get] finds a queued node by name,
    [extractMin] removes a node of least metric (the least name among equals).
    A queued node is shared with the caller, who updates its result in place;
    [setResult] is that update. *)
Abbreviation DijkstraQ R := (list (string * R)).

Section DijkstraQ.
Context {R : Type}.
Variable metricOf : R -> Z.

Definition qInsertNode (nodeName : string) (r : R) (q : DijkstraQ R)
    : DijkstraQ R :=
  q ++ [(nodeName, r)].

Definition qGet (nodeName : string) (q : DijkstraQ R) : option R :=
  snd <$> List.find (fun n => bool_decide (n.1 = nodeName)) q.

Definition qSetResult (nodeName : string) (r : R) (q : DijkstraQ R)
    : DijkstraQ R :=
  map (fun n => if bool_decide (n.1 = nodeName) then (n.1, r) else n) q.

(** [a] is extracted before [b]. *)
Definition qBefore (a b : string * R) : bool :=
  if bool_decide (metricOf a.2 = metricOf b.2)
  then negb (String.ltb b.1 a.1)
  else metricOf a.2 <? metricOf b.2.

Fixpoint qMin (best : string * R) (q : DijkstraQ R) : string * R :=
  match q with
  | [] => best
  | n :: q' => if qBefore best n then qMin best q' else qMin n q'
  end.

Definition qExtractMin (q : DijkstraQ R) : option ((string * R) * DijkstraQ R) :=
  match q with
  | [] => None
  | n :: q' =>
      let m := qMin n q' in
      Some (m, List.filter (fun x => negb (bool_decide (x.1 = m.1))) q)
  end.
End DijkstraQ.

(** [thrift::Adjacency] and [thrift::AdjacencyDatabase], with the fields the
    specification lists. *)
Record Adjacency := mkAdjacency {
  otherNodeName : string;
  ifName : string;
  otherIfName : string;
  adj_metric : Z;
  adj_isOverloaded : bool;
  adjLabel : Z;
  nextHopV4 : string;
  nextHopV6 : string;
  adj_weight : Z;
}.

Record AdjacencyDatabase := mkAdjacencyDatabase {
  thisNodeName : string;
  adjacencies : list Adjacency;
  isOverloaded : bool;
  nodeLabel : Z;
  nodeMetricIncrementVal : Z;
}.

(** [class LinkState]: the members the modelled functions read.  The memo
    tables [spfResults_] and [kthPathResults_] hold results of [runSpf] and
    [getKthPaths] for the current topology and are cleared when it changes, so
    [getSpfResult] and the memoised [getKthPaths] are modelled by the
    computation they cache. *)
Record t := mkLinkState {
  ls_area : string;
  linkMap_ : gmap string LinkSet;
  allLinks_ : LinkSet;
  nodeOverloads_ : gmap string (HoldableValue bool);
  nodeMetricIncrementVals_ : gmap string Z;
  adjacencyDatabases_ : gmap string AdjacencyDatabase;
}.

Definition empty (area : string) : t :=
  mkLinkState area ∅ [] ∅ ∅ ∅.

(** [LinkState::linksFromNode]. *)
Definition linksFromNode (ls : t) (nodeName : string) : LinkSet :=
  match linkMap_ ls !! nodeName with
  | Some links => links
  | None => []
  end.

(** [LinkState::isNodeOverloaded]. *)
Definition isNodeOverloaded (ls : t) (nodeName : string) : bool :=
  match nodeOverloads_ ls !! nodeName with
  | Some hv => value hv
  | None => false
  end.

(** [HoldableValue<bool>::isChangeBringingUp], [hasHold] and [updateValue]:
    the new value, and whether the change is visible at once. *)
Definition isChangeBringingUp (hv : HoldableValue bool) (val : bool) : bool :=
  val_ hv && negb val.

Definition hasHold {T : Type} (hv : HoldableValue T) : bool :=
  bool_decide (is_Some (heldVal_ hv)).

Definition updateValue (hv : HoldableValue bool) (val : bool)
    (holdUpTtl holdDownTtl : Z) : HoldableValue bool * bool :=
  if bool_decide (val = val_ hv) then (hv, false)
  else
    let hv1 :=
      if hasHold hv then mkHoldableValue val None 0
      else
        let ttl := if isChangeBringingUp hv val then holdUpTtl
                   else holdDownTtl in
        mkHoldableValue val
          (if bool_decide (0 = ttl) then None else Some (val_ hv)) ttl in
    (hv1, negb (hasHold hv1)).

(** [LinkState::updateNodeOverloaded]. *)
Definition updateNodeOverloaded (nodeName : string) (isOverloaded : bool)
    (holdUpTtl holdDownTtl : Z) (ls : t) : t * bool :=
  match nodeOverloads_ ls !! nodeName with
  | Some hv =>
      let '(hv', changed) := updateValue hv isOverloaded holdUpTtl holdDownTtl in
      (mkLinkState (ls_area ls) (linkMap_ ls) (allLinks_ ls)
         (<[nodeName := hv']> (nodeOverloads_ ls))
         (nodeMetricIncrementVals_ ls) (adjacencyDatabases_ ls), changed)
  | None =>
      (mkLinkState (ls_area ls) (linkMap_ ls) (allLinks_ ls)
         (<[nodeName := mkHoldableValue isOverloaded None 0]>
            (nodeOverloads_ ls))
         (nodeMetricIncrementVals_ ls) (adjacencyDatabases_ ls), false)
  end.

(** [LinkState::getNodeMetricIncrement] (returns [std::uint64_t]). *)
Definition getNodeMetricIncrement (ls : t) (nodeName : string) : Z :=
  match nodeMetricIncrementVals_ ls !! nodeName with
  | Some v => v
  | None => 0
  end.

(** [LinkState::addLink]; each [CHECK] fails when the link is already in the
    set. *)
Definition addLink (l : Link) (ls : t) : option t :=
  let ins (m : gmap string LinkSet) (n : string) : option (gmap string LinkSet) :=
    let '(s, fresh) := linkSetInsert (default [] (m !! n)) l in
    if fresh then Some (<[n := s]> m) else None in
  m1 ← ins (linkMap_ ls) (firstNodeName l);
  m2 ← ins m1 (secondNodeName l);
  let '(all, fresh) := linkSetInsert (allLinks_ ls) l in
  if fresh
  then Some (mkLinkState (ls_area ls) m2 all (nodeOverloads_ ls)
               (nodeMetricIncrementVals_ ls) (adjacencyDatabases_ ls))
  else None.

(** *** SPF *)

Section Spf.
Variable ls : t.
Variable thisNodeName : string.
Variable useLinkMetric : bool.
Variable linksToIgnore : LinkSet.

(** The body of [for (const auto& link : linksFromNode(recordedNodeName))]:
    the relaxation of one link out of the node just recorded. *)
Definition relaxLink (result : SpfResult) (recordedNodeName : string)
    (recordedNodeMetric : Z) (recordedNodeNextHops : gset string)
    (q : DijkstraQ NodeSpfResult) (l : Link)
    : option (DijkstraQ NodeSpfResult) :=
  otherName ← getOtherNodeName l recordedNodeName;
  if negb (isUp l) || bool_decide (is_Some (result !! otherName))
     || linkSetCount linksToIgnore l
  then Some q
  else
    m ← (if useLinkMetric then getMetricFromNode l recordedNodeName
         else Some 1);
    let q1 :=
      match qGet otherName q with
      | Some _ => q
      | None =>
          qInsertNode otherName
            (resetResult (metricAdd recordedNodeMetric m)) q
      end in
    otherNode ← qGet otherName q1;
    if metricAdd recordedNodeMetric m <=? metric otherNode
    then
      let r1 :=
        if metricAdd recordedNodeMetric m <? metric otherNode
        then resetResult (metricAdd recordedNodeMetric m)
        else otherNode in
      let r2 := addPath l recordedNodeName r1 in
      let r3 := addNextHops recordedNodeNextHops r2 in
      let r4 :=
        if bool_decide (nextHops r3 = ∅) then addNextHop otherName r3
        else r3 in
      Some (qSetResult otherName r4 q1)
    else Some q1.

(** [while (auto node = q.extractMin())], with an iteration budget. *)
Fixpoint spfLoop (fuel : nat) (q : DijkstraQ NodeSpfResult)
    (result : SpfResult) : option SpfResult :=
  match fuel with
  | O => None
  | S fuel' =>
      match qExtractMin metric q with
      | None => Some result
      | Some ((nodeName, nodeResult), q') =>
          match result !! nodeName with
          | Some _ => None
          | None =>
              let result' := <[nodeName := nodeResult]> result in
              if isNodeOverloaded ls nodeName
                 && negb (bool_decide (nodeName = thisNodeName))
              then spfLoop fuel' q' result'
              else
                q'' ← foldlM
                        (relaxLink result' nodeName (metric nodeResult)
                           (nextHops nodeResult))
                        q' (linksFromNode ls nodeName);
                spfLoop fuel' q'' result'
          end
      end
  end.
End Spf.

(** The cost SPF charges for a link taken from a node: the link's metric in
    that direction, or 1 when counting hops. *)
Definition linkCost (useLinkMetric : bool) (l : Link) (fromNodeName : string)
    : option Z :=
  if useLinkMetric then getMetricFromNode l fromNodeName else Some 1.

(** What SPF guarantees of a path link recorded for a node of metric [m],
    given the nodes recorded so far: the node before is the source or not
    overloaded, it is recorded, and [m] is its metric plus the cost of the
    link; the link is up, not ignored, and a link of the node before. *)
Record goodPathLink (ls : t) (thisNodeName : string) (useLinkMetric : bool)
    (linksToIgnore : LinkSet) (result : SpfResult) (m : Z) (p : PathLink)
    : Prop := mkGoodPathLink {
  gp_transit :
    isNodeOverloaded ls (prevNode p) = false \/ prevNode p = thisNodeName;
  gp_metric :
    exists rp c,
      result !! prevNode p = Some rp /\
      linkCost useLinkMetric (link p) (prevNode p) = Some c /\
      m = metricAdd (metric rp) c;
  gp_notIgnored : linkSetCount linksToIgnore (link p) = false;
  gp_up : isUp (link p) = true;
  gp_ofPrev : link p ∈ linksFromNode ls (prevNode p);
}.

Definition goodNode (ls : t) (thisNodeName : string) (useLinkMetric : bool)
    (linksToIgnore : LinkSet) (result : SpfResult) (r : NodeSpfResult)
    : Prop :=
  forall p, p ∈ pathLinks r ->
    goodPathLink ls thisNodeName useLinkMetric linksToIgnore result
      (metric r) p.

(** [onRecordedPath R D n]: node [n] lies before [D] on a chain of recorded
    path links, so a recorded shortest path to [D] passes through [n] (or
    starts there). *)
Inductive onRecordedPath (R : SpfResult) : string -> string -> Prop :=
  | orp_prev D r p :
      R !! D = Some r -> p ∈ pathLinks r ->
      onRecordedPath R D (prevNode p)
  | orp_step D r p n :
      R !! D = Some r -> p ∈ pathLinks r ->
      onRecordedPath R (prevNode p) n ->
      onRecordedPath R D n.

(** [pathChain ulm R src D m]: a chain of recorded path links leads from
    [src] to [D], and [m] is the sum, in metric arithmetic, of the costs of
    its links. *)
Inductive pathChain (useLinkMetric : bool) (R : SpfResult) (src : string)
    : string -> Z -> Prop :=
  | chain_nil : pathChain useLinkMetric R src src 0
  | chain_cons D r p m c :
      R !! D = Some r -> p ∈ pathLinks r ->
      pathChain useLinkMetric R src (prevNode p) m ->
      linkCost useLinkMetric (link p) (prevNode p) = Some c ->
      pathChain useLinkMetric R src D (metricAdd m c).

(** Representation invariant of the link map, which [addLink] keeps: a link
    filed under a node has that node as one of its ends. *)
Definition wfLinkMap (ls : t) : Prop :=
  forall n links l,
    linkMap_ ls !! n = Some links -> l ∈ links ->
    is_Some (getOtherNodeName l n).

(** The far ends of all links of the link map: the nodes SPF can reach. *)
Definition linkEnds (ls : t) : list string :=
  flat_map (fun kv : string * LinkSet =>
              omap (fun l => getOtherNodeName l kv.1) kv.2)
    (map_to_list (linkMap_ ls)).

(** Every iteration of the SPF loop records a node that was not recorded
    before, and a recorded node is the source or the far end of a link. *)
Definition spfFuel (ls : t) : nat := S (S (length (linkEnds ls))).

(** The nodes SPF can record. *)
Definition reachableNodes (ls : t) (thisNodeName : string) : gset string :=
  {[thisNodeName]} ∪ list_to_set (linkEnds ls).

(** The queue and the recorded nodes during the loop: the queued names are
    distinct and not recorded, and all names are nodes SPF can record. *)
Record spfLoopState (ls : t) (thisNodeName : string)
    (q : DijkstraQ NodeSpfResult) (result : SpfResult) : Prop :=
  mkSpfState {
  ss_nodup : NoDup q.*1;
  ss_fresh : forall n, n ∈ q.*1 -> result !! n = None;
  ss_queued : forall n, n ∈ q.*1 -> n ∈ reachableNodes ls thisNodeName;
  ss_recorded : dom result ⊆ reachableNodes ls thisNodeName;
}.

(** [LinkState::runSpf]. *)
Definition runSpf (ls : t) (thisNodeName : string) (useLinkMetric : bool)
    (linksToIgnore : LinkSet) : option SpfResult :=
  spfLoop ls thisNodeName useLinkMetric linksToIgnore (spfFuel ls)
    (qInsertNode thisNodeName (resetResult 0) []) ∅.

(** [LinkState::getSpfResult]. *)
Definition getSpfResult (ls : t) (thisNodeName : string)
    (useLinkMetric : bool) : option SpfResult :=
  runSpf ls thisNodeName useLinkMetric [].

(** *** Path tracing and k-th shortest paths *)

(** [LinkState::traceOnePath].  The outcome is [None] when [result.at(dest)]
    throws (or the budget is exhausted), and otherwise the optional path
    together with the set of visited links, which the caller passes by
    reference. *)
Fixpoint traceOnePath (fuel : nat) (src dest : string) (result : SpfResult)
    (linksToIgnore : LinkSet) : option (option Path * LinkSet) :=
  match fuel with
  | O => None
  | S fuel' =>
      if bool_decide (src = dest) then Some (Some [], linksToIgnore)
      else
        nodeResult ← result !! dest;
        (fix tryPathLinks (pls : list PathLink) (visited : LinkSet)
             : option (option Path * LinkSet) :=
           match pls with
           | [] => Some (None, visited)
           | pl :: pls' =>
               let '(visited1, fresh) := linkSetInsert visited (link pl) in
               if fresh then
                 match traceOnePath fuel' src (prevNode pl) result visited1 with
                 | None => None
                 | Some (Some path, visited2) =>
                     Some (Some (path ++ [link pl]), visited2)
                 | Some (None, visited2) => tryPathLinks pls' visited2
                 end
               else tryPathLinks pls' visited1
           end) (pathLinks nodeResult) linksToIgnore
  end.

(** The number of path links of an SPF result: every recursive call of
    [traceOnePath] and every round of the tracing loop marks a link that was
    not marked before. *)
Definition traceFuel (result : SpfResult) : nat :=
  S (length (flat_map (fun kv : string * NodeSpfResult => pathLinks kv.2)
               (map_to_list result))).

(** The tracing loop of [getKthPaths]: paths are traced and collected until
    [traceOnePath] returns no path or an empty one. *)
Fixpoint tracePaths (fuel : nat) (src dest : string) (res : SpfResult)
    (visitedLinks : LinkSet) (paths : list Path) : option (list Path) :=
  match fuel with
  | O => None
  | S fuel' =>
      match traceOnePath (traceFuel res) src dest res visitedLinks with
      | None => None
      | Some (None, _) => Some paths
      | Some (Some [], _) => Some paths
      | Some (Some path, visitedLinks') =>
          tracePaths fuel' src dest res visitedLinks' (paths ++ [path])
      end
  end.

(** The links of a list of paths, inserted into a link set. *)
Definition insertPathLinks (acc : LinkSet) (paths : list Path) : LinkSet :=
  foldl (fun acc path => foldl (fun acc l => (linkSetInsert acc l).1) acc path)
    acc paths.

(** [LinkState::getKthPaths]; the recursion on lower orders is bounded by
    [fuel], and [None] also stands for the failed [CHECK_GE(k, 1)].  The
    memo table [kthPathResults_] holds the values computed here, so a
    cached answer is the recomputed one. *)
Fixpoint getKthPathsRec (fuel : nat) (ls : t) (src dest : string) (k : nat)
    : option (list Path) :=
  match fuel with
  | O => None
  | S fuel' =>
      if (k <? 1)%nat then None
      else
        linksToIgnore ←
          foldlM (fun acc i =>
                    paths ← getKthPathsRec fuel' ls src dest i;
                    Some (insertPathLinks acc paths))
            [] (seq 1 (k - 1));
        res ← (match linksToIgnore with
               | [] => getSpfResult ls src true
               | _ => runSpf ls src true linksToIgnore
               end);
        if bool_decide (is_Some (res !! dest))
        then tracePaths (traceFuel res) src dest res [] []
        else Some []
  end.

Definition getKthPaths (ls : t) (src dest : string) (k : nat)
    : option (list Path) :=
  getKthPathsRec (S k) ls src dest k.

(** A link of a traced path is the link of a recorded path link. *)
Definition recordedLink (result : SpfResult) (l : Link) : Prop :=
  exists n r p, result !! n = Some r /\ p ∈ pathLinks r /\ link p = l.

(** *** UCMP weight resolution *)

(** [thrift::PrefixForwardingAlgorithm]. *)
Inductive PrefixForwardingAlgorithm :=
  | SP_ECMP
  | KSP2_ED_ECMP
  | SP_UCMP_ADJ_WEIGHT_PROPAGATION
  | SP_UCMP_PREFIX_WEIGHT_PROPAGATION.

(** Modelled from the spec: [LinkState::NodeUcmpResult], its [NextHopLink]
    and [DijkstraQUcmpNode] are declared in LinkState.h, which is not among
    the sources.  A node's UCMP result is the weight it advertises (unset
    until resolved) and, per local interface, the next-hop link with the
    weight resolved for it; normalisation divides the next-hop weights by
    their greatest common divisor. *)
Record NextHopLink := mkNextHopLink {
  nhl_link : Link;
  nhl_nextHopNode : string;
  nhl_weight : Z;
}.

Record NodeUcmpResult := mkNodeUcmpResult {
  ucmp_weight : option Z;
  nextHopLinks : gmap string NextHopLink;
}.

Record DijkstraQUcmpNode := mkDijkstraQUcmpNode {
  ucmp_metric : Z;
  ucmp_result : NodeUcmpResult;
}.

Abbreviation UcmpResult := (gmap string NodeUcmpResult).

Definition setWeight (w : Z) (r : NodeUcmpResult) : NodeUcmpResult :=
  mkNodeUcmpResult (Some w) (nextHopLinks r).

Definition addNextHopLink (iface : string) (l : Link) (nextHopNode : string)
    (w : Z) (r : NodeUcmpResult) : NodeUcmpResult :=
  mkNodeUcmpResult (ucmp_weight r)
    (match nextHopLinks r !! iface with
     | Some _ => nextHopLinks r
     | None => <[iface := mkNextHopLink l nextHopNode w]> (nextHopLinks r)
     end).

Definition normalizeNextHopWeights (r : NodeUcmpResult) : NodeUcmpResult :=
  let g := map_fold (fun _ nh acc => Z.gcd acc (nhl_weight nh)) 0
             (nextHopLinks r) in
  if bool_decide (g = 0) then r
  else mkNodeUcmpResult (ucmp_weight r)
         ((fun nh => mkNextHopLink (nhl_link nh) (nhl_nextHopNode nh)
                       (nhl_weight nh / g)) <$> nextHopLinks r).

Section Ucmp.
Variable spfGraph : SpfResult.
Variable algo : PrefixForwardingAlgorithm.
Variable useLinkMetric : bool.

(** The first loop of [resolveUcmpWeights], over the leaves in iteration
    order: it queues the leaves that are in the SPF graph and compares their
    metrics.  The state is the queue and [std::optional<int32_t> spfMetric];
    [None] is the early [return ucmpResult] on a metric mismatch. *)
Definition ucmpQueueLeaf
    (st : DijkstraQ DijkstraQUcmpNode * option Z)
    (leaf : string * Z)
    : option (DijkstraQ DijkstraQUcmpNode * option Z) :=
  let '(q, spfMetric) := st in
  match spfGraph !! leaf.1 with
  | None => Some (q, spfMetric)
  | Some dstNode =>
      let dstMetric := metric dstNode in
      let queued :=
        qInsertNode leaf.1
          (mkDijkstraQUcmpNode 0 (mkNodeUcmpResult (Some leaf.2) ∅)) q in
      match spfMetric with
      | None => Some (queued, Some (to_int32 dstMetric))
      | Some m =>
          if bool_decide (to_uint64 m = dstMetric)
          then Some (queued, spfMetric)
          else None
      end
  end.

(** The advertised weight of a node that is not a leaf. *)
Definition advertisedWeight (nodeName : string) (r : NodeUcmpResult)
    : option Z :=
  foldlM (fun acc (kv : string * NextHopLink) =>
            match algo with
            | SP_UCMP_ADJ_WEIGHT_PROPAGATION =>
                w ← getWeightFromNode (nhl_link kv.2) nodeName;
                Some (acc + w)
            | SP_UCMP_PREFIX_WEIGHT_PROPAGATION =>
                Some (acc + nhl_weight kv.2)
            | _ => None
            end) 0 (map_to_list (nextHopLinks r)).

(** The upstream step for one path link of the current node. *)
Definition ucmpUpstream (currName : string) (currMetric currWeight : Z)
    (q : DijkstraQ DijkstraQUcmpNode) (pl : PathLink)
    : option (DijkstraQ DijkstraQUcmpNode) :=
  linkMetric ← (if useLinkMetric
                then getMetricFromNode (link pl) (prevNode pl)
                else Some 1);
  let q1 :=
    match qGet (prevNode pl) q with
    | Some _ => q
    | None =>
        qInsertNode (prevNode pl)
          (mkDijkstraQUcmpNode (metricAdd currMetric linkMetric)
             (mkNodeUcmpResult None ∅)) q
    end in
  prev ← qGet (prevNode pl) q1;
  iface ← getIfaceFromNode (link pl) (prevNode pl);
  Some (qSetResult (prevNode pl)
          (mkDijkstraQUcmpNode (ucmp_metric prev)
             (addNextHopLink iface (link pl) currName currWeight
                (ucmp_result prev))) q1).

(** The walk from the leaves toward the root, with an iteration budget. *)
Fixpoint ucmpLoop (fuel : nat) (q : DijkstraQ DijkstraQUcmpNode)
    (ucmpResult : UcmpResult) : option UcmpResult :=
  match fuel with
  | O => None
  | S fuel' =>
      match qExtractMin ucmp_metric q with
      | None => Some ucmpResult
      | Some ((currName, currNode), q') =>
          r1 ← (match ucmp_weight (ucmp_result currNode) with
                | Some _ => Some (ucmp_result currNode)
                | None =>
                    w ← advertisedWeight currName (ucmp_result currNode);
                    Some (setWeight w (ucmp_result currNode))
                end);
          currWeight ← ucmp_weight r1;
          spfNode ← spfGraph !! currName;
          q'' ← foldlM (ucmpUpstream currName (ucmp_metric currNode) currWeight)
                  q' (pathLinks spfNode);
          ucmpLoop fuel' q''
            (match ucmpResult !! currName with
             | Some _ => ucmpResult
             | None => <[currName := normalizeNextHopWeights r1]> ucmpResult
             end)
      end
  end.

(** [LinkState::resolveUcmpWeights], for the two UCMP algorithms the leading
    [CHECK] admits.  [leafNodeToWeights] is the sequence in which the loop
    visits the leaves; [fuel] bounds the walk. *)
Definition resolveUcmpWeights (fuel : nat)
    (leafNodeToWeights : list (string * Z)) : option UcmpResult :=
  match algo with
  | SP_UCMP_ADJ_WEIGHT_PROPAGATION | SP_UCMP_PREFIX_WEIGHT_PROPAGATION =>
      match foldlM ucmpQueueLeaf ([], None) leafNodeToWeights with
      | None => Some ∅
      | Some (q, _) => ucmpLoop fuel q ∅
      end
  | _ => None
  end.
End Ucmp.

End LinkState.

(** ** SpfSolver (SpfSolver.cpp) *)

Module SpfSolver.
Import LinkState RouteDb.

(** [NodeAndArea] and [PrefixEntries]. *)
Abbreviation NodeAndArea := (string * string)%type.

(** The members of [class SpfSolver] set by its constructor. *)
Record t := mkSpfSolver {
  myNodeName_ : string;
  enableV4_ : bool;
  enableNodeSegmentLabel_ : bool;
  enableAdjacencyLabels_ : bool;
  enableBestRouteSelection_ : bool;
  v4OverV6Nexthop_ : bool;
}.

(** *** Drain filters *)

Section Drain.
Variable areaLinkStates : gmap string LinkState.t.

(** [int softDrainValue = areaLinkStates.at(area).getNodeMetricIncrement(node)]:
    the unsigned 64-bit value narrowed to [int]. *)
Definition softDrainValue (ls : LinkState.t) (node : string) : Z :=
  to_int32 (getNodeMetricIncrement ls node).

(** The loop of [filterHardDrainedNodes] over the copy [filtered]: an
    overloaded node's entry is erased. *)
Definition hardDrainStep (filtered : gmap NodeAndArea PrefixEntry)
    (kv : NodeAndArea * PrefixEntry) : option (gmap NodeAndArea PrefixEntry) :=
  ls ← areaLinkStates !! kv.1.2;
  if isNodeOverloaded ls kv.1.1
  then Some (delete kv.1 filtered)
  else Some filtered.

(** [SpfSolver::filterHardDrainedNodes]. *)
Definition filterHardDrainedNodes (prefixes : gmap NodeAndArea PrefixEntry)
    : option (gmap NodeAndArea PrefixEntry) :=
  filtered ← foldlM hardDrainStep prefixes (map_to_list prefixes);
  Some (if bool_decide (filtered = ∅) then prefixes else filtered).

(** The loop of [filterSoftDrainedNodes]; the state is [minVal] and
    [filteredEntries]. *)
Definition softDrainStep (st : Z * gmap NodeAndArea PrefixEntry)
    (kv : NodeAndArea * PrefixEntry)
    : option (Z * gmap NodeAndArea PrefixEntry) :=
  ls ← areaLinkStates !! kv.1.2;
  let v := softDrainValue ls kv.1.1 in
  let st1 := if v <? st.1 then (v, ∅) else st in
  Some (if bool_decide (v = st1.1)
        then (st1.1,
              match st1.2 !! kv.1 with
              | Some _ => st1.2
              | None => <[kv.1 := kv.2]> st1.2
              end)
        else st1).

(** [SpfSolver::filterSoftDrainedNodes]. *)
Definition filterSoftDrainedNodes (prefixes : gmap NodeAndArea PrefixEntry)
    : option (gmap NodeAndArea PrefixEntry) :=
  snd <$> foldlM softDrainStep (INT32_MAX, ∅) (map_to_list prefixes).

(** [SpfSolver::filterDrainedNodes]. *)
Definition filterDrainedNodes (prefixes : gmap NodeAndArea PrefixEntry)
    : option (gmap NodeAndArea PrefixEntry) :=
  hardDrainFiltered ← filterHardDrainedNodes prefixes;
  filterSoftDrainedNodes hardDrainFiltered.

(** [SpfSolver::isNodeDrained]. *)
Definition isNodeDrained (nodeArea : NodeAndArea) : option bool :=
  ls ← areaLinkStates !! nodeArea.2;
  Some (isNodeOverloaded ls nodeArea.1
        || negb (bool_decide (getNodeMetricIncrement ls nodeArea.1 = 0))).
End Drain.

(** The statement of the drain filter, in the words of the specification.
    [overloadedAt] and [softDrainAt] read a candidate's hard-drain flag and
    soft-drain value in its area. *)
Definition overloadedAt (areaLinkStates : gmap string LinkState.t)
    (na : NodeAndArea) : bool :=
  match areaLinkStates !! na.2 with
  | Some ls => isNodeOverloaded ls na.1
  | None => false
  end.

Definition softDrainAt (areaLinkStates : gmap string LinkState.t)
    (na : NodeAndArea) : Z :=
  match areaLinkStates !! na.2 with
  | Some ls => softDrainValue ls na.1
  | None => 0
  end.

(** The candidates left by the first stage: those that are not hard-drained,
    unless that leaves none, in which case all are kept. *)
Definition notHardDrained (areaLinkStates : gmap string LinkState.t)
    (prefixes : gmap NodeAndArea PrefixEntry) : gmap NodeAndArea PrefixEntry :=
  let kept :=
    filter (fun kv : NodeAndArea * PrefixEntry =>
              overloadedAt areaLinkStates kv.1 = false) prefixes in
  if bool_decide (kept = ∅) then prefixes else kept.

(** The state of the soft-drain loop after the entries [p]: [minVal] bounds
    their soft-drain values from below and is attained unless [p] is empty,
    and [filteredEntries] holds exactly the entries that attain it. *)
Definition softDrainInv (areaLinkStates : gmap string LinkState.t)
    (st : Z * gmap NodeAndArea PrefixEntry)
    (p : list (NodeAndArea * PrefixEntry)) : Prop :=
  (forall kv, kv ∈ p -> st.1 <= softDrainAt areaLinkStates kv.1) /\
  (p = [] -> st.1 = INT32_MAX) /\
  (p <> [] -> exists kv, kv ∈ p /\ softDrainAt areaLinkStates kv.1 = st.1) /\
  (forall k e, st.2 !! k = Some e <->
               (k, e) ∈ p /\ softDrainAt areaLinkStates k = st.1).

(** *** Next hops *)

(** [LinkState::getMetricFromAToB] with the default [useLinkMetric = true];
    the outer [None] is a failed SPF run, the inner one [std::nullopt]. *)
Definition getMetricFromAToB (ls : LinkState.t) (a b : string)
    : option (option Z) :=
  if bool_decide (a = b) then Some (Some 0)
  else
    spfResult ← getSpfResult ls a true;
    Some (metric <$> spfResult !! b).

(** [BestNextHopMetrics]: the least metric and, per next-hop node, the
    distance from it to the destination. *)
Abbreviation BestNextHopMetrics := (Z * gmap string Z)%type.

Definition METRIC_MAX : Z := 2 ^ 64 - 1.

(** [SpfSolver::getNextHopsWithMetric]. *)
Definition getNextHopsWithMetric (myNodeName : string)
    (dstNodeAreas : list NodeAndArea) (ls : LinkState.t)
    : option BestNextHopMetrics :=
  spfResult ← getSpfResult ls myNodeName true;
  let '(shortestMetric, minCostNodes) :=
    foldl (fun (st : Z * gset string) (dst : NodeAndArea) =>
             match spfResult !! dst.1 with
             | None => st
             | Some r =>
                 let nodeDistance := metric r in
                 if nodeDistance <=? st.1
                 then ((if nodeDistance <? st.1 then nodeDistance else st.1),
                       (if nodeDistance <? st.1 then ∅ else st.2) ∪ {[dst.1]})
                 else st
             end) (METRIC_MAX, ∅) dstNodeAreas in
  nextHopNodes ←
    foldlM (fun (acc : gmap string Z) (dstNode : string) =>
              r ← spfResult !! dstNode;
              foldlM (fun (acc : gmap string Z) (nhName : string) =>
                        d ← getMetricFromAToB ls myNodeName nhName;
                        d' ← d;
                        Some (<[nhName := to_uint64 (shortestMetric - d')]> acc))
                acc (elements (nextHops r)))
      ∅ (elements minCostNodes);
  Some (shortestMetric, nextHopNodes).

(** [createMplsAction] and [createNextHop] fill the thrift structs. *)
Definition createMplsAction (code : MplsActionCode) (swap : option Z)
    (push : option (list Z)) : MplsAction :=
  mkMplsAction code swap push.

Definition createNextHop (addr : string) (ifName : option string) (m : Z)
    (act : option MplsAction) (area : option string)
    (neighbor : option string) (w : Z) : NextHopThrift :=
  mkNextHop addr ifName m act area neighbor w.

(** [SpfSolver::getNextHopsThrift]. *)
Definition getNextHopsThrift (solver : t) (myNodeName : string)
    (dstNodeAreas : list NodeAndArea) (isV4 : bool)
    (bestNextHopMetrics : BestNextHopMetrics) (swapLabel : option Z)
    (area : string) (ls : LinkState.t) : option (gset NextHopThrift) :=
  let nextHopNodes := bestNextHopMetrics.2 in
  let minMetric := bestNextHopMetrics.1 in
  if bool_decide (nextHopNodes = ∅) then None
  else
    foldlM (fun (nhs : gset NextHopThrift) (l : Link) =>
              neighborNode ← getOtherNodeName l myNodeName;
              match nextHopNodes !! neighborNode with
              | None => Some nhs
              | Some dist =>
                  if negb (isUp l) then Some nhs
                  else
                    m ← getMetricFromNode l myNodeName;
                    let distOverLink := metricAdd m dist in
                    if negb (bool_decide (distOverLink = minMetric))
                    then Some nhs
                    else
                      let mplsAction :=
                        match swapLabel with
                        | None => None
                        | Some lbl =>
                            if bool_decide ((neighborNode, area) ∈ dstNodeAreas)
                            then Some (createMplsAction PHP None None)
                            else Some (createMplsAction SWAP (Some lbl) None)
                        end in
                      addr ← (if isV4 && negb (v4OverV6Nexthop_ solver)
                              then getNhV4FromNode l myNodeName
                              else getNhV6FromNode l myNodeName);
                      iface ← getIfaceFromNode l myNodeName;
                      Some (nhs ∪ {[createNextHop addr (Some iface)
                                      distOverLink mplsAction
                                      (Some (area_ l)) (Some neighborNode) 0]})
              end)
      ∅ (linksFromNode ls myNodeName).

(** *** MPLS routes for node labels *)

(** [std::unordered_map<int32_t, std::pair<std::string, RibMplsEntry>>]. *)
Abbreviation LabelToNode := (gmap Z (string * RibMplsEntry)).

Section NodeLabels.
(** [isMplsLabelValid] is defined in MplsUtil.h, which is not among the
    sources: it is a parameter. *)
Variable isMplsLabelValid : Z -> bool.
Variable solver : t.
Variable myNodeName : string.

(** The body of the loop over the adjacency databases of one area, in the
    block [if (enableNodeSegmentLabel_)] of [SpfSolver::buildRouteDb]. *)
Definition nodeLabelStep (labelToNode : LabelToNode)
    (work : string * LinkState.t * AdjacencyDatabase) : option LabelToNode :=
  let '(area, ls, adjDb) := work in
  let topLabel := nodeLabel adjDb in
  let nodeName := thisNodeName adjDb in
  if bool_decide (topLabel = 0) then Some labelToNode
  else if negb (isMplsLabelValid topLabel) then Some labelToNode
  else if match labelToNode !! topLabel with
          | Some cur => String.ltb cur.1 nodeName
          | None => false
          end
  then Some labelToNode
  else if bool_decide (nodeName = myNodeName)
  then
    let nh := createNextHop "::" None 0
                (Some (createMplsAction POP_AND_LOOKUP None None))
                (Some area) None 0 in
    Some (<[topLabel := (myNodeName, mkRibMplsEntry topLabel {[nh]})]>
            (delete topLabel labelToNode))
  else
    metricNhs ← getNextHopsWithMetric myNodeName [(nodeName, area)] ls;
    if bool_decide (metricNhs.2 = ∅) then Some labelToNode
    else
      nhs ← getNextHopsThrift solver myNodeName [(nodeName, area)] false
              metricNhs (Some topLabel) area ls;
      Some (<[topLabel := (nodeName, mkRibMplsEntry topLabel nhs)]>
              (delete topLabel labelToNode)).

(** The two nested loops, over the sequence of (area, link state, adjacency
    database) triples they visit. *)
Definition nodeLabelLoop
    (work : list (string * LinkState.t * AdjacencyDatabase))
    : option LabelToNode :=
  foldlM nodeLabelStep ∅ work.

(** The triples in the order the maps are iterated. *)
Definition nodeLabelWork (areaLinkStates : gmap string LinkState.t)
    : list (string * LinkState.t * AdjacencyDatabase) :=
  flat_map (fun kv : string * LinkState.t =>
              map (fun db : string * AdjacencyDatabase => (kv.1, kv.2, db.2))
                (map_to_list (adjacencyDatabases_ kv.2)))
    (map_to_list areaLinkStates).

(** The node-label block of [SpfSolver::buildRouteDb]: the label table, and
    the route database with its entries added. *)
Definition buildNodeLabelRoutes (areaLinkStates : gmap string LinkState.t)
    (routeDb : DecisionRouteDb) : option (LabelToNode * DecisionRouteDb) :=
  if enableNodeSegmentLabel_ solver then
    labelToNode ← nodeLabelLoop (nodeLabelWork areaLinkStates);
    Some (labelToNode,
          foldl (fun db (kv : Z * (string * RibMplsEntry)) =>
                   addMplsRoute kv.2.2 db)
            routeDb (map_to_list labelToNode))
  else Some (∅, routeDb).
End NodeLabels.

End SpfSolver.

(** ** Sample inputs *)

(** One area "0" in which node n1 is hard-drained, n2 is soft-drained by 10
    and n3 is not drained; all three advertise the same prefix. *)
Definition sampleDrainLinkState : LinkState.t :=
  LinkState.mkLinkState "0" ∅ []
    {["n1" := LinkState.mkHoldableValue true None 0;
      "n2" := LinkState.mkHoldableValue false None 0;
      "n3" := LinkState.mkHoldableValue false None 0]}
    {["n1" := 0; "n2" := 10; "n3" := 0]} ∅.

Definition sampleAreaLinkStates : gmap string LinkState.t :=
  {["0" := sampleDrainLinkState]}.

Definition samplePrefixEntry : RouteDb.PrefixEntry :=
  RouteDb.mkPrefixEntry ("10.0.0.0", 8%N) None 0.

Definition samplePrefixEntries
    : gmap SpfSolver.NodeAndArea RouteDb.PrefixEntry :=
  {[("n1", "0") := samplePrefixEntry;
    ("n2", "0") := samplePrefixEntry;
    ("n3", "0") := samplePrefixEntry]}.

(** A link between [a] and [b] over interfaces named after the far end,
    with the metric of each direction. *)
Definition sampleLink (a b : string) (m1 m2 : Z) : LinkState.Link :=
  LinkState.mkLink "0" a b ("to-" +:+ b) ("to-" +:+ a) m1 m2 false false 0 0
    "10.0.0.1" "10.0.0.2" "fe80::1" "fe80::2" 1 1 0.

Definition buildLinkState (links : list LinkState.Link)
    : option LinkState.t :=
  foldlM (fun ls l => LinkState.addLink l ls) (LinkState.empty "0") links.

(** The line A - B - C with unit metrics, in which B is overloaded. *)
Definition sampleLineOverloaded : LinkState.t :=
  (LinkState.updateNodeOverloaded "B" true 0 0
     (default (LinkState.empty "0")
        (buildLinkState [sampleLink "A" "B" 1 1; sampleLink "B" "C" 1 1]))).1.

(** Two nodes joined by one link of metric 10. *)
Definition sampleTwoNodes : LinkState.t :=
  default (LinkState.empty "0") (buildLinkState [sampleLink "A" "B" 10 10]).

(** The SPF results on the two samples, from A. *)
Definition sampleLineSpf : LinkState.SpfResult :=
  default ∅ (LinkState.runSpf sampleLineOverloaded "A" true []).

Definition sampleTwoNodesSpf (useLinkMetric : bool) : LinkState.SpfResult :=
  default ∅ (LinkState.runSpf sampleTwoNodes "A" useLinkMetric []).

(** The first topology of [TEST(LinkStateTest, getKthPaths)]. *)
Definition sampleKthTopology : LinkState.t :=
  default (LinkState.empty "0")
    (buildLinkState
       [sampleLink "1" "2" 10 10; sampleLink "1" "3" 5 5;
        sampleLink "2" "4" 15 15; sampleLink "3" "4" 20 20;
        LinkState.mkLink "0" "2" "4" "to-4-b" "to-2-b" 35 35 false false 0 0
          "10.0.0.1" "10.0.0.2" "fe80::1" "fe80::2" 1 1 0]).

Definition sampleSecondPaths : list LinkState.Path :=
  default [] (LinkState.getKthPaths sampleKthTopology "2" "4" 2).

(** Node 0 with neighbours 1 and 2, which both advertise node label 100;
    node 0 advertises label 50. *)
Definition sampleAdjDb (n : string) (lbl : Z) : LinkState.AdjacencyDatabase :=
  LinkState.mkAdjacencyDatabase n [] false lbl 0.

Definition sampleLabelLinkState : LinkState.t :=
  let ls := default (LinkState.empty "0")
              (buildLinkState [sampleLink "0" "1" 1 1; sampleLink "0" "2" 1 1]) in
  LinkState.mkLinkState (LinkState.ls_area ls) (LinkState.linkMap_ ls)
    (LinkState.allLinks_ ls) (LinkState.nodeOverloads_ ls)
    (LinkState.nodeMetricIncrementVals_ ls)
    {["0" := sampleAdjDb "0" 50; "1" := sampleAdjDb "1" 100;
      "2" := sampleAdjDb "2" 100]}.

(** A label is valid when it fits in 20 bits. *)
Definition sampleLabelValid (l : Z) : bool := Z.land l 4293918720 =? 0.

Definition sampleSolver : SpfSolver.t :=
  SpfSolver.mkSpfSolver "0" true true false true false.

(** The two orders in which the loop can meet the databases of 1 and 2. *)
Definition sampleWork12
    : list (string * LinkState.t * LinkState.AdjacencyDatabase) :=
  [("0", sampleLabelLinkState, sampleAdjDb "0" 50);
   ("0", sampleLabelLinkState, sampleAdjDb "1" 100);
   ("0", sampleLabelLinkState, sampleAdjDb "2" 100)].

Definition sampleWork21
    : list (string * LinkState.t * LinkState.AdjacencyDatabase) :=
  [("0", sampleLabelLinkState, sampleAdjDb "2" 100);
   ("0", sampleLabelLinkState, sampleAdjDb "1" 100);
   ("0", sampleLabelLinkState, sampleAdjDb "0" 50)].

(** The node a label table sends a label to, and the neighbours its route
    uses. *)
Definition labelHolder (labelToNode : SpfSolver.LabelToNode) (l : Z)
    : option string :=
  fst <$> labelToNode !! l.

Definition routeNeighbors (db : RouteDb.DecisionRouteDb) (l : Z)
    : option (list (option string)) :=
  (fun e => nh_neighborNodeName <$> elements (RouteDb.mpls_nexthops e))
    <$> RouteDb.mplsRoutes db !! l.

(** Root A; leaf X at distance (2^31 - 1) + (2^31 - 1) + 7 = 2^32 + 5 over
    M1 and M2, leaf Y at distance 5. *)
Definition sampleUcmpTopology : LinkState.t :=
  default (LinkState.empty "0")
    (buildLinkState
       [sampleLink "A" "M1" 2147483647 2147483647;
        sampleLink "M1" "M2" 2147483647 2147483647;
        sampleLink "M2" "X" 7 7;
        sampleLink "A" "Y" 5 5]).

Definition sampleUcmpSpf : LinkState.SpfResult :=
  default ∅ (LinkState.runSpf sampleUcmpTopology "A" true []).

(** Sample databases: [sampleOld] routes 10.0.0.0/8 and 10.1.0.0/16 and label
    100; [sampleNew] changes the first prefix, drops the second, adds a third,
    and replaces label 100 by label 200. *)
Definition sampleNh (ifn : string) (m : Z) : NextHopThrift :=
  mkNextHop "fe80::1" (Some ifn) m None (Some "0") (Some "node2") 0.

Definition sampleUnicast (p : CIDRNetwork) (ifn : string) (m : Z)
    : RouteDb.RibUnicastEntry :=
  RouteDb.mkRibUnicastEntry p {[sampleNh ifn m]}
    (RouteDb.mkPrefixEntry p None 0) "0" false m None false.

Definition sampleMpls (l : Z) (ifn : string) : RouteDb.RibMplsEntry :=
  RouteDb.mkRibMplsEntry l {[sampleNh ifn 1]}.

Definition sampleOld : RouteDb.DecisionRouteDb :=
  RouteDb.addMplsRoute (sampleMpls 100 "if1")
    (RouteDb.addUnicastRoute (sampleUnicast ("10.0.0.0", 8%N) "if1" 1)
       (RouteDb.addUnicastRoute (sampleUnicast ("10.1.0.0", 16%N) "if1" 1)
          (RouteDb.mkDecisionRouteDb ∅ ∅))).

Definition sampleNew : RouteDb.DecisionRouteDb :=
  RouteDb.addMplsRoute (sampleMpls 200 "if2")
    (RouteDb.addUnicastRoute (sampleUnicast ("10.0.0.0", 8%N) "if2" 2)
       (RouteDb.addUnicastRoute (sampleUnicast ("10.2.0.0", 16%N) "if1" 1)
          (RouteDb.mkDecisionRouteDb ∅ ∅))).









(** ** HoldableValue: the remaining operations (LinkState.cpp) *)

Module Holdable.
Import LinkState.

(** [HoldableValue<T>::decrementTtl]: [--holdTtl_] on the unsigned TTL is
    evaluated only when a value is held; the result says whether the hold
    expired. *)
Definition decrementTtl {T : Type} (hv : HoldableValue T)
    : HoldableValue T * bool :=
  match heldVal_ hv with
  | None => (hv, false)
  | Some _ =>
      let ttl := to_uint64 (holdTtl_ hv - 1) in
      if bool_decide (0 = ttl)
      then (mkHoldableValue (val_ hv) None ttl, true)
      else (mkHoldableValue (val_ hv) (heldVal_ hv) ttl, false)
  end.

(** [HoldableValue<T>::updateValue], for either instantiation: the
    specialised [isChangeBringingUp] is the parameter. *)
Section UpdateValue.
Context {T : Type} `{EqDecision T}.
Variable bringingUp : HoldableValue T -> T -> bool.

Definition updateValue (hv : HoldableValue T) (val : T)
    (holdUpTtl holdDownTtl : Z) : HoldableValue T * bool :=
  if bool_decide (val = val_ hv) then (hv, false)
  else
    let hv1 :=
      if hasHold hv then mkHoldableValue val None 0
      else
        let ttl := if bringingUp hv val then holdUpTtl else holdDownTtl in
        mkHoldableValue val
          (if bool_decide (0 = ttl) then None else Some (val_ hv)) ttl in
    (hv1, negb (hasHold hv1)).
End UpdateValue.

(** [n] calls of [decrementTtl]. *)
Fixpoint decrementTtlTimes {T : Type} (n : nat) (hv : HoldableValue T)
    : HoldableValue T :=
  match n with
  | O => hv
  | S n' => decrementTtlTimes n' (decrementTtl hv).1
  end.

End Holdable.

(** ** Link: setters, holds and comparison (LinkState.cpp) *)

Module LinkOps.
Import LinkState.

(** [Link::getOverloadFromNode]. *)
Definition getOverloadFromNode (l : Link) (nodeName : string) : option bool :=
  fromNode l nodeName (overload1_ l) (overload2_ l).

(** The link with one member replaced. *)
Definition withMetric (first : bool) (d : Z) (l : Link) : Link :=
  mkLink (area_ l) (n1_ l) (n2_ l) (if1_ l) (if2_ l)
    (if first then d else metric1_ l) (if first then metric2_ l else d)
    (overload1_ l) (overload2_ l) (adjLabel1_ l) (adjLabel2_ l)
    (nhV41_ l) (nhV42_ l) (nhV61_ l) (nhV62_ l) (weight1_ l) (weight2_ l)
    (holdUpTtl_ l).

Definition withOverload (first : bool) (o : bool) (l : Link) : Link :=
  mkLink (area_ l) (n1_ l) (n2_ l) (if1_ l) (if2_ l)
    (metric1_ l) (metric2_ l)
    (if first then o else overload1_ l) (if first then overload2_ l else o)
    (adjLabel1_ l) (adjLabel2_ l)
    (nhV41_ l) (nhV42_ l) (nhV61_ l) (nhV62_ l) (weight1_ l) (weight2_ l)
    (holdUpTtl_ l).

(** [Link::setHoldUpTtl]. *)
Definition setHoldUpTtl (ttl : Z) (l : Link) : Link :=
  mkLink (area_ l) (n1_ l) (n2_ l) (if1_ l) (if2_ l)
    (metric1_ l) (metric2_ l) (overload1_ l) (overload2_ l)
    (adjLabel1_ l) (adjLabel2_ l) (nhV41_ l) (nhV42_ l) (nhV61_ l) (nhV62_ l)
    (weight1_ l) (weight2_ l) ttl.

(** [Link::decrementHolds] and [Link::hasHolds]. *)
Definition decrementHolds (l : Link) : Link * bool :=
  if bool_decide (0 = holdUpTtl_ l) then (l, false)
  else
    let ttl := to_uint64 (holdUpTtl_ l - 1) in
    (setHoldUpTtl ttl l, bool_decide (0 = ttl)).

Definition hasHolds (l : Link) : bool :=
  negb (bool_decide (0 = holdUpTtl_ l)).

(** [n] calls of [decrementHolds]. *)
Fixpoint decrementHoldsTimes (n : nat) (l : Link) : Link :=
  match n with
  | O => l
  | S n' => decrementHoldsTimes n' (decrementHolds l).1
  end.

(** [Link::setMetricFromNode] changes the metric of the named end and
    returns [true]; it throws [std::invalid_argument] for a node that is not
    an end. *)
Definition setMetricFromNode (l : Link) (nodeName : string) (d : Z)
    : option (Link * bool) :=
  fromNode l nodeName (withMetric true d l, true) (withMetric false d l, true).

(** [Link::setOverloadFromNode]: the result is [wasUp != isUp()]. *)
Definition setOverloadFromNode (l : Link) (nodeName : string) (overload : bool)
    (holdUpTtl holdDownTtl : Z) : option (Link * bool) :=
  l' ← fromNode l nodeName (withOverload true overload l)
         (withOverload false overload l);
  Some (l', negb (Bool.eqb (isUp l) (isUp l'))).

(** The three-way comparisons of which [operator<] on a (node, interface)
    pair and on a pair of such pairs are the [Lt] case. *)
Definition pairCompare (a b : string * string) : comparison :=
  match String.compare a.1 b.1 with
  | Eq => String.compare a.2 b.2
  | c => c
  end.

Definition namesCompare (a b : (string * string) * (string * string))
    : comparison :=
  match pairCompare a.1 b.1 with
  | Eq => pairCompare a.2 b.2
  | c => c
  end.

(** [operator<] on [std::pair] of two (node, interface) pairs. *)
Definition namesLtb (a b : (string * string) * (string * string)) : bool :=
  pairLtb a.1 b.1 || (negb (pairLtb b.1 a.1) && pairLtb a.2 b.2).

(** [Link::operator<] and [Link::operator==].  The member [hash] is the
    [std::hash] of [orderedNames_]; the hash function is the parameter. *)
Section Compare.
Variable hashNames : (string * string) * (string * string) -> Z.

Definition hash (l : Link) : Z := hashNames (orderedNames l).

Definition ltb (a b : Link) : bool :=
  if negb (bool_decide (hash a = hash b)) then hash a <? hash b
  else namesLtb (orderedNames a) (orderedNames b).

Definition eqb (a b : Link) : bool :=
  if negb (bool_decide (hash a = hash b)) then false
  else bool_decide (orderedNames a = orderedNames b).

(** [std::equal_to<LinkState::LinkSet>] and [std::hash<LinkState::LinkSet>];
    hashes are [size_t] values, combined with XOR. *)
Definition linkSetEqual (a b : LinkSet) : bool :=
  if bool_decide (length a = length b)
  then forallb (fun i => linkSetCount b i) a
  else false.

Definition linkSetHash (set : LinkSet) : Z :=
  foldl (fun h l => Z.lxor h (hash l)) 0 set.
End Compare.

(** A link set proper: no two of its links are equal. *)
Fixpoint linkSetNoDup (s : LinkSet) : bool :=
  match s with
  | [] => true
  | l :: s' => negb (linkSetCount s' l) && linkSetNoDup s'
  end.

End LinkOps.

(** ** LinkState: removing links and nodes, making links (LinkState.cpp) *)

Module LinkStateOps.
Import LinkState.

(** [LinkSet::erase]: the set without the link. *)
Definition linkSetErase (s : LinkSet) (l : Link) : LinkSet :=
  List.filter (fun x => negb (linkEqb l x)) s.

(** [LinkState::removeLink]: [linkMap_.at] throws for a node without links,
    and each [CHECK] fails when the link is not in the set. *)
Definition removeLink (l : Link) (ls : t) : option t :=
  let rm (m : gmap string LinkSet) (n : string) : option (gmap string LinkSet) :=
    s ← m !! n;
    if linkSetCount s l then Some (<[n := linkSetErase s l]> m) else None in
  m1 ← rm (linkMap_ ls) (firstNodeName l);
  m2 ← rm m1 (secondNodeName l);
  if linkSetCount (allLinks_ ls) l
  then Some (mkLinkState (ls_area ls) m2 (linkSetErase (allLinks_ ls) l)
               (nodeOverloads_ ls) (nodeMetricIncrementVals_ ls)
               (adjacencyDatabases_ ls))
  else None.

(** The body of the loop of [removeNode]: the link is erased from the set of
    its other end and from [allLinks_]. *)
Definition removeNodeStep (nodeName : string)
    (st : gmap string LinkSet * LinkSet) (l : Link)
    : option (gmap string LinkSet * LinkSet) :=
  other ← getOtherNodeName l nodeName;
  s ← st.1 !! other;
  if linkSetCount s l && linkSetCount st.2 l
  then Some (<[other := linkSetErase s l]> st.1, linkSetErase st.2 l)
  else None.

(** [LinkState::removeNode]. *)
Definition removeNode (nodeName : string) (ls : t) : option t :=
  match linkMap_ ls !! nodeName with
  | None => Some ls
  | Some links =>
      st ← foldlM (removeNodeStep nodeName) (linkMap_ ls, allLinks_ ls) links;
      Some (mkLinkState (ls_area ls) (delete nodeName st.1) st.2
              (delete nodeName (nodeOverloads_ ls))
              (nodeMetricIncrementVals_ ls) (adjacencyDatabases_ ls))
  end.

(** [LinkState::deleteAdjacencyDatabase]: the new state and
    [change.topologyChanged]. *)
Definition deleteAdjacencyDatabase (nodeName : string) (ls : t)
    : option (t * bool) :=
  match adjacencyDatabases_ ls !! nodeName with
  | Some _ =>
      ls' ← removeNode nodeName ls;
      Some (mkLinkState (ls_area ls') (linkMap_ ls') (allLinks_ ls')
              (nodeOverloads_ ls') (nodeMetricIncrementVals_ ls')
              (delete nodeName (adjacencyDatabases_ ls')), true)
  | None => Some (ls, false)
  end.

(** Representation invariant of the link sets, which [addLink] establishes
    and [removeNode] keeps: a link filed under a node joins that node to
    another one, is also filed under that other node and in [allLinks_], and
    no set holds two equal links. *)
Record consistent (ls : t) : Prop := mkConsistent {
  cs_ends :
    forall n l, l ∈ linksFromNode ls n ->
      exists m, getOtherNodeName l n = Some m /\ m <> n;
  cs_sym :
    forall n l m, l ∈ linksFromNode ls n -> getOtherNodeName l n = Some m ->
      linkSetCount (linksFromNode ls m) l = true;
  cs_all :
    forall n l, l ∈ linksFromNode ls n ->
      linkSetCount (allLinks_ ls) l = true;
  cs_noDup : forall n, LinkOps.linkSetNoDup (linksFromNode ls n) = true;
  cs_allNoDup : LinkOps.linkSetNoDup (allLinks_ ls) = true;
}.

(** [Link::Link(area, nodeName1, adj1, nodeName2, adj2)]: the 32-bit metric
    of an adjacency becomes a [LinkStateMetric]; a new link has no hold. *)
Definition makeLink (area : string) (nodeName1 : string) (adj1 : Adjacency)
    (nodeName2 : string) (adj2 : Adjacency) : Link :=
  mkLink area nodeName1 nodeName2 (ifName adj1) (ifName adj2)
    (to_uint64 (adj_metric adj1)) (to_uint64 (adj_metric adj2))
    (adj_isOverloaded adj1) (adj_isOverloaded adj2)
    (adjLabel adj1) (adjLabel adj2)
    (nextHopV4 adj1) (nextHopV4 adj2) (nextHopV6 adj1) (nextHopV6 adj2)
    (adj_weight adj1) (adj_weight adj2) 0.

(** The test of [maybeMakeLink] for the adjacency that points back. *)
Definition pointsBack (nodeName : string) (adj otherAdj : Adjacency) : bool :=
  bool_decide (nodeName = otherNodeName otherAdj)
  && bool_decide (otherIfName adj = ifName otherAdj)
  && bool_decide (ifName adj = otherIfName otherAdj).

(** [LinkState::maybeMakeLink]: [None] is [nullptr]. *)
Definition maybeMakeLink (ls : t) (nodeName : string) (adj : Adjacency)
    : option Link :=
  match adjacencyDatabases_ ls !! otherNodeName adj with
  | Some otherDb =>
      match List.find (pointsBack nodeName adj) (adjacencies otherDb) with
      | Some otherAdj =>
          Some (makeLink (ls_area ls) nodeName adj (otherNodeName adj) otherAdj)
      | None => None
      end
  | None => None
  end.

(** The walk along a path that the tests and [selectBestPathsKsp2] make:
    [nextNodeName = link->getOtherNodeName(nextNodeName)], with the cost
    [cost += link->getMetricFromNode(nextNodeName)]. *)
Fixpoint walkPath (nextNodeName : string) (cost : Z) (path : Path)
    : option (string * Z) :=
  match path with
  | [] => Some (nextNodeName, cost)
  | l :: path' =>
      m ← getMetricFromNode l nextNodeName;
      other ← getOtherNodeName l nextNodeName;
      walkPath other (metricAdd cost m) path'
  end.

(** What [runSpf] from [src] guarantees of the entry of a node [n]: the
    source has the empty result with metric 0; any other node has a path link
    and a next hop; a node that is its own next hop has a path link from the
    source; a path link leads from its previous node to [n]; the metric is a
    [LinkStateMetric]. *)
Record spfEntry (src : string) (n : string) (r : NodeSpfResult) : Prop :=
  mkSpfEntry {
  se_source : n = src -> r = resetResult 0;
  se_paths : n <> src -> pathLinks r <> [];
  se_hops : n <> src -> nextHops r <> ∅;
  se_direct :
    n ∈ nextHops r -> exists p, p ∈ pathLinks r /\ prevNode p = src;
  se_leads :
    forall p, p ∈ pathLinks r ->
      getOtherNodeName (link p) (prevNode p) = Some n;
  se_metric : 0 <= metric r < 2 ^ 64;
}.

(** A next hop of a node is the node itself or a recorded node that is its
    own next hop. *)
Definition hopsResolved (result : SpfResult) (n : string)
    (r : NodeSpfResult) : Prop :=
  forall h, h ∈ nextHops r ->
    h = n \/ exists rh, result !! h = Some rh /\ h ∈ nextHops rh.

End LinkStateOps.

(** ** SpfSolver: static routes, reachable candidates, best paths
    (SpfSolver.cpp) *)

Module SpfSolverOps.
Import LinkState RouteDb SpfSolver.

(** [SpfSolver::updateStaticUnicastRoutes], on [staticUnicastRoutes_]. *)
Definition updateStaticUnicastRoutes
    (staticUnicastRoutes : gmap CIDRNetwork RibUnicastEntry)
    (unicastRoutesToUpdate : gmap CIDRNetwork RibUnicastEntry)
    (unicastRoutesToDelete : list CIDRNetwork)
    : gmap CIDRNetwork RibUnicastEntry :=
  foldl (fun m p => delete p m)
    (foldl (fun m (kv : CIDRNetwork * RibUnicastEntry) => <[kv.1 := kv.2]> m)
       staticUnicastRoutes (map_to_list unicastRoutesToUpdate))
    unicastRoutesToDelete.

(** The loop of [createRouteForPrefix] over the areas, which deletes the
    entries of unreachable nodes from [prefixEntries] and sets
    [localPrefixConsidered]. *)
Definition reachableInArea (myNodeName : string)
    (st : gmap NodeAndArea PrefixEntry * bool) (areaLs : string * LinkState.t)
    : option (gmap NodeAndArea PrefixEntry * bool) :=
  mySpfResult ← getSpfResult areaLs.2 myNodeName true;
  Some (foldl (fun (st' : gmap NodeAndArea PrefixEntry * bool)
                   (kv : NodeAndArea * PrefixEntry) =>
                 let considered :=
                   st'.2 || bool_decide (myNodeName = kv.1.1) in
                 if negb (bool_decide (areaLs.1 = kv.1.2))
                    || bool_decide (is_Some (mySpfResult !! kv.1.1))
                 then (st'.1, considered)
                 else (delete kv.1 st'.1, considered))
          st (map_to_list st.1)).

Definition reachablePrefixEntries (myNodeName : string)
    (areaLinkStates : list (string * LinkState.t))
    (allPrefixEntries : gmap NodeAndArea PrefixEntry)
    : option (gmap NodeAndArea PrefixEntry * bool) :=
  foldlM (reachableInArea myNodeName) (allPrefixEntries, false) areaLinkStates.

(** [RouteSelectionResult], with the members the solver reads;
    [allNodeAreas] is the sequence in which the set is iterated. *)
Record RouteSelectionResult := mkRouteSelectionResult {
  allNodeAreas : list NodeAndArea;
  bestNodeArea : NodeAndArea;
  isBestNodeDrained : bool;
}.

(** [SpfSolver::getMinNextHopThreshold]; [None] is the exception of
    [prefixEntries.at]. *)
Definition getMinNextHopThreshold (nodes : RouteSelectionResult)
    (prefixEntries : gmap NodeAndArea PrefixEntry) : option (option Z) :=
  foldlM (fun (maxMinNexthopForPrefix : option Z) (nodeArea : NodeAndArea) =>
            prefixEntry ← prefixEntries !! nodeArea;
            Some (match pe_minNexthop prefixEntry with
                  | Some m =>
                      match maxMinNexthopForPrefix with
                      | Some cur => if cur <? m then Some m else Some cur
                      | None => Some m
                      end
                  | None => maxMinNexthopForPrefix
                  end))
    None (allNodeAreas nodes).

(** [SpfSolver::addBestPaths]; the outer [None] is an exception, the inner
    one [std::nullopt].  The threshold, an [int64_t], is compared with the
    unsigned size of the next-hop set. *)
Definition addBestPaths (prefix : CIDRNetwork)
    (routeSelectionResult : RouteSelectionResult)
    (prefixEntries : gmap NodeAndArea PrefixEntry)
    (nextHops : gset NextHopThrift) (shortestMetric : Z)
    (localPrefixConsidered : bool) : option (option RibUnicastEntry) :=
  if bool_decide (nextHops = ∅) then Some None
  else
    minNextHop ← getMinNextHopThreshold routeSelectionResult prefixEntries;
    if match minNextHop with
       | Some m => Z.of_nat (size nextHops) <? to_uint64 m
       | None => false
       end
    then Some None
    else
      entry ← prefixEntries !! bestNodeArea routeSelectionResult;
      let entry' :=
        if isBestNodeDrained routeSelectionResult
        then mkPrefixEntry (pe_prefix entry) (pe_minNexthop entry) 1
        else entry in
      Some (Some (mkRibUnicastEntry prefix nextHops entry'
                    (bestNodeArea routeSelectionResult).2 false
                    shortestMetric None localPrefixConsidered)).

(** The distance that the second loop of [getNextHopsWithMetric] records
    for the next hop [nhName]:
    [shortestMetric - getMetricFromAToB(myNodeName, nhName).value()]. *)
Definition nextHopDistance (ls : LinkState.t) (myNodeName : string)
    (shortestMetric : Z) (nhName : string) : option Z :=
  d ← getMetricFromAToB ls myNodeName nhName;
  d' ← d;
  Some (to_uint64 (shortestMetric - d')).

(** The next hop that the loop of [getNextHopsThrift] makes of the link [l]:
    the link leads to a next-hop node, is up, and its metric plus the
    distance of that node is the least metric. *)
Definition nextHopOverLink (solver : SpfSolver.t) (myNodeName : string)
    (dstNodeAreas : list NodeAndArea) (isV4 : bool) (minMetric : Z)
    (nextHopNodes : gmap string Z) (swapLabel : option Z) (area : string)
    (l : Link) (nh : NextHopThrift) : Prop :=
  exists neighborNode dist m addr iface,
    getOtherNodeName l myNodeName = Some neighborNode /\
    nextHopNodes !! neighborNode = Some dist /\
    isUp l = true /\
    getMetricFromNode l myNodeName = Some m /\
    metricAdd m dist = minMetric /\
    (if isV4 && negb (v4OverV6Nexthop_ solver)
     then getNhV4FromNode l myNodeName
     else getNhV6FromNode l myNodeName) = Some addr /\
    getIfaceFromNode l myNodeName = Some iface /\
    nh = createNextHop addr (Some iface) minMetric
           match swapLabel with
           | None => None
           | Some lbl =>
               if bool_decide ((neighborNode, area) ∈ dstNodeAreas)
               then Some (createMplsAction PHP None None)
               else Some (createMplsAction SWAP (Some lbl) None)
           end
           (Some (area_ l)) (Some neighborNode) 0.

(** [SpfSolver::selectBestPathsSpf]: [bestMetric] and [nextHops] of the
    result. *)
Definition selectBestPathsSpf (solver : SpfSolver.t) (myNodeName : string)
    (prefixIsV4 : bool) (routeSelectionResult : RouteSelectionResult)
    (area : string) (ls : LinkState.t) : option (Z * gset NextHopThrift) :=
  nextHopsWithMetric ←
    getNextHopsWithMetric myNodeName (allNodeAreas routeSelectionResult) ls;
  if bool_decide (nextHopsWithMetric.2 = ∅)
  then Some (nextHopsWithMetric.1, ∅)
  else
    nextHops ← getNextHopsThrift solver myNodeName
                 (allNodeAreas routeSelectionResult) prefixIsV4
                 nextHopsWithMetric None area ls;
    Some (nextHopsWithMetric.1, nextHops).

End SpfSolverOps.

(** * Properties *)


(** ** RouteDb diffing *)

Section RouteFamilyFacts.
Context {K V : Type} `{Countable K} `{EqDecision V}.
Variable keyOf : V -> K.

Lemma eraseLoop_lookup (routes : gmap K V) (toDelete : list K) (k : K) :
  RouteDb.eraseLoop routes toDelete !! k =
  if decide (k ∈ toDelete) then None else routes !! k.
Proof.
  unfold RouteDb.eraseLoop. revert routes.
  induction toDelete as [|d ds IH]; intros routes; cbn [foldl].
  - case_decide as Hin; [by apply elem_of_nil in Hin | done].
  - rewrite IH.
    destruct (decide (k = d)) as [->|Hne].
    + rewrite lookup_delete_eq.
      rewrite (decide_True (P := d ∈ d :: ds)) by apply list_elem_of_here.
      by case_decide.
    + rewrite lookup_delete_ne by done.
      case_decide as Hin; case_decide as Hin'; try done.
      * exfalso. apply Hin'. by apply list_elem_of_further.
      * exfalso. apply elem_of_cons in Hin' as [?|?]; done.
Qed.

Lemma assignLoop_lookup (toUpdate : list (K * V)) :
  (forall k e, (k, e) ∈ toUpdate -> keyOf e = k) ->
  NoDup toUpdate.*1 ->
  forall (routes : gmap K V) (k : K),
    RouteDb.assignLoop keyOf routes toUpdate !! k =
    match (list_to_map toUpdate : gmap K V) !! k with
    | Some e => Some e
    | None => routes !! k
    end.
Proof.
  unfold RouteDb.assignLoop.
  induction toUpdate as [|[k0 e0] l IH]; intros Hkey Hnd routes k;
    cbn [foldl list_to_map foldr fst snd uncurry].
  - by rewrite lookup_empty.
  - inversion Hnd as [|? ? Hnotin Hnd']; subst.
    assert (keyOf e0 = k0) as Hk0 by (apply Hkey; apply list_elem_of_here).
    assert (forall k e, (k, e) ∈ l -> keyOf e = k) as Hkey'
      by (intros k1 e1 Hin; apply Hkey; by apply list_elem_of_further).
    rewrite (IH Hkey' Hnd').
    rewrite Hk0.
    destruct (decide (k = k0)) as [->|Hne].
    + rewrite lookup_insert_eq.
      rewrite (not_elem_of_list_to_map_1 l k0) by done.
      by rewrite lookup_insert_eq.
    + rewrite !(lookup_insert_ne _ k0 k) by done. done.
Qed.

Lemma routesToUpdateLoop_lookup (routes : gmap K V) (newEntries : list (K * V)) :
  (forall k e, (k, e) ∈ newEntries -> keyOf e = k) ->
  NoDup newEntries.*1 ->
  forall (delta : gmap K V) (k : K),
    RouteDb.routesToUpdateLoop keyOf routes newEntries delta !! k =
    match (list_to_map newEntries : gmap K V) !! k with
    | Some e => if decide (routes !! k = Some e) then delta !! k else Some e
    | None => delta !! k
    end.
Proof.
  unfold RouteDb.routesToUpdateLoop.
  induction newEntries as [|[k0 e0] l IH]; intros Hkey Hnd delta k;
    cbn [foldl list_to_map foldr fst snd uncurry].
  - by rewrite lookup_empty.
  - inversion Hnd as [|? ? Hnotin Hnd']; subst.
    assert (keyOf e0 = k0) as Hk0 by (apply Hkey; apply list_elem_of_here).
    assert (forall k e, (k, e) ∈ l -> keyOf e = k) as Hkey'
      by (intros k1 e1 Hin; apply Hkey; by apply list_elem_of_further).
    rewrite (IH Hkey' Hnd').
    destruct (decide (k = k0)) as [->|Hne].
    + rewrite (not_elem_of_list_to_map_1 l k0) by done.
      rewrite lookup_insert_eq.
      destruct (routes !! k0) as [cur|] eqn:Hcur.
      * destruct (decide (cur = e0)) as [->|Hdiff].
        -- by rewrite decide_True.
        -- rewrite decide_False by congruence.
           unfold RouteDb.addRouteToUpdate. by rewrite Hk0, lookup_insert_eq.
      * rewrite decide_False by congruence.
        unfold RouteDb.addRouteToUpdate. by rewrite Hk0, lookup_insert_eq.
    + rewrite (lookup_insert_ne _ k0 k) by done.
      assert (forall d : gmap K V,
                 RouteDb.addRouteToUpdate keyOf e0 d !! k = d !! k) as Hadd.
      { intros d. unfold RouteDb.addRouteToUpdate.
        rewrite Hk0. by rewrite lookup_insert_ne. }
      destruct (routes !! k0) as [cur|]; [destruct (decide (cur = e0))|];
        rewrite ?Hadd; done.
Qed.

Lemma routesToDeleteLoop_elem (newRoutes : gmap K V) (entries : list (K * V)) :
  forall (acc : list K) (k : K),
    k ∈ RouteDb.routesToDeleteLoop newRoutes entries acc <->
    k ∈ acc \/ (k ∈ entries.*1 /\ newRoutes !! k = None).
Proof.
  unfold RouteDb.routesToDeleteLoop.
  induction entries as [|[k0 e0] l IH]; intros acc k;
    cbn [foldl fmap list_fmap fst snd].
  - split; [by left|]. intros [?|[Hin _]]; [done|]. by apply elem_of_nil in Hin.
  - rewrite IH.
    destruct (newRoutes !! k0) as [e|] eqn:Hnew.
    + split.
      * intros [?|[? ?]]; [by left|right]. split; [by apply list_elem_of_further|done].
      * intros [?|[Hin Hnone]]; [by left|right].
        apply elem_of_cons in Hin as [->|Hin]; [congruence|done].
    + rewrite elem_of_app, list_elem_of_singleton. split.
      * intros [[?| ->]|[? ?]].
        -- by left.
        -- right. split; [apply list_elem_of_here|done].
        -- right. split; [by apply list_elem_of_further|done].
      * intros [?|[Hin Hnone]]; [by left; left|].
        apply elem_of_cons in Hin as [->|Hin]; [left; by right|right; done].
Qed.

(** What one family of [calculateUpdate] computes. *)
Lemma routesToUpdate_spec (routes newRoutes : gmap K V) (k : K) (e : V) :
  RouteDb.keyedByOwnKey keyOf newRoutes ->
  RouteDb.routesToUpdateLoop keyOf routes (map_to_list newRoutes) ∅ !! k = Some e <->
  newRoutes !! k = Some e /\
  (routes !! k = None \/ exists cur, routes !! k = Some cur /\ cur <> e).
Proof.
  intros Hkey.
  rewrite routesToUpdateLoop_lookup;
    [|intros k' e' Hin; apply Hkey; by apply elem_of_map_to_list
     |apply NoDup_fst_map_to_list].
  rewrite list_to_map_to_list, lookup_empty.
  destruct (newRoutes !! k) as [e'|] eqn:Hnew.
  - case_decide as Hsame.
    + split; [done|]. intros [[= ->] [Hnone|[cur [Hcur Hdiff]]]]; congruence.
    + split.
      * intros [= ->]. split; [done|].
        destruct (routes !! k) as [cur|]; [right|by left].
        exists cur. split; [done|congruence].
      * by intros [[= ->] _].
  - split; [done|]. by intros [? _].
Qed.

Lemma routesToDelete_spec (routes newRoutes : gmap K V) (k : K) :
  k ∈ RouteDb.routesToDeleteLoop newRoutes (map_to_list routes) [] <->
  is_Some (routes !! k) /\ newRoutes !! k = None.
Proof.
  rewrite routesToDeleteLoop_elem. split.
  - intros [Hnil|[Hin Hnone]]; [by apply elem_of_nil in Hnil|].
    split; [|done]. apply list_elem_of_fmap in Hin as [[k' e] [-> Hin]].
    apply elem_of_map_to_list in Hin. by exists e.
  - intros [[e He] Hnone]. right. split; [|done].
    apply list_elem_of_fmap. exists (k, e). split; [done|].
    by apply elem_of_map_to_list.
Qed.

(** Applying the delta of one family gives back the new map. *)
Lemma family_roundtrip (routes newRoutes : gmap K V) :
  RouteDb.keyedByOwnKey keyOf newRoutes ->
  RouteDb.assignLoop keyOf
    (RouteDb.eraseLoop routes
       (RouteDb.routesToDeleteLoop newRoutes (map_to_list routes) []))
    (map_to_list
       (RouteDb.routesToUpdateLoop keyOf routes (map_to_list newRoutes) ∅))
  = newRoutes.
Proof.
  intros Hkey. apply map_eq. intros k.
  set (upd := RouteDb.routesToUpdateLoop keyOf routes (map_to_list newRoutes) ∅).
  assert (forall k e, upd !! k = Some e ->
            newRoutes !! k = Some e /\ routes !! k <> Some e) as Hupd.
  { intros k' e' Hl. apply routesToUpdate_spec in Hl as [Hn Hc]; [|done].
    split; [done|]. destruct Hc as [Hc|[cur [Hc Hd]]]; congruence. }
  rewrite assignLoop_lookup;
    [|intros k' e' Hin; apply elem_of_map_to_list in Hin;
      apply Hupd in Hin as [Hin _]; by apply Hkey
     |apply NoDup_fst_map_to_list].
  rewrite list_to_map_to_list.
  destruct (upd !! k) as [e|] eqn:Hu.
  - apply Hupd in Hu as [Hn _]. done.
  - rewrite eraseLoop_lookup. case_decide as Hdel.
    + apply routesToDelete_spec in Hdel as [_ Hnone]. done.
    + destruct (newRoutes !! k) as [e|] eqn:Hnew.
      * destruct (decide (routes !! k = Some e)) as [Hsame|Hdiff]; [done|].
        exfalso. assert (upd !! k = Some e) as Hin; [|congruence].
        apply routesToUpdate_spec; [done|]. split; [done|].
        destruct (routes !! k) as [cur|]; [right|by left].
        exists cur. split; [done|congruence].
      * destruct (routes !! k) as [cur|] eqn:Hcur; [|done].
        exfalso. apply Hdel. apply routesToDelete_spec. split; [by exists cur|done].
Qed.

End RouteFamilyFacts.

Lemma keyedByOwnKey_empty {K V : Type} `{Countable K} (keyOf : V -> K) :
  RouteDb.keyedByOwnKey keyOf (∅ : gmap K V).
Proof. intros k e Hl. by rewrite lookup_empty in Hl. Qed.

Lemma keyedByOwnKey_insert {K V : Type} `{Countable K} (keyOf : V -> K)
    (e : V) (routes : gmap K V) :
  RouteDb.keyedByOwnKey keyOf routes ->
  RouteDb.keyedByOwnKey keyOf (<[keyOf e := e]> routes).
Proof.
  intros Hk k e' Hl. apply lookup_insert_Some in Hl as [[<- <-]|[_ Hl]]; [done|].
  by apply Hk.
Qed.

(** Databases built with [addUnicastRoute] and [addMplsRoute] are well keyed. *)
Lemma wellKeyed_empty : RouteDb.wellKeyed (RouteDb.mkDecisionRouteDb ∅ ∅).
Proof. split; apply keyedByOwnKey_empty. Qed.

Lemma wellKeyed_addUnicastRoute e db :
  RouteDb.wellKeyed db -> RouteDb.wellKeyed (RouteDb.addUnicastRoute e db).
Proof. intros [Hu Hm]. split; [by apply keyedByOwnKey_insert|done]. Qed.

Lemma wellKeyed_addMplsRoute e db :
  RouteDb.wellKeyed db -> RouteDb.wellKeyed (RouteDb.addMplsRoute e db).
Proof. intros [Hu Hm]. split; [done|by apply keyedByOwnKey_insert]. Qed.

Lemma sampleNew_wellKeyed : RouteDb.wellKeyed sampleNew.
Proof.
  apply wellKeyed_addMplsRoute; do 2 apply wellKeyed_addUnicastRoute;
    apply wellKeyed_empty.
Qed.

(** C8: for a new database whose entries are filed under their own prefix and
    label, [calculateUpdate] puts a key into the delete list iff the old
    database has it and the new one lacks it, and files an entry in the update
    map iff the new database maps the key to that entry and the old database
    lacks the key or maps it to a different value; for the unicast family and
    for the MPLS family alike. *)
Theorem C8_calculateUpdate_diff (db newDb : RouteDb.DecisionRouteDb) :
  RouteDb.wellKeyed newDb ->
  (forall p, p ∈ RouteDb.unicastRoutesToDelete (RouteDb.calculateUpdate db newDb) <->
      is_Some (RouteDb.unicastRoutes db !! p) /\
      RouteDb.unicastRoutes newDb !! p = None) /\
  (forall p e,
      RouteDb.unicastRoutesToUpdate (RouteDb.calculateUpdate db newDb) !! p = Some e <->
      RouteDb.unicastRoutes newDb !! p = Some e /\
      (RouteDb.unicastRoutes db !! p = None \/
       exists cur, RouteDb.unicastRoutes db !! p = Some cur /\ cur <> e)) /\
  (forall l, l ∈ RouteDb.mplsRoutesToDelete (RouteDb.calculateUpdate db newDb) <->
      is_Some (RouteDb.mplsRoutes db !! l) /\
      RouteDb.mplsRoutes newDb !! l = None) /\
  (forall l e,
      RouteDb.mplsRoutesToUpdate (RouteDb.calculateUpdate db newDb) !! l = Some e <->
      RouteDb.mplsRoutes newDb !! l = Some e /\
      (RouteDb.mplsRoutes db !! l = None \/
       exists cur, RouteDb.mplsRoutes db !! l = Some cur /\ cur <> e)).
Proof.
  intros [Hu Hm]. unfold RouteDb.calculateUpdate; cbn.
  split; [|split; [|split]].
  - intros p. apply routesToDelete_spec.
  - intros p e. by apply (routesToUpdate_spec RouteDb.prefix).
  - intros l. apply routesToDelete_spec.
  - intros l e. by apply (routesToUpdate_spec RouteDb.label).
Qed.

Lemma C8_calculateUpdate_diff_witness :
  RouteDb.wellKeyed sampleNew /\
  (forall p, p ∈ RouteDb.unicastRoutesToDelete
                 (RouteDb.calculateUpdate sampleOld sampleNew) <->
      is_Some (RouteDb.unicastRoutes sampleOld !! p) /\
      RouteDb.unicastRoutes sampleNew !! p = None).
Proof.
  split; [exact sampleNew_wellKeyed|].
  exact (proj1 (C8_calculateUpdate_diff sampleOld sampleNew
                  sampleNew_wellKeyed)).
Defined.

(** C10: applying [calculateUpdate]'s delta to the old database with
    [update] gives a database whose unicast and MPLS maps are those of the new
    database, when the new database files its entries under their own prefix
    and label. *)
Theorem C10_update_calculateUpdate_roundtrip (db newDb : RouteDb.DecisionRouteDb) :
  RouteDb.wellKeyed newDb ->
  RouteDb.unicastRoutes (RouteDb.update db (RouteDb.calculateUpdate db newDb))
    = RouteDb.unicastRoutes newDb /\
  RouteDb.mplsRoutes (RouteDb.update db (RouteDb.calculateUpdate db newDb))
    = RouteDb.mplsRoutes newDb.
Proof.
  intros [Hu Hm]. unfold RouteDb.update, RouteDb.calculateUpdate; cbn.
  split; by apply family_roundtrip.
Qed.

Lemma C10_update_calculateUpdate_roundtrip_witness :
  RouteDb.wellKeyed sampleNew /\
  RouteDb.unicastRoutes
    (RouteDb.update sampleOld (RouteDb.calculateUpdate sampleOld sampleNew))
    = RouteDb.unicastRoutes sampleNew /\
  RouteDb.mplsRoutes
    (RouteDb.update sampleOld (RouteDb.calculateUpdate sampleOld sampleNew))
    = RouteDb.mplsRoutes sampleNew.
Proof.
  split; [exact sampleNew_wellKeyed|].
  exact (C10_update_calculateUpdate_roundtrip sampleOld sampleNew
           sampleNew_wellKeyed).
Defined.

(** ** Peer state machine *)

(** C9: [getNextState] yields INITIALIZED only from SYNCING on
    SYNC_RESP_RCVD. *)
Theorem C9_initialized_only_from_syncing
    (s : option PeerFsm.KvStorePeerState) (e : PeerFsm.KvStorePeerEvent) :
  PeerFsm.getNextState s e = Some PeerFsm.INITIALIZED ->
  s = Some PeerFsm.SYNCING /\ e = PeerFsm.SYNC_RESP_RCVD.
Proof.
  destruct s as [[]|], e; simpl; intros Hn; try discriminate Hn; by split.
Qed.

Lemma C9_initialized_only_from_syncing_witness :
  PeerFsm.getNextState (Some PeerFsm.SYNCING) PeerFsm.SYNC_RESP_RCVD
    = Some PeerFsm.INITIALIZED /\
  Some PeerFsm.SYNCING = Some PeerFsm.SYNCING /\
  PeerFsm.SYNC_RESP_RCVD = PeerFsm.SYNC_RESP_RCVD.
Proof.
  split; [reflexivity|].
  apply (C9_initialized_only_from_syncing
           (Some PeerFsm.SYNCING) PeerFsm.SYNC_RESP_RCVD).
  reflexivity.
Defined.

(** No step of a peer, by event or by timer, leads from IDLE to
    INITIALIZED. *)
Lemma peerStep_idle_not_initialized :
  ~ PeerFsm.peerStep (Some PeerFsm.IDLE) (Some PeerFsm.INITIALIZED).
Proof.
  intros Hstep. inversion Hstep as [s e s' Hn| |s s' Ht]; subst.
  - destruct e; discriminate Hn.
  - discriminate Ht.
Qed.

(** ** KvStore merge *)

Lemma string_compare_refl (a : string) : String.compare a a = Eq.
Proof.
  destruct (String.compare a a) eqn:Hc; [done| |];
    pose proof (String.compare_antisym a a) as Ha; rewrite Hc in Ha;
    discriminate Ha.
Qed.

Lemma string_compare_lt_trans (a b c : string) :
  String.compare a b = Lt -> String.compare b c = Lt ->
  String.compare a c = Lt.
Proof.
  intros Hab Hbc.
  pose proof (RelationClasses.StrictOrder_Transitive
                (StrictOrder := String_as_OT.lt_strorder) a b c) as Ht.
  by apply Ht.
Qed.

Lemma string_compare_gt_lt (a b : string) :
  String.compare a b = Gt <-> String.compare b a = Lt.
Proof.
  rewrite (String.compare_antisym b a).
  destruct (String.compare a b); simpl; split; congruence.
Qed.


Lemma compareBytes_eq a b : KvStore.compareBytes a b = Eq -> a = b.
Proof.
  destruct a, b; simpl; intros Hc; try done.
  f_equal. by apply String.compare_eq_iff.
Qed.



Lemma compareContent_eq a b : KvStore.compareContent a b = Eq -> a = b.
Proof.
  destruct a as [[va oa] ba], b as [[vb ob] bb].
  unfold KvStore.compareContent; simpl.
  destruct (Z.compare_spec va vb) as [->| |]; try done.
  destruct (String.compare oa ob) eqn:Ho; try done.
  apply String.compare_eq_iff in Ho as ->.
  intros Hb. by apply compareBytes_eq in Hb as ->.
Qed.



Section MergeFacts.
Variable kTtlInfinity : Z.
Variable generateHash : Z -> string -> option string -> Z.
Variable filters : option (string -> KvStore.Value -> bool).
Variable nodeId : string.
Variable selfOriginated : string -> bool.

Abbreviation mergeKeyValue :=
  (KvStore.mergeKeyValue kTtlInfinity generateHash filters nodeId selfOriginated).
Abbreviation taken := (KvStore.taken kTtlInfinity filters).
Abbreviation trackedStep :=
  (KvStore.trackedStep kTtlInfinity generateHash filters nodeId selfOriginated).
Abbreviation replay :=
  (KvStore.replay kTtlInfinity generateHash filters nodeId selfOriginated).


Lemma contentOf_refreshTtl l v :
  KvStore.contentOf (KvStore.refreshTtl l v) = KvStore.contentOf l.
Proof. done. Qed.

Lemma hasData_content (v w : KvStore.Value) :
  KvStore.contentOf v = KvStore.contentOf w ->
  KvStore.hasData v = KvStore.hasData w.
Proof. unfold KvStore.hasData. by intros [= _ _ ->]. Qed.

(** Merging under one key leaves the other keys alone. *)
Lemma mergeKeyValue_other local key inV k :
  k <> key -> (mergeKeyValue local key inV).1 !! k = local !! k.
Proof.
  intros Hne.
  unfold KvStore.mergeKeyValue, KvStore.ttlUpdate, KvStore.oldVersion.
  repeat (case_match; simpl; try done); by rewrite lookup_insert_ne.
Qed.

(** A value that is not taken into the merge, for want of a matching key or
    of a valid TTL, changes nothing. *)
Lemma mergeKeyValue_rejected local key inV :
  KvStore.keyMatches filters key inV && KvStore.ttlValid kTtlInfinity inV
  = false ->
  (mergeKeyValue local key inV).1 = local.
Proof.
  intros Hrej. unfold KvStore.mergeKeyValue.
  destruct (KvStore.keyMatches filters key inV); simpl in *; [|done].
  by rewrite Hrej.
Qed.

(** What the merge leaves under its key: the incoming value, when it was
    taken and the key was absent or held a value below it; or else a value
    with the tuple of the one that was there, which the incoming value, if
    taken, is not above. *)
Lemma mergeKeyValue_key local key inV :
  match (mergeKeyValue local key inV).1 !! key with
  | Some v =>
      (taken key inV = true /\ v = KvStore.ingest generateHash inV /\
       forall localV, local !! key = Some localV ->
         KvStore.compareValues inV localV = Gt) \/
      (exists localV,
         local !! key = Some localV /\
         KvStore.contentOf v = KvStore.contentOf localV /\
         (taken key inV = true -> KvStore.compareValues inV localV <> Gt))
  | None => local !! key = None /\ taken key inV = false
  end.
Proof.
  unfold KvStore.mergeKeyValue, KvStore.taken.
  destruct (KvStore.keyMatches filters key inV); cbn [negb andb fst].
  2:{ destruct (local !! key) as [localV|] eqn:Hloc; [|done].
      right. exists localV. done. }
  destruct (KvStore.ttlValid kTtlInfinity inV); cbn [negb andb fst].
  2:{ destruct (local !! key) as [localV|] eqn:Hloc; [|done].
      right. exists localV. done. }
  destruct (local !! key) as [localV|] eqn:Hloc.
  - destruct (KvStore.hasData inV) eqn:Hdata.
    + destruct (KvStore.compareValues inV localV) eqn:Hc.
      * unfold KvStore.ttlUpdate.
        destruct (KvStore.ttlVersion localV <? KvStore.ttlVersion inV);
          cbn [fst]; [rewrite lookup_insert_eq|rewrite Hloc];
          right; exists localV; by rewrite ?Hc.
      * cbn [KvStore.oldVersion fst]. rewrite Hloc. right. exists localV.
        by rewrite Hc.
      * cbn [fst]. rewrite lookup_insert_eq. left.
        split; [done|]. split; [done|]. by intros ? [= <-].
    + destruct (KvStore.compareOrigin inV localV).
      * unfold KvStore.ttlUpdate.
        destruct (KvStore.ttlVersion localV <? KvStore.ttlVersion inV);
          cbn [fst]; [rewrite lookup_insert_eq|rewrite Hloc];
          right; exists localV; done.
      * cbn [KvStore.oldVersion fst]. rewrite Hloc. right. by exists localV.
      * cbn [fst]. rewrite Hloc. right. by exists localV.
  - destruct (KvStore.hasData inV) eqn:Hdata; cbn [fst].
    + rewrite lookup_insert_eq. left. split; [done|]. split; [done|].
      intros ? Hl. done.
    + by rewrite Hloc.
Qed.

(** Expiry only removes keys. *)
Lemma ttlFired_lookup local key ver ttlVer K :
  KvStore.ttlFired local key ver ttlVer !! K = local !! K \/
  KvStore.ttlFired local key ver ttlVer !! K = None.
Proof.
  unfold KvStore.ttlFired. destruct (local !! key) as [localV|]; [|by left].
  destruct (bool_decide (KvStore.version localV = ver)
            && bool_decide (KvStore.ttlVersion localV = ttlVer)); [|by left].
  destruct (decide (K = key)) as [->|Hne].
  - right. apply lookup_delete_eq.
  - left. by apply lookup_delete_ne.
Qed.

Lemma ttlTimerFired_lookup now q :
  forall local K,
    (KvStore.ttlTimerFired now local q).1 !! K = local !! K \/
    (KvStore.ttlTimerFired now local q).1 !! K = None.
Proof.
  induction q as [|e q IH]; intros local K; cbn [KvStore.ttlTimerFired].
  - by left.
  - destruct (KvStore.deadline e <=? now); [|by left].
    destruct (IH (KvStore.ttlFired local (KvStore.entryKey e)
                    (KvStore.entryVersion e) (KvStore.entryTtlVersion e)) K)
      as [-> | ->]; [|by right].
    apply ttlFired_lookup.
Qed.



(** Every stored value carries data: the order of an absent [value] decides
    no merge. *)
Lemma replay_has_data events K v :
  KvStore.store (replay events) !! K = Some v -> KvStore.hasData v = true.
Proof.
  unfold KvStore.replay. revert K v.
  induction events as [|ev events IH] using rev_ind; intros K v.
  - cbn [foldl KvStore.store]. by rewrite lookup_empty.
  - rewrite foldl_app. cbn [foldl].
    set (st := foldl trackedStep (KvStore.mkTracked ∅ [] ∅) events) in *.
    destruct ev as [now key inV|now]; cbn [KvStore.trackedStep]; cbv zeta;
      cbn [KvStore.store].
    + destruct (decide (K = key)) as [->|Hne].
      2:{ rewrite mergeKeyValue_other by done. apply IH. }
      pose proof (mergeKeyValue_key (KvStore.store st) key inV) as Hkey.
      intros Hnew. rewrite Hnew in Hkey.
      destruct Hkey as [(Htaken & -> & _)|(localV & Hloc & Hc & _)].
      * unfold KvStore.taken in Htaken.
        by apply andb_true_iff in Htaken as [_ Hd].
      * rewrite (hasData_content v localV Hc). by eapply IH.
    + destruct (ttlTimerFired_lookup now (KvStore.ttlQueue st)
                  (KvStore.store st) K) as [-> | ->]; [apply IH|done].
Qed.



End MergeFacts.





(** ** Drain filters *)

Lemma to_int32_range z : - 2 ^ 31 <= to_int32 z <= INT32_MAX.
Proof.
  unfold to_int32, INT32_MAX.
  pose proof (Z.mod_pos_bound (z + 2 ^ 31) (2 ^ 32) ltac:(lia)). lia.
Qed.

(** An advertised [i32] soft-drain value survives the round trip through
    [std::uint64_t] and [int]. *)
Lemma to_int32_to_uint64 z :
  - 2 ^ 31 <= z <= INT32_MAX -> to_int32 (to_uint64 z) = z.
Proof.
  unfold to_int32, to_uint64, INT32_MAX. intros Hz.
  rewrite <- (Zplus_mod_idemp_l (z mod 2 ^ 64)).
  replace (2 ^ 64) with (2 ^ 32 * 2 ^ 32) by lia.
  rewrite Z.rem_mul_r by lia.
  rewrite Z.mul_comm, Z.mod_add by lia. rewrite Z.mod_mod by lia.
  rewrite Zplus_mod_idemp_l.
  rewrite Z.mod_small by lia. lia.
Qed.

Section DrainFacts.
Import SpfSolver.
Variable areaLinkStates : gmap string LinkState.t.

Abbreviation PrefixEntries := (gmap NodeAndArea RouteDb.PrefixEntry).
Abbreviation softInv := (softDrainInv areaLinkStates).

Lemma hardDrainLoop_spec (l : list (NodeAndArea * RouteDb.PrefixEntry)) :
  (forall kv, kv ∈ l -> is_Some (areaLinkStates !! kv.1.2)) ->
  forall acc : PrefixEntries,
  exists acc' : PrefixEntries,
    foldlM (hardDrainStep areaLinkStates) acc l = Some acc' /\
    forall k, acc' !! k =
      if bool_decide (k ∈ l.*1 /\ overloadedAt areaLinkStates k = true)
      then None else acc !! k.
Proof.
  induction l as [|[na e] l IH]; intros Hareas acc; cbn [foldlM].
  - exists acc. split; [done|]. intros k.
    rewrite bool_decide_eq_false_2; [done|]. intros [Hin _].
    by apply elem_of_nil in Hin.
  - destruct (Hareas (na, e) ltac:(left)) as [ls Hls]. cbn [fst snd] in Hls.
    unfold hardDrainStep at 1. cbn [fst snd]. rewrite Hls.
    cbn [mbind option_bind].
    assert (overloadedAt areaLinkStates na = LinkState.isNodeOverloaded ls na.1)
      as Hov by (unfold overloadedAt; by rewrite Hls).
    assert (forall kv, kv ∈ l -> is_Some (areaLinkStates !! kv.1.2)) as Hareas'
      by (intros kv Hkv; apply Hareas; by right).
    destruct (LinkState.isNodeOverloaded ls na.1) eqn:Hover.
    + destruct (IH Hareas' (delete na acc)) as (acc' & Hrun & Hlook).
      exists acc'. split; [done|]. intros k. rewrite Hlook.
      rewrite fmap_cons. cbn [fst].
      destruct (decide (k = na)) as [->|Hne].
      * rewrite lookup_delete_eq.
        rewrite (bool_decide_eq_true_2 (na ∈ na :: l.*1 /\ _));
          [by case_bool_decide|].
        split; [left|done].
      * rewrite lookup_delete_ne by done.
        apply (f_equal (fun b : bool => if b then None else acc !! k)).
        apply bool_decide_ext. rewrite elem_of_cons. naive_solver.
    + destruct (IH Hareas' acc) as (acc' & Hrun & Hlook).
      exists acc'. split; [done|]. intros k. rewrite Hlook.
      rewrite fmap_cons. cbn [fst].
      apply (f_equal (fun b : bool => if b then None else acc !! k)).
      apply bool_decide_ext. rewrite elem_of_cons. split; [naive_solver|].
      intros [[->|Hin] Ho]; [congruence|done].
Qed.

Lemma filterHardDrainedNodes_spec (prefixes : PrefixEntries) :
  (forall na e, prefixes !! na = Some e -> is_Some (areaLinkStates !! na.2)) ->
  filterHardDrainedNodes areaLinkStates prefixes
  = Some (notHardDrained areaLinkStates prefixes).
Proof.
  intros Hareas. unfold filterHardDrainedNodes.
  destruct (hardDrainLoop_spec (map_to_list prefixes)) with (acc := prefixes)
    as (acc' & Hrun & Hlook).
  { intros [na e] Hin. apply elem_of_map_to_list in Hin. by eapply Hareas. }
  rewrite Hrun. simpl. f_equal. unfold notHardDrained.
  assert (acc' = filter (fun kv : NodeAndArea * RouteDb.PrefixEntry =>
                           overloadedAt areaLinkStates kv.1 = false) prefixes)
    as ->; [|done].
  apply map_eq. intros k. rewrite Hlook.
  destruct (prefixes !! k) as [e|] eqn:Hk.
  - destruct (overloadedAt areaLinkStates k) eqn:Ho.
    + rewrite bool_decide_eq_true_2.
      * symmetry. apply map_lookup_filter_None. right. intros e' _. simpl.
        congruence.
      * split; [|done]. apply list_elem_of_fmap. exists (k, e).
        split; [done|]. by apply elem_of_map_to_list.
    + rewrite bool_decide_eq_false_2 by (intros [_ ?]; congruence).
      symmetry. by apply map_lookup_filter_Some.
  - case_bool_decide; symmetry; apply map_lookup_filter_None; by left.
Qed.

Lemma softDrainAt_le_max na : softDrainAt areaLinkStates na <= INT32_MAX.
Proof.
  unfold softDrainAt. destruct (areaLinkStates !! na.2); [|done].
  apply to_int32_range.
Qed.

Lemma softDrainStep_inv st p na e :
  softInv st p ->
  na ∉ p.*1 ->
  is_Some (areaLinkStates !! na.2) ->
  exists st', softDrainStep areaLinkStates st (na, e) = Some st' /\
              softInv st' (p ++ [(na, e)]).
Proof.
  intros (Hlow & Hinit & Hatt & Hfe) Hfresh [ls Hls].
  unfold softDrainStep. simpl. rewrite Hls. simpl.
  assert (softDrainValue ls na.1 = softDrainAt areaLinkStates na) as Hv
    by (unfold softDrainAt; by rewrite Hls).
  rewrite Hv. set (v := softDrainAt areaLinkStates na).
  assert (forall e', (na, e') ∉ p) as Hfresh'.
  { intros e' Hin. apply Hfresh. apply list_elem_of_fmap. by exists (na, e'). }
  assert (st.2 !! na = None) as Hnone.
  { destruct (st.2 !! na) as [e'|] eqn:Hl; [|done].
    apply Hfe in Hl as [Hin _]. by apply Hfresh' in Hin. }
  assert (forall kv : NodeAndArea * RouteDb.PrefixEntry,
            kv ∈ p ++ [(na, e)] <-> kv ∈ p \/ kv = (na, e)) as Happ.
  { intros kv. by rewrite elem_of_app, list_elem_of_singleton. }
  assert (p ++ [(na, e)] <> []) as Hnonnil.
  { intros Hnil. by apply app_nil in Hnil as [_ ?]. }
  destruct (Z.ltb_spec v st.1) as [Hlt|Hge].
  - cbn [fst snd]. rewrite bool_decide_eq_true_2 by done. rewrite lookup_empty.
    eexists. split; [done|]. split; [|split; [|split]]; cbn [fst snd].
    + intros kv [Hin| ->]%Happ; [apply Hlow in Hin; lia|]. cbn [fst]. fold v. lia.
    + done.
    + intros _. exists (na, e). split; [|done]. apply Happ. by right.
    + intros k e'. rewrite Happ. split.
      * intros Hl. apply lookup_insert_Some in Hl as [[<- <-]|[_ Hl]];
          [|by rewrite lookup_empty in Hl].
        split; [by right|done].
      * intros [[Hin|Hin] Hsoft].
        -- apply Hlow in Hin. cbn [fst] in Hin. lia.
        -- injection Hin as -> ->. apply lookup_insert_eq.
  - cbn [fst snd]. case_bool_decide as Heq.
    + rewrite Hnone. eexists. split; [done|].
      split; [|split; [|split]]; cbn [fst snd].
      * intros kv [Hin| ->]%Happ; [by apply Hlow|]. cbn [fst]. fold v. lia.
      * done.
      * intros _. exists (na, e). split; [|done]. apply Happ. by right.
      * intros k e'. rewrite Happ. split.
        -- intros Hl. apply lookup_insert_Some in Hl as [[<- <-]|[_ Hl]].
           ++ split; [by right|done].
           ++ apply Hfe in Hl as [Hin ?]. split; [by left|done].
        -- intros [[Hin|Hin] Hsoft].
           ++ assert (k <> na) as Hne
                by (intros ->; by apply Hfresh' in Hin).
              rewrite lookup_insert_ne by done. by apply Hfe.
           ++ injection Hin as -> ->. apply lookup_insert_eq.
    + assert (st.1 < v) as Hgt by lia.
      assert (p <> []) as Hne.
      { intros Hnil. apply Hinit in Hnil.
        pose proof (softDrainAt_le_max na) as Hmax. fold v in Hmax. lia. }
      eexists. split; [done|]. split; [|split; [|split]]; cbn [fst snd].
      * intros kv [Hin| ->]%Happ; [by apply Hlow|]. cbn [fst]. fold v. lia.
      * done.
      * intros _. destruct (Hatt Hne) as (kv & Hin & Hkv). exists kv.
        split; [|done]. apply Happ. by left.
      * intros k e'. rewrite Happ. split.
        -- intros Hl. apply Hfe in Hl as [Hin ?]. split; [by left|done].
        -- intros [[Hin|Hin] Hsoft]; [by apply Hfe|].
           injection Hin as -> ->. fold v in Hsoft. lia.
Qed.

Lemma softDrainLoop_spec (l : list (NodeAndArea * RouteDb.PrefixEntry)) :
  forall p st,
    softInv st p ->
    NoDup (p ++ l).*1 ->
    (forall kv, kv ∈ l -> is_Some (areaLinkStates !! kv.1.2)) ->
    exists st', foldlM (softDrainStep areaLinkStates) st l = Some st' /\
                softInv st' (p ++ l).
Proof.
  induction l as [|[na e] l IH]; intros p st Hinv Hnd Hareas; simpl.
  - exists st. by rewrite app_nil_r.
  - destruct (softDrainStep_inv st p na e Hinv) as (st1 & Hstep & Hinv1).
    + rewrite fmap_app in Hnd. apply NoDup_app in Hnd as (_ & Hdisj & _).
      intros Hin. apply (Hdisj na Hin). simpl. left.
    + apply (Hareas (na, e)). left.
    + rewrite Hstep.
      destruct (IH (p ++ [(na, e)]) st1 Hinv1) as (st' & Hrun & Hinv').
      * by rewrite <- app_assoc.
      * intros kv Hkv. apply Hareas. by right.
      * exists st'. split; [done|]. by rewrite <- app_assoc in Hinv'.
Qed.

Lemma filterSoftDrainedNodes_spec (prefixes : PrefixEntries) :
  (forall na e, prefixes !! na = Some e -> is_Some (areaLinkStates !! na.2)) ->
  exists result,
    filterSoftDrainedNodes areaLinkStates prefixes = Some result /\
    forall na e,
      result !! na = Some e <->
      prefixes !! na = Some e /\
      forall na' e', prefixes !! na' = Some e' ->
        softDrainAt areaLinkStates na <= softDrainAt areaLinkStates na'.
Proof.
  intros Hareas. unfold filterSoftDrainedNodes.
  destruct (softDrainLoop_spec (map_to_list prefixes) [] (INT32_MAX, ∅))
    as ([m fe] & Hrun & Hlow & Hinit & Hatt & Hfe).
  - split; [|split; [|split]]; cbn [fst snd]; try done.
    + intros kv Hin. by apply elem_of_nil in Hin.
    + intros k e. rewrite lookup_empty. split; [done|].
      intros [Hin _]. by apply elem_of_nil in Hin.
  - rewrite app_nil_l. apply NoDup_fst_map_to_list.
  - intros [na e] Hin. apply elem_of_map_to_list in Hin. by eapply Hareas.
  - rewrite Hrun. simpl in *. exists fe. split; [done|].
    intros na e. rewrite Hfe, elem_of_map_to_list. split.
    + intros [Hin Hsoft]. split; [done|]. intros na' e' Hin'.
      rewrite Hsoft. apply (Hlow (na', e')). by apply elem_of_map_to_list.
    + intros [Hin Hmin]. split; [done|].
      destruct Hatt as ([na0 e0] & Hin0 & Hsoft0).
      { intros Hnil. apply elem_of_map_to_list in Hin. rewrite Hnil in Hin.
        by apply elem_of_nil in Hin. }
      simpl in Hsoft0. apply elem_of_map_to_list in Hin0.
      specialize (Hmin na0 e0 Hin0).
      pose proof (Hlow (na, e)) as Hl. simpl in Hl.
      rewrite elem_of_map_to_list in Hl. specialize (Hl Hin). lia.
Qed.

End DrainFacts.

(** C7: [filterDrainedNodes] first removes every hard-drained candidate,
    unless all candidates are hard-drained, in which case all are kept, and
    then keeps exactly the remaining candidates whose soft-drain value is the
    least among them.  The soft-drain value is the node's metric increment as
    the code reads it into an [int], which for an advertised 32-bit increment
    is the increment itself ([to_int32_to_uint64]).  (The candidates' areas
    have a link state, or [areaLinkStates.at] throws.) *)
Theorem C7_filterDrainedNodes
    (areaLinkStates : gmap string LinkState.t)
    (prefixes : gmap SpfSolver.NodeAndArea RouteDb.PrefixEntry) :
  prefixes <> ∅ ->
  (forall na e, prefixes !! na = Some e -> is_Some (areaLinkStates !! na.2)) ->
  SpfSolver.filterHardDrainedNodes areaLinkStates prefixes
  = Some (SpfSolver.notHardDrained areaLinkStates prefixes) /\
  exists result,
    SpfSolver.filterDrainedNodes areaLinkStates prefixes = Some result /\
    forall na e,
      result !! na = Some e <->
      SpfSolver.notHardDrained areaLinkStates prefixes !! na = Some e /\
      forall na' e',
        SpfSolver.notHardDrained areaLinkStates prefixes !! na' = Some e' ->
        SpfSolver.softDrainAt areaLinkStates na
        <= SpfSolver.softDrainAt areaLinkStates na'.
Proof.
  intros _ Hareas.
  pose proof (filterHardDrainedNodes_spec areaLinkStates prefixes Hareas) as Hh.
  split; [done|].
  unfold SpfSolver.filterDrainedNodes. rewrite Hh. simpl.
  apply filterSoftDrainedNodes_spec.
  intros na e Hin. apply (Hareas na e).
  unfold SpfSolver.notHardDrained in Hin.
  case_bool_decide; [done|].
  by apply map_lookup_filter_Some in Hin as [? _].
Qed.

Lemma samplePrefixEntries_nonempty : samplePrefixEntries <> ∅.
Proof. apply insert_non_empty. Qed.

Lemma samplePrefixEntries_areas na e :
  samplePrefixEntries !! na = Some e ->
  is_Some (sampleAreaLinkStates !! na.2).
Proof.
  unfold samplePrefixEntries. intros Hl.
  assert (na.2 = "0") as ->.
  { repeat (apply lookup_insert_Some in Hl as [[<- _]|[_ Hl]]; [done|]).
    by apply lookup_singleton_Some in Hl as [<- _]. }
  eexists. apply lookup_singleton_eq.
Qed.

Lemma C7_filterDrainedNodes_witness :
  samplePrefixEntries <> ∅ /\
  (forall na e, samplePrefixEntries !! na = Some e ->
                is_Some (sampleAreaLinkStates !! na.2)) /\
  exists result,
    SpfSolver.filterDrainedNodes sampleAreaLinkStates samplePrefixEntries
    = Some result /\
    forall na e,
      result !! na = Some e <->
      SpfSolver.notHardDrained sampleAreaLinkStates samplePrefixEntries !! na
      = Some e /\
      forall na' e',
        SpfSolver.notHardDrained sampleAreaLinkStates samplePrefixEntries !! na'
        = Some e' ->
        SpfSolver.softDrainAt sampleAreaLinkStates na
        <= SpfSolver.softDrainAt sampleAreaLinkStates na'.
Proof.
  split; [exact samplePrefixEntries_nonempty|].
  split; [exact samplePrefixEntries_areas|].
  exact (proj2 (C7_filterDrainedNodes sampleAreaLinkStates samplePrefixEntries
                  samplePrefixEntries_nonempty samplePrefixEntries_areas)).
Defined.

(** On the sample, only the undrained node n3 is left. *)
Example filterDrainedNodes_sample :
  map_to_list <$>
    SpfSolver.filterDrainedNodes sampleAreaLinkStates samplePrefixEntries
  = Some [(("n3", "0"), samplePrefixEntry)].
Proof. vm_compute. reflexivity. Qed.

(** ** The priority queue *)

Section DijkstraQFacts.
Import LinkState.
Context {R : Type}.
Variable metricOf : R -> Z.

Lemma qMin_elem (best : string * R) (q : DijkstraQ R) :
  qMin metricOf best q = best \/ qMin metricOf best q ∈ q.
Proof.
  revert best. induction q as [|n q IH]; intros best; simpl; [by left|].
  destruct (qBefore metricOf best n).
  - destruct (IH best) as [->|Hin]; [by left|right; by right].
  - destruct (IH n) as [->|Hin]; right; [left|by right].
Qed.

Lemma qExtractMin_eq (q q' : DijkstraQ R) (n : string * R) :
  qExtractMin metricOf q = Some (n, q') ->
  n ∈ q /\
  q' = List.filter (fun x : string * R => negb (bool_decide (x.1 = n.1))) q.
Proof.
  destruct q as [|a q]; [done|]. intros Hq.
  change (Some (qMin metricOf a q,
                List.filter (fun x : string * R =>
                               negb (bool_decide (x.1 = (qMin metricOf a q).1)))
                  (a :: q)) = Some (n, q')) in Hq.
  injection Hq as Hn Hq. subst n q'. split; [|done].
  destruct (qMin_elem a q) as [->|Hin]; [left|by right].
Qed.

Lemma qExtractMin_Some (q q' : DijkstraQ R) (n : string * R) :
  qExtractMin metricOf q = Some (n, q') ->
  n ∈ q /\ (forall x, x ∈ q' <-> x ∈ q /\ x.1 <> n.1).
Proof.
  intros [Hin ->]%qExtractMin_eq. split; [done|].
  intros x. rewrite !list_elem_of_In, filter_In, negb_true_iff.
  rewrite bool_decide_eq_false. tauto.
Qed.

Lemma NoDup_filter_fst (f : string * R -> bool) (q : DijkstraQ R) :
  NoDup q.*1 -> NoDup (List.filter f q).*1.
Proof.
  induction q as [|x q IH]; [done|]. rewrite fmap_cons. intros Hnd.
  apply NoDup_cons in Hnd as [Hx Hnd]. cbn [List.filter].
  destruct (f x); [|by apply IH]. rewrite fmap_cons. apply NoDup_cons.
  split; [|by apply IH]. intros Hin. apply Hx.
  apply list_elem_of_fmap in Hin as (y & -> & Hy).
  apply list_elem_of_In, filter_In in Hy as [Hy _].
  apply list_elem_of_fmap. exists y. split; [done|]. by apply list_elem_of_In.
Qed.

Lemma qExtractMin_NoDup (q q' : DijkstraQ R) (n : string * R) :
  qExtractMin metricOf q = Some (n, q') -> NoDup q.*1 -> NoDup q'.*1.
Proof. intros [_ ->]%qExtractMin_eq. apply NoDup_filter_fst. Qed.

Lemma qExtractMin_None (q : DijkstraQ R) :
  qExtractMin metricOf q = None -> q = [].
Proof. by destruct q. Qed.

Lemma qGet_Some (q : DijkstraQ R) (name : string) (r : R) :
  qGet name q = Some r -> (name, r) ∈ q.
Proof.
  unfold qGet. intros Hg. apply fmap_Some in Hg as ([n r'] & Hf & ->).
  apply find_some in Hf as [Hin Hn]. apply bool_decide_eq_true_1 in Hn.
  simpl in *. subst. by apply list_elem_of_In.
Qed.

Lemma qGet_None (q : DijkstraQ R) (name : string) :
  qGet name q = None -> name ∉ q.*1.
Proof.
  unfold qGet. intros Hg. apply fmap_None in Hg.
  intros Hin. apply list_elem_of_fmap in Hin as ([n r] & -> & Hin).
  apply list_elem_of_In in Hin.
  apply (find_none _ _ Hg) in Hin. simpl in Hin.
  by apply bool_decide_eq_false_1 in Hin.
Qed.

Lemma qSetResult_elem (q : DijkstraQ R) (name : string) (r : R) (x : string * R) :
  x ∈ qSetResult name r q -> x ∈ q \/ x = (name, r).
Proof.
  unfold qSetResult. intros Hin. apply list_elem_of_fmap in Hin as (y & -> & Hy).
  case_bool_decide as Hn; [right; by rewrite Hn|by left].
Qed.

Lemma qSetResult_names (q : DijkstraQ R) (name : string) (r : R) :
  (qSetResult name r q).*1 = q.*1.
Proof.
  unfold qSetResult. induction q as [|[n r'] q IH]; [done|].
  rewrite !fmap_cons. simpl. rewrite <- IH. by case_bool_decide.
Qed.

Lemma qInsertNode_elem (q : DijkstraQ R) (name : string) (r : R) (x : string * R) :
  x ∈ qInsertNode name r q <-> x ∈ q \/ x = (name, r).
Proof. unfold qInsertNode. by rewrite elem_of_app, list_elem_of_singleton. Qed.

End DijkstraQFacts.

(** ** SPF *)

Section SpfFacts.
Import LinkState.
Variable ls : LinkState.t.
Variable thisNodeName : string.
Variable useLinkMetric : bool.
Variable linksToIgnore : LinkSet.

Abbreviation good := (goodNode ls thisNodeName useLinkMetric linksToIgnore).
Abbreviation relax := (relaxLink useLinkMetric linksToIgnore).
Abbreviation loop := (spfLoop ls thisNodeName useLinkMetric linksToIgnore).

(** Recording more nodes keeps what was established. *)
Lemma goodNode_mono (result result' : SpfResult) (r : NodeSpfResult) :
  result ⊆ result' -> good result r -> good result' r.
Proof.
  intros Hsub Hg p Hp. destruct (Hg p Hp) as [Ht (rp & c & Hrp & Hc & Hm) Hi Hu Ho].
  split; try done. exists rp, c. split; [|done].
  by eapply lookup_weaken.
Qed.

Lemma good_resetResult (result : SpfResult) (m : Z) :
  good result (resetResult m).
Proof. intros p Hp. by apply elem_of_nil in Hp. Qed.

(** One relaxation keeps every queued node good. *)
Lemma relaxLink_good (result : SpfResult) (recordedName : string)
    (recorded : NodeSpfResult) (q q' : DijkstraQ NodeSpfResult) (l : Link) :
  result !! recordedName = Some recorded ->
  isNodeOverloaded ls recordedName = false \/ recordedName = thisNodeName ->
  l ∈ linksFromNode ls recordedName ->
  (forall x, x ∈ q -> good result x.2) ->
  relax result recordedName (metric recorded) (nextHops recorded) q l = Some q' ->
  forall x, x ∈ q' -> good result x.2.
Proof.
  intros Hrec Htransit Hl Hq. unfold relaxLink.
  destruct (getOtherNodeName l recordedName) as [other|] eqn:Hother;
    cbn [mbind option_bind]; [|done].
  destruct (negb (isUp l) || bool_decide (is_Some (result !! other))
            || linkSetCount linksToIgnore l) eqn:Hskip.
  { intros [= <-]. done. }
  apply orb_false_iff in Hskip as [Hskip Hign].
  apply orb_false_iff in Hskip as [Hup Hseen].
  apply negb_false_iff in Hup.
  destruct (if useLinkMetric then getMetricFromNode l recordedName else Some 1)
    as [c|] eqn:Hcost; cbn [mbind option_bind]; [|done].
  set (m := metricAdd (metric recorded) c).
  set (q1 := match qGet other q with
             | Some _ => q
             | None => qInsertNode other (resetResult m) q
             end).
  assert (forall x, x ∈ q1 -> good result x.2) as Hq1.
  { intros x Hx. subst q1. destruct (qGet other q); [by apply Hq|].
    apply qInsertNode_elem in Hx as [Hx| ->]; [by apply Hq|].
    apply good_resetResult. }
  destruct (qGet other q1) as [otherNode|] eqn:Hget;
    cbn [mbind option_bind]; [|done].
  apply qGet_Some in Hget. apply Hq1 in Hget. cbn [snd] in Hget.
  destruct (Z.leb_spec m (metric otherNode)) as [Hle|Hgt];
    [|intros [= <-]; done].
  intros [= <-] x Hx. apply qSetResult_elem in Hx as [Hx| ->]; [by apply Hq1|].
  cbn [snd].
  set (r1 := if m <? metric otherNode then resetResult m else otherNode).
  assert (good result r1 /\ metric r1 = m) as [Hr1 Hm1].
  { subst r1. destruct (Z.ltb_spec m (metric otherNode)).
    - split; [apply good_resetResult|done].
    - split; [done|lia]. }
  assert (forall r, metric r = m ->
            pathLinks r = pathLinks r1 ++ [mkPathLink l recordedName] ->
            good result r) as Hfinal.
  { intros r Hmr Hpl p Hp. rewrite Hpl in Hp. rewrite Hmr.
    apply elem_of_app in Hp as [Hp|Hp%list_elem_of_singleton].
    - rewrite <- Hm1. by apply Hr1.
    - subst p. split; cbn [link prevNode]; try done.
      exists recorded, c. done. }
  apply Hfinal;
    destruct (bool_decide (nextHops r1 ∪ nextHops recorded = ∅));
    first [exact Hm1|reflexivity].
Qed.

Lemma relaxLinks_good (result : SpfResult) (recordedName : string)
    (recorded : NodeSpfResult) (links : list Link) :
  result !! recordedName = Some recorded ->
  isNodeOverloaded ls recordedName = false \/ recordedName = thisNodeName ->
  (forall l, l ∈ links -> l ∈ linksFromNode ls recordedName) ->
  forall q q',
    (forall x, x ∈ q -> good result x.2) ->
    foldlM (relax result recordedName (metric recorded) (nextHops recorded))
      q links = Some q' ->
    forall x, x ∈ q' -> good result x.2.
Proof.
  intros Hrec Htransit. induction links as [|l links IH]; intros Hsub q q' Hq;
    cbn [foldlM].
  - by intros [= <-].
  - destruct (relax result recordedName (metric recorded) (nextHops recorded)
                q l) as [q1|] eqn:Hstep; [|done].
    apply IH; [intros; apply Hsub; by right|].
    eapply relaxLink_good; [done|done| |done|done].
    apply Hsub. left.
Qed.

(** The SPF loop returns only good nodes. *)
Lemma spfLoop_good (fuel : nat) :
  forall q result R,
    (forall x, x ∈ q -> good result x.2) ->
    (forall n r, result !! n = Some r -> good result r) ->
    loop fuel q result = Some R ->
    forall n r, R !! n = Some r -> good R r.
Proof.
  induction fuel as [|fuel IH]; intros q result R Hq Hres; cbn [spfLoop];
    [done|].
  destruct (qExtractMin metric q) as [[[name nodeResult] q']|] eqn:Hext.
  2:{ intros [= <-]. done. }
  apply qExtractMin_Some in Hext as [Hin Hq'].
  destruct (result !! name) eqn:Hfresh; [done|].
  set (result' := <[name := nodeResult]> result).
  assert (result ⊆ result') as Hsub by by apply insert_subseteq.
  assert (forall x, x ∈ q' -> good result' x.2) as Hgq'.
  { intros x Hx. apply goodNode_mono with result; [done|].
    apply Hq. by apply Hq'. }
  assert (forall n r, result' !! n = Some r -> good result' r) as Hres'.
  { intros n r Hl. apply goodNode_mono with result; [done|].
    apply lookup_insert_Some in Hl as [[<- <-]|[_ Hl]]; [|by eapply Hres].
    by apply (Hq _ Hin). }
  destruct (isNodeOverloaded ls name
            && negb (bool_decide (name = thisNodeName))) eqn:Hdrain.
  - by apply IH.
  - destruct (foldlM _ q' (linksFromNode ls name)) as [q''|] eqn:Hrelax;
      cbn [mbind option_bind]; [|done].
    apply IH; [|done].
    eapply (relaxLinks_good result' name nodeResult); [| | |exact Hgq'|exact Hrelax].
    + apply lookup_insert_eq.
    + apply andb_false_iff in Hdrain as [?|Hsrc]; [by left|right].
      apply negb_false_iff in Hsrc. by apply bool_decide_eq_true_1 in Hsrc.
    + done.
Qed.

Lemma runSpf_good (R : SpfResult) :
  runSpf ls thisNodeName useLinkMetric linksToIgnore = Some R ->
  forall n r, R !! n = Some r -> good R r.
Proof.
  unfold runSpf. apply spfLoop_good.
  - intros x Hx. apply qInsertNode_elem in Hx as [Hx| ->];
      [by apply elem_of_nil in Hx|]. apply good_resetResult.
  - intros n r Hl. by rewrite lookup_empty in Hl.
Qed.

End SpfFacts.

(** ** SPF terminates within its budget *)

Lemma size_list_to_set_le (l : list string) :
  (size (list_to_set l : gset string) <= length l)%nat.
Proof.
  induction l as [|x l IH]; cbn [list_to_set foldr length].
  - by rewrite size_empty.
  - rewrite size_union_alt, size_singleton.
    assert (size (list_to_set l ∖ {[x]} : gset string)
            <= size (list_to_set l : gset string))%nat; [|lia].
    apply subseteq_size. set_solver.
Qed.

Section SpfTotal.
Import LinkState.
Variable ls : LinkState.t.
Variable thisNodeName : string.
Variable useLinkMetric : bool.
Variable linksToIgnore : LinkSet.
Hypothesis Hwf : wfLinkMap ls.

Abbreviation spfNodes := (reachableNodes ls thisNodeName).
Abbreviation spfState := (spfLoopState ls thisNodeName).

Lemma linkEnds_elem (n other : string) (l : Link) :
  l ∈ linksFromNode ls n -> getOtherNodeName l n = Some other ->
  other ∈ linkEnds ls.
Proof.
  unfold linksFromNode, linkEnds. intros Hl Ho.
  destruct (linkMap_ ls !! n) as [links|] eqn:Hn;
    [|by apply elem_of_nil in Hl].
  apply list_elem_of_In, in_flat_map. exists (n, links). split.
  - apply list_elem_of_In. by apply elem_of_map_to_list.
  - apply list_elem_of_In. apply list_elem_of_omap. by exists l.
Qed.

Lemma spfNodes_size : (size spfNodes <= S (length (linkEnds ls)))%nat.
Proof.
  unfold spfNodes. rewrite size_union_alt, size_singleton.
  assert (size (list_to_set (linkEnds ls) ∖ {[thisNodeName]} : gset string)
          <= length (linkEnds ls))%nat; [|lia].
  etransitivity; [|apply size_list_to_set_le].
  apply subseteq_size. set_solver.
Qed.

Lemma qGet_qInsertNode_fresh {R : Type} (q : DijkstraQ R) (n : string) (r : R) :
  qGet n q = None -> qGet n (qInsertNode n r q) = Some r.
Proof.
  unfold qGet, qInsertNode. intros Hnone. apply fmap_None in Hnone.
  induction q as [|[n' r'] q IH]; simpl in *.
  - by rewrite bool_decide_eq_true_2.
  - destruct (bool_decide (n' = n)); [done|]. by apply IH.
Qed.

Lemma relaxLink_total (result : SpfResult) (recordedName : string)
    (m : Z) (nhs : gset string) (q : DijkstraQ NodeSpfResult) (l : Link) :
  l ∈ linksFromNode ls recordedName ->
  spfState q result ->
  exists q',
    relaxLink useLinkMetric linksToIgnore result recordedName m nhs q l
    = Some q' /\ spfState q' result.
Proof.
  intros Hl [Hnd Hfresh Hqueued Hrec]. unfold relaxLink.
  assert (is_Some (getOtherNodeName l recordedName)) as [other Hother].
  { unfold linksFromNode in Hl.
    destruct (linkMap_ ls !! recordedName) as [links|] eqn:Hn;
      [by eapply Hwf|by apply elem_of_nil in Hl]. }
  rewrite Hother. cbn [mbind option_bind].
  destruct (negb (isUp l) || bool_decide (is_Some (result !! other))
            || linkSetCount linksToIgnore l) eqn:Hskip.
  { by exists q. }
  apply orb_false_iff in Hskip as [Hskip _].
  apply orb_false_iff in Hskip as [_ Hseen].
  apply bool_decide_eq_false_1 in Hseen.
  assert (result !! other = None) as Hnone.
  { destruct (result !! other) eqn:Hr; [|done]. exfalso. apply Hseen. eauto. }
  assert (is_Some (if useLinkMetric then getMetricFromNode l recordedName
                   else Some 1)) as [c Hc].
  { destruct useLinkMetric; [|by eexists].
    unfold getOtherNodeName, getMetricFromNode, fromNode in *.
    repeat case_bool_decide; try done; by eexists. }
  rewrite Hc. cbn [mbind option_bind].
  set (q1 := match qGet other q with
             | Some _ => q
             | None => qInsertNode other (resetResult (metricAdd m c)) q
             end).
  assert (spfState q1 result /\ is_Some (qGet other q1)) as [[Hnd1 Hf1 Hq1 _] [o Ho]].
  { subst q1. destruct (qGet other q) as [r|] eqn:Hg; [by split|].
    split; [|rewrite (qGet_qInsertNode_fresh _ _ _ Hg); by eexists].
    apply qGet_None in Hg. unfold qInsertNode. split; [| | |done].
    - rewrite fmap_app. apply NoDup_app. split; [done|]. split.
      + intros x Hx Hx'. apply list_elem_of_singleton in Hx'. by subst.
      + apply NoDup_singleton.
    - intros n. rewrite fmap_app, elem_of_app.
      intros [Hn|Hn%list_elem_of_singleton]; [by apply Hfresh|by subst].
    - intros n. rewrite fmap_app, elem_of_app.
      intros [Hn|Hn%list_elem_of_singleton]; [by apply Hqueued|]. subst n.
      unfold spfNodes. apply elem_of_union_r, elem_of_list_to_set.
      by eapply linkEnds_elem. }
  rewrite Ho. cbn [mbind option_bind].
  destruct (metricAdd m c <=? metric o); [|by exists q1].
  eexists. split; [done|]. split; rewrite ?qSetResult_names; done.
Qed.

Lemma relaxLinks_total (result : SpfResult) (recordedName : string)
    (m : Z) (nhs : gset string) (links : list Link) :
  (forall l, l ∈ links -> l ∈ linksFromNode ls recordedName) ->
  forall q, spfState q result ->
  exists q',
    foldlM (relaxLink useLinkMetric linksToIgnore result recordedName m nhs)
      q links = Some q' /\ spfState q' result.
Proof.
  induction links as [|l links IH]; intros Hsub q Hq; cbn [foldlM].
  - by exists q.
  - destruct (relaxLink_total result recordedName m nhs q l) as (q1 & -> & Hq1);
      [apply Hsub; left|done|].
    apply IH; [intros; apply Hsub; by right|done].
Qed.

Lemma spfLoop_total (fuel : nat) :
  forall q result,
    spfState q result ->
    (size (spfNodes ∖ dom result) < fuel)%nat ->
    is_Some (spfLoop ls thisNodeName useLinkMetric linksToIgnore fuel q result).
Proof.
  induction fuel as [|fuel IH]; intros q result Hst Hfuel; [lia|].
  cbn [spfLoop].
  destruct (qExtractMin metric q) as [[[name nodeResult] q']|] eqn:Hext;
    [|by eexists].
  destruct Hst as [Hnd Hfresh Hqueued Hrec].
  pose proof Hext as Hext'. apply qExtractMin_Some in Hext' as [Hin Hq'].
  assert (name ∈ q.*1) as Hname.
  { apply list_elem_of_fmap. by exists (name, nodeResult). }
  rewrite (Hfresh name Hname).
  set (result' := <[name := nodeResult]> result).
  assert (spfState q' result') as Hst'.
  { split.
    - by eapply qExtractMin_NoDup.
    - intros n Hn. apply list_elem_of_fmap in Hn as (y & -> & Hy).
      apply Hq' in Hy as [Hy Hne]. cbn [fst] in Hne.
      unfold result'. rewrite lookup_insert_ne by done.
      apply Hfresh. apply list_elem_of_fmap. by exists y.
    - intros n Hn. apply Hqueued.
      apply list_elem_of_fmap in Hn as (y & -> & Hy).
      apply Hq' in Hy as [Hy _]. apply list_elem_of_fmap. by exists y.
    - unfold result'. rewrite dom_insert_L.
      apply union_subseteq. split; [|done].
      apply singleton_subseteq_l. by apply Hqueued. }
  assert (size (spfNodes ∖ dom result') < fuel)%nat as Hfuel'.
  { assert (spfNodes ∖ dom result' ⊂ spfNodes ∖ dom result) as Hsub.
    { unfold result'. rewrite dom_insert_L. apply strict_spec_alt. split.
      - set_solver.
      - assert (name ∈ spfNodes ∖ dom result) as Hmem.
        { apply elem_of_difference. split; [by apply Hqueued|].
          apply not_elem_of_dom. by apply Hfresh. }
        intros Heq. rewrite <- Heq in Hmem. set_solver. }
    apply subset_size in Hsub. lia. }
  destruct (isNodeOverloaded ls name
            && negb (bool_decide (name = thisNodeName))).
  - by apply IH.
  - destruct (relaxLinks_total result' name (metric nodeResult)
                (nextHops nodeResult) (linksFromNode ls name)
                ltac:(done) q' Hst') as (q'' & -> & Hst'').
    cbn [mbind option_bind]. by apply IH.
Qed.

(** On a well-formed link map [runSpf] returns a result. *)
Lemma runSpf_total :
  is_Some (runSpf ls thisNodeName useLinkMetric linksToIgnore).
Proof.
  unfold runSpf. apply spfLoop_total.
  - split.
    + apply NoDup_singleton.
    + intros n _. apply lookup_empty.
    + intros n Hn. apply list_elem_of_singleton in Hn as ->.
      unfold spfNodes. set_solver.
    + rewrite dom_empty_L. set_solver.
  - rewrite dom_empty_L, difference_empty_L. unfold spfFuel.
    pose proof spfNodes_size. lia.
Qed.

End SpfTotal.

(** The link map built by [addLink] is well formed, so SPF returns a result
    on every link state built from links. *)
Lemma firstNodeName_end (l : LinkState.Link) :
  is_Some (LinkState.getOtherNodeName l (LinkState.firstNodeName l)).
Proof.
  unfold LinkState.getOtherNodeName, LinkState.fromNode,
    LinkState.firstNodeName, LinkState.orderedNames.
  destruct (LinkState.pairLtb _ _); cbn [fst snd];
    repeat case_bool_decide; by eauto.
Qed.

Lemma secondNodeName_end (l : LinkState.Link) :
  is_Some (LinkState.getOtherNodeName l (LinkState.secondNodeName l)).
Proof.
  unfold LinkState.getOtherNodeName, LinkState.fromNode,
    LinkState.secondNodeName, LinkState.orderedNames.
  destruct (LinkState.pairLtb _ _); cbn [fst snd];
    repeat case_bool_decide; by eauto.
Qed.

Lemma empty_wfLinkMap (area : string) :
  LinkState.wfLinkMap (LinkState.empty area).
Proof.
  intros n links l. unfold LinkState.empty. cbn [LinkState.linkMap_].
  by rewrite lookup_empty.
Qed.

Lemma addLink_wfLinkMap (l : LinkState.Link) (ls ls' : LinkState.t) :
  LinkState.wfLinkMap ls -> LinkState.addLink l ls = Some ls' ->
  LinkState.wfLinkMap ls'.
Proof.
  intros Hwf. unfold LinkState.addLink.
  assert (forall (m : gmap string LinkState.LinkSet) n,
            (forall k links l0, m !! k = Some links -> l0 ∈ links ->
               is_Some (LinkState.getOtherNodeName l0 k)) ->
            is_Some (LinkState.getOtherNodeName l n) ->
            forall k links l0,
              <[n := (LinkState.linkSetInsert (default [] (m !! n)) l).1]> m
                !! k = Some links ->
              l0 ∈ links -> is_Some (LinkState.getOtherNodeName l0 k)) as Hins.
  { intros m n Hm Hn k links l0.
    destruct (decide (n = k)) as [->|Hne].
    - rewrite lookup_insert_eq. intros [= <-].
      unfold LinkState.linkSetInsert.
      destruct (m !! k) as [s|] eqn:Hk; cbn [default];
        destruct (LinkState.linkSetCount _ l); cbn [fst].
      + by apply Hm.
      + intros [Hin| ->%list_elem_of_singleton]%elem_of_app; [|done].
        by eapply Hm.
      + by intros ?%elem_of_nil.
      + by intros [?%elem_of_nil| ->%list_elem_of_singleton]%elem_of_app.
    - rewrite lookup_insert_ne by done. apply Hm. }
  pose proof (Hins (LinkState.linkMap_ ls) (LinkState.firstNodeName l) Hwf
                (firstNodeName_end l)) as Hwf1.
  destruct (LinkState.linkSetInsert
              (default [] (LinkState.linkMap_ ls !! LinkState.firstNodeName l))
              l) as [s1 fresh1] eqn:H1.
  destruct fresh1; cbn [mbind option_bind fst] in *; [|done].
  pose proof (Hins _ (LinkState.secondNodeName l) Hwf1
                (secondNodeName_end l)) as Hwf2.
  destruct (LinkState.linkSetInsert
              (default [] (<[LinkState.firstNodeName l := s1]>
                             (LinkState.linkMap_ ls)
                           !! LinkState.secondNodeName l))
              l) as [s2 fresh2] eqn:H2.
  destruct fresh2; cbn [mbind option_bind fst] in *; [|done].
  destruct (LinkState.linkSetInsert (LinkState.allLinks_ ls) l)
    as [allLinks fresh3].
  destruct fresh3; [|done]. intros [= <-]. exact Hwf2.
Qed.

Lemma buildLinkState_wfLinkMap (links : list LinkState.Link)
    (ls : LinkState.t) :
  buildLinkState links = Some ls -> LinkState.wfLinkMap ls.
Proof.
  unfold buildLinkState.
  assert (forall ls0, LinkState.wfLinkMap ls0 ->
            foldlM (fun ls l => LinkState.addLink l ls) ls0 links = Some ls ->
            LinkState.wfLinkMap ls) as Hgen.
  { induction links as [|l links IH]; intros ls0 Hwf; cbn [foldlM].
    - by intros [= <-].
    - destruct (LinkState.addLink l ls0) as [ls1|] eqn:Hadd;
        cbn [mbind option_bind]; [|done].
      apply IH. by eapply addLink_wfLinkMap. }
  apply Hgen, empty_wfLinkMap.
Qed.

Lemma runSpf_total_built (links : list LinkState.Link) (ls : LinkState.t)
    (thisNodeName : string) (useLinkMetric : bool)
    (linksToIgnore : LinkState.LinkSet) :
  buildLinkState links = Some ls ->
  is_Some (LinkState.runSpf ls thisNodeName useLinkMetric linksToIgnore).
Proof. intros Hb. by eapply runSpf_total, buildLinkState_wfLinkMap. Qed.

(** ** What an SPF result records *)

Section SpfResultFacts.
Import LinkState.
Variable ls : LinkState.t.
Variable thisNodeName : string.
Variable useLinkMetric : bool.
Variable linksToIgnore : LinkSet.

(** The loop only adds to the recorded nodes. *)
Lemma spfLoop_extends (fuel : nat) :
  forall q result R,
    spfLoop ls thisNodeName useLinkMetric linksToIgnore fuel q result = Some R ->
    result ⊆ R.
Proof.
  induction fuel as [|fuel IH]; intros q result R; cbn [spfLoop]; [done|].
  destruct (qExtractMin metric q) as [[[name nodeResult] q']|];
    [|by intros [= <-]].
  destruct (result !! name) eqn:Hfresh; [done|].
  assert (result ⊆ <[name := nodeResult]> result) as Hsub
    by by apply insert_subseteq.
  destruct (isNodeOverloaded ls name
            && negb (bool_decide (name = thisNodeName))).
  - intros Hl. etransitivity; [exact Hsub|by eapply IH].
  - destruct (foldlM _ q' (linksFromNode ls name)) as [q''|];
      cbn [mbind option_bind]; [|done].
    intros Hl. etransitivity; [exact Hsub|by eapply IH].
Qed.

(** The source is recorded with metric 0 and no path link. *)
Lemma runSpf_source (R : SpfResult) :
  runSpf ls thisNodeName useLinkMetric linksToIgnore = Some R ->
  R !! thisNodeName = Some (resetResult 0).
Proof.
  unfold runSpf, spfFuel. cbn [spfLoop].
  change (qExtractMin metric (qInsertNode thisNodeName (resetResult 0) []))
    with (Some ((thisNodeName, resetResult 0),
                List.filter (fun x : string * NodeSpfResult =>
                               negb (bool_decide (x.1 = thisNodeName)))
                  [(thisNodeName, resetResult 0)])).
  cbn beta iota. rewrite lookup_empty.
  assert (forall q, spfLoop ls thisNodeName useLinkMetric linksToIgnore
                      (S (length (linkEnds ls))) q
                      (<[thisNodeName := resetResult 0]> ∅) = Some R ->
                    R !! thisNodeName = Some (resetResult 0)) as Hrest.
  { intros q Hl. apply spfLoop_extends in Hl.
    eapply lookup_weaken; [|exact Hl]. apply lookup_insert_eq. }
  destruct (isNodeOverloaded ls thisNodeName
            && negb (bool_decide (thisNodeName = thisNodeName))).
  - apply Hrest.
  - destruct (foldlM _ _ (linksFromNode ls thisNodeName)) as [q''|];
      cbn [mbind option_bind]; [apply Hrest|done].
Qed.

Lemma runSpf_pathChain (R : SpfResult) (D : string) (m : Z) :
  runSpf ls thisNodeName useLinkMetric linksToIgnore = Some R ->
  pathChain useLinkMetric R thisNodeName D m ->
  exists r, R !! D = Some r /\ metric r = m.
Proof.
  intros Hrun Hchain.
  induction Hchain as [|D r p m c Hr Hp _ (rp & Hrp & Hm) Hc].
  - exists (resetResult 0). split; [by eapply runSpf_source|done].
  - exists r. split; [done|].
    destruct (runSpf_good ls thisNodeName useLinkMetric linksToIgnore R Hrun
                D r Hr p Hp) as [_ (rp' & c' & Hrp' & Hc' & Hmr) _ _ _].
    rewrite Hrp in Hrp'. injection Hrp' as <-.
    rewrite Hc in Hc'. injection Hc' as <-. by rewrite Hmr, Hm.
Qed.

End SpfResultFacts.

(** C3: in every result of [runSpf], a node that lies before a destination
    on a chain of recorded path links (a node whose adjacencies were relaxed)
    is the source or is not overloaded: an overloaded node other than the
    source can be recorded as a destination, but no recorded shortest path
    passes through it. *)
Theorem C3_no_transit_through_overloaded
    (ls : LinkState.t) (thisNodeName : string) (useLinkMetric : bool)
    (linksToIgnore : LinkState.LinkSet) (R : LinkState.SpfResult)
    (D n : string) :
  LinkState.runSpf ls thisNodeName useLinkMetric linksToIgnore = Some R ->
  LinkState.onRecordedPath R D n ->
  LinkState.isNodeOverloaded ls n = false \/ n = thisNodeName.
Proof.
  intros Hrun Hpath.
  induction Hpath as [D r p Hr Hp|D r p n Hr Hp _ IH]; [|exact IH].
  by destruct (runSpf_good ls thisNodeName useLinkMetric linksToIgnore R Hrun
                 D r Hr p Hp).
Qed.

Lemma sampleLineSpf_run :
  LinkState.runSpf sampleLineOverloaded "A" true [] = Some sampleLineSpf.
Proof. vm_compute. reflexivity. Qed.

Lemma sampleLineSpf_B :
  sampleLineSpf !! "B"
  = Some (LinkState.mkNodeSpfResult 1
            [LinkState.mkPathLink (sampleLink "A" "B" 1 1) "A"] {["B"]}).
Proof. vm_compute. reflexivity. Qed.

(** On the line A - B - C with B overloaded, SPF from A records B (through
    the link from A) and does not reach C. *)
Lemma C3_no_transit_through_overloaded_witness :
  LinkState.runSpf sampleLineOverloaded "A" true [] = Some sampleLineSpf /\
  LinkState.onRecordedPath sampleLineSpf "B" "A" /\
  LinkState.isNodeOverloaded sampleLineOverloaded "B" = true /\
  is_Some (sampleLineSpf !! "B") /\
  sampleLineSpf !! "C" = None /\
  (LinkState.isNodeOverloaded sampleLineOverloaded "A" = false \/ "A" = "A").
Proof.
  assert (LinkState.onRecordedPath sampleLineSpf "B" "A") as Hpath.
  { exact (LinkState.orp_prev sampleLineSpf "B" _
             (LinkState.mkPathLink (sampleLink "A" "B" 1 1) "A")
             sampleLineSpf_B (list_elem_of_here _ _)). }
  split; [exact sampleLineSpf_run|]. split; [exact Hpath|].
  split; [reflexivity|]. split; [eexists; exact sampleLineSpf_B|].
  split; [vm_compute; reflexivity|].
  exact (C3_no_transit_through_overloaded sampleLineOverloaded "A" true []
           sampleLineSpf "B" "A" sampleLineSpf_run Hpath).
Defined.

(** C4 (as amended): in every result [R] of [runSpf] from source [S], the
    metric of a recorded destination is the metric of the node before it on
    any of its path links plus the cost of that link, and hence the sum of the
    link costs along every chain of recorded path links from [S]; the cost of
    a link is its metric in the direction taken when [useLinkMetric] is set,
    and 1 otherwise, and sums are taken in [LinkStateMetric] arithmetic. *)
Theorem C4_metric_is_sum_of_link_costs
    (ls : LinkState.t) (thisNodeName : string) (useLinkMetric : bool)
    (linksToIgnore : LinkState.LinkSet) (R : LinkState.SpfResult) :
  LinkState.runSpf ls thisNodeName useLinkMetric linksToIgnore = Some R ->
  (forall D r p,
      R !! D = Some r -> p ∈ LinkState.pathLinks r ->
      exists rp c,
        R !! LinkState.prevNode p = Some rp /\
        LinkState.linkCost useLinkMetric (LinkState.link p)
          (LinkState.prevNode p) = Some c /\
        LinkState.metric r = LinkState.metricAdd (LinkState.metric rp) c) /\
  (forall D m,
      LinkState.pathChain useLinkMetric R thisNodeName D m ->
      exists r, R !! D = Some r /\ LinkState.metric r = m).
Proof.
  intros Hrun. split.
  - intros D r p Hr Hp.
    by destruct (runSpf_good ls thisNodeName useLinkMetric linksToIgnore R Hrun
                   D r Hr p Hp).
  - intros D m. by apply runSpf_pathChain with ls linksToIgnore.
Qed.

Lemma sampleTwoNodesSpf_run (useLinkMetric : bool) :
  LinkState.runSpf sampleTwoNodes "A" useLinkMetric []
  = Some (sampleTwoNodesSpf useLinkMetric).
Proof. destruct useLinkMetric; vm_compute; reflexivity. Qed.

Lemma sampleTwoNodesSpf_B (useLinkMetric : bool) :
  sampleTwoNodesSpf useLinkMetric !! "B"
  = Some (LinkState.mkNodeSpfResult (if useLinkMetric then 10 else 1)
            [LinkState.mkPathLink (sampleLink "A" "B" 10 10) "A"] {["B"]}).
Proof. destruct useLinkMetric; vm_compute; reflexivity. Qed.

Lemma sampleTwoNodesSpf_A (useLinkMetric : bool) :
  sampleTwoNodesSpf useLinkMetric !! "A" = Some (LinkState.resetResult 0).
Proof. destruct useLinkMetric; vm_compute; reflexivity. Qed.

Lemma C4_metric_is_sum_of_link_costs_witness :
  LinkState.runSpf sampleTwoNodes "A" true [] = Some (sampleTwoNodesSpf true) /\
  exists r, sampleTwoNodesSpf true !! "B" = Some r /\ LinkState.metric r = 10.
Proof.
  split; [exact (sampleTwoNodesSpf_run true)|].
  apply (proj2 (C4_metric_is_sum_of_link_costs sampleTwoNodes "A" true []
                  (sampleTwoNodesSpf true) (sampleTwoNodesSpf_run true))
           "B" 10).
  exact (LinkState.chain_cons true (sampleTwoNodesSpf true) "A" "B" _
           (LinkState.mkPathLink (sampleLink "A" "B" 10 10) "A") 0 10
           (sampleTwoNodesSpf_B true) (list_elem_of_here _ _)
           (LinkState.chain_nil true (sampleTwoNodesSpf true) "A") eq_refl).
Defined.

(** With [useLinkMetric = false] SPF counts hops: over one link of metric 10
    the destination is recorded with metric 1, not 0 + 10. *)
Lemma C4_hop_count_is_not_link_metric :
  ~ (forall (ls : LinkState.t) (thisNodeName : string) (useLinkMetric : bool)
            (linksToIgnore : LinkState.LinkSet) (R : LinkState.SpfResult)
            D r p,
        LinkState.runSpf ls thisNodeName useLinkMetric linksToIgnore = Some R ->
        R !! D = Some r -> p ∈ LinkState.pathLinks r ->
        exists rp c,
          R !! LinkState.prevNode p = Some rp /\
          LinkState.getMetricFromNode (LinkState.link p)
            (LinkState.prevNode p) = Some c /\
          LinkState.metric r = LinkState.metricAdd (LinkState.metric rp) c).
Proof.
  intros Hclaim.
  destruct (Hclaim sampleTwoNodes "A" false [] (sampleTwoNodesSpf false) "B" _
              (LinkState.mkPathLink (sampleLink "A" "B" 10 10) "A")
              (sampleTwoNodesSpf_run false) (sampleTwoNodesSpf_B false)
              (list_elem_of_here _ _)) as (rp & c & Hrp & Hc & Hm).
  cbn [LinkState.prevNode LinkState.link] in Hrp, Hc.
  rewrite sampleTwoNodesSpf_A in Hrp. injection Hrp as <-.
  vm_compute in Hc. injection Hc as <-. vm_compute in Hm. discriminate Hm.
Qed.

(** ** Link sets, path tracing and k-th shortest paths *)

Section KthPathFacts.
Import LinkState.

Lemma linkEqb_true (a b : Link) :
  linkEqb a b = true <-> orderedNames a = orderedNames b.
Proof. unfold linkEqb. apply bool_decide_eq_true. Qed.

Lemma linkSetCount_true (s : LinkSet) (l : Link) :
  linkSetCount s l = true <->
  exists x, x ∈ s /\ orderedNames l = orderedNames x.
Proof.
  unfold linkSetCount. rewrite existsb_exists. split.
  - intros (x & Hin & Heq). exists x. split; [by apply list_elem_of_In|].
    by apply linkEqb_true.
  - intros (x & Hin & Heq). exists x. split; [by apply list_elem_of_In|].
    by apply linkEqb_true.
Qed.

Lemma linkSetInsert_count (s : LinkSet) (l x : Link) :
  linkSetCount (linkSetInsert s l).1 x = true <->
  linkSetCount s x = true \/ orderedNames x = orderedNames l.
Proof.
  unfold linkSetInsert. destruct (linkSetCount s l) eqn:Hc; cbn [fst].
  - split; [by left|]. intros [?|Heq]; [done|].
    apply linkSetCount_true in Hc as (y & Hy & Hly).
    apply linkSetCount_true. exists y. split; [done|congruence].
  - rewrite !linkSetCount_true. split.
    + intros (y & [Hy|Hy%list_elem_of_singleton]%elem_of_app & Heq).
      * left. by exists y.
      * right. by subst.
    + intros [(y & Hy & Heq)|Heq].
      * exists y. split; [apply elem_of_app; by left|done].
      * exists l. split; [|done]. apply elem_of_app. right.
        by apply list_elem_of_singleton.
Qed.

Lemma insertLinks_count (path : Path) : forall (acc : LinkSet) (x : Link),
  linkSetCount (foldl (fun acc l => (linkSetInsert acc l).1) acc path) x = true
  <-> linkSetCount acc x = true \/
      exists l, l ∈ path /\ orderedNames x = orderedNames l.
Proof.
  induction path as [|l path IH]; intros acc x; cbn [foldl].
  - split; [by left|]. intros [?|(l & Hl & _)]; [done|].
    by apply elem_of_nil in Hl.
  - rewrite IH, linkSetInsert_count. split.
    + intros [[?|Heq]|(l' & Hl' & Heq)]; [by left| |].
      * right. exists l. split; [left|done].
      * right. exists l'. split; [by right|done].
    + intros [?|(l' & [->|Hl']%elem_of_cons & Heq)].
      * by left; left.
      * left. by right.
      * right. by exists l'.
Qed.

Lemma insertPathLinks_count (paths : list Path) :
  forall (acc : LinkSet) (x : Link),
    linkSetCount (insertPathLinks acc paths) x = true <->
    linkSetCount acc x = true \/
    exists q l, q ∈ paths /\ l ∈ q /\ orderedNames x = orderedNames l.
Proof.
  unfold insertPathLinks.
  induction paths as [|q paths IH]; intros acc x; cbn [foldl].
  - split; [by left|]. intros [?|(q & l & Hq & _)]; [done|].
    by apply elem_of_nil in Hq.
  - rewrite IH, insertLinks_count. split.
    + intros [[?|(l & Hl & Heq)]|(q' & l & Hq' & Hl & Heq)]; [by left| |].
      * right. exists q, l. split; [left|done].
      * right. exists q', l. split; [by right|done].
    + intros [?|(q' & l & [->|Hq']%elem_of_cons & Hl & Heq)].
      * by left; left.
      * left. right. by exists l.
      * right. by exists q', l.
Qed.

Lemma traceOnePath_recorded (result : SpfResult) (src : string) (fuel : nat) :
  forall dest visited path visited',
    traceOnePath fuel src dest result visited = Some (Some path, visited') ->
    forall l, l ∈ path -> recordedLink result l.
Proof.
  induction fuel as [|fuel IH]; intros dest visited path visited';
    cbn [traceOnePath]; [done|].
  case_bool_decide as Hsrc.
  { intros [= <- _] l Hl. by apply elem_of_nil in Hl. }
  destruct (result !! dest) as [nodeResult|] eqn:Hdest;
    cbn [mbind option_bind]; [|done].
  assert (forall p, p ∈ pathLinks nodeResult -> recordedLink result (link p))
    as Hrec.
  { intros p Hp. by exists dest, nodeResult, p. }
  revert Hrec. generalize (pathLinks nodeResult) as pls. clear Hdest.
  intros pls. revert visited.
  induction pls as [|pl pls IHpls]; intros visited Hrec; [done|].
  destruct (linkSetInsert visited (link pl)) as [visited1 fresh].
  assert (forall p, p ∈ pls -> recordedLink result (link p)) as Hrec'
    by (intros p Hp; apply Hrec; by right).
  destruct fresh; [|by apply IHpls].
  destruct (traceOnePath fuel src (prevNode pl) result visited1)
    as [[[sub|] visited2]|] eqn:Hsub; [| |done].
  - intros [= <- _] l [Hl|Hl%list_elem_of_singleton]%elem_of_app.
    + by eapply IH.
    + subst l. apply Hrec. left.
  - by apply IHpls.
Qed.

Lemma tracePaths_recorded (result : SpfResult) (src dest : string)
    (fuel : nat) :
  forall visited paths out,
    (forall q l, q ∈ paths -> l ∈ q -> recordedLink result l) ->
    tracePaths fuel src dest result visited paths = Some out ->
    forall q l, q ∈ out -> l ∈ q -> recordedLink result l.
Proof.
  induction fuel as [|fuel IH]; intros visited paths out Hpaths;
    cbn [tracePaths]; [done|].
  destruct (traceOnePath (traceFuel result) src dest result visited)
    as [[[path|] visited']|] eqn:Htrace; [| |done].
  - destruct path as [|l0 path]; [by intros [= <-]|].
    apply IH. intros q l [Hq|Hq%list_elem_of_singleton]%elem_of_app Hl.
    + by eapply Hpaths.
    + subst q. by eapply traceOnePath_recorded.
  - by intros [= <-].
Qed.

Lemma foldlM_ext_Some {A B : Type} (f g : B -> A -> option B) (l : list A) :
  (forall b x y, x ∈ l -> f b x = Some y -> g b x = Some y) ->
  forall b out, foldlM f b l = Some out -> foldlM g b l = Some out.
Proof.
  induction l as [|x l IH]; intros Hfg b out; cbn [foldlM]; [done|].
  destruct (f b x) as [b'|] eqn:Hf; [|done].
  rewrite (Hfg b x b' ltac:(left) Hf). apply IH.
  intros b0 x0 y Hx0. apply Hfg. by right.
Qed.

(** A larger recursion budget does not change a result. *)
Lemma getKthPathsRec_mono (ls : LinkState.t) (src dest : string) (fuel : nat) :
  forall fuel' k out,
    (fuel <= fuel')%nat ->
    getKthPathsRec fuel ls src dest k = Some out ->
    getKthPathsRec fuel' ls src dest k = Some out.
Proof.
  induction fuel as [|fuel IH]; intros fuel' k out Hle; [done|].
  destruct fuel' as [|fuel']; [lia|]. cbn [getKthPathsRec].
  destruct (k <? 1)%nat; [done|].
  destruct (foldlM _ [] (seq 1 (k - 1))) as [ignore|] eqn:Hfold;
    cbn [mbind option_bind]; [|done].
  assert (foldlM (fun acc i =>
                    paths ← getKthPathsRec fuel' ls src dest i;
                    Some (insertPathLinks acc paths)) [] (seq 1 (k - 1))
          = Some ignore) as ->; [|done].
  eapply foldlM_ext_Some; [|exact Hfold].
  intros acc i y _. cbn beta.
  destruct (getKthPathsRec fuel ls src dest i) as [paths|] eqn:Hi;
    cbn [mbind option_bind]; [|done].
  by rewrite (IH fuel' i paths ltac:(lia) Hi).
Qed.

(** What the loop over the lower orders collects. *)
Lemma lowerOrderLinks_count (ls : LinkState.t) (src dest : string)
    (fuel : nat) (orders : list nat) :
  forall acc ignore,
    foldlM (fun acc i =>
              paths ← getKthPathsRec fuel ls src dest i;
              Some (insertPathLinks acc paths)) acc orders = Some ignore ->
    forall i paths q l,
      i ∈ orders -> getKthPathsRec fuel ls src dest i = Some paths ->
      q ∈ paths -> l ∈ q -> linkSetCount ignore l = true.
Proof.
  induction orders as [|j orders IH]; intros acc ignore; cbn [foldlM].
  - intros _ i paths q l Hi. by apply elem_of_nil in Hi.
  - destruct (getKthPathsRec fuel ls src dest j) as [pj|] eqn:Hj;
      cbn [mbind option_bind]; [|done].
    intros Hfold i paths q l Hi Hpaths Hq Hl.
    apply elem_of_cons in Hi as [->|Hi]; [|by eapply IH].
    rewrite Hj in Hpaths. injection Hpaths as <-.
    assert (forall orders' acc' ignore',
              linkSetCount acc' l = true ->
              foldlM (fun acc i =>
                        paths ← getKthPathsRec fuel ls src dest i;
                        Some (insertPathLinks acc paths)) acc' orders'
              = Some ignore' ->
              linkSetCount ignore' l = true) as Hkeep.
    { clear. induction orders' as [|o orders' IH']; intros acc' ignore' Hc;
        cbn [foldlM]; [by intros [= <-]|].
      destruct (getKthPathsRec fuel ls src dest o) as [po|];
        cbn [mbind option_bind]; [|done].
      apply IH'. apply insertPathLinks_count. by left. }
    eapply Hkeep; [|exact Hfold].
    apply insertPathLinks_count. right. by exists q, l.
Qed.

End KthPathFacts.

(** C5: for k > 1, [getKthPaths(src, dest, k)] traces its paths in the
    result of an SPF run from [src] that ignores every link of every path
    returned at a lower order; so no path of order k shares a link with a path
    of a lower order. *)
Theorem C5_kth_paths_avoid_lower_orders
    (ls : LinkState.t) (src dest : string) (k : nat)
    (pk : list LinkState.Path) :
  (1 < k)%nat ->
  LinkState.getKthPaths ls src dest k = Some pk ->
  exists ignore res,
    LinkState.runSpf ls src true ignore = Some res /\
    (forall p l, p ∈ pk -> l ∈ p -> LinkState.recordedLink res l) /\
    forall i pi,
      (1 <= i < k)%nat ->
      LinkState.getKthPaths ls src dest i = Some pi ->
      (forall q l', q ∈ pi -> l' ∈ q ->
         LinkState.linkSetCount ignore l' = true) /\
      (forall p q l l', p ∈ pk -> q ∈ pi -> l ∈ p -> l' ∈ q ->
         LinkState.linkEqb l l' = false).
Proof.
  intros Hk. unfold LinkState.getKthPaths at 1. cbn [LinkState.getKthPathsRec].
  destruct (Nat.ltb_spec k 1) as [?|_]; [lia|].
  destruct (foldlM _ [] (seq 1 (k - 1))) as [ignore|] eqn:Hfold;
    cbn [mbind option_bind]; [|done].
  assert (match ignore with
          | [] => LinkState.getSpfResult ls src true
          | _ :: _ => LinkState.runSpf ls src true ignore
          end = LinkState.runSpf ls src true ignore) as -> by by destruct ignore.
  destruct (LinkState.runSpf ls src true ignore) as [res|] eqn:Hres;
    cbn [mbind option_bind]; [|done].
  intros Hpk. exists ignore, res. split; [done|].
  assert (forall p l, p ∈ pk -> l ∈ p -> LinkState.recordedLink res l) as Hrec.
  { case_bool_decide.
    - eapply tracePaths_recorded; [|exact Hpk].
      intros q l Hq. by apply elem_of_nil in Hq.
    - injection Hpk as <-. intros p l Hp. by apply elem_of_nil in Hp. }
  split; [done|]. intros i pi Hi Hpi.
  assert (forall q l', q ∈ pi -> l' ∈ q ->
            LinkState.linkSetCount ignore l' = true) as Hcount.
  { intros q l' Hq Hl'.
    eapply (lowerOrderLinks_count ls src dest k (seq 1 (k - 1)) [] ignore Hfold
              i pi q l'); [apply elem_of_seq; lia| |done|done].
    eapply getKthPathsRec_mono; [|exact Hpi]. lia. }
  split; [done|]. intros p q l l' Hp Hq Hl Hl'.
  destruct (LinkState.linkEqb l l') eqn:Heq; [|done]. exfalso.
  apply linkEqb_true in Heq.
  destruct (Hrec p l Hp Hl) as (n & r & pl & Hn & Hpl & <-).
  destruct (runSpf_good ls src true ignore res Hres n r Hn pl Hpl)
    as [_ _ Hnot _ _].
  pose proof (Hcount q l' Hq Hl') as Hin.
  apply linkSetCount_true in Hin as (x & Hx & Hxl).
  assert (LinkState.linkSetCount ignore (LinkState.link pl) = true) as Hyes.
  { apply linkSetCount_true. exists x. split; [done|congruence]. }
  congruence.
Qed.

Lemma sampleSecondPaths_run :
  LinkState.getKthPaths sampleKthTopology "2" "4" 2 = Some sampleSecondPaths.
Proof. vm_compute. reflexivity. Qed.

(** The second-order paths from 2 to 4 in the test topology are the parallel
    link of metric 35 and the detour over 1 and 3. *)
Example sampleSecondPaths_value :
  map (map (fun l => (LinkState.n1_ l, LinkState.n2_ l, LinkState.metric1_ l)))
    sampleSecondPaths
  = [[("2", "4", 35)]; [("1", "2", 10); ("1", "3", 5); ("3", "4", 20)]].
Proof. vm_compute. reflexivity. Qed.

Lemma C5_kth_paths_avoid_lower_orders_witness :
  (1 < 2)%nat /\
  LinkState.getKthPaths sampleKthTopology "2" "4" 2 = Some sampleSecondPaths /\
  exists ignore res,
    LinkState.runSpf sampleKthTopology "2" true ignore = Some res /\
    (forall p l, p ∈ sampleSecondPaths -> l ∈ p ->
       LinkState.recordedLink res l) /\
    forall i pi,
      (1 <= i < 2)%nat ->
      LinkState.getKthPaths sampleKthTopology "2" "4" i = Some pi ->
      (forall q l', q ∈ pi -> l' ∈ q ->
         LinkState.linkSetCount ignore l' = true) /\
      (forall p q l l', p ∈ sampleSecondPaths -> q ∈ pi -> l ∈ p -> l' ∈ q ->
         LinkState.linkEqb l l' = false).
Proof.
  split; [lia|]. split; [exact sampleSecondPaths_run|].
  exact (C5_kth_paths_avoid_lower_orders sampleKthTopology "2" "4" 2
           sampleSecondPaths ltac:(lia) sampleSecondPaths_run).
Defined.

(** ** UCMP: the equidistance check *)

Section UcmpFacts.
Import LinkState.
Variable spfGraph : SpfResult.

(** Once set, [spfMetric] keeps its value. *)
Lemma ucmpQueueLeaf_keeps (leaves : list (string * Z)) :
  forall q m q' sm',
    foldlM (ucmpQueueLeaf spfGraph) (q, Some m) leaves = Some (q', sm') ->
    sm' = Some m.
Proof.
  induction leaves as [|leaf leaves IH]; intros q m q' sm'; cbn [foldlM].
  - by intros [= _ <-].
  - unfold ucmpQueueLeaf at 1.
    destruct (spfGraph !! leaf.1) as [dst|]; [|by apply IH].
    case_bool_decide; [by apply IH|done].
Qed.

(** When the metrics of the leaves fit the 32-bit [spfMetric], a first loop
    that runs to its end has seen the same metric at every leaf. *)
Lemma ucmpQueueLeaf_equal (leaves : list (string * Z)) :
  (forall leaf r, leaf ∈ leaves -> spfGraph !! leaf.1 = Some r ->
     0 <= metric r < 2 ^ 31) ->
  forall q sm q' sm',
    (forall m, sm = Some m -> 0 <= m < 2 ^ 31) ->
    foldlM (ucmpQueueLeaf spfGraph) (q, sm) leaves = Some (q', sm') ->
    forall leaf r,
      leaf ∈ leaves -> spfGraph !! leaf.1 = Some r ->
      sm' = Some (metric r) /\ (forall m, sm = Some m -> m = metric r).
Proof.
  induction leaves as [|leaf0 leaves IH]; intros Hbound q sm q' sm' Hsm;
    cbn [foldlM].
  - intros _ leaf r Hin. by apply elem_of_nil in Hin.
  - assert (forall leaf r, leaf ∈ leaves -> spfGraph !! leaf.1 = Some r ->
              0 <= metric r < 2 ^ 31) as Hbound'
      by (intros leaf r Hin; apply Hbound; by right).
    unfold ucmpQueueLeaf at 1.
    destruct (spfGraph !! leaf0.1) as [dst|] eqn:Hdst.
    2:{ intros Hrun leaf r [->|Hin]%elem_of_cons Hr; [congruence|].
        by eapply IH. }
    pose proof (Hbound leaf0 dst ltac:(left) Hdst) as Hd.
    destruct sm as [m|].
    + pose proof (Hsm m eq_refl) as Hm.
      case_bool_decide as Hcheck; [|done].
      unfold to_uint64 in Hcheck. rewrite Z.mod_small in Hcheck by lia.
      intros Hrun leaf r [->|Hin]%elem_of_cons Hr.
      * rewrite Hdst in Hr. injection Hr as <-.
        apply ucmpQueueLeaf_keeps in Hrun. split; [congruence|].
        intros m' [= <-]. done.
      * by eapply IH.
    + assert (to_int32 (metric dst) = metric dst) as Hnarrow.
      { unfold to_int32. rewrite Z.mod_small by lia. lia. }
      rewrite Hnarrow.
      intros Hrun leaf r [->|Hin]%elem_of_cons Hr.
      * rewrite Hdst in Hr. injection Hr as <-.
        apply ucmpQueueLeaf_keeps in Hrun. by split.
      * destruct (IH Hbound' _ (Some (metric dst)) q' sm'
                    ltac:(by intros m' [= <-]) Hrun leaf r Hin Hr) as [Hs _].
        by split.
Qed.

(** For metrics that fit in 31 bits, [resolveUcmpWeights] returns the empty
    result whenever two leaves of the SPF graph differ in metric. *)
Lemma resolveUcmpWeights_unequal_small_metrics
    (algo : PrefixForwardingAlgorithm) (useLinkMetric : bool) (fuel : nat)
    (leaves : list (string * Z)) (a b : string * Z) (ra rb : NodeSpfResult) :
  algo = SP_UCMP_ADJ_WEIGHT_PROPAGATION \/
  algo = SP_UCMP_PREFIX_WEIGHT_PROPAGATION ->
  (forall leaf r, leaf ∈ leaves -> spfGraph !! leaf.1 = Some r ->
     0 <= metric r < 2 ^ 31) ->
  a ∈ leaves -> b ∈ leaves ->
  spfGraph !! a.1 = Some ra -> spfGraph !! b.1 = Some rb ->
  metric ra <> metric rb ->
  resolveUcmpWeights spfGraph algo useLinkMetric fuel leaves = Some ∅.
Proof.
  intros Halgo Hbound Ha Hb Hra Hrb Hne. unfold resolveUcmpWeights.
  destruct (foldlM (ucmpQueueLeaf spfGraph) ([], None) leaves)
    as [[q sm]|] eqn:Hrun.
  - exfalso. apply Hne.
    destruct (ucmpQueueLeaf_equal leaves Hbound [] None q sm
                ltac:(done) Hrun a ra Ha Hra) as [Hsa _].
    destruct (ucmpQueueLeaf_equal leaves Hbound [] None q sm
                ltac:(done) Hrun b rb Hb Hrb) as [Hsb _].
    congruence.
  - by destruct Halgo as [-> | ->].
Qed.

End UcmpFacts.

Lemma sampleUcmpSpf_run :
  LinkState.runSpf sampleUcmpTopology "A" true [] = Some sampleUcmpSpf.
Proof. vm_compute. reflexivity. Qed.

(** C6, at an input on which the code differs from the claim: leaves X and Y
    are in the SPF graph at distances 2^32 + 5 and 5 from the root, and with X
    visited first [spfMetric] holds the narrowed value 5, the check against Y
    passes, and the result is not empty. *)
Theorem C6_resolveUcmpWeights_narrowed_metric :
  LinkState.metric <$> sampleUcmpSpf !! "X" = Some 4294967301 /\
  LinkState.metric <$> sampleUcmpSpf !! "Y" = Some 5 /\
  (fun r => (map_to_list r).*1) <$>
    LinkState.resolveUcmpWeights sampleUcmpSpf
      LinkState.SP_UCMP_PREFIX_WEIGHT_PROPAGATION true 10
      [("X", 1); ("Y", 1)]
  = Some ["M1"; "M2"; "Y"; "A"; "X"].
Proof. repeat split; vm_compute; reflexivity. Qed.

(** ** MPLS node labels: who keeps a duplicate label *)

Lemma string_ltb_irrefl (a : string) : String.ltb a a = false.
Proof. unfold String.ltb. by rewrite string_compare_refl. Qed.

Lemma string_ltb_false_trans (a b c : string) :
  String.ltb a b = false -> String.ltb b c = false -> String.ltb a c = false.
Proof.
  unfold String.ltb.
  destruct (String.compare a b) eqn:Hab; [|done|];
    destruct (String.compare b c) eqn:Hbc; try done; intros _ _.
  - apply String.compare_eq_iff in Hab as ->. by rewrite Hbc.
  - apply String.compare_eq_iff in Hab as ->. by rewrite Hbc.
  - apply String.compare_eq_iff in Hbc as <-. by rewrite Hab.
  - apply string_compare_gt_lt in Hab, Hbc.
    pose proof (string_compare_lt_trans _ _ _ Hbc Hab) as Hca.
    apply string_compare_gt_lt in Hca. by rewrite Hca.
Qed.

Section NodeLabelFacts.
Import SpfSolver.
Variable isMplsLabelValid : Z -> bool.
Variable solver : SpfSolver.t.
Variable myNodeName : string.

(** One step of the loop never hands a label to a node whose name is above
    the name of the node that holds it. *)
Lemma nodeLabelStep_holder (labelToNode m' : LabelToNode)
    (work : string * LinkState.t * LinkState.AdjacencyDatabase)
    (l : Z) (n : string) (e : RouteDb.RibMplsEntry) :
  nodeLabelStep isMplsLabelValid solver myNodeName labelToNode work = Some m' ->
  labelToNode !! l = Some (n, e) ->
  exists n' e', m' !! l = Some (n', e') /\ String.ltb n n' = false.
Proof.
  destruct work as [[area ls] adjDb]. unfold nodeLabelStep.
  intros Hstep Hl.
  assert (exists n' e', labelToNode !! l = Some (n', e') /\
                        String.ltb n n' = false) as Hsame.
  { exists n, e. split; [done|apply string_ltb_irrefl]. }
  assert (forall who entry,
            match labelToNode !! LinkState.nodeLabel adjDb with
            | Some cur => String.ltb cur.1 who
            | None => false
            end = false ->
            exists n' e',
              <[LinkState.nodeLabel adjDb := (who, entry)]>
                (delete (LinkState.nodeLabel adjDb) labelToNode) !! l
              = Some (n', e') /\ String.ltb n n' = false) as Hnew.
  { intros who entry Hdup.
    destruct (decide (l = LinkState.nodeLabel adjDb)) as [->|Hne].
    - rewrite lookup_insert_eq. rewrite Hl in Hdup. by exists who, entry.
    - rewrite lookup_insert_ne, lookup_delete_ne by done. done. }
  case_bool_decide; [by injection Hstep as <-|].
  destruct (negb (isMplsLabelValid (LinkState.nodeLabel adjDb)));
    [by injection Hstep as <-|].
  destruct (match labelToNode !! LinkState.nodeLabel adjDb with
            | Some cur => String.ltb cur.1 (LinkState.thisNodeName adjDb)
            | None => false
            end) eqn:Hdup; [by injection Hstep as <-|].
  case_bool_decide as Hme.
  - injection Hstep as <-. apply Hnew. by rewrite <- Hme.
  - destruct (getNextHopsWithMetric myNodeName
                [(LinkState.thisNodeName adjDb, area)] ls) as [metricNhs|];
      cbn [mbind option_bind] in Hstep; [|done].
    case_bool_decide; [by injection Hstep as <-|].
    destruct (getNextHopsThrift solver myNodeName
                [(LinkState.thisNodeName adjDb, area)] false metricNhs
                (Some (LinkState.nodeLabel adjDb)) area ls) as [nhs|];
      cbn [mbind option_bind] in Hstep; [|done].
    injection Hstep as <-. by apply Hnew.
Qed.

(** Over the whole loop: a label held by [n] ends with a holder whose name
    is not above [n]; a node with a higher name never takes the label over. *)
Lemma nodeLabelLoop_holder
    (work : list (string * LinkState.t * LinkState.AdjacencyDatabase)) :
  forall (labelToNode m' : LabelToNode) l n e,
    foldlM (nodeLabelStep isMplsLabelValid solver myNodeName) labelToNode work
    = Some m' ->
    labelToNode !! l = Some (n, e) ->
    exists n' e', m' !! l = Some (n', e') /\ String.ltb n n' = false.
Proof.
  induction work as [|w work IH]; intros labelToNode m' l n e; cbn [foldlM].
  - intros [= <-] Hl. exists n, e. split; [done|apply string_ltb_irrefl].
  - destruct (nodeLabelStep isMplsLabelValid solver myNodeName labelToNode w)
      as [m1|] eqn:Hstep; [|done].
    intros Hrun Hl.
    destruct (nodeLabelStep_holder _ _ _ _ _ _ Hstep Hl) as (n1 & e1 & Hl1 & Hlt1).
    destruct (IH _ _ _ _ _ Hrun Hl1) as (n' & e' & Hl' & Hlt').
    exists n', e'. split; [done|]. by eapply string_ltb_false_trans.
Qed.

End NodeLabelFacts.

(** C2, at an input on which the code differs from the claim: nodes 1 and 2
    advertise the same valid node label 100 and both are reachable from node
    0.  In either order of the loop the label goes to node 1, the lower name,
    and the MPLS route for label 100 points to neighbour 1. *)
Theorem C2_duplicate_label_goes_to_lower_name :
  (fun m => labelHolder m 100) <$>
    SpfSolver.nodeLabelLoop sampleLabelValid sampleSolver "0" sampleWork12
  = Some (Some "1") /\
  (fun m => labelHolder m 100) <$>
    SpfSolver.nodeLabelLoop sampleLabelValid sampleSolver "0" sampleWork21
  = Some (Some "1") /\
  (fun r : SpfSolver.LabelToNode * RouteDb.DecisionRouteDb =>
     (labelHolder r.1 100, routeNeighbors r.2 100)) <$>
    SpfSolver.buildNodeLabelRoutes sampleLabelValid sampleSolver "0"
      {["0" := sampleLabelLinkState]} (RouteDb.mkDecisionRouteDb ∅ ∅)
  = Some (Some "1", Some [Some "1"]).
Proof. repeat split; vm_compute; reflexivity. Qed.

(** * Further properties of the code *)

(** ** RouteDb: self-diff, invariant of [update], delete lists *)

Section RouteFamilyMore.
Context {K V : Type} `{Countable K} `{EqDecision V}.
Variable keyOf : V -> K.

Lemma routesToUpdateLoop_same (routes : gmap K V) (entries : list (K * V)) :
  (forall k e, (k, e) ∈ entries -> routes !! k = Some e) ->
  forall delta, RouteDb.routesToUpdateLoop keyOf routes entries delta = delta.
Proof.
  unfold RouteDb.routesToUpdateLoop.
  induction entries as [|[k e] l IH]; intros Hin delta; cbn [foldl fst snd];
    [done|].
  rewrite (Hin k e) by apply list_elem_of_here.
  rewrite decide_True by done.
  apply IH. intros k' e' Hin'. apply Hin. by apply list_elem_of_further.
Qed.

Lemma routesToDeleteLoop_same (newRoutes : gmap K V) (entries : list (K * V)) :
  (forall k e, (k, e) ∈ entries -> is_Some (newRoutes !! k)) ->
  forall acc, RouteDb.routesToDeleteLoop newRoutes entries acc = acc.
Proof.
  unfold RouteDb.routesToDeleteLoop.
  induction entries as [|[k e] l IH]; intros Hin acc; cbn [foldl fst snd];
    [done|].
  destruct (Hin k e) as [e' ->]; [apply list_elem_of_here|].
  apply IH. intros k' e'' Hin'. eapply Hin. by apply list_elem_of_further.
Qed.

Lemma routesToDeleteLoop_NoDup (newRoutes : gmap K V) (entries : list (K * V)) :
  NoDup entries.*1 ->
  forall acc, NoDup acc -> (forall k, k ∈ acc -> k ∉ entries.*1) ->
  NoDup (RouteDb.routesToDeleteLoop newRoutes entries acc).
Proof.
  unfold RouteDb.routesToDeleteLoop.
  induction entries as [|[k e] l IH]; intros Hnd acc Hacc Hdisj;
    cbn [foldl fst snd]; [done|].
  rewrite fmap_cons in Hnd. apply NoDup_cons in Hnd as [Hk Hnd].
  destruct (newRoutes !! k).
  - apply IH; [done|done|]. intros k' Hk' Hin. apply (Hdisj k' Hk').
    rewrite fmap_cons. by apply list_elem_of_further.
  - apply IH; [done| |].
    + apply NoDup_app. split; [done|]. split; [|apply NoDup_singleton].
      intros k' Hk' ->%list_elem_of_singleton. apply (Hdisj k Hk').
      rewrite fmap_cons. apply list_elem_of_here.
    + intros k' [Hk'| ->%list_elem_of_singleton]%elem_of_app; [|done].
      intros Hin. apply (Hdisj k' Hk'). rewrite fmap_cons.
      by apply list_elem_of_further.
Qed.

Lemma eraseLoop_keyed (routes : gmap K V) (toDelete : list K) :
  RouteDb.keyedByOwnKey keyOf routes ->
  RouteDb.keyedByOwnKey keyOf (RouteDb.eraseLoop routes toDelete).
Proof.
  intros Hk k e. rewrite eraseLoop_lookup. case_decide; [done|]. apply Hk.
Qed.

Lemma assignLoop_keyed (toUpdate : list (K * V)) :
  forall routes : gmap K V,
    RouteDb.keyedByOwnKey keyOf routes ->
    RouteDb.keyedByOwnKey keyOf (RouteDb.assignLoop keyOf routes toUpdate).
Proof.
  unfold RouteDb.assignLoop.
  induction toUpdate as [|[k e] l IH]; intros routes Hk; cbn [foldl fst snd];
    [done|].
  apply IH. by apply keyedByOwnKey_insert.
Qed.

End RouteFamilyMore.

(** X1: the update from a database to itself is empty: no route to update
    and none to delete, in either family. *)
Theorem X1_calculateUpdate_same_is_empty (db : RouteDb.DecisionRouteDb) :
  RouteDb.calculateUpdate db db = RouteDb.mkDecisionRouteUpdate ∅ [] ∅ [].
Proof.
  unfold RouteDb.calculateUpdate. f_equal.
  - apply routesToUpdateLoop_same. intros k e Hin.
    by apply elem_of_map_to_list.
  - apply routesToDeleteLoop_same. intros k e Hin.
    apply elem_of_map_to_list in Hin. by exists e.
  - apply routesToUpdateLoop_same. intros k e Hin.
    by apply elem_of_map_to_list.
  - apply routesToDeleteLoop_same. intros k e Hin.
    apply elem_of_map_to_list in Hin. by exists e.
Qed.

(** X2: [update] keeps a route database well keyed, whatever the update: it
    files every entry under the prefix or label the entry carries, not under
    the key of the update map. *)
Theorem X2_update_keeps_wellKeyed
    (db : RouteDb.DecisionRouteDb) (upd : RouteDb.DecisionRouteUpdate) :
  RouteDb.wellKeyed db -> RouteDb.wellKeyed (RouteDb.update db upd).
Proof.
  intros [Hu Hm]. unfold RouteDb.update. split; cbn.
  - by apply assignLoop_keyed, eraseLoop_keyed.
  - by apply assignLoop_keyed, eraseLoop_keyed.
Qed.

Lemma X2_update_keeps_wellKeyed_witness :
  RouteDb.wellKeyed sampleNew /\
  RouteDb.wellKeyed
    (RouteDb.update sampleNew (RouteDb.calculateUpdate sampleNew sampleOld)).
Proof.
  split; [exact sampleNew_wellKeyed|].
  exact (X2_update_keeps_wellKeyed sampleNew
           (RouteDb.calculateUpdate sampleNew sampleOld) sampleNew_wellKeyed).
Defined.

(** X3: the delete lists of [calculateUpdate] name no key twice, and when the
    new database is well keyed no key is both deleted and updated. *)
Theorem X3_calculateUpdate_deletes_once
    (db newDb : RouteDb.DecisionRouteDb) :
  RouteDb.wellKeyed newDb ->
  NoDup (RouteDb.unicastRoutesToDelete (RouteDb.calculateUpdate db newDb)) /\
  NoDup (RouteDb.mplsRoutesToDelete (RouteDb.calculateUpdate db newDb)) /\
  (forall p, p ∈ RouteDb.unicastRoutesToDelete (RouteDb.calculateUpdate db newDb) ->
     RouteDb.unicastRoutesToUpdate (RouteDb.calculateUpdate db newDb) !! p
     = None) /\
  (forall l, l ∈ RouteDb.mplsRoutesToDelete (RouteDb.calculateUpdate db newDb) ->
     RouteDb.mplsRoutesToUpdate (RouteDb.calculateUpdate db newDb) !! l = None).
Proof.
  intros [Hu Hm]. unfold RouteDb.calculateUpdate; cbn.
  split; [|split; [|split]].
  - apply routesToDeleteLoop_NoDup;
      [apply NoDup_fst_map_to_list|apply NoDup_nil_2|].
    intros k Hk. by apply elem_of_nil in Hk.
  - apply routesToDeleteLoop_NoDup;
      [apply NoDup_fst_map_to_list|apply NoDup_nil_2|].
    intros k Hk. by apply elem_of_nil in Hk.
  - intros p Hp. apply routesToDelete_spec in Hp as [_ Hnone].
    apply eq_None_not_Some. intros [e He].
    apply (routesToUpdate_spec RouteDb.prefix) in He as [He _]; [|done].
    congruence.
  - intros l Hl. apply routesToDelete_spec in Hl as [_ Hnone].
    apply eq_None_not_Some. intros [e He].
    apply (routesToUpdate_spec RouteDb.label) in He as [He _]; [|done].
    congruence.
Qed.

Lemma X3_calculateUpdate_deletes_once_witness :
  RouteDb.wellKeyed sampleNew /\
  NoDup (RouteDb.unicastRoutesToDelete
           (RouteDb.calculateUpdate sampleOld sampleNew)).
Proof.
  split; [exact sampleNew_wellKeyed|].
  exact (proj1 (X3_calculateUpdate_deletes_once sampleOld sampleNew
                  sampleNew_wellKeyed)).
Defined.

(** ** SpfSolver: static unicast routes *)

Lemma insertLoop_lookup {K V : Type} `{Countable K} (l : list (K * V)) :
  NoDup l.*1 ->
  forall (base : gmap K V) (k : K),
    foldl (fun m (kv : K * V) => <[kv.1 := kv.2]> m) base l !! k =
    match (list_to_map l : gmap K V) !! k with
    | Some e => Some e
    | None => base !! k
    end.
Proof.
  induction l as [|[k0 e0] l IH]; intros Hnd base k;
    cbn [foldl list_to_map foldr fst snd uncurry].
  - by rewrite lookup_empty.
  - rewrite fmap_cons in Hnd. apply NoDup_cons in Hnd as [Hk0 Hnd].
    rewrite (IH Hnd). destruct (decide (k = k0)) as [->|Hne].
    + rewrite (not_elem_of_list_to_map_1 l k0) by done.
      by rewrite !lookup_insert_eq.
    + by rewrite !(lookup_insert_ne _ k0 k).
Qed.

(** X4: after [updateStaticUnicastRoutes] a prefix of the delete list has no
    static route, even when the same call also updates it; any other prefix
    has the entry of the update map if there is one, and keeps its old entry
    otherwise. *)
Theorem X4_updateStaticUnicastRoutes_lookup
    (staticRoutes toUpdate : gmap CIDRNetwork RouteDb.RibUnicastEntry)
    (toDelete : list CIDRNetwork) (p : CIDRNetwork) :
  SpfSolverOps.updateStaticUnicastRoutes staticRoutes toUpdate toDelete !! p =
  if decide (p ∈ toDelete) then None
  else match toUpdate !! p with
       | Some e => Some e
       | None => staticRoutes !! p
       end.
Proof.
  unfold SpfSolverOps.updateStaticUnicastRoutes.
  pose proof (eraseLoop_lookup
                (foldl (fun m (kv : CIDRNetwork * RouteDb.RibUnicastEntry) =>
                          <[kv.1 := kv.2]> m)
                   staticRoutes (map_to_list toUpdate)) toDelete p) as Hdel.
  unfold RouteDb.eraseLoop in Hdel. rewrite Hdel. case_decide; [done|].
  rewrite insertLoop_lookup by apply NoDup_fst_map_to_list.
  by rewrite list_to_map_to_list.
Qed.

(** ** SpfSolver: the min-nexthop threshold and [addBestPaths] *)

Section MinNextHop.
Import RouteDb SpfSolver SpfSolverOps.
Variable prefixEntries : gmap NodeAndArea PrefixEntry.

Abbreviation thresholdStep :=
  (fun (cur : option Z) (nodeArea : NodeAndArea) =>
     prefixEntry ← prefixEntries !! nodeArea;
     Some (match pe_minNexthop prefixEntry with
           | Some m =>
               match cur with
               | Some c => if c <? m then Some m else Some c
               | None => Some m
               end
           | None => cur
           end)).

(** The threshold after the nodes [l], started from [cur]: it is [cur] or a
    requirement of a node of [l], and no requirement of [l] and no earlier
    threshold exceeds it. *)
Lemma thresholdLoop_spec (l : list NodeAndArea) :
  forall (cur r : option Z),
    foldlM thresholdStep cur l = Some r ->
    (forall na, na ∈ l -> is_Some (prefixEntries !! na)) /\
    (r = cur \/
     exists na pe, na ∈ l /\ prefixEntries !! na = Some pe /\
                   pe_minNexthop pe = r /\ is_Some r) /\
    (forall c, cur = Some c -> exists m, r = Some m /\ c <= m) /\
    (forall na pe m', na ∈ l -> prefixEntries !! na = Some pe ->
       pe_minNexthop pe = Some m' -> exists m, r = Some m /\ m' <= m).
Proof.
  induction l as [|na l IH]; intros cur r; cbn [foldlM].
  - intros [= <-]. split; [intros ? Hin; by apply elem_of_nil in Hin|].
    split; [by left|]. split; [by eauto with lia|].
    intros ? ? ? Hin. by apply elem_of_nil in Hin.
  - destruct (prefixEntries !! na) as [pe|] eqn:Hpe;
      cbn [mbind option_bind]; [|done].
    intros Hrest. apply IH in Hrest as (Hall & Hfrom & Hcur & Hmax).
    split.
    { intros na' [->|Hin]%elem_of_cons; [by eexists|by apply Hall]. }
    split.
    { destruct Hfrom as [->|(na' & pe' & Hin & Hl & Hm & Hs)].
      - destruct (pe_minNexthop pe) as [m|] eqn:Hm; [|by left].
        destruct cur as [c|]; [destruct (c <? m); [|by left]|];
          right; exists na, pe;
          (split; [apply list_elem_of_here|split; [done|by rewrite Hm]]).
      - right. exists na', pe'. split; [by apply list_elem_of_further|done]. }
    split.
    { intros c ->. destruct (pe_minNexthop pe) as [m|].
      - destruct (Z.ltb_spec c m) as [Hlt|Hge].
        + destruct (Hcur m eq_refl) as (m0 & -> & Hle). exists m0.
          split; [done|lia].
        + by apply Hcur.
      - by apply Hcur. }
    intros na' pe' m' [->|Hin]%elem_of_cons Hl Hm'; [|by eapply Hmax].
    rewrite Hpe in Hl. injection Hl as <-. rewrite Hm' in Hcur.
    destruct cur as [c|].
    + destruct (Z.ltb_spec c m') as [Hlt|Hge].
      * by apply Hcur.
      * destruct (Hcur c eq_refl) as (m0 & -> & Hle). exists m0.
        split; [done|lia].
    + by apply Hcur.
Qed.

Lemma thresholdLoop_total (l : list NodeAndArea) :
  (forall na, na ∈ l -> is_Some (prefixEntries !! na)) ->
  forall cur, is_Some (foldlM thresholdStep cur l).
Proof.
  induction l as [|na l IH]; intros Hall cur; cbn [foldlM]; [by eexists|].
  destruct (Hall na) as [pe ->]; [apply list_elem_of_here|].
  cbn [mbind option_bind]. apply IH. intros na' Hin. apply Hall.
  by apply list_elem_of_further.
Qed.

End MinNextHop.

(** X5: [getMinNextHopThreshold] returns a value exactly when every selected
    node has a prefix entry ([prefixEntries.at] throws otherwise).  The value
    is the largest min-nexthop requirement among the selected nodes: it is
    unset exactly when no selected node has a requirement, and otherwise it is
    the requirement of a selected node and none is larger. *)
Theorem X5_getMinNextHopThreshold_is_max
    (nodes : SpfSolverOps.RouteSelectionResult)
    (prefixEntries : gmap SpfSolver.NodeAndArea RouteDb.PrefixEntry) :
  (is_Some (SpfSolverOps.getMinNextHopThreshold nodes prefixEntries) <->
   forall na, na ∈ SpfSolverOps.allNodeAreas nodes ->
              is_Some (prefixEntries !! na)) /\
  forall r, SpfSolverOps.getMinNextHopThreshold nodes prefixEntries = Some r ->
    (r = None <->
     forall na pe, na ∈ SpfSolverOps.allNodeAreas nodes ->
       prefixEntries !! na = Some pe -> RouteDb.pe_minNexthop pe = None) /\
    (forall m, r = Some m ->
       (exists na pe, na ∈ SpfSolverOps.allNodeAreas nodes /\
          prefixEntries !! na = Some pe /\
          RouteDb.pe_minNexthop pe = Some m) /\
       forall na pe m', na ∈ SpfSolverOps.allNodeAreas nodes ->
         prefixEntries !! na = Some pe ->
         RouteDb.pe_minNexthop pe = Some m' -> m' <= m).
Proof.
  unfold SpfSolverOps.getMinNextHopThreshold. split.
  - split.
    + intros [r Hr]. by apply thresholdLoop_spec in Hr as [Hall _].
    + intros Hall. by apply thresholdLoop_total.
  - intros r Hr. apply thresholdLoop_spec in Hr as (_ & Hfrom & _ & Hmax).
    split.
    + split.
      * intros -> na pe Hin Hl. destruct (RouteDb.pe_minNexthop pe) eqn:Hm;
          [|done].
        by destruct (Hmax na pe _ Hin Hl Hm) as (m & ? & _).
      * intros Hnone. destruct Hfrom as [->|(na & pe & Hin & Hl & Hm & Hs)];
          [done|].
        rewrite (Hnone na pe Hin Hl) in Hm. by rewrite <- Hm.
    + intros m ->. split.
      * destruct Hfrom as [?|(na & pe & Hin & Hl & Hm & _)]; [done|].
        by exists na, pe.
      * intros na pe m' Hin Hl Hm'.
        destruct (Hmax na pe m' Hin Hl Hm') as (m0 & [= <-] & Hle). done.
Qed.

(** X6: a route that [addBestPaths] produces is for the prefix asked for and
    carries the next hops, the metric and the flag it was given; its next-hop
    set is not empty; the number of next hops reaches the largest min-nexthop
    requirement of the selected nodes (an [int64_t] read as unsigned), which
    no selected node's requirement exceeds; the entry is that of the best
    node, with the drain metric set to 1 when the best node is drained. *)
Theorem X6_addBestPaths_route
    (prefix : CIDRNetwork) (rsr : SpfSolverOps.RouteSelectionResult)
    (prefixEntries : gmap SpfSolver.NodeAndArea RouteDb.PrefixEntry)
    (nextHops : gset NextHopThrift) (shortestMetric : Z)
    (localPrefixConsidered : bool) (e : RouteDb.RibUnicastEntry) :
  SpfSolverOps.addBestPaths prefix rsr prefixEntries nextHops shortestMetric
    localPrefixConsidered = Some (Some e) ->
  RouteDb.prefix e = prefix /\
  RouteDb.nexthops e = nextHops /\ nextHops <> ∅ /\
  RouteDb.igpCost e = shortestMetric /\
  RouteDb.bestArea e = (SpfSolverOps.bestNodeArea rsr).2 /\
  RouteDb.doNotInstall e = false /\
  RouteDb.localPrefixConsidered e = localPrefixConsidered /\
  (exists entry,
     prefixEntries !! SpfSolverOps.bestNodeArea rsr = Some entry /\
     RouteDb.bestPrefixEntry e =
       if SpfSolverOps.isBestNodeDrained rsr
       then RouteDb.mkPrefixEntry (RouteDb.pe_prefix entry)
              (RouteDb.pe_minNexthop entry) 1
       else entry) /\
  (forall na pe m, na ∈ SpfSolverOps.allNodeAreas rsr ->
     prefixEntries !! na = Some pe -> RouteDb.pe_minNexthop pe = Some m ->
     exists top, m <= top /\ to_uint64 top <= Z.of_nat (size nextHops)).
Proof.
  unfold SpfSolverOps.addBestPaths. case_bool_decide as Hne; [done|].
  destruct (SpfSolverOps.getMinNextHopThreshold rsr prefixEntries)
    as [minNextHop|] eqn:Hmin; cbn [mbind option_bind]; [|done].
  destruct (match minNextHop with
            | Some m => Z.of_nat (size nextHops) <? to_uint64 m
            | None => false
            end) eqn:Hcmp; [done|].
  destruct (prefixEntries !! SpfSolverOps.bestNodeArea rsr) as [entry|] eqn:Hbest;
    cbn [mbind option_bind]; [|done].
  intros [= <-]. cbn.
  do 7 (split; [done|]). split; [by exists entry|].
  intros na pe m Hin Hl Hm.
  apply thresholdLoop_spec in Hmin as (_ & _ & _ & Hmax).
  destruct (Hmax na pe m Hin Hl Hm) as (top & -> & Hle).
  exists top. split; [done|]. by apply Z.ltb_ge in Hcmp.
Qed.

Lemma X6_addBestPaths_route_witness :
  RouteDb.prefix
    (RouteDb.mkRibUnicastEntry ("10.0.0.0", 8%N) {[sampleNh "if1" 2]}
       (RouteDb.mkPrefixEntry ("10.0.0.0", 8%N) (Some 1) 1) "0" false 2 None
       true) = ("10.0.0.0", 8%N) /\
  RouteDb.nexthops
    (RouteDb.mkRibUnicastEntry ("10.0.0.0", 8%N) {[sampleNh "if1" 2]}
       (RouteDb.mkPrefixEntry ("10.0.0.0", 8%N) (Some 1) 1) "0" false 2 None
       true) = {[sampleNh "if1" 2]} /\
  ({[sampleNh "if1" 2]} : gset NextHopThrift) <> ∅ /\
  RouteDb.igpCost
    (RouteDb.mkRibUnicastEntry ("10.0.0.0", 8%N) {[sampleNh "if1" 2]}
       (RouteDb.mkPrefixEntry ("10.0.0.0", 8%N) (Some 1) 1) "0" false 2 None
       true) = 2 /\
  RouteDb.bestArea
    (RouteDb.mkRibUnicastEntry ("10.0.0.0", 8%N) {[sampleNh "if1" 2]}
       (RouteDb.mkPrefixEntry ("10.0.0.0", 8%N) (Some 1) 1) "0" false 2 None
       true)
  = (SpfSolverOps.bestNodeArea
       (SpfSolverOps.mkRouteSelectionResult [("n1", "0")] ("n1", "0")
          true)).2 /\
  RouteDb.doNotInstall
    (RouteDb.mkRibUnicastEntry ("10.0.0.0", 8%N) {[sampleNh "if1" 2]}
       (RouteDb.mkPrefixEntry ("10.0.0.0", 8%N) (Some 1) 1) "0" false 2 None
       true) = false /\
  RouteDb.localPrefixConsidered
    (RouteDb.mkRibUnicastEntry ("10.0.0.0", 8%N) {[sampleNh "if1" 2]}
       (RouteDb.mkPrefixEntry ("10.0.0.0", 8%N) (Some 1) 1) "0" false 2 None
       true) = true /\
  (exists entry,
     ({[("n1", "0") := RouteDb.mkPrefixEntry ("10.0.0.0", 8%N) (Some 1) 0]}
        : gmap SpfSolver.NodeAndArea RouteDb.PrefixEntry)
       !! SpfSolverOps.bestNodeArea
            (SpfSolverOps.mkRouteSelectionResult [("n1", "0")] ("n1", "0")
               true) = Some entry /\
     RouteDb.bestPrefixEntry
       (RouteDb.mkRibUnicastEntry ("10.0.0.0", 8%N) {[sampleNh "if1" 2]}
          (RouteDb.mkPrefixEntry ("10.0.0.0", 8%N) (Some 1) 1) "0" false 2
          None true) =
       if SpfSolverOps.isBestNodeDrained
            (SpfSolverOps.mkRouteSelectionResult [("n1", "0")] ("n1", "0")
               true)
       then RouteDb.mkPrefixEntry (RouteDb.pe_prefix entry)
              (RouteDb.pe_minNexthop entry) 1
       else entry) /\
  (forall na pe m,
     na ∈ SpfSolverOps.allNodeAreas
            (SpfSolverOps.mkRouteSelectionResult [("n1", "0")] ("n1", "0")
               true) ->
     ({[("n1", "0") := RouteDb.mkPrefixEntry ("10.0.0.0", 8%N) (Some 1) 0]}
        : gmap SpfSolver.NodeAndArea RouteDb.PrefixEntry) !! na = Some pe ->
     RouteDb.pe_minNexthop pe = Some m ->
     exists top, m <= top /\
       to_uint64 top
       <= Z.of_nat (size ({[sampleNh "if1" 2]} : gset NextHopThrift))).
Proof.
  apply (X6_addBestPaths_route ("10.0.0.0", 8%N)
           (SpfSolverOps.mkRouteSelectionResult [("n1", "0")] ("n1", "0")
              true)
           {[("n1", "0") := RouteDb.mkPrefixEntry ("10.0.0.0", 8%N) (Some 1) 0]}
           {[sampleNh "if1" 2]} 2 true).
  unfold SpfSolverOps.addBestPaths, SpfSolverOps.getMinNextHopThreshold.
  rewrite bool_decide_false by apply non_empty_singleton_L.
  cbn [SpfSolverOps.allNodeAreas foldlM].
  rewrite lookup_singleton_eq. cbn [mbind option_bind RouteDb.pe_minNexthop].
  rewrite size_singleton.
  cbn [SpfSolverOps.bestNodeArea]. rewrite lookup_singleton_eq.
  reflexivity.
Defined.

(** ** HoldableValue *)

(** The [updateValue] of the overload flags is the [bool] instance. *)
Lemma updateValue_bool (hv : LinkState.HoldableValue bool) (val : bool)
    (holdUpTtl holdDownTtl : Z) :
  Holdable.updateValue LinkState.isChangeBringingUp hv val holdUpTtl holdDownTtl
  = LinkState.updateValue hv val holdUpTtl holdDownTtl.
Proof. reflexivity. Qed.

(** X7: [updateValue] always stores the new value.  When it reports a change
    the new value is visible at once and no hold is left; when it reports
    none, [value()] is what it was before, so a change of the visible value
    never goes unreported.  This holds for the [bool] and the metric
    instantiation alike. *)
Theorem X7_updateValue_reports_visible_change
    {T : Type} `{EqDecision T}
    (bringingUp : LinkState.HoldableValue T -> T -> bool)
    (hv : LinkState.HoldableValue T) (val : T) (holdUpTtl holdDownTtl : Z) :
  let r := Holdable.updateValue bringingUp hv val holdUpTtl holdDownTtl in
  LinkState.val_ r.1 = val /\
  (r.2 = true ->
     LinkState.value r.1 = val /\ LinkState.hasHold r.1 = false) /\
  (r.2 = false -> LinkState.value r.1 = LinkState.value hv) /\
  LinkState.updateValue =
    Holdable.updateValue LinkState.isChangeBringingUp.
Proof.
  cbv zeta. split; [|split; [|split; [|reflexivity]]];
    unfold Holdable.updateValue, LinkState.value, LinkState.hasHold;
    destruct hv as [v0 [held|] ttl]; cbn [LinkState.val_ LinkState.heldVal_];
    repeat (case_bool_decide;
            cbn [fst snd LinkState.val_ LinkState.heldVal_ negb]);
    try done.
  all: try (by exfalso; eauto).
  all: match goal with
       | Hs : is_Some _ |- _ => cbn in Hs; destruct Hs as [? Hs]; discriminate
       end.
Qed.

Lemma decrementTtl_held {T : Type} (hv : LinkState.HoldableValue T) (held : T)
    (n : nat) :
  LinkState.heldVal_ hv = Some held ->
  LinkState.holdTtl_ hv = Z.of_nat (S n) -> Z.of_nat (S n) < 2 ^ 64 ->
  Holdable.decrementTtl hv =
  (LinkState.mkHoldableValue (LinkState.val_ hv)
     (match n with O => None | S _ => Some held end) (Z.of_nat n),
   match n with O => true | S _ => false end).
Proof.
  intros Hheld Httl Hlt. unfold Holdable.decrementTtl. rewrite Hheld, Httl.
  replace (to_uint64 (Z.of_nat (S n) - 1)) with (Z.of_nat n)
    by (unfold to_uint64; rewrite Z.mod_small; lia).
  destruct n as [|n].
  - by rewrite bool_decide_true.
  - by rewrite bool_decide_false by lia.
Qed.

(** X8: a hold with TTL [n + 1] lasts for exactly [n + 1] calls of
    [decrementTtl]: before each of the first [n] calls [value()] is still the
    held value and the call returns false; the call after them returns true;
    and from then on the new value is visible and no hold is left. *)
Theorem X8_hold_expires_after_ttl_decrements
    {T : Type} (hv : LinkState.HoldableValue T) (held : T) (n : nat) :
  LinkState.heldVal_ hv = Some held ->
  LinkState.holdTtl_ hv = Z.of_nat (S n) -> Z.of_nat (S n) < 2 ^ 64 ->
  (forall k, (k <= n)%nat ->
     LinkState.value (Holdable.decrementTtlTimes k hv) = held /\
     LinkState.hasHold (Holdable.decrementTtlTimes k hv) = true /\
     (Holdable.decrementTtl (Holdable.decrementTtlTimes k hv)).2
     = bool_decide (k = n)) /\
  Holdable.decrementTtlTimes (S n) hv
  = LinkState.mkHoldableValue (LinkState.val_ hv) None 0.
Proof.
  revert hv. induction n as [|n IH]; intros hv Hheld Httl Hlt.
  - split.
    + intros k Hk. assert (k = 0%nat) as -> by lia.
      cbn [Holdable.decrementTtlTimes].
      rewrite (decrementTtl_held hv held 0) by done.
      unfold LinkState.value, LinkState.hasHold. rewrite Hheld.
      rewrite bool_decide_true by by eexists. done.
    + cbn [Holdable.decrementTtlTimes].
      by rewrite (decrementTtl_held hv held 0).
  - pose proof (decrementTtl_held hv held (S n) Hheld Httl Hlt) as Hstep.
    destruct (IH (Holdable.decrementTtl hv).1) as [Hbefore Hafter].
    { by rewrite Hstep. } { by rewrite Hstep. } { lia. }
    split.
    + intros [|k] Hk.
      * cbn [Holdable.decrementTtlTimes]. rewrite Hstep.
        unfold LinkState.value, LinkState.hasHold. rewrite Hheld.
        rewrite bool_decide_true by by eexists. done.
      * cbn [Holdable.decrementTtlTimes].
        destruct (Hbefore k ltac:(lia)) as (Hv & Hh & Hr).
        split; [done|]. split; [done|]. rewrite Hr.
        apply bool_decide_ext. lia.
    + cbn [Holdable.decrementTtlTimes] in *. rewrite Hafter.
      by rewrite Hstep.
Qed.

Lemma X8_hold_expires_after_ttl_decrements_witness :
  LinkState.value
    (Holdable.decrementTtlTimes 2
       (LinkState.updateValue (LinkState.mkHoldableValue true None 0)
          false 3 5).1) = true /\
  Holdable.decrementTtlTimes 3
    (LinkState.updateValue (LinkState.mkHoldableValue true None 0) false 3 5).1
  = LinkState.mkHoldableValue false None 0.
Proof.
  pose proof (X8_hold_expires_after_ttl_decrements
                (LinkState.updateValue
                   (LinkState.mkHoldableValue true None 0) false 3 5).1
                true 2 eq_refl eq_refl eq_refl) as [Hbefore Hafter].
  split; [|exact Hafter].
  exact (proj1 (Hbefore 2%nat (le_n 2))).
Defined.

(** X9: with no hold on the node and hold times of zero, as
    [updateAdjacencyDatabase] passes them, [updateNodeOverloaded] makes the
    new flag visible at once and leaves every other node alone; it reports a
    change exactly when the node was known and its flag differs. *)
Theorem X9_updateNodeOverloaded_no_hold
    (ls : LinkState.t) (nodeName : string) (isOverloaded : bool) :
  (forall hv, LinkState.nodeOverloads_ ls !! nodeName = Some hv ->
              LinkState.hasHold hv = false) ->
  let r := LinkState.updateNodeOverloaded nodeName isOverloaded 0 0 ls in
  LinkState.isNodeOverloaded r.1 nodeName = isOverloaded /\
  (forall other, other <> nodeName ->
     LinkState.isNodeOverloaded r.1 other = LinkState.isNodeOverloaded ls other) /\
  (r.2 = true <->
   is_Some (LinkState.nodeOverloads_ ls !! nodeName) /\
   LinkState.isNodeOverloaded ls nodeName <> isOverloaded) /\
  LinkState.linkMap_ r.1 = LinkState.linkMap_ ls.
Proof.
  intros Hnohold. cbv zeta.
  unfold LinkState.updateNodeOverloaded, LinkState.isNodeOverloaded.
  destruct (LinkState.nodeOverloads_ ls !! nodeName) as [hv|] eqn:Hn.
  - specialize (Hnohold hv eq_refl).
    destruct hv as [v [held|] ttl];
      [exfalso; revert Hnohold; unfold LinkState.hasHold;
       cbn [LinkState.heldVal_]; by rewrite bool_decide_true by by eexists|].
    unfold LinkState.updateValue, LinkState.hasHold, LinkState.value.
    cbn [LinkState.val_ LinkState.heldVal_].
    rewrite (bool_decide_false (is_Some None)) by apply is_Some_None.
    destruct (LinkState.isChangeBringingUp _ _);
      rewrite (bool_decide_true (0 = 0)) by done;
      cbn [LinkState.val_ LinkState.heldVal_ negb];
      rewrite (bool_decide_false (is_Some None)) by apply is_Some_None;
      (case_bool_decide as Hsame;
      cbn [fst snd LinkState.nodeOverloads_ LinkState.linkMap_ negb];
      rewrite lookup_insert_eq; cbn [LinkState.val_ LinkState.heldVal_];
      (split; [done|]);
      (split; [intros other Hne; by rewrite lookup_insert_ne|]);
      (split; [|done])).
    all: split; [try done|]; intros Hc; try done;
      first [by destruct Hc; congruence|split; [by eexists|congruence]].
  - cbn [fst snd LinkState.nodeOverloads_ LinkState.linkMap_].
    rewrite lookup_insert_eq. unfold LinkState.value.
    cbn [LinkState.val_ LinkState.heldVal_]. split; [done|].
    split; [intros other Hne; by rewrite lookup_insert_ne|].
    split; [|done]. split; [done|]. intros [Hs _]. by apply is_Some_None in Hs.
Qed.

Lemma X9_updateNodeOverloaded_no_hold_witness :
  LinkState.isNodeOverloaded
    (LinkState.updateNodeOverloaded "B" false 0 0 sampleLineOverloaded).1 "B"
  = false.
Proof.
  refine (proj1 (X9_updateNodeOverloaded_no_hold sampleLineOverloaded "B"
                   false _)).
  intros hv. vm_compute. intros [= <-]. reflexivity.
Defined.

(** ** Link: setters *)

(** X10: [setMetricFromNode] throws exactly for a node that is not an end of
    the link.  Otherwise it returns true, the metric read back from that node
    is the one set, the metric from any other node is unchanged, and so are
    the link's identity, its ends, its overload and hold state and its other
    attributes. *)
Theorem X10_setMetricFromNode_roundtrip
    (l : LinkState.Link) (nodeName : string) (d : Z) :
  match LinkOps.setMetricFromNode l nodeName d with
  | Some (l', changed) =>
      changed = true /\
      (nodeName = LinkState.n1_ l \/ nodeName = LinkState.n2_ l) /\
      LinkState.getMetricFromNode l' nodeName = Some d /\
      (forall m, m <> nodeName ->
         LinkState.getMetricFromNode l' m = LinkState.getMetricFromNode l m) /\
      LinkState.linkEqb l l' = true /\
      LinkState.isUp l' = LinkState.isUp l /\
      (forall m, LinkState.getOtherNodeName l' m = LinkState.getOtherNodeName l m) /\
      (forall m, LinkState.getIfaceFromNode l' m = LinkState.getIfaceFromNode l m) /\
      (forall m, LinkState.getWeightFromNode l' m = LinkState.getWeightFromNode l m) /\
      (forall m, LinkState.getAdjLabelFromNode l' m
                 = LinkState.getAdjLabelFromNode l m)
  | None =>
      nodeName <> LinkState.n1_ l /\ nodeName <> LinkState.n2_ l /\
      LinkState.getMetricFromNode l nodeName = None
  end.
Proof.
  unfold LinkOps.setMetricFromNode, LinkState.getMetricFromNode,
    LinkState.getOtherNodeName, LinkState.getIfaceFromNode,
    LinkState.getWeightFromNode, LinkState.getAdjLabelFromNode,
    LinkState.fromNode.
  destruct (decide (LinkState.n1_ l = nodeName)) as [H1|H1].
  - rewrite (bool_decide_true _ H1). cbn.
    rewrite (bool_decide_true _ H1).
    split; [done|]. split; [by left|]. split; [done|].
    split.
    { intros m Hm. rewrite bool_decide_false by congruence. done. }
    split; [by apply bool_decide_true|]. done.
  - rewrite (bool_decide_false _ H1).
    destruct (decide (LinkState.n2_ l = nodeName)) as [H2|H2].
    + rewrite (bool_decide_true _ H2). cbn.
      rewrite (bool_decide_false _ H1), (bool_decide_true _ H2).
      split; [done|]. split; [by right|]. split; [done|].
      split.
      { intros m Hm. rewrite (bool_decide_false (LinkState.n2_ l = m))
          by congruence.
        by case_bool_decide. }
      split; [by apply bool_decide_true|]. done.
    + rewrite (bool_decide_false _ H2). done.
Qed.

(** X11: [setOverloadFromNode] throws exactly for a node that is not an end.
    Otherwise the flag read back from that node is the one set and the link's
    identity is unchanged, and the call signals a topology change exactly
    when the link has no hold, the other end is not overloaded, and the flag
    of the named end flips: overloading one end of a link that is already
    down changes nothing. *)
Theorem X11_setOverloadFromNode_signal
    (l : LinkState.Link) (nodeName : string) (overload : bool)
    (holdUpTtl holdDownTtl : Z) :
  match LinkOps.setOverloadFromNode l nodeName overload holdUpTtl holdDownTtl
  with
  | Some (l', changed) =>
      LinkOps.getOverloadFromNode l' nodeName = Some overload /\
      LinkState.linkEqb l l' = true /\
      changed = negb (Bool.eqb (LinkState.isUp l) (LinkState.isUp l')) /\
      exists mine other,
        LinkOps.getOverloadFromNode l nodeName = Some mine /\
        other = (if bool_decide (LinkState.n1_ l = nodeName)
                 then LinkState.overload2_ l else LinkState.overload1_ l) /\
        (changed = true <->
         LinkState.holdUpTtl_ l = 0 /\ other = false /\ mine <> overload)
  | None => nodeName <> LinkState.n1_ l /\ nodeName <> LinkState.n2_ l
  end.
Proof.
  unfold LinkOps.setOverloadFromNode, LinkOps.getOverloadFromNode,
    LinkState.fromNode, LinkState.isUp.
  destruct (decide (LinkState.n1_ l = nodeName)) as [H1|H1].
  - rewrite (bool_decide_true _ H1). cbn.
    rewrite (bool_decide_true _ H1).
    split; [done|]. split; [by apply bool_decide_true|]. split; [done|].
    exists (LinkState.overload1_ l), (LinkState.overload2_ l).
    split; [done|]. split; [done|].
    destruct (LinkState.overload1_ l), (LinkState.overload2_ l), overload;
      case_bool_decide; cbn; naive_solver.
  - rewrite (bool_decide_false _ H1).
    destruct (decide (LinkState.n2_ l = nodeName)) as [H2|H2].
    + rewrite (bool_decide_true _ H2). cbn.
      rewrite (bool_decide_false _ H1), (bool_decide_true _ H2).
      split; [done|]. split; [by apply bool_decide_true|]. split; [done|].
      exists (LinkState.overload2_ l), (LinkState.overload1_ l).
      split; [done|]. split; [done|].
      destruct (LinkState.overload1_ l), (LinkState.overload2_ l), overload;
        case_bool_decide; cbn; naive_solver.
    + rewrite (bool_decide_false _ H2). cbn. done.
Qed.

(** ** Link: comparison *)

(** A lexicographic comparison of pairs inherits the laws of a three-way
    comparison from its components. *)
Section Lexicographic.
Context {A B : Type}.
Variable cA : A -> A -> comparison.
Variable cB : B -> B -> comparison.
Variable lex : A * B -> A * B -> comparison.
Hypothesis A_eq : forall a b, cA a b = Eq <-> a = b.
Hypothesis A_gt : forall a b, cA a b = Gt <-> cA b a = Lt.
Hypothesis A_lt : forall a b c, cA a b = Lt -> cA b c = Lt -> cA a c = Lt.
Hypothesis B_eq : forall a b, cB a b = Eq <-> a = b.
Hypothesis B_gt : forall a b, cB a b = Gt <-> cB b a = Lt.
Hypothesis B_lt : forall a b c, cB a b = Lt -> cB b c = Lt -> cB a c = Lt.
Hypothesis lex_def :
  forall x y, lex x y = match cA x.1 y.1 with
                        | Eq => cB x.2 y.2
                        | c => c
                        end.

Lemma lex_eq x y : lex x y = Eq <-> x = y.
Proof.
  rewrite lex_def. destruct x as [a b], y as [a' b']. cbn [fst snd].
  destruct (cA a a') eqn:Ha.
  - apply A_eq in Ha as ->. rewrite B_eq. split; congruence.
  - split; [done|]. intros [= <- <-].
    assert (cA a a = Eq) by by apply A_eq. congruence.
  - split; [done|]. intros [= <- <-].
    assert (cA a a = Eq) by by apply A_eq. congruence.
Qed.

Lemma lex_gt x y : lex x y = Gt <-> lex y x = Lt.
Proof.
  rewrite !lex_def. destruct x as [a b], y as [a' b']. cbn [fst snd].
  destruct (cA a a') eqn:Ha.
  - apply A_eq in Ha as ->.
    assert (cA a' a' = Eq) as -> by by apply A_eq. apply B_gt.
  - destruct (cA a' a) eqn:Ha'; [| |done].
    + apply A_eq in Ha' as ->.
      assert (cA a a = Eq) by by apply A_eq. congruence.
    + pose proof (A_lt _ _ _ Ha Ha') as Hc.
      assert (cA a a = Eq) by by apply A_eq. congruence.
  - apply A_gt in Ha. by rewrite Ha.
Qed.

Lemma lex_lt x y z : lex x y = Lt -> lex y z = Lt -> lex x z = Lt.
Proof.
  rewrite !lex_def. destruct x as [a b], y as [a' b'], z as [a'' b''].
  cbn [fst snd].
  destruct (cA a a') eqn:H1; [| |done].
  - apply A_eq in H1 as ->. destruct (cA a' a''); [|done|done].
    apply B_lt.
  - intros _. destruct (cA a' a'') eqn:H2; [| |done].
    + apply A_eq in H2 as ->. by rewrite H1.
    + by rewrite (A_lt _ _ _ H1 H2).
Qed.
End Lexicographic.

Lemma string_compare_eq (a b : string) : String.compare a b = Eq <-> a = b.
Proof.
  split; [apply String.compare_eq_iff|]. intros ->. apply string_compare_refl.
Qed.

Lemma pairCompare_eq a b : LinkOps.pairCompare a b = Eq <-> a = b.
Proof.
  apply (lex_eq String.compare String.compare);
    auto using string_compare_eq.
Qed.

Lemma pairCompare_gt a b :
  LinkOps.pairCompare a b = Gt <-> LinkOps.pairCompare b a = Lt.
Proof.
  apply (lex_gt String.compare String.compare);
    eauto using string_compare_eq, string_compare_gt_lt,
      string_compare_lt_trans.
Qed.

Lemma pairCompare_lt a b c :
  LinkOps.pairCompare a b = Lt -> LinkOps.pairCompare b c = Lt ->
  LinkOps.pairCompare a c = Lt.
Proof.
  apply (lex_lt String.compare String.compare);
    eauto using string_compare_eq, string_compare_gt_lt,
      string_compare_lt_trans.
Qed.

Lemma namesCompare_eq a b : LinkOps.namesCompare a b = Eq <-> a = b.
Proof.
  apply (lex_eq LinkOps.pairCompare LinkOps.pairCompare);
    eauto using pairCompare_eq, pairCompare_gt, pairCompare_lt.
Qed.

Lemma namesCompare_gt a b :
  LinkOps.namesCompare a b = Gt <-> LinkOps.namesCompare b a = Lt.
Proof.
  apply (lex_gt LinkOps.pairCompare LinkOps.pairCompare);
    eauto using pairCompare_eq, pairCompare_gt, pairCompare_lt.
Qed.

Lemma namesCompare_lt a b c :
  LinkOps.namesCompare a b = Lt -> LinkOps.namesCompare b c = Lt ->
  LinkOps.namesCompare a c = Lt.
Proof.
  apply (lex_lt LinkOps.pairCompare LinkOps.pairCompare);
    eauto using pairCompare_eq, pairCompare_gt, pairCompare_lt.
Qed.

(** [operator<] on pairs is the [Lt] case of the comparison. *)
Lemma pairLtb_compare a b :
  LinkState.pairLtb a b = true <-> LinkOps.pairCompare a b = Lt.
Proof.
  unfold LinkState.pairLtb, LinkOps.pairCompare, String.ltb.
  destruct (String.compare a.1 b.1); [|done|done].
  by destruct (String.compare a.2 b.2).
Qed.

Lemma namesLtb_compare a b :
  LinkOps.namesLtb a b = true <-> LinkOps.namesCompare a b = Lt.
Proof.
  unfold LinkOps.namesLtb, LinkOps.namesCompare.
  rewrite orb_true_iff, andb_true_iff, negb_true_iff, !pairLtb_compare.
  rewrite <- not_true_iff_false, pairLtb_compare.
  destruct (LinkOps.pairCompare a.1 b.1) eqn:H1.
  - apply pairCompare_eq in H1. rewrite H1.
    assert (LinkOps.pairCompare b.1 b.1 = Eq) as Hr by by apply pairCompare_eq.
    rewrite Hr. split; [intros [?|[_ ?]]; done|]. intros ?. right. done.
  - split; [done|]. by left.
  - apply pairCompare_gt in H1. split; [|done].
    intros [?|[Hn _]]; done.
Qed.

Section LinkCompare.
Variable hashNames : (string * string) * (string * string) -> Z.

Abbreviation lt := (LinkOps.ltb hashNames).
Abbreviation eq := (LinkOps.eqb hashNames).

Lemma ltb_spec (a b : LinkState.Link) :
  lt a b = true <->
  LinkOps.hash hashNames a < LinkOps.hash hashNames b \/
  (LinkOps.hash hashNames a = LinkOps.hash hashNames b /\
   LinkOps.namesCompare (LinkState.orderedNames a) (LinkState.orderedNames b)
   = Lt).
Proof.
  unfold LinkOps.ltb. case_bool_decide as Hh; cbn [negb].
  - rewrite namesLtb_compare. split; [by right|]. intros [?|[_ ?]]; [lia|done].
  - rewrite Z.ltb_lt. split; [by left|]. intros [?|[? _]]; done.
Qed.

Lemma eqb_spec (a b : LinkState.Link) :
  eq a b = true <-> LinkState.orderedNames a = LinkState.orderedNames b.
Proof.
  unfold LinkOps.eqb, LinkOps.hash. case_bool_decide as Hh; cbn [negb].
  - by rewrite bool_decide_eq_true.
  - split; [done|]. intros Hn. by rewrite Hn in Hh.
Qed.

End LinkCompare.

(** X12: for every hash function, [Link::operator<] is a strict total order
    on links up to [Link::operator==]: it is irreflexive and transitive, and
    of [a < b], [a == b] and [b < a] exactly one holds.  [operator==] is
    equality of the ordered (node, interface) names; the hash test in it is
    only a shortcut. *)
Theorem X12_link_order_is_strict_total
    (hashNames : (string * string) * (string * string) -> Z) :
  (forall a, LinkOps.ltb hashNames a a = false) /\
  (forall a b c, LinkOps.ltb hashNames a b = true ->
     LinkOps.ltb hashNames b c = true -> LinkOps.ltb hashNames a c = true) /\
  (forall a b,
     (LinkOps.ltb hashNames a b = true \/ LinkOps.eqb hashNames a b = true \/
      LinkOps.ltb hashNames b a = true) /\
     ~ (LinkOps.ltb hashNames a b = true /\ LinkOps.eqb hashNames a b = true) /\
     ~ (LinkOps.ltb hashNames a b = true /\ LinkOps.ltb hashNames b a = true) /\
     ~ (LinkOps.eqb hashNames a b = true /\ LinkOps.ltb hashNames b a = true)) /\
  (forall a b, LinkOps.eqb hashNames a b = LinkState.linkEqb a b).
Proof.
  assert (forall n, LinkOps.namesCompare n n = Eq) as Hrefl
    by (intros n; by apply namesCompare_eq).
  split; [|split; [|split]].
  - intros a. apply not_true_iff_false. rewrite ltb_spec.
    intros [?|[_ Hc]]; [lia|]. by rewrite Hrefl in Hc.
  - intros a b c. rewrite !ltb_spec.
    intros [Hab|[Hab Nab]] [Hbc|[Hbc Nbc]]; try (left; lia).
    right. split; [lia|]. by eapply namesCompare_lt.
  - intros a b. rewrite !ltb_spec, eqb_spec.
    destruct (LinkOps.namesCompare (LinkState.orderedNames a)
                (LinkState.orderedNames b)) eqn:Hc.
    + apply namesCompare_eq in Hc. rewrite Hc, Hrefl.
      unfold LinkOps.hash. rewrite Hc. split; [by right; left|].
      split; [intros [[?|[_ ?]] _]; [lia|done]|].
      split; [intros [[?|[_ ?]] _]; [lia|done]|].
      intros [_ [?|[_ ?]]]; [lia|done].
    + assert (LinkState.orderedNames a <> LinkState.orderedNames b) as Hne.
      { intros He. apply namesCompare_eq in He. congruence. }
      assert (LinkOps.namesCompare (LinkState.orderedNames b)
                (LinkState.orderedNames a) = Gt) as Hg
        by by apply namesCompare_gt.
      rewrite Hg. split.
      { destruct (Z.lt_trichotomy (LinkOps.hash hashNames a)
                    (LinkOps.hash hashNames b)) as [?|[?|?]];
          [by left; left|by left; right|by right; right; left]. }
      split; [by intros [_ ?]|]. split; [|by intros [? _]].
      intros [[?|[? _]] [?|[_ ?]]]; try lia; done.
    + assert (LinkState.orderedNames a <> LinkState.orderedNames b) as Hne.
      { intros He. apply namesCompare_eq in He. congruence. }
      apply namesCompare_gt in Hc. rewrite Hc. split.
      { destruct (Z.lt_trichotomy (LinkOps.hash hashNames a)
                    (LinkOps.hash hashNames b)) as [?|[?|?]];
          [by left; left|right; right; by right|by right; right; left]. }
      split; [by intros [_ ?]|]. split; [|by intros [? _]].
      intros [[?|[? ?]] [?|[? ?]]]; try lia; done.
  - intros a b. apply eq_true_iff_eq. rewrite eqb_spec.
    unfold LinkState.linkEqb. by rewrite bool_decide_eq_true.
Qed.

(** ** Links are symmetric *)

(** The ordered names of a link do not depend on which end comes first. *)
Lemma minmax_swap (a b : string * string) :
  (if LinkState.pairLtb b a then (b, a) else (a, b)) =
  (if LinkState.pairLtb a b then (a, b) else (b, a)).
Proof.
  destruct (LinkState.pairLtb b a) eqn:Hba, (LinkState.pairLtb a b) eqn:Hab;
    try done.
  - apply pairLtb_compare in Hba, Hab. apply pairCompare_gt in Hab. congruence.
  - apply not_true_iff_false in Hba, Hab. rewrite pairLtb_compare in Hba, Hab.
    destruct (LinkOps.pairCompare a b) eqn:Hc; [|done|].
    + by apply pairCompare_eq in Hc as ->.
    + by apply pairCompare_gt in Hc.
Qed.

Lemma orderedNames_swap (l l' : LinkState.Link) :
  LinkState.n1_ l' = LinkState.n2_ l -> LinkState.if1_ l' = LinkState.if2_ l ->
  LinkState.n2_ l' = LinkState.n1_ l -> LinkState.if2_ l' = LinkState.if1_ l ->
  LinkState.orderedNames l' = LinkState.orderedNames l.
Proof.
  unfold LinkState.orderedNames. intros -> -> -> ->. apply minmax_swap.
Qed.

Lemma find_pointsBack (nodeName : string) (adj : LinkState.Adjacency)
    (adjs : list LinkState.Adjacency) :
  match List.find (LinkStateOps.pointsBack nodeName adj) adjs with
  | Some otherAdj =>
      otherAdj ∈ adjs /\ LinkState.otherNodeName otherAdj = nodeName /\
      LinkState.ifName otherAdj = LinkState.otherIfName adj /\
      LinkState.otherIfName otherAdj = LinkState.ifName adj
  | None =>
      forall otherAdj, otherAdj ∈ adjs ->
        LinkStateOps.pointsBack nodeName adj otherAdj = false
  end.
Proof.
  destruct (List.find _ adjs) as [otherAdj|] eqn:Hf.
  - apply find_some in Hf as [Hin Hp]. unfold LinkStateOps.pointsBack in Hp.
    apply andb_true_iff in Hp as [Hp H3]. apply andb_true_iff in Hp as [H1 H2].
    apply bool_decide_eq_true_1 in H1, H2, H3.
    split; [by apply list_elem_of_In|done].
  - intros otherAdj Hin. apply list_elem_of_In in Hin.
    by apply (find_none _ _ Hf).
Qed.

(** X13: [maybeMakeLink] makes a link only if the database of the other node
    has an adjacency that points back (to this node, over the matching pair
    of interfaces), and returns none when there is no such adjacency.  The
    link does not depend on the end it is made from: if this node's database
    holds the adjacency, then [maybeMakeLink] from the other node with the
    adjacency found makes an equal link. *)
Theorem X13_maybeMakeLink_bidirectional
    (ls : LinkState.t) (nodeName : string) (adj : LinkState.Adjacency) :
  match LinkStateOps.maybeMakeLink ls nodeName adj with
  | Some l =>
      exists otherDb otherAdj,
        LinkState.adjacencyDatabases_ ls !! LinkState.otherNodeName adj
        = Some otherDb /\
        otherAdj ∈ LinkState.adjacencies otherDb /\
        LinkState.otherNodeName otherAdj = nodeName /\
        LinkState.ifName otherAdj = LinkState.otherIfName adj /\
        LinkState.otherIfName otherAdj = LinkState.ifName adj /\
        l = LinkStateOps.makeLink (LinkState.ls_area ls) nodeName adj
              (LinkState.otherNodeName adj) otherAdj /\
        LinkState.getOtherNodeName l nodeName
        = Some (LinkState.otherNodeName adj) /\
        forall db,
          LinkState.adjacencyDatabases_ ls !! nodeName = Some db ->
          adj ∈ LinkState.adjacencies db ->
          exists l',
            LinkStateOps.maybeMakeLink ls (LinkState.otherNodeName adj) otherAdj
            = Some l' /\
            LinkState.linkEqb l l' = true
  | None =>
      forall otherDb otherAdj,
        LinkState.adjacencyDatabases_ ls !! LinkState.otherNodeName adj
        = Some otherDb ->
        otherAdj ∈ LinkState.adjacencies otherDb ->
        LinkStateOps.pointsBack nodeName adj otherAdj = false
  end.
Proof.
  unfold LinkStateOps.maybeMakeLink at 1.
  destruct (LinkState.adjacencyDatabases_ ls !! LinkState.otherNodeName adj)
    as [otherDb|] eqn:Hdb; [|done].
  pose proof (find_pointsBack nodeName adj (LinkState.adjacencies otherDb))
    as Hfind.
  destruct (List.find _ (LinkState.adjacencies otherDb)) as [otherAdj|].
  2:{ intros ? ? [= <-]. apply Hfind. }
  destruct Hfind as (Hin & Hn & Hi & Hoi).
  exists otherDb, otherAdj. do 6 (split; [done|]). split.
  { unfold LinkState.getOtherNodeName, LinkState.fromNode,
      LinkStateOps.makeLink. cbn. by rewrite bool_decide_true. }
  intros db Hmy Hadj. unfold LinkStateOps.maybeMakeLink.
  rewrite Hn, Hmy.
  pose proof (find_pointsBack (LinkState.otherNodeName adj) otherAdj
                (LinkState.adjacencies db)) as Hback.
  destruct (List.find _ (LinkState.adjacencies db)) as [adj'|].
  - destruct Hback as (_ & Hn' & Hi' & Hoi'). eexists. split; [done|].
    unfold LinkState.linkEqb. apply bool_decide_eq_true. symmetry.
    apply orderedNames_swap; cbn; congruence.
  - specialize (Hback adj Hadj). unfold LinkStateOps.pointsBack in Hback.
    rewrite !bool_decide_true in Hback by done. done.
Qed.

(** ** Link sets: equality and hash *)

Section LinkSetHash.
Variable hashNames : (string * string) * (string * string) -> Z.

Lemma linkSetCount_names (s : LinkState.LinkSet) (l : LinkState.Link) :
  LinkState.linkSetCount s l = true <->
  LinkState.orderedNames l ∈ LinkState.orderedNames <$> s.
Proof.
  unfold LinkState.linkSetCount. rewrite existsb_exists, list_elem_of_fmap.
  split.
  - intros (x & Hin & He). exists x. apply bool_decide_eq_true_1 in He.
    split; [done|by apply list_elem_of_In].
  - intros (x & He & Hin). exists x. split; [by apply list_elem_of_In|].
    by apply bool_decide_eq_true.
Qed.

Lemma linkSetNoDup_names (s : LinkState.LinkSet) :
  LinkOps.linkSetNoDup s = true -> NoDup (LinkState.orderedNames <$> s).
Proof.
  induction s as [|l s IH]; cbn [LinkOps.linkSetNoDup]; [constructor|].
  intros [Hl Hs]%andb_true_iff. rewrite fmap_cons. apply NoDup_cons.
  split; [|by apply IH]. apply negb_true_iff, not_true_iff_false in Hl.
  by rewrite linkSetCount_names in Hl.
Qed.

Lemma linkSetHash_names (s : LinkState.LinkSet) (h : Z) :
  foldl (fun h l => Z.lxor h (LinkOps.hash hashNames l)) h s =
  foldl (fun h n => Z.lxor h (hashNames n)) h (LinkState.orderedNames <$> s).
Proof.
  revert h. induction s as [|l s IH]; intros h; [done|].
  rewrite fmap_cons. cbn [foldl]. apply IH.
Qed.

Lemma xor_fold_perm (l k : list ((string * string) * (string * string))) :
  l ≡ₚ k ->
  forall h, foldl (fun h n => Z.lxor h (hashNames n)) h l =
            foldl (fun h n => Z.lxor h (hashNames n)) h k.
Proof.
  induction 1 as [|x l k _ IH|x y l|l k m _ IH1 _ IH2]; intros h; cbn [foldl].
  - done.
  - apply IH.
  - f_equal. rewrite !Z.lxor_assoc. f_equal. apply Z.lxor_comm.
  - by rewrite IH1.
Qed.

Lemma linkSetEqual_perm (a b : LinkState.LinkSet) :
  LinkOps.linkSetNoDup a = true ->
  LinkOps.linkSetEqual a b = true ->
  LinkState.orderedNames <$> a ≡ₚ LinkState.orderedNames <$> b.
Proof.
  intros Ha. unfold LinkOps.linkSetEqual.
  case_bool_decide as Hlen; [|done]. intros Hall.
  apply submseteq_length_Permutation.
  - apply NoDup_submseteq; [by apply linkSetNoDup_names|].
    intros n Hn. apply list_elem_of_fmap in Hn as (l & -> & Hl).
    apply linkSetCount_names. rewrite forallb_forall in Hall.
    apply Hall. by apply list_elem_of_In.
  - rewrite !length_fmap. lia.
Qed.

End LinkSetHash.

(** X14: [std::equal_to] and [std::hash] of link sets agree: two sets that
    compare equal have the same hash, whatever the order in which their links
    are iterated, and then they also compare equal the other way round. *)
Theorem X14_equal_link_sets_hash_alike
    (hashNames : (string * string) * (string * string) -> Z)
    (a b : LinkState.LinkSet) :
  LinkOps.linkSetNoDup a = true -> LinkOps.linkSetNoDup b = true ->
  LinkOps.linkSetEqual a b = true ->
  LinkOps.linkSetHash hashNames a = LinkOps.linkSetHash hashNames b /\
  LinkOps.linkSetEqual b a = true.
Proof.
  intros Ha Hb Heq. pose proof (linkSetEqual_perm a b Ha Heq) as Hperm.
  split.
  - unfold LinkOps.linkSetHash. rewrite !linkSetHash_names.
    by apply xor_fold_perm.
  - unfold LinkOps.linkSetEqual in *.
    case_bool_decide as Hlen; [|done].
    rewrite bool_decide_true by done. apply forallb_forall.
    intros l Hl. apply linkSetCount_names. rewrite Hperm.
    apply list_elem_of_fmap. exists l. split; [done|by apply list_elem_of_In].
Qed.

Lemma X14_equal_link_sets_hash_alike_witness :
  LinkOps.linkSetHash (fun p => Z.of_nat (String.length (p.1.1 +:+ p.2.2)))
    [sampleLink "A" "B" 1 1; sampleLink "B" "C" 1 1]
  = LinkOps.linkSetHash (fun p => Z.of_nat (String.length (p.1.1 +:+ p.2.2)))
      [sampleLink "C" "B" 2 2; sampleLink "B" "A" 3 3].
Proof.
  refine (proj1 (X14_equal_link_sets_hash_alike
                   (fun p => Z.of_nat (String.length (p.1.1 +:+ p.2.2)))
                   [sampleLink "A" "B" 1 1; sampleLink "B" "C" 1 1]
                   [sampleLink "C" "B" 2 2; sampleLink "B" "A" 3 3] _ _ _));
    vm_compute; reflexivity.
Defined.

(** ** LinkState: adding and removing links and nodes *)

Section LinkSetFacts.
Import LinkState LinkOps LinkStateOps.

Lemma linkEqb_refl (l : Link) : linkEqb l l = true.
Proof. by apply linkEqb_true. Qed.

Lemma linkSetErase_elem (s : LinkSet) (l x : Link) :
  x ∈ linkSetErase s l <-> x ∈ s /\ linkEqb l x = false.
Proof.
  unfold linkSetErase.
  rewrite !list_elem_of_In, filter_In, negb_true_iff. done.
Qed.

Lemma linkSetCount_false (s : LinkSet) (l : Link) :
  linkSetCount s l = false <-> forall x, x ∈ s -> linkEqb l x = false.
Proof.
  unfold linkSetCount. rewrite <- not_true_iff_false, existsb_exists. split.
  - intros Hno x Hx. apply not_true_iff_false. intros He. apply Hno.
    exists x. split; [by apply list_elem_of_In|done].
  - intros Hall (x & Hx & He). apply list_elem_of_In in Hx.
    rewrite (Hall x Hx) in He. done.
Qed.

Lemma linkSetErase_absent (s : LinkSet) (l : Link) :
  linkSetCount s l = false -> linkSetErase s l = s.
Proof.
  rewrite linkSetCount_false. unfold linkSetErase.
  induction s as [|x s IH]; intros Hall; [done|]. cbn [List.filter].
  rewrite (Hall x) by left. cbn [negb]. f_equal. apply IH.
  intros y Hy. apply Hall. by right.
Qed.

Lemma linkSetErase_added (s : LinkSet) (l : Link) :
  linkSetCount s l = false -> linkSetErase (s ++ [l]) l = s.
Proof.
  intros Hc. unfold linkSetErase. rewrite List.filter_app. cbn [List.filter].
  rewrite linkEqb_refl. cbn [negb]. rewrite app_nil_r.
  by apply linkSetErase_absent.
Qed.

Lemma linkSetCount_app (s s' : LinkSet) (l : Link) :
  linkSetCount (s ++ s') l = linkSetCount s l || linkSetCount s' l.
Proof. unfold linkSetCount. apply existsb_app. Qed.

Lemma linkSetCount_added (s : LinkSet) (l : Link) :
  linkSetCount (s ++ [l]) l = true.
Proof.
  rewrite linkSetCount_app. unfold linkSetCount at 2. cbn [existsb].
  rewrite linkEqb_refl. by rewrite orb_true_r.
Qed.

Lemma linkEqb_sym (a b : Link) : linkEqb a b = linkEqb b a.
Proof. unfold linkEqb. apply bool_decide_ext. split; congruence. Qed.

Lemma linkSetNoDup_added (s : LinkSet) (l : Link) :
  linkSetNoDup s = true -> linkSetCount s l = false ->
  linkSetNoDup (s ++ [l]) = true.
Proof.
  induction s as [|x s IH]; cbn [linkSetNoDup app]; [done|].
  intros [Hx Hs]%andb_true_iff Hc.
  rewrite linkSetCount_false in Hc.
  apply andb_true_iff. split.
  - rewrite linkSetCount_app, negb_orb. apply andb_true_iff. split; [done|].
    unfold linkSetCount. cbn [existsb]. rewrite orb_false_r.
    rewrite linkEqb_sym, (Hc x) by left. done.
  - apply IH; [done|]. apply linkSetCount_false. intros y Hy. apply Hc.
    by right.
Qed.

Lemma linksFromNode_default (ls : LinkState.t) (n : string) :
  default [] (linkMap_ ls !! n) = linksFromNode ls n.
Proof. unfold linksFromNode. by destruct (linkMap_ ls !! n). Qed.

(** The two ends of a link are its first and second node, in one order or
    the other. *)
Lemma first_second_ends (l : Link) :
  (firstNodeName l = n1_ l /\ secondNodeName l = n2_ l) \/
  (firstNodeName l = n2_ l /\ secondNodeName l = n1_ l).
Proof.
  unfold firstNodeName, secondNodeName, orderedNames.
  destruct (pairLtb _ _); cbn [fst snd]; by eauto.
Qed.

(** Equal links have the same ends. *)
Lemma orderedNames_ends (a b : Link) :
  orderedNames a = orderedNames b ->
  (n1_ a = n1_ b /\ n2_ a = n2_ b) \/ (n1_ a = n2_ b /\ n2_ a = n1_ b).
Proof.
  unfold orderedNames.
  destruct (pairLtb (n2_ a, if2_ a) (n1_ a, if1_ a)),
           (pairLtb (n2_ b, if2_ b) (n1_ b, if1_ b));
    intros [= ? ? ? ?]; by eauto.
Qed.

Lemma getOtherNodeName_names (a b : Link) (x : string) :
  orderedNames a = orderedNames b ->
  getOtherNodeName a x = getOtherNodeName b x.
Proof.
  intros [[H1 H2]|[H1 H2]]%orderedNames_ends;
    unfold getOtherNodeName, fromNode; rewrite H1, H2; [done|].
  repeat case_bool_decide; congruence.
Qed.

(** From one end of a link of two different nodes one reaches the other end,
    and back. *)
Lemma getOtherNodeName_back (l : Link) (n m : string) :
  getOtherNodeName l n = Some m -> n <> m -> getOtherNodeName l m = Some n.
Proof.
  unfold getOtherNodeName, fromNode.
  repeat case_bool_decide; intros [= <-] ?; congruence.
Qed.

(** What a successful [addLink] does. *)
Lemma addLink_Some (l : Link) (ls ls' : LinkState.t) :
  addLink l ls = Some ls' <->
  firstNodeName l <> secondNodeName l /\
  linkSetCount (linksFromNode ls (firstNodeName l)) l = false /\
  linkSetCount (linksFromNode ls (secondNodeName l)) l = false /\
  linkSetCount (allLinks_ ls) l = false /\
  ls' = mkLinkState (ls_area ls)
          (<[secondNodeName l := linksFromNode ls (secondNodeName l) ++ [l]]>
             (<[firstNodeName l := linksFromNode ls (firstNodeName l) ++ [l]]>
                (linkMap_ ls)))
          (allLinks_ ls ++ [l]) (nodeOverloads_ ls)
          (nodeMetricIncrementVals_ ls) (adjacencyDatabases_ ls).
Proof.
  unfold addLink, linkSetInsert. rewrite !linksFromNode_default.
  destruct (linkSetCount (linksFromNode ls (firstNodeName l)) l) eqn:Hf;
    cbn [mbind option_bind]; [naive_solver|].
  destruct (decide (firstNodeName l = secondNodeName l)) as [Heq|Hne].
  - rewrite <- Heq, lookup_insert_eq. cbn [default from_option id].
    rewrite linkSetCount_added. cbn [mbind option_bind]. naive_solver.
  - rewrite lookup_insert_ne by done. rewrite linksFromNode_default.
    destruct (linkSetCount (linksFromNode ls (secondNodeName l)) l) eqn:Hs;
      cbn [mbind option_bind]; [naive_solver|].
    destruct (linkSetCount (allLinks_ ls) l) eqn:Ha; naive_solver.
Qed.

End LinkSetFacts.

(** X15: [removeLink] undoes [addLink]: after a link is added, removing it
    succeeds and leaves every node with the links it had before, and
    [allLinks_] as it was. *)
Theorem X15_removeLink_undoes_addLink
    (l : LinkState.Link) (ls ls1 : LinkState.t) :
  LinkState.addLink l ls = Some ls1 ->
  exists ls2,
    LinkStateOps.removeLink l ls1 = Some ls2 /\
    (forall n, LinkState.linksFromNode ls2 n = LinkState.linksFromNode ls n) /\
    LinkState.allLinks_ ls2 = LinkState.allLinks_ ls /\
    LinkState.nodeOverloads_ ls2 = LinkState.nodeOverloads_ ls /\
    LinkState.adjacencyDatabases_ ls2 = LinkState.adjacencyDatabases_ ls.
Proof.
  intros (Hne & Hf & Hs & Ha & ->)%addLink_Some.
  unfold LinkStateOps.removeLink. cbn [LinkState.linkMap_ LinkState.allLinks_].
  rewrite (lookup_insert_ne _ (LinkState.secondNodeName l)
             (LinkState.firstNodeName l)) by done.
  rewrite lookup_insert_eq.
  cbn [mbind option_bind]. rewrite !linkSetCount_added.
  cbn [mbind option_bind].
  rewrite (lookup_insert_ne _ (LinkState.firstNodeName l)
             (LinkState.secondNodeName l)) by done.
  rewrite lookup_insert_eq. cbn [mbind option_bind].
  rewrite !linkSetCount_added. cbn [mbind option_bind].
  rewrite !linkSetErase_added by done.
  eexists. split; [done|]. cbn. split; [|done].
  intros n. unfold LinkState.linksFromNode at 1. cbn [LinkState.linkMap_].
  destruct (decide (n = LinkState.secondNodeName l)) as [->|Hn2].
  { by rewrite lookup_insert_eq. }
  rewrite lookup_insert_ne by done.
  destruct (decide (n = LinkState.firstNodeName l)) as [->|Hn1].
  { by rewrite lookup_insert_eq. }
  by rewrite !lookup_insert_ne by done.
Qed.

Lemma sampleTwoNodes_built :
  LinkState.addLink (sampleLink "A" "B" 10 10) (LinkState.empty "0")
  = Some sampleTwoNodes.
Proof. vm_compute. reflexivity. Qed.

Lemma X15_removeLink_undoes_addLink_witness :
  exists ls2,
    LinkStateOps.removeLink (sampleLink "A" "B" 10 10) sampleTwoNodes
    = Some ls2 /\
    (forall n, LinkState.linksFromNode ls2 n
               = LinkState.linksFromNode (LinkState.empty "0") n) /\
    LinkState.allLinks_ ls2 = LinkState.allLinks_ (LinkState.empty "0") /\
    LinkState.nodeOverloads_ ls2 = LinkState.nodeOverloads_ (LinkState.empty "0") /\
    LinkState.adjacencyDatabases_ ls2
    = LinkState.adjacencyDatabases_ (LinkState.empty "0").
Proof.
  exact (X15_removeLink_undoes_addLink (sampleLink "A" "B" 10 10)
           (LinkState.empty "0") sampleTwoNodes sampleTwoNodes_built).
Defined.

(** ** LinkState: the link sets stay consistent *)

Section Consistency.
Import LinkState LinkOps LinkStateOps.

Lemma linksFromNode_lookup (ls : LinkState.t) (n : string) (x : Link) :
  x ∈ linksFromNode ls n -> linkMap_ ls !! n = Some (linksFromNode ls n).
Proof.
  unfold linksFromNode. destruct (linkMap_ ls !! n); [done|].
  by intros ?%elem_of_nil.
Qed.

Lemma linkSetCount_mono (s s' : LinkSet) (l : Link) :
  (forall x, x ∈ s -> x ∈ s') ->
  linkSetCount s l = true -> linkSetCount s' l = true.
Proof.
  rewrite !linkSetCount_true. intros Hsub (x & Hx & He). exists x.
  split; [by apply Hsub|done].
Qed.

Lemma linkSetCount_here (s : LinkSet) (l : Link) :
  l ∈ s -> linkSetCount s l = true.
Proof. intros Hl. apply linkSetCount_true. by exists l. Qed.

Lemma empty_consistent (area : string) : consistent (empty area).
Proof.
  assert (forall n, linksFromNode (empty area) n = []) as Hnil.
  { intros n. unfold linksFromNode, empty. cbn [linkMap_].
    by rewrite lookup_empty. }
  split; try (intros n l; rewrite Hnil; by intros ?%elem_of_nil).
  - intros n l m. rewrite Hnil. by intros ?%elem_of_nil.
  - intros n. by rewrite Hnil.
  - done.
Qed.

Lemma consistent_wfLinkMap (ls : LinkState.t) :
  consistent ls -> wfLinkMap ls.
Proof.
  intros Hc n links l Hn Hl.
  destruct (cs_ends ls Hc n l) as (m & -> & _); [|by eexists].
  unfold linksFromNode. by rewrite Hn.
Qed.

(** The ends of a link that could be added. *)
Lemma getOtherNodeName_first_second (l : Link) :
  firstNodeName l <> secondNodeName l ->
  getOtherNodeName l (firstNodeName l) = Some (secondNodeName l) /\
  getOtherNodeName l (secondNodeName l) = Some (firstNodeName l).
Proof.
  unfold getOtherNodeName, fromNode.
  destruct (first_second_ends l) as [[-> ->]|[-> ->]]; intros Hne;
    repeat case_bool_decide; try done; congruence.
Qed.

Lemma linksFromNode_addLink (l : Link) (ls ls' : LinkState.t) (n : string) :
  addLink l ls = Some ls' ->
  linksFromNode ls' n =
  if bool_decide (n = secondNodeName l) then linksFromNode ls n ++ [l]
  else if bool_decide (n = firstNodeName l) then linksFromNode ls n ++ [l]
  else linksFromNode ls n.
Proof.
  intros (Hne & _ & _ & _ & ->)%addLink_Some.
  unfold linksFromNode at 1. cbn [linkMap_].
  case_bool_decide as H2; [subst n; by rewrite lookup_insert_eq|].
  rewrite lookup_insert_ne by done.
  case_bool_decide as H1; [subst n; by rewrite lookup_insert_eq|].
  by rewrite lookup_insert_ne by done.
Qed.

(** [addLink] keeps the link sets consistent. *)
Lemma addLink_consistent (l : Link) (ls ls' : LinkState.t) :
  consistent ls -> addLink l ls = Some ls' -> consistent ls'.
Proof.
  intros Hc Hadd.
  pose proof (fun n => linksFromNode_addLink l ls ls' n Hadd) as Hlinks.
  pose proof Hadd as (Hne & Hf & Hs & Ha & Hls')%addLink_Some.
  destruct (getOtherNodeName_first_second l Hne) as [Ho1 Ho2].
  assert (allLinks_ ls' = allLinks_ ls ++ [l]) as Hall by by subst ls'.
  assert (forall n x, x ∈ linksFromNode ls' n ->
            x ∈ linksFromNode ls n \/
            (x = l /\ (n = firstNodeName l \/ n = secondNodeName l))) as Hold.
  { intros n x. rewrite Hlinks. repeat case_bool_decide;
      rewrite ?elem_of_app, ?list_elem_of_singleton; naive_solver. }
  assert (forall n x, x ∈ linksFromNode ls n -> x ∈ linksFromNode ls' n)
    as Hkeep.
  { intros n x Hx. rewrite Hlinks. repeat case_bool_decide;
      rewrite ?elem_of_app; by eauto. }
  assert (l ∈ linksFromNode ls' (firstNodeName l) /\
          l ∈ linksFromNode ls' (secondNodeName l)) as [Hin1 Hin2].
  { rewrite !Hlinks. rewrite (bool_decide_false _ Hne).
    rewrite !bool_decide_true by done.
    split; apply elem_of_app; right; by apply list_elem_of_singleton. }
  split.
  - intros n x [Hx|[-> [->| ->]]]%Hold.
    + by apply (cs_ends ls Hc).
    + exists (secondNodeName l). split; [done|congruence].
    + exists (firstNodeName l). split; [done|congruence].
  - intros n x m [Hx|[-> [->| ->]]]%Hold Ho.
    + eapply linkSetCount_mono; [apply Hkeep|]. by eapply (cs_sym ls Hc).
    + rewrite Ho1 in Ho. injection Ho as <-. by apply linkSetCount_here.
    + rewrite Ho2 in Ho. injection Ho as <-. by apply linkSetCount_here.
  - intros n x [Hx|[-> _]]%Hold; rewrite Hall, linkSetCount_app.
    + by rewrite (cs_all ls Hc n x Hx).
    + unfold linkSetCount at 2. cbn [existsb]. rewrite linkEqb_refl.
      by rewrite orb_true_r.
  - intros n. rewrite Hlinks. pose proof (cs_noDup ls Hc n) as Hnd.
    repeat case_bool_decide; subst; try done;
      by apply linkSetNoDup_added.
  - rewrite Hall. apply linkSetNoDup_added; [apply (cs_allNoDup ls Hc)|done].
Qed.

Lemma buildLinkState_consistent (links : list Link) (ls : LinkState.t) :
  buildLinkState links = Some ls -> consistent ls.
Proof.
  unfold buildLinkState.
  assert (forall ls0, consistent ls0 ->
            foldlM (fun ls l => addLink l ls) ls0 links = Some ls ->
            consistent ls) as Hgen.
  { induction links as [|l links IH]; intros ls0 Hc; cbn [foldlM].
    - by intros [= <-].
    - destruct (addLink l ls0) as [ls1|] eqn:Hadd; [|done].
      apply IH. by eapply addLink_consistent. }
  apply Hgen, empty_consistent.
Qed.

(** Consistency is a property of the link sets alone. *)
Lemma consistent_same_links (ls ls' : LinkState.t) :
  linkMap_ ls' = linkMap_ ls -> allLinks_ ls' = allLinks_ ls ->
  consistent ls -> consistent ls'.
Proof.
  intros Hm Ha Hc.
  assert (forall n, linksFromNode ls' n = linksFromNode ls n) as Hl.
  { intros n. unfold linksFromNode. by rewrite Hm. }
  split; intros *; rewrite ?Hl, ?Ha; apply Hc.
Qed.

(** *** Erasing from link sets *)

Lemma linkSetCount_erase (s : LinkSet) (l x : Link) :
  linkSetCount (linkSetErase s l) x = true -> linkSetCount s x = true.
Proof.
  apply linkSetCount_mono. intros y Hy. by apply linkSetErase_elem in Hy as [? _].
Qed.

Lemma linkSetNoDup_erase (s : LinkSet) (l : Link) :
  linkSetNoDup s = true -> linkSetNoDup (linkSetErase s l) = true.
Proof.
  induction s as [|x s IH]; [done|]. cbn [linkSetNoDup].
  intros [Hx Hs]%andb_true_iff. unfold linkSetErase. cbn [List.filter].
  fold (linkSetErase s l). destruct (negb (linkEqb l x)); [|by apply IH].
  cbn [linkSetNoDup]. apply andb_true_iff. split; [|by apply IH].
  apply negb_true_iff, not_true_iff_false. intros Hc%linkSetCount_erase.
  by rewrite Hc in Hx.
Qed.

Lemma linkSetNoDup_distinct (P Q : LinkSet) (li lj : Link) :
  linkSetNoDup (P ++ li :: Q) = true -> lj ∈ P -> linkEqb lj li = false.
Proof.
  induction P as [|p P IH]; [by intros _ ?%elem_of_nil|].
  cbn [app linkSetNoDup]. intros [Hp HP]%andb_true_iff.
  intros [->|Hin]%elem_of_cons; [|by apply IH].
  apply negb_true_iff in Hp. rewrite linkSetCount_false in Hp.
  apply Hp. apply elem_of_app. right. left.
Qed.

(** *** The loop of [removeNode] *)

Section RemoveNode.
Variable ls : LinkState.t.
Variable nodeName : string.
Hypothesis Hc : consistent ls.

(** The state after the links [P] of the node have been handled: every set
    has lost the links of [P] that lead to its node, [allLinks_] has lost the
    links of [P], and nothing else changed. *)
Abbreviation erased := (fun (P : LinkSet) (st : gmap string LinkSet * LinkSet) =>
  (forall m, is_Some (st.1 !! m) <-> is_Some (linkMap_ ls !! m)) /\
  (forall m x, x ∈ default [] (st.1 !! m) <->
     x ∈ linksFromNode ls m /\
     forall li, li ∈ P -> getOtherNodeName li nodeName = Some m ->
                linkEqb li x = false) /\
  (forall x, x ∈ st.2 <->
     x ∈ allLinks_ ls /\ forall li, li ∈ P -> linkEqb li x = false) /\
  (forall m, linkSetNoDup (default [] (st.1 !! m)) = true) /\
  linkSetNoDup st.2 = true).

Lemma removeNodeLoop_erased (Q : LinkSet) :
  forall P st,
    linksFromNode ls nodeName = P ++ Q -> erased P st ->
    exists st', foldlM (removeNodeStep nodeName) st Q = Some st' /\
                erased (P ++ Q) st'.
Proof.
  induction Q as [|li Q IH]; intros P [M A] HPQ Hinv; cbn [foldlM].
  { exists (M, A). by rewrite app_nil_r. }
  destruct Hinv as (Hdom & Hsets & Hall & Hnd & HndA). cbn [fst snd] in *.
  assert (li ∈ linksFromNode ls nodeName) as Hli.
  { rewrite HPQ. apply elem_of_app. right. left. }
  destruct (cs_ends ls Hc nodeName li Hli) as (m & Hother & Hm).
  pose proof (cs_noDup ls Hc nodeName) as HndN. rewrite HPQ in HndN.
  assert (forall x, orderedNames li = orderedNames x ->
            forall lj, lj ∈ P -> linkEqb lj x = false) as Hfresh.
  { intros x Hx lj Hlj. rewrite <- (linkSetNoDup_distinct P Q li lj HndN Hlj).
    unfold linkEqb. apply bool_decide_ext. by rewrite Hx. }
  pose proof (cs_sym ls Hc nodeName li m Hli Hother) as Hsym.
  apply linkSetCount_true in Hsym as (y & Hy & Hyn).
  assert (y ∈ default [] (M !! m)) as HyM.
  { apply Hsets. split; [done|]. intros lj Hlj _. by apply Hfresh. }
  destruct (M !! m) as [s|] eqn:HMm; [|by apply elem_of_nil in HyM].
  cbn [default from_option id] in HyM.
  pose proof (cs_all ls Hc nodeName li Hli) as HliA.
  apply linkSetCount_true in HliA as (z & Hz & Hzn).
  assert (z ∈ A) as HzA.
  { apply Hall. split; [done|]. intros lj Hlj. by apply Hfresh. }
  unfold removeNodeStep at 1. cbn [fst snd]. rewrite Hother.
  cbn [mbind option_bind]. rewrite HMm. cbn [mbind option_bind].
  rewrite (proj2 (linkSetCount_true s li)) by by exists y.
  rewrite (proj2 (linkSetCount_true A li)) by by exists z.
  cbn [andb].
  destruct (IH (P ++ [li]) (<[m := linkSetErase s li]> M, linkSetErase A li))
    as (st' & Hrun & Hinv').
  { by rewrite <- app_assoc. }
  { cbn [fst snd]. split; [|split; [|split; [|split]]].
    - intros m'. rewrite <- Hdom. destruct (decide (m' = m)) as [->|Hne].
      + rewrite lookup_insert_eq, HMm. split; by eexists.
      + by rewrite lookup_insert_ne.
    - intros m' x. destruct (decide (m' = m)) as [->|Hne].
      + rewrite lookup_insert_eq. cbn [default from_option id].
        rewrite linkSetErase_elem.
        pose proof (Hsets m x) as Hs. rewrite HMm in Hs. cbn [default from_option id] in Hs.
        rewrite Hs. split.
        * intros [[Hx Hold] Hnew]. split; [done|].
          intros lj [Hlj| ->%list_elem_of_singleton]%elem_of_app Ho;
            [by apply Hold|done].
        * intros [Hx Hold]. split; [split; [done|]|].
          -- intros lj Hlj. apply Hold. apply elem_of_app. by left.
          -- apply Hold; [|done]. apply elem_of_app. right.
             by apply list_elem_of_singleton.
      + rewrite lookup_insert_ne by done. rewrite Hsets. split.
        * intros [Hx Hold]. split; [done|].
          intros lj [Hlj| ->%list_elem_of_singleton]%elem_of_app Ho;
            [by apply Hold|congruence].
        * intros [Hx Hold]. split; [done|].
          intros lj Hlj. apply Hold. apply elem_of_app. by left.
    - intros x. rewrite linkSetErase_elem, Hall. split.
      + intros [[Hx Hold] Hnew]. split; [done|].
        intros lj [Hlj| ->%list_elem_of_singleton]%elem_of_app;
          [by apply Hold|done].
      + intros [Hx Hold]. split; [split; [done|]|].
        * intros lj Hlj. apply Hold. apply elem_of_app. by left.
        * apply Hold. apply elem_of_app. right.
          by apply list_elem_of_singleton.
    - intros m'. destruct (decide (m' = m)) as [->|Hne].
      + rewrite lookup_insert_eq. cbn [default from_option id]. apply linkSetNoDup_erase.
        specialize (Hnd m). by rewrite HMm in Hnd.
      + rewrite lookup_insert_ne by done. apply Hnd.
    - by apply linkSetNoDup_erase. }
  exists st'. split; [done|]. by rewrite <- app_assoc in Hinv'.
Qed.

End RemoveNode.

(** Removing all links of a node from a consistent link state leaves a
    consistent one. *)
Lemma removed_consistent (ls ls' : LinkState.t) (nodeName : string) :
  consistent ls ->
  (forall m x, x ∈ linksFromNode ls' m <->
     x ∈ linksFromNode ls m /\ m <> nodeName /\
     getOtherNodeName x m <> Some nodeName) ->
  (forall x, x ∈ allLinks_ ls' <->
     x ∈ allLinks_ ls /\ linkSetCount (linksFromNode ls nodeName) x = false) ->
  (forall m, linkSetNoDup (linksFromNode ls' m) = true) ->
  linkSetNoDup (allLinks_ ls') = true ->
  consistent ls'.
Proof.
  intros Hc Hchar Hall Hnd HndA. split; [| | |done|done].
  - intros m x (Hx & _ & _)%Hchar. by apply (cs_ends ls Hc).
  - intros m x m' (Hx & Hm & Hn)%Hchar Ho.
    destruct (cs_ends ls Hc m x Hx) as (m0 & Ho' & Hne).
    rewrite Ho in Ho'. injection Ho' as <-.
    pose proof (cs_sym ls Hc m x m' Hx Ho) as Hs.
    apply linkSetCount_true in Hs as (y & Hy & Hyn).
    apply linkSetCount_true. exists y. split; [|done].
    apply Hchar. split; [done|]. split; [congruence|].
    rewrite <- (getOtherNodeName_names x y m' Hyn).
    rewrite (getOtherNodeName_back x m m' Ho) by done. congruence.
  - intros m x (Hx & Hm & Hn)%Hchar.
    pose proof (cs_all ls Hc m x Hx) as Ha.
    apply linkSetCount_true in Ha as (y & Hy & Hyn).
    apply linkSetCount_true. exists y. split; [|done].
    apply Hall. split; [done|]. apply not_true_iff_false.
    intros (li & Hli & Hlin)%linkSetCount_true.
    destruct (cs_ends ls Hc nodeName li Hli) as (m1 & Ho1 & Hne1).
    destruct (cs_ends ls Hc m x Hx) as (m2 & Ho2 & Hne2).
    assert (getOtherNodeName x nodeName = Some m1) as Hxn.
    { rewrite (getOtherNodeName_names x y nodeName Hyn).
      by rewrite (getOtherNodeName_names y li nodeName Hlin). }
    (* [x] joins [m] and [m2], and also [nodeName] and [m1] *)
    revert Ho2 Hxn Hn Hm Hne2. unfold getOtherNodeName, fromNode.
    repeat case_bool_decide; intros; simplify_eq; congruence.
Qed.

(** [removeNode] on a consistent link state: it succeeds; the node has no
    link left; every other node keeps exactly its links that do not lead to
    the node; [allLinks_] loses the links of the node; the overload entry of
    the node is erased unless the node had no link set, in which case nothing
    changes at all; and the link sets are consistent again. *)
Lemma removeNode_spec (ls : LinkState.t) (nodeName : string) :
  consistent ls ->
  exists ls',
    removeNode nodeName ls = Some ls' /\
    linksFromNode ls' nodeName = [] /\
    (forall m x, x ∈ linksFromNode ls' m <->
       x ∈ linksFromNode ls m /\ m <> nodeName /\
       getOtherNodeName x m <> Some nodeName) /\
    (forall x, x ∈ allLinks_ ls' <->
       x ∈ allLinks_ ls /\ linkSetCount (linksFromNode ls nodeName) x = false) /\
    nodeOverloads_ ls' =
      match linkMap_ ls !! nodeName with
      | Some _ => delete nodeName (nodeOverloads_ ls)
      | None => nodeOverloads_ ls
      end /\
    nodeMetricIncrementVals_ ls' = nodeMetricIncrementVals_ ls /\
    adjacencyDatabases_ ls' = adjacencyDatabases_ ls /\
    consistent ls'.
Proof.
  intros Hc. unfold removeNode.
  destruct (linkMap_ ls !! nodeName) as [links|] eqn:Hn.
  2:{ assert (linksFromNode ls nodeName = []) as Hnil
        by (unfold linksFromNode; by rewrite Hn).
      exists ls. split; [done|]. split; [done|]. split; [|split; [|done]].
      - intros m x. split; [|by intros [? _]]. intros Hx.
        split; [done|]. split.
        + intros ->. rewrite Hnil in Hx. by apply elem_of_nil in Hx.
        + intros Ho. pose proof (cs_sym ls Hc m x nodeName Hx Ho) as Hs.
          by rewrite Hnil in Hs.
      - intros x. rewrite Hnil. split; [by intros ?|by intros [? _]]. }
  assert (linksFromNode ls nodeName = links) as Hlinks
    by (unfold linksFromNode; by rewrite Hn).
  destruct (removeNodeLoop_erased ls nodeName Hc links []
              (linkMap_ ls, allLinks_ ls)) as ([M A] & -> & Hinv).
  { done. }
  { cbn [fst snd]. split; [done|]. split; [|split; [|split]].
    - intros m x. rewrite linksFromNode_default. split; [|by intros [? _]].
      intros ?. split; [done|]. by intros li ?%elem_of_nil.
    - intros x. split; [|by intros [? _]].
      intros ?. split; [done|]. by intros li ?%elem_of_nil.
    - intros m. rewrite linksFromNode_default. apply (cs_noDup ls Hc).
    - apply (cs_allNoDup ls Hc). }
  cbn [app fst snd mbind option_bind] in *.
  destruct Hinv as (Hdom & Hsets & Hall & Hnd & HndA).
  eexists. split; [done|].
  set (ls' := mkLinkState _ _ _ _ _ _).
  assert (forall m, linksFromNode ls' m =
            if decide (m = nodeName) then [] else default [] (M !! m)) as Hl'.
  { intros m. unfold linksFromNode, ls'. cbn [linkMap_].
    case_decide as Hm; [subst; by rewrite lookup_delete_eq|].
    rewrite lookup_delete_ne by done. by destruct (M !! m). }
  assert (forall m x, x ∈ linksFromNode ls' m <->
            x ∈ linksFromNode ls m /\ m <> nodeName /\
            getOtherNodeName x m <> Some nodeName) as Hchar.
  { intros m x. rewrite Hl'. case_decide as Hm.
    { split; [by intros ?%elem_of_nil|]. by intros (_ & ? & _). }
    rewrite Hsets. split.
    - intros [Hx Hno]. split; [done|]. split; [done|]. intros Ho.
      pose proof (cs_sym ls Hc m x nodeName Hx Ho) as Hs.
      rewrite Hlinks in Hs.
      apply linkSetCount_true in Hs as (li & Hli & Hlin).
      assert (linkEqb li x = false) as Hne;
        [|by rewrite (proj2 (linkEqb_true li x)) in Hne].
      apply Hno; [done|].
      rewrite <- (getOtherNodeName_names x li nodeName Hlin).
      by apply getOtherNodeName_back.
    - intros (Hx & _ & Ho). split; [done|]. intros li Hli Holi.
      apply not_true_iff_false. intros He%linkEqb_true. apply Ho.
      apply getOtherNodeName_back; [|done].
      by rewrite <- (getOtherNodeName_names li x nodeName He). }
  assert (forall x, x ∈ allLinks_ ls' <->
            x ∈ allLinks_ ls /\
            linkSetCount (linksFromNode ls nodeName) x = false) as HcharA.
  { intros x. unfold ls'. cbn [allLinks_]. rewrite Hall, Hlinks.
    rewrite linkSetCount_false. split; intros [Hx Hno]; (split; [done|]);
      intros li Hli; rewrite linkEqb_sym; by apply Hno. }
  split; [by rewrite Hl', decide_True|]. split; [done|]. split; [done|].
  do 3 (split; [done|]).
  apply (removed_consistent ls ls' nodeName); try done.
  intros m. rewrite Hl'. case_decide; [done|apply Hnd].
Qed.

End Consistency.

(** X16: [deleteAdjacencyDatabase] on a consistent link state.  For a node
    without an adjacency database nothing changes and no topology change is
    reported.  Otherwise a change is reported, the database is gone, the node
    has no link left, every other node keeps exactly its links that do not
    lead to the node, and the link sets are consistent again; the node's
    metric increment is kept, and so is its overload entry when the node had
    no link set. *)
Theorem X16_deleteAdjacencyDatabase_removes_node
    (ls : LinkState.t) (nodeName : string) :
  LinkStateOps.consistent ls ->
  match LinkState.adjacencyDatabases_ ls !! nodeName with
  | None => LinkStateOps.deleteAdjacencyDatabase nodeName ls = Some (ls, false)
  | Some _ =>
      exists ls',
        LinkStateOps.deleteAdjacencyDatabase nodeName ls = Some (ls', true) /\
        LinkState.adjacencyDatabases_ ls'
        = delete nodeName (LinkState.adjacencyDatabases_ ls) /\
        LinkState.linksFromNode ls' nodeName = [] /\
        (forall m x, x ∈ LinkState.linksFromNode ls' m <->
           x ∈ LinkState.linksFromNode ls m /\ m <> nodeName /\
           LinkState.getOtherNodeName x m <> Some nodeName) /\
        (forall x, x ∈ LinkState.allLinks_ ls' <->
           x ∈ LinkState.allLinks_ ls /\
           LinkState.linkSetCount (LinkState.linksFromNode ls nodeName) x
           = false) /\
        LinkState.getNodeMetricIncrement ls' nodeName
        = LinkState.getNodeMetricIncrement ls nodeName /\
        LinkState.nodeOverloads_ ls' =
          match LinkState.linkMap_ ls !! nodeName with
          | Some _ => delete nodeName (LinkState.nodeOverloads_ ls)
          | None => LinkState.nodeOverloads_ ls
          end /\
        LinkStateOps.consistent ls'
  end.
Proof.
  intros Hc. unfold LinkStateOps.deleteAdjacencyDatabase.
  destruct (LinkState.adjacencyDatabases_ ls !! nodeName); [|done].
  destruct (removeNode_spec ls nodeName Hc)
    as (ls1 & -> & Hnil & Hchar & HcharA & Hov & Hinc & Hdb & Hc1).
  cbn [mbind option_bind]. eexists. split; [done|].
  cbn [LinkState.adjacencyDatabases_]. split; [by rewrite Hdb|].
  split; [done|]. split; [done|]. split; [done|].
  split; [unfold LinkState.getNodeMetricIncrement; cbn; by rewrite Hinc|].
  split; [done|].
  by apply (consistent_same_links ls1).
Qed.

Lemma sampleLabelLinkState_consistent :
  LinkStateOps.consistent sampleLabelLinkState.
Proof.
  apply (consistent_same_links
           (default (LinkState.empty "0")
              (buildLinkState
                 [sampleLink "0" "1" 1 1; sampleLink "0" "2" 1 1])));
    [done|done|].
  apply (buildLinkState_consistent
           [sampleLink "0" "1" 1 1; sampleLink "0" "2" 1 1]).
  vm_compute. reflexivity.
Qed.

Lemma X16_deleteAdjacencyDatabase_removes_node_witness :
  exists ls',
    LinkStateOps.deleteAdjacencyDatabase "1" sampleLabelLinkState
    = Some (ls', true) /\
    LinkState.adjacencyDatabases_ ls'
    = delete "1" (LinkState.adjacencyDatabases_ sampleLabelLinkState) /\
    LinkState.linksFromNode ls' "1" = [].
Proof.
  destruct (X16_deleteAdjacencyDatabase_removes_node sampleLabelLinkState "1"
              sampleLabelLinkState_consistent) as (ls' & H1 & H2 & H3 & _).
  exists ls'. split; [exact H1|]. split; [exact H2|exact H3].
Defined.

(** ** SPF: sources, next hops and path links *)

Section DijkstraQMore.
Import LinkState.
Context {R : Type}.

Lemma qSetResult_elem_other (q : DijkstraQ R) (name : string) (r : R)
    (x : string * R) :
  x ∈ qSetResult name r q -> (x ∈ q /\ x.1 <> name) \/ x = (name, r).
Proof.
  unfold qSetResult. intros Hin. apply list_elem_of_fmap in Hin as (y & -> & Hy).
  case_bool_decide as Hn; [right; by rewrite Hn|left; done].
Qed.

Lemma qGet_inserted (q : DijkstraQ R) (name : string) (r : R) :
  qGet name q = None -> qGet name (qInsertNode name r q) = Some r.
Proof.
  unfold qGet, qInsertNode. intros Hnone. apply fmap_None in Hnone.
  induction q as [|y q IH]; cbn [app List.find] in *.
  - by rewrite bool_decide_true.
  - destruct (bool_decide (y.1 = name)); [done|]. by apply IH.
Qed.

End DijkstraQMore.

Section SpfEntries.
Import LinkState LinkStateOps.
Variable ls : LinkState.t.
Variable src : string.
Variable useLinkMetric : bool.
Variable linksToIgnore : LinkSet.

Abbreviation entryOk := (spfEntry src).
Abbreviation relaxOne := (relaxLink useLinkMetric linksToIgnore).
Abbreviation spf := (spfLoop ls src useLinkMetric linksToIgnore).

Lemma metricAdd_range (a b : Z) : 0 <= metricAdd a b < 2 ^ 64.
Proof. unfold metricAdd, to_uint64. apply Z.mod_pos_bound. lia. Qed.

Lemma entryOk_source : entryOk src (resetResult 0).
Proof.
  split; try done; cbn [resetResult nextHops pathLinks].
  all: try (intros Hh; set_solver).
Qed.

Lemma hopsResolved_mono (result result' : SpfResult) (n : string)
    (r : NodeSpfResult) :
  result ⊆ result' -> hopsResolved result n r -> hopsResolved result' n r.
Proof.
  intros Hsub Hr h Hh. destruct (Hr h Hh) as [->|(rh & Hrh & Hin)];
    [by left|right]. exists rh. split; [|done]. by eapply lookup_weaken.
Qed.

(** One relaxation keeps the entries of the queue in order. *)
Lemma relaxLink_entries (result : SpfResult) (recordedName : string)
    (recorded : NodeSpfResult) (q q' : DijkstraQ NodeSpfResult) (l : Link) :
  is_Some (result !! src) ->
  result !! recordedName = Some recorded ->
  entryOk recordedName recorded ->
  hopsResolved result recordedName recorded ->
  (forall x, x ∈ q -> entryOk x.1 x.2 /\ hopsResolved result x.1 x.2) ->
  relaxOne result recordedName (metric recorded) (nextHops recorded) q l
  = Some q' ->
  forall x, x ∈ q' -> entryOk x.1 x.2 /\ hopsResolved result x.1 x.2.
Proof.
  intros Hsrc Hrec Hok Hres Hq. unfold relaxLink.
  destruct (getOtherNodeName l recordedName) as [other|] eqn:Hother;
    cbn [mbind option_bind]; [|done].
  destruct (negb (isUp l) || bool_decide (is_Some (result !! other))
            || linkSetCount linksToIgnore l) eqn:Hskip.
  { intros [= <-]. done. }
  apply orb_false_iff in Hskip as [Hskip Hign].
  apply orb_false_iff in Hskip as [Hup Hseen].
  apply negb_false_iff in Hup. apply bool_decide_eq_false_1 in Hseen.
  assert (other <> src) as Hne by (intros ->; done).
  assert (other <> recordedName) as Hnr.
  { intros ->. apply Hseen. by eexists. }
  destruct (if useLinkMetric then getMetricFromNode l recordedName else Some 1)
    as [c|] eqn:Hcost; cbn [mbind option_bind]; [|done].
  set (m := metricAdd (metric recorded) c).
  (* the entry that the relaxation writes for [other], from an entry [r1]
     that is in order or empty *)
  assert (forall r1,
            (r1 = resetResult m \/
             (entryOk other r1 /\ hopsResolved result other r1)) ->
            forall r4,
              r4 = (let r3 := addNextHops (nextHops recorded)
                                (addPath l recordedName r1) in
                    if bool_decide (nextHops r3 = ∅)
                    then addNextHop other r3 else r3) ->
              entryOk other r4 /\ hopsResolved result other r4) as Hnew.
  { intros r1 Hr1 r4 ->.
    assert (pathLinks r1 = [] \/ entryOk other r1) as Hp1
      by (destruct Hr1 as [->|[? _]]; by eauto).
    assert (0 <= metric r1 < 2 ^ 64) as Hm1.
    { destruct Hr1 as [->|[Hr1 _]]; [apply metricAdd_range|apply Hr1]. }
    assert (hopsResolved result other r1) as Hh1.
    { destruct Hr1 as [->|[_ Hr1]]; [|done]. intros h Hh. cbn in Hh.
      set_solver. }
    assert (other ∈ nextHops r1 ->
            exists p, p ∈ pathLinks r1 /\ prevNode p = src) as Hd1.
    { destruct Hr1 as [->|[Hr1 _]]; [intros Hh; cbn in Hh; set_solver|].
      apply Hr1. }
    assert (forall h, h ∈ nextHops recorded ->
              exists rh, result !! h = Some rh /\ h ∈ nextHops rh) as Hhrec.
    { intros h Hh. destruct (Hres h Hh) as [->|?]; [|done].
      by exists recorded. }
    assert (forall p, p ∈ pathLinks r1 ++ [mkPathLink l recordedName] ->
              getOtherNodeName (link p) (prevNode p) = Some other) as Hleads.
    { intros p [Hp| ->%list_elem_of_singleton]%elem_of_app; [|done].
      destruct Hp1 as [Hnil|Hok1];
        [rewrite Hnil in Hp; by apply elem_of_nil in Hp|].
      by apply Hok1. }
    cbv zeta. cbn [addNextHops addPath nextHops pathLinks metric].
    case_bool_decide as Hempty.
    - assert (nextHops recorded = ∅) as Hrecempty by set_solver.
      assert (recordedName = src) as ->.
      { destruct (decide (recordedName = src)) as [?|Hn]; [done|].
        by destruct (se_hops _ _ _ Hok Hn). }
      split; [split|]; cbn [addNextHop nextHops pathLinks metric]; try done.
      + intros _ Hnil. by apply app_eq_nil in Hnil as [_ ?].
      + intros _. set_solver.
      + intros _. exists (mkPathLink l src). split; [|done].
        apply elem_of_app. right. by apply list_elem_of_singleton.
      + intros h Hh. left. set_solver.
    - split; [split|]; cbn [nextHops pathLinks metric]; try done.
      + intros _ Hnil. by apply app_eq_nil in Hnil as [_ ?].
      + intros [Hh|Hh]%elem_of_union.
        * destruct (Hd1 Hh) as (p & Hp & Hps). exists p.
          split; [apply elem_of_app; by left|done].
        * destruct (Hhrec other Hh) as (rh & Hrh & _). exfalso.
          apply Hseen. by eexists.
      + intros h [Hh|Hh]%elem_of_union; [by apply Hh1|right; by apply Hhrec]. }
  destruct (qGet other q) as [o|] eqn:Hget.
  - (* [other] is queued already *)
    rewrite Hget. cbn [mbind option_bind].
    pose proof (qGet_Some _ _ _ Hget) as Hin.
    destruct (Z.leb_spec m (metric o)) as [Hle|Hgt]; [|intros [= <-]; done].
    intros [= <-] x [[Hx _]| ->]%qSetResult_elem_other; [by apply Hq|].
    apply (Hnew (if m <? metric o then resetResult m else o)); [|done].
    destruct (m <? metric o); [by left|right]. by apply (Hq _ Hin).
  - (* [other] is queued now *)
    rewrite (qGet_inserted q other (resetResult m) Hget).
    cbn [mbind option_bind metric resetResult].
    rewrite Z.leb_refl, Z.ltb_irrefl.
    intros [= <-] x [[Hx Hxn]| ->]%qSetResult_elem_other.
    + apply qInsertNode_elem in Hx as [Hx| ->]; [by apply Hq|done].
    + apply (Hnew (resetResult m)); [by left|done].
Qed.

Lemma relaxLinks_entries (result : SpfResult) (recordedName : string)
    (recorded : NodeSpfResult) (links : list Link) :
  is_Some (result !! src) ->
  result !! recordedName = Some recorded ->
  entryOk recordedName recorded ->
  hopsResolved result recordedName recorded ->
  forall q q',
    (forall x, x ∈ q -> entryOk x.1 x.2 /\ hopsResolved result x.1 x.2) ->
    foldlM (relaxOne result recordedName (metric recorded) (nextHops recorded))
      q links = Some q' ->
    forall x, x ∈ q' -> entryOk x.1 x.2 /\ hopsResolved result x.1 x.2.
Proof.
  intros Hsrc Hrec Hok Hres.
  induction links as [|l links IH]; intros q q' Hq; cbn [foldlM].
  - by intros [= <-].
  - destruct (relaxOne result recordedName (metric recorded)
                (nextHops recorded) q l) as [q1|] eqn:Hstep; [|done].
    apply IH. by eapply relaxLink_entries.
Qed.

(** The SPF loop returns entries in order, whose next hops are recorded
    nodes that are their own next hop. *)
Lemma spfLoop_entries (fuel : nat) :
  forall q result R,
    is_Some (result !! src) \/ (result = ∅ /\ q = [(src, resetResult 0)]) ->
    (forall x, x ∈ q -> entryOk x.1 x.2 /\ hopsResolved result x.1 x.2) ->
    (forall n r, result !! n = Some r ->
       entryOk n r /\ hopsResolved result n r) ->
    spf fuel q result = Some R ->
    forall n r, R !! n = Some r -> entryOk n r /\ hopsResolved R n r.
Proof.
  induction fuel as [|fuel IH]; intros q result R Hsrc Hq Hres;
    cbn [spfLoop]; [done|].
  destruct (qExtractMin metric q) as [[[name nodeResult] q']|] eqn:Hext.
  2:{ intros [= <-]. done. }
  pose proof Hext as [Hin Hq']%qExtractMin_Some.
  destruct (result !! name) eqn:Hfresh; [done|].
  set (result' := <[name := nodeResult]> result).
  assert (result ⊆ result') as Hsub by by apply insert_subseteq.
  assert (is_Some (result' !! src)) as Hsrc'.
  { destruct Hsrc as [[r Hr]|[-> ->]].
    - exists r. by eapply lookup_weaken.
    - apply list_elem_of_singleton in Hin. injection Hin as -> ->.
      unfold result'. rewrite lookup_insert_eq. by eexists. }
  destruct (Hq _ Hin) as [Hokn Hresn]. cbn [fst snd] in Hokn, Hresn.
  assert (forall x, x ∈ q' ->
            entryOk x.1 x.2 /\ hopsResolved result' x.1 x.2) as Hq1.
  { intros x Hx. destruct (Hq x) as [? ?]; [by apply Hq'|].
    split; [done|]. by eapply hopsResolved_mono. }
  assert (forall n r, result' !! n = Some r ->
            entryOk n r /\ hopsResolved result' n r) as Hres'.
  { intros n r [[<- <-]|[_ Hn]]%lookup_insert_Some.
    - split; [done|]. by eapply hopsResolved_mono.
    - destruct (Hres n r Hn). split; [done|]. by eapply hopsResolved_mono. }
  destruct (isNodeOverloaded ls name && negb (bool_decide (name = src))).
  - apply IH; try done. by left.
  - destruct (foldlM _ q' (linksFromNode ls name)) as [q''|] eqn:Hrelax;
      cbn [mbind option_bind]; [|done].
    apply IH; try done; [by left|].
    eapply (relaxLinks_entries result' name nodeResult); try done.
    + apply lookup_insert_eq.
    + by eapply hopsResolved_mono.
Qed.

Lemma runSpf_entries (R : SpfResult) :
  runSpf ls src useLinkMetric linksToIgnore = Some R ->
  forall n r, R !! n = Some r ->
    entryOk n r /\
    forall h, h ∈ nextHops r ->
      exists rh, R !! h = Some rh /\ h ∈ nextHops rh.
Proof.
  intros Hrun n r Hn.
  assert (entryOk n r /\ hopsResolved R n r) as [Hok Hres].
  { revert Hrun n r Hn. unfold runSpf. apply spfLoop_entries.
    - by right.
    - intros x Hx. apply qInsertNode_elem in Hx as [Hx| ->];
        [by apply elem_of_nil in Hx|]. split; [apply entryOk_source|].
      intros h Hh. cbn in Hh. set_solver.
    - intros n r Hl. by rewrite lookup_empty in Hl. }
  split; [done|]. intros h Hh.
  destruct (Hres h Hh) as [->|?]; [by exists r|done].
Qed.

(** A next hop of a recorded node is a neighbor of the source over a direct
    link that is a shortest path to it. *)
Lemma runSpf_next_hop (R : SpfResult) (n : string) (r : NodeSpfResult)
    (h : string) :
  runSpf ls src useLinkMetric linksToIgnore = Some R ->
  R !! n = Some r -> h ∈ nextHops r ->
  exists rh l c,
    R !! h = Some rh /\ l ∈ linksFromNode ls src /\ isUp l = true /\
    linkSetCount linksToIgnore l = false /\
    getOtherNodeName l src = Some h /\
    linkCost useLinkMetric l src = Some c /\
    metric rh = to_uint64 c.
Proof.
  intros Hrun Hn Hh.
  destruct (runSpf_entries R Hrun n r Hn) as [_ Hres].
  destruct (Hres h Hh) as (rh & Hrh & Hself).
  destruct (runSpf_entries R Hrun h rh Hrh) as [Hokh _].
  destruct (se_direct _ _ _ Hokh Hself) as (p & Hp & Hprev).
  destruct (runSpf_good ls src useLinkMetric linksToIgnore R Hrun h rh Hrh p Hp)
    as [_ (rp & c & Hrp & Hc & Hm) Hign Hup Hof].
  rewrite Hprev in *.
  rewrite (runSpf_source ls src useLinkMetric linksToIgnore R Hrun) in Hrp.
  injection Hrp as <-.
  exists rh, (link p), c. split; [done|]. split; [done|]. split; [done|].
  split; [done|]. split.
  { rewrite <- Hprev. by apply Hokh. }
  split; [done|]. by rewrite Hm.
Qed.

End SpfEntries.

(** X17: in every result of [runSpf] the source has metric 0, no path link
    and no next hop; every other recorded node has at least one next hop, and
    each of its next hops is a recorded node at the far end of a link of the
    source that is up and not ignored, whose cost is the recorded distance of
    that next hop. *)
Theorem X17_next_hops_are_source_neighbors
    (ls : LinkState.t) (src : string) (useLinkMetric : bool)
    (linksToIgnore : LinkState.LinkSet) (R : LinkState.SpfResult) :
  LinkState.runSpf ls src useLinkMetric linksToIgnore = Some R ->
  R !! src = Some (LinkState.resetResult 0) /\
  forall D r, R !! D = Some r -> D <> src ->
    LinkState.nextHops r <> ∅ /\
    forall h, h ∈ LinkState.nextHops r ->
      exists rh l c,
        R !! h = Some rh /\
        l ∈ LinkState.linksFromNode ls src /\
        LinkState.isUp l = true /\
        LinkState.linkSetCount linksToIgnore l = false /\
        LinkState.getOtherNodeName l src = Some h /\
        LinkState.linkCost useLinkMetric l src = Some c /\
        LinkState.metric rh = to_uint64 c.
Proof.
  intros Hrun. split; [by eapply runSpf_source|].
  intros D r HD Hne.
  destruct (runSpf_entries ls src useLinkMetric linksToIgnore R Hrun D r HD)
    as [Hok _].
  split; [by apply Hok|]. intros h Hh. by eapply runSpf_next_hop.
Qed.

Lemma X17_next_hops_are_source_neighbors_witness :
  sampleLineSpf !! "A" = Some (LinkState.resetResult 0) /\
  forall D r, sampleLineSpf !! D = Some r -> D <> "A" ->
    LinkState.nextHops r <> ∅ /\
    forall h, h ∈ LinkState.nextHops r ->
      exists rh l c,
        sampleLineSpf !! h = Some rh /\
        l ∈ LinkState.linksFromNode sampleLineOverloaded "A" /\
        LinkState.isUp l = true /\
        LinkState.linkSetCount [] l = false /\
        LinkState.getOtherNodeName l "A" = Some h /\
        LinkState.linkCost true l "A" = Some c /\
        LinkState.metric rh = to_uint64 c.
Proof.
  exact (X17_next_hops_are_source_neighbors sampleLineOverloaded "A" true []
           sampleLineSpf sampleLineSpf_run).
Defined.

(** X18: in every result of [runSpf], every recorded node other than the
    source has a path link, and every path link of a node [D] is a link of
    its previous node that leads to [D], is up and is not ignored, with the
    previous node recorded as well; all metrics are 64-bit values. *)
Theorem X18_path_links_are_links_to_the_node
    (ls : LinkState.t) (src : string) (useLinkMetric : bool)
    (linksToIgnore : LinkState.LinkSet) (R : LinkState.SpfResult) :
  LinkState.runSpf ls src useLinkMetric linksToIgnore = Some R ->
  forall D r, R !! D = Some r ->
    (D <> src -> LinkState.pathLinks r <> []) /\
    0 <= LinkState.metric r < 2 ^ 64 /\
    forall p, p ∈ LinkState.pathLinks r ->
      LinkState.link p ∈ LinkState.linksFromNode ls (LinkState.prevNode p) /\
      LinkState.getOtherNodeName (LinkState.link p) (LinkState.prevNode p)
      = Some D /\
      LinkState.isUp (LinkState.link p) = true /\
      LinkState.linkSetCount linksToIgnore (LinkState.link p) = false /\
      is_Some (R !! LinkState.prevNode p).
Proof.
  intros Hrun D r HD.
  destruct (runSpf_entries ls src useLinkMetric linksToIgnore R Hrun D r HD)
    as [Hok _].
  split; [by apply Hok|]. split; [by apply Hok|]. intros p Hp.
  destruct (runSpf_good ls src useLinkMetric linksToIgnore R Hrun D r HD p Hp)
    as [_ (rp & c & Hrp & _) Hign Hup Hof].
  split; [done|]. split; [by apply Hok|]. split; [done|]. split; [done|].
  by exists rp.
Qed.

Lemma X18_path_links_are_links_to_the_node_witness :
  exists r,
    sampleLineSpf !! "B" = Some r /\
    ("B" <> "A" -> LinkState.pathLinks r <> []) /\
    0 <= LinkState.metric r < 2 ^ 64 /\
    forall p, p ∈ LinkState.pathLinks r ->
      LinkState.link p
        ∈ LinkState.linksFromNode sampleLineOverloaded (LinkState.prevNode p) /\
      LinkState.getOtherNodeName (LinkState.link p) (LinkState.prevNode p)
      = Some "B" /\
      LinkState.isUp (LinkState.link p) = true /\
      LinkState.linkSetCount [] (LinkState.link p) = false /\
      is_Some (sampleLineSpf !! LinkState.prevNode p).
Proof.
  assert (is_Some (sampleLineSpf !! "B")) as [r Hr].
  { apply (bool_decide_unpack (is_Some (sampleLineSpf !! "B"))).
    vm_compute. exact I. }
  exists r. split; [exact Hr|].
  exact (X18_path_links_are_links_to_the_node sampleLineOverloaded "A" true []
           sampleLineSpf sampleLineSpf_run "B" r Hr).
Defined.

(** ** Traced paths *)

Section Tracing.
Import LinkState LinkOps LinkStateOps.
Variable R : SpfResult.
Variable src : string.

(** What tracing needs of the SPF result. *)
Hypothesis Hsource : R !! src = Some (resetResult 0).
Hypothesis Hlinks :
  forall D r p, R !! D = Some r -> p ∈ pathLinks r ->
    getOtherNodeName (link p) (prevNode p) = Some D /\
    exists rp c, R !! prevNode p = Some rp /\
                 getMetricFromNode (link p) (prevNode p) = Some c /\
                 metric r = metricAdd (metric rp) c.

Lemma walkPath_app (path : Path) (l : Link) :
  forall n c n' c',
    walkPath n c path = Some (n', c') ->
    walkPath n c (path ++ [l]) =
    m ← getMetricFromNode l n';
    other ← getOtherNodeName l n';
    Some (other, metricAdd c' m).
Proof.
  induction path as [|x path IH]; intros n c n' c'; cbn [walkPath app].
  - intros [= <- <-]. destruct (getMetricFromNode l n); [|done].
    cbn [mbind option_bind]. by destruct (getOtherNodeName l n).
  - destruct (getMetricFromNode x n); cbn [mbind option_bind]; [|done].
    destruct (getOtherNodeName x n); cbn [mbind option_bind]; [|done].
    apply IH.
Qed.

(** The links a path adds to the visited set: they were not visited before,
    they are visited after, and no two of them are equal. *)
Abbreviation freshPath := (fun (visited visited' : LinkSet) (path : Path) =>
  (forall l, l ∈ path -> linkSetCount visited l = false) /\
  (forall l, l ∈ path -> linkSetCount visited' l = true) /\
  linkSetNoDup path = true).

Lemma linkSetInsert_mono (s : LinkSet) (l x : Link) :
  linkSetCount s x = true -> linkSetCount (linkSetInsert s l).1 x = true.
Proof. intros Hx. apply linkSetInsert_count. by left. Qed.

Lemma linkSetCount_names_eq (s : LinkSet) (a b : Link) :
  orderedNames a = orderedNames b -> linkSetCount s a = linkSetCount s b.
Proof.
  intros Hab. apply eq_true_iff_eq. rewrite !linkSetCount_true.
  by setoid_rewrite Hab.
Qed.

Lemma traceOnePath_spec (fuel : nat) :
  forall dest visited,
    match traceOnePath fuel src dest R visited with
    | Some (found, visited') =>
        (forall l, linkSetCount visited l = true ->
                   linkSetCount visited' l = true) /\
        match found with
        | Some path =>
            (exists r, R !! dest = Some r /\
                       walkPath src 0 path = Some (dest, metric r)) /\
            (path = [] <-> src = dest) /\
            freshPath visited visited' path
        | None => True
        end
    | None => True
    end.
Proof.
  induction fuel as [|fuel IH]; intros dest visited; cbn [traceOnePath];
    [done|].
  case_bool_decide as Hsrc.
  { subst dest. split; [done|]. split; [by exists (resetResult 0)|].
    split; [done|]. split; [by intros l ?%elem_of_nil|].
    split; [by intros l ?%elem_of_nil|done]. }
  destruct (R !! dest) as [nodeResult|] eqn:Hdest;
    cbn [mbind option_bind]; [|done].
  assert (forall p, p ∈ pathLinks nodeResult ->
            getOtherNodeName (link p) (prevNode p) = Some dest /\
            exists rp c, R !! prevNode p = Some rp /\
                         getMetricFromNode (link p) (prevNode p) = Some c /\
                         metric nodeResult = metricAdd (metric rp) c) as Hpl
    by (intros p Hp; by eapply Hlinks).
  revert Hpl. generalize (pathLinks nodeResult) as pls. intros pls.
  revert visited.
  induction pls as [|pl pls IHpls]; intros cur Hpl; [done|].
  unfold linkSetInsert.
  destruct (linkSetCount cur (link pl)) eqn:Hseen.
  { apply IHpls. intros p Hp. apply Hpl. by right. }
  specialize (IH (prevNode pl) (cur ++ [link pl])).
  assert (forall l, linkSetCount cur l = true ->
                    linkSetCount (cur ++ [link pl]) l = true) as Hgrow.
  { intros l Hl. by rewrite linkSetCount_app, Hl. }
  destruct (traceOnePath fuel src (prevNode pl) R (cur ++ [link pl]))
    as [[[sub|] visited2]|]; [| |done].
  - destruct IH as (Hmono & (rp & Hrp & Hwalk) & _ & Hnot & Hin & Hnd).
    split; [by eauto|].
    destruct (Hpl pl ltac:(left)) as (Hother & rp' & c & Hrp' & Hc & Hm).
    rewrite Hrp in Hrp'. injection Hrp' as <-.
    split.
    { exists nodeResult. split; [done|].
      rewrite (walkPath_app sub (link pl) src 0 (prevNode pl) (metric rp) Hwalk).
      rewrite Hc, Hother. cbn [mbind option_bind]. by rewrite Hm. }
    split.
    { split; [by intros [_ ?]%app_eq_nil|done]. }
    assert (linkSetCount visited2 (link pl) = true) as Hplin.
    { apply Hmono. apply linkSetCount_added. }
    split; [|split].
    + intros l [Hl| ->%list_elem_of_singleton]%elem_of_app; [|done].
      apply not_true_iff_false. intros Hc'%Hgrow.
      by rewrite (Hnot l Hl) in Hc'.
    + intros l [Hl| ->%list_elem_of_singleton]%elem_of_app; [by apply Hin|done].
    + apply linkSetNoDup_added; [done|].
      apply linkSetCount_false. intros x Hx.
      specialize (Hnot x Hx). rewrite linkSetCount_app in Hnot.
      apply orb_false_iff in Hnot as [_ Hn2].
      unfold linkSetCount in Hn2. cbn [existsb] in Hn2.
      rewrite orb_false_r in Hn2. by rewrite linkEqb_sym.
  - destruct IH as (Hmono & _).
    specialize (IHpls visited2 ltac:(intros p Hp; apply Hpl; by right)).
    destruct ((fix tryPathLinks (pls0 : list PathLink) (visited0 : LinkSet)
                 {struct pls0} : option (option Path * LinkSet) := _)
                pls visited2) as [[found visited']|]; [|done].
    destruct IHpls as (Hmono2 & Hfound). split; [by eauto|].
    destruct found as [path|]; [|done].
    destruct Hfound as (Hwalk & Hnil & Hnot & Hin & Hnd).
    split; [done|]. split; [done|]. split; [|done].
    intros l Hl. apply not_true_iff_false. intros Hc'%Hgrow%Hmono.
    by rewrite (Hnot l Hl) in Hc'.
Qed.

Lemma linkSetNoDup_app (a b : LinkSet) :
  linkSetNoDup a = true -> linkSetNoDup b = true ->
  (forall l, l ∈ b -> linkSetCount a l = false) ->
  linkSetNoDup (a ++ b) = true.
Proof.
  induction a as [|x a IH]; [done|]. cbn [linkSetNoDup app].
  intros [Hx Ha]%andb_true_iff Hb Hdisj. apply andb_true_iff. split.
  - rewrite linkSetCount_app, negb_orb. apply andb_true_iff. split; [done|].
    apply negb_true_iff, not_true_iff_false.
    intros (y & Hy & Hxy)%linkSetCount_true.
    specialize (Hdisj y Hy). apply not_true_iff_false in Hdisj. apply Hdisj.
    apply linkSetCount_true. exists x. split; [left|done].
  - apply IH; [done|done|]. intros l Hl.
    specialize (Hdisj l Hl). apply not_true_iff_false in Hdisj.
    apply not_true_iff_false. intros Hc. apply Hdisj.
    apply linkSetCount_true in Hc as (y & Hy & Hly).
    apply linkSetCount_true. exists y. split; [by right|done].
Qed.

(** The loop of [getKthPaths] that collects the traced paths. *)
Lemma tracePaths_spec (dest : string) (fuel : nat) :
  forall visited paths out,
    (forall q, q ∈ paths ->
       q <> [] /\ src <> dest /\
       exists r, R !! dest = Some r /\
                 walkPath src 0 q = Some (dest, metric r)) ->
    (forall l, l ∈ concat paths -> linkSetCount visited l = true) ->
    linkSetNoDup (concat paths) = true ->
    tracePaths fuel src dest R visited paths = Some out ->
    (forall q, q ∈ out ->
       q <> [] /\ src <> dest /\
       exists r, R !! dest = Some r /\
                 walkPath src 0 q = Some (dest, metric r)) /\
    linkSetNoDup (concat out) = true.
Proof.
  induction fuel as [|fuel IH]; intros visited paths out Hwalk Hvis Hnd;
    cbn [tracePaths]; [done|].
  pose proof (traceOnePath_spec (traceFuel R) dest visited) as Hone.
  destruct (traceOnePath (traceFuel R) src dest R visited)
    as [[[path|] visited']|]; [| |done].
  - destruct path as [|l0 path]; [by intros [= <-]|].
    destruct Hone as (Hmono & Hw & Hnil & Hnot & Hin & Hndp).
    apply IH.
    + intros q [Hq| ->%list_elem_of_singleton]%elem_of_app; [by apply Hwalk|].
      split; [done|]. split; [|done]. intros Heq. by apply Hnil in Heq.
    + rewrite concat_app. cbn [concat]. rewrite app_nil_r.
      intros l [Hl|Hl]%elem_of_app; [by apply Hmono, Hvis|by apply Hin].
    + rewrite concat_app. cbn [concat]. rewrite app_nil_r.
      apply linkSetNoDup_app; [done|done|].
      intros l Hl. apply not_true_iff_false.
      intros (y & Hy & Hly)%linkSetCount_true.
      pose proof (Hvis y Hy) as Hc.
      rewrite <- (linkSetCount_names_eq visited l y Hly) in Hc.
      by rewrite (Hnot l Hl) in Hc.
  - by intros [= <-].
Qed.

End Tracing.

(** What [getKthPaths] runs: SPF with the links of the lower orders ignored,
    and then the tracing loop if the destination was reached. *)
Lemma getKthPaths_run (ls : LinkState.t) (src dest : string) (k : nat)
    (pk : list LinkState.Path) :
  LinkState.getKthPaths ls src dest k = Some pk ->
  exists ignore res,
    LinkState.runSpf ls src true ignore = Some res /\
    ((is_Some (res !! dest) /\
      LinkState.tracePaths (LinkState.traceFuel res) src dest res [] []
      = Some pk) \/
     (res !! dest = None /\ pk = [])).
Proof.
  unfold LinkState.getKthPaths. cbn [LinkState.getKthPathsRec].
  destruct (k <? 1)%nat; [done|].
  destruct (foldlM _ [] (seq 1 (k - 1))) as [ignore|];
    cbn [mbind option_bind]; [|done].
  assert (match ignore with
          | [] => LinkState.getSpfResult ls src true
          | _ :: _ => LinkState.runSpf ls src true ignore
          end = LinkState.runSpf ls src true ignore) as -> by by destruct ignore.
  destruct (LinkState.runSpf ls src true ignore) as [res|] eqn:Hres;
    cbn [mbind option_bind]; [|done].
  intros Hpk. exists ignore, res. split; [done|].
  case_bool_decide as Hd; [by left|right].
  split; [by apply eq_None_not_Some|congruence].
Qed.

Lemma runSpf_traceable (ls : LinkState.t) (src : string)
    (ignore : LinkState.LinkSet) (res : LinkState.SpfResult) :
  LinkState.runSpf ls src true ignore = Some res ->
  forall D r p, res !! D = Some r -> p ∈ LinkState.pathLinks r ->
    LinkState.getOtherNodeName (LinkState.link p) (LinkState.prevNode p)
    = Some D /\
    exists rp c, res !! LinkState.prevNode p = Some rp /\
                 LinkState.getMetricFromNode (LinkState.link p)
                   (LinkState.prevNode p) = Some c /\
                 LinkState.metric r
                 = LinkState.metricAdd (LinkState.metric rp) c.
Proof.
  intros Hrun D r p HD Hp.
  destruct (runSpf_entries ls src true ignore res Hrun D r HD) as [Hok _].
  split; [by apply Hok|].
  by destruct (runSpf_good ls src true ignore res Hrun D r HD p Hp)
    as [_ Hm _ _ _].
Qed.

Lemma getKthPaths_traced (ls : LinkState.t) (src dest : string) (k : nat)
    (pk : list LinkState.Path) :
  LinkState.getKthPaths ls src dest k = Some pk ->
  exists ignore res,
    LinkState.runSpf ls src true ignore = Some res /\
    (forall path, path ∈ pk ->
       path <> [] /\ src <> dest /\
       exists r, res !! dest = Some r /\
                 LinkStateOps.walkPath src 0 path
                 = Some (dest, LinkState.metric r)) /\
    LinkOps.linkSetNoDup (concat pk) = true.
Proof.
  intros (ignore & res & Hrun & Hpk)%getKthPaths_run.
  exists ignore, res. split; [done|].
  destruct Hpk as [[_ Htrace]|[_ ->]];
    [|split; [intros path Hp; by apply elem_of_nil in Hp|done]].
  apply (tracePaths_spec res src (runSpf_source ls src true ignore res Hrun)
           (runSpf_traceable ls src ignore res Hrun)
           dest (LinkState.traceFuel res) [] [] pk); try done.
  - intros q Hq. by apply elem_of_nil in Hq.
  - intros l Hl. by apply elem_of_nil in Hl.
Qed.

(** X19: every path that [getKthPaths] returns is a non-empty walk from the
    source to the destination, and walking it from the source, adding up the
    metric of each link from the node it is left from, gives the distance of
    the destination in the SPF run of that order; so all paths of one order
    have the same cost. *)
Theorem X19_kth_paths_walk_to_dest
    (ls : LinkState.t) (src dest : string) (k : nat)
    (pk : list LinkState.Path) :
  LinkState.getKthPaths ls src dest k = Some pk ->
  exists ignore res,
    LinkState.runSpf ls src true ignore = Some res /\
    forall path, path ∈ pk ->
      path <> [] /\ src <> dest /\
      exists r, res !! dest = Some r /\
                LinkStateOps.walkPath src 0 path
                = Some (dest, LinkState.metric r).
Proof.
  intros (ignore & res & Hrun & Hwalk & _)%getKthPaths_traced.
  by exists ignore, res.
Qed.

Lemma X19_kth_paths_walk_to_dest_witness :
  exists ignore res,
    LinkState.runSpf sampleKthTopology "2" true ignore = Some res /\
    forall path, path ∈ sampleSecondPaths ->
      path <> [] /\ "2" <> "4" /\
      exists r, res !! "4" = Some r /\
                LinkStateOps.walkPath "2" 0 path
                = Some ("4", LinkState.metric r).
Proof.
  exact (X19_kth_paths_walk_to_dest sampleKthTopology "2" "4" 2
           sampleSecondPaths sampleSecondPaths_run).
Defined.

(** X20: the paths that [getKthPaths] returns for one order share no link,
    and no path uses a link twice: listed one after the other, their links
    are pairwise different. *)
Theorem X20_kth_paths_are_link_disjoint
    (ls : LinkState.t) (src dest : string) (k : nat)
    (pk : list LinkState.Path) :
  LinkState.getKthPaths ls src dest k = Some pk ->
  LinkOps.linkSetNoDup (concat pk) = true.
Proof.
  by intros (ignore & res & _ & _ & Hnd)%getKthPaths_traced.
Qed.

Lemma X20_kth_paths_are_link_disjoint_witness :
  LinkOps.linkSetNoDup (concat sampleSecondPaths) = true.
Proof.
  exact (X20_kth_paths_are_link_disjoint sampleKthTopology "2" "4" 2
           sampleSecondPaths sampleSecondPaths_run).
Defined.

(** ** Tracing terminates within its budget *)

Section TraceTotal.
Import LinkState LinkOps LinkStateOps.
Variable R : SpfResult.
Variable src : string.
Hypothesis Hsource : R !! src = Some (resetResult 0).
Hypothesis Hlinks :
  forall D r p, R !! D = Some r -> p ∈ pathLinks r ->
    getOtherNodeName (link p) (prevNode p) = Some D /\
    exists rp c, R !! prevNode p = Some rp /\
                 getMetricFromNode (link p) (prevNode p) = Some c /\
                 metric r = metricAdd (metric rp) c.

(** The path links of the result, and how many of them are not visited. *)
Abbreviation recordedPathLinks :=
  (flat_map (fun kv : string * NodeSpfResult => pathLinks kv.2)
     (map_to_list R)).
Abbreviation unvisited := (fun (visited : LinkSet) =>
  length (List.filter (fun p => negb (linkSetCount visited (link p)))
            recordedPathLinks)).

Lemma recordedPathLinks_elem (D : string) (r : NodeSpfResult) (p : PathLink) :
  R !! D = Some r -> p ∈ pathLinks r -> p ∈ recordedPathLinks.
Proof.
  intros HD Hp. apply list_elem_of_In, in_flat_map. exists (D, r).
  split; [by apply list_elem_of_In, elem_of_map_to_list|].
  by apply list_elem_of_In.
Qed.

Lemma unvisited_bound (visited : LinkSet) :
  (unvisited visited < traceFuel R)%nat.
Proof.
  unfold traceFuel.
  pose proof (List.filter_length_le
                (fun p => negb (linkSetCount visited (link p)))
                recordedPathLinks). lia.
Qed.

Lemma filter_length_mono {A : Type} (f g : A -> bool) (l : list A) :
  (forall x, x ∈ l -> f x = true -> g x = true) ->
  (length (List.filter f l) <= length (List.filter g l))%nat.
Proof.
  induction l as [|x l IH]; intros Hfg; cbn [List.filter]; [done|].
  assert (length (List.filter f l) <= length (List.filter g l))%nat as Hle
    by (apply IH; intros y Hy; apply Hfg; by right).
  destruct (f x) eqn:Hf.
  - rewrite (Hfg x ltac:(left) Hf). cbn [length]. lia.
  - destruct (g x); cbn [length]; lia.
Qed.

Lemma filter_length_strict {A : Type} (f g : A -> bool) (l : list A) (a : A) :
  (forall x, x ∈ l -> f x = true -> g x = true) ->
  a ∈ l -> f a = false -> g a = true ->
  (length (List.filter f l) < length (List.filter g l))%nat.
Proof.
  induction l as [|x l IH]; intros Hfg Ha Hfa Hga; [by apply elem_of_nil in Ha|].
  cbn [List.filter].
  assert (forall y, y ∈ l -> f y = true -> g y = true) as Hfg'
    by (intros y Hy; apply Hfg; by right).
  pose proof (filter_length_mono f g l Hfg') as Hle.
  apply elem_of_cons in Ha as [<-|Ha].
  - rewrite Hfa, Hga. cbn [length]. lia.
  - specialize (IH Hfg' Ha Hfa Hga). destruct (f x) eqn:Hf.
    + rewrite (Hfg x ltac:(left) Hf). cbn [length]. lia.
    + destruct (g x); cbn [length]; lia.
Qed.

Lemma unvisited_mono (visited visited' : LinkSet) :
  (forall l, linkSetCount visited l = true ->
             linkSetCount visited' l = true) ->
  (unvisited visited' <= unvisited visited)%nat.
Proof.
  intros Hmono. apply filter_length_mono. intros p _.
  rewrite !negb_true_iff. intros Hn. apply not_true_iff_false.
  intros Hc%Hmono. congruence.
Qed.

Lemma unvisited_strict (visited visited' : LinkSet) (p : PathLink) :
  (forall l, linkSetCount visited l = true ->
             linkSetCount visited' l = true) ->
  p ∈ recordedPathLinks ->
  linkSetCount visited (link p) = false ->
  linkSetCount visited' (link p) = true ->
  (unvisited visited' < unvisited visited)%nat.
Proof.
  intros Hmono Hp Hno Hyes.
  apply (filter_length_strict _ _ _ p); [|done| |].
  - intros x _. rewrite !negb_true_iff. intros Hn. apply not_true_iff_false.
    intros Hc%Hmono. congruence.
  - by rewrite Hyes.
  - by rewrite Hno.
Qed.

(** [traceOnePath] returns when its budget exceeds the number of path links
    not visited yet. *)
Lemma traceOnePath_total (fuel : nat) :
  forall dest visited,
    (unvisited visited < fuel)%nat ->
    is_Some (R !! dest) ->
    is_Some (traceOnePath fuel src dest R visited).
Proof.
  induction fuel as [|fuel IH]; intros dest visited Hfuel [nodeResult Hdest];
    [lia|]. cbn [traceOnePath].
  case_bool_decide as Hsrc; [by eexists|].
  rewrite Hdest. cbn [mbind option_bind].
  assert (forall p, p ∈ pathLinks nodeResult ->
            p ∈ recordedPathLinks /\ is_Some (R !! prevNode p)) as Hpl.
  { intros p Hp. split; [by eapply recordedPathLinks_elem|].
    destruct (Hlinks dest nodeResult p Hdest Hp) as (_ & rp & c & Hrp & _).
    by exists rp. }
  revert Hpl Hfuel. generalize (pathLinks nodeResult) as pls. intros pls.
  revert visited.
  induction pls as [|pl pls IHpls]; intros cur Hpl Hfuel; [by eexists|].
  unfold linkSetInsert.
  destruct (linkSetCount cur (link pl)) eqn:Hseen.
  { apply IHpls; [|done]. intros p Hp. apply Hpl. by right. }
  destruct (Hpl pl ltac:(left)) as [Hrec Hprev].
  assert (forall l, linkSetCount cur l = true ->
                    linkSetCount (cur ++ [link pl]) l = true) as Hgrow.
  { intros l Hl. by rewrite linkSetCount_app, Hl. }
  assert (unvisited (cur ++ [link pl]) < unvisited cur)%nat as Hless.
  { apply (unvisited_strict _ _ pl); [done|done|done|].
    apply linkSetCount_added. }
  pose proof (traceOnePath_spec R src Hsource Hlinks fuel (prevNode pl)
                (cur ++ [link pl])) as Hspec.
  destruct (IH (prevNode pl) (cur ++ [link pl]) ltac:(lia) Hprev)
    as [[[sub|] visited2] Hsub]; rewrite Hsub in *; [by eexists|].
  destruct Hspec as [Hmono _].
  apply IHpls; [intros p Hp; apply Hpl; by right|].
  pose proof (unvisited_mono (cur ++ [link pl]) visited2 Hmono). lia.
Qed.

Lemma tracePaths_total (dest : string) (fuel : nat) :
  forall visited paths,
    (unvisited visited < fuel)%nat ->
    is_Some (R !! dest) ->
    is_Some (tracePaths fuel src dest R visited paths).
Proof.
  induction fuel as [|fuel IH]; intros visited paths Hfuel Hdest; [lia|].
  cbn [tracePaths].
  pose proof (traceOnePath_spec R src Hsource Hlinks (traceFuel R) dest
                visited) as Hspec.
  destruct (traceOnePath_total (traceFuel R) dest visited
              (unvisited_bound visited) Hdest)
    as [[[path|] visited'] Hone]; rewrite Hone in *; [|by eexists].
  destruct path as [|l0 path]; [by eexists|].
  destruct Hspec as (Hmono & _ & _ & Hnot & Hin & _).
  apply IH; [|done].
  destruct (traceOnePath_recorded R src (traceFuel R) dest visited
              (l0 :: path) visited' Hone l0 ltac:(left))
    as (n & r & p & Hn & Hp & Hl0).
  assert (unvisited visited' < unvisited visited)%nat; [|lia].
  apply (unvisited_strict _ _ p); [done| | |].
  - by eapply recordedPathLinks_elem.
  - rewrite Hl0. apply Hnot. left.
  - rewrite Hl0. apply Hin. left.
Qed.

End TraceTotal.

Lemma foldlM_is_Some {A B : Type} (f : B -> A -> option B) (l : list A) :
  (forall b x, x ∈ l -> is_Some (f b x)) ->
  forall b, is_Some (foldlM f b l).
Proof.
  induction l as [|x l IH]; intros Hf b; cbn [foldlM]; [by eexists|].
  destruct (Hf b x ltac:(left)) as [b' ->]. apply IH.
  intros b0 x0 Hx0. apply Hf. by right.
Qed.

Lemma getKthPathsRec_total (ls : LinkState.t) (src dest : string) :
  LinkState.wfLinkMap ls ->
  forall fuel k, (1 <= k < fuel)%nat ->
    is_Some (LinkState.getKthPathsRec fuel ls src dest k).
Proof.
  intros Hwf. induction fuel as [|fuel IH]; intros k Hk; [lia|].
  cbn [LinkState.getKthPathsRec].
  destruct (Nat.ltb_spec k 1) as [?|_]; [lia|].
  destruct (foldlM_is_Some
              (fun acc i =>
                 paths ← LinkState.getKthPathsRec fuel ls src dest i;
                 Some (LinkState.insertPathLinks acc paths))
              (seq 1 (k - 1))) with (b := @nil LinkState.Link)
    as [ignore ->].
  { intros acc i Hi. apply elem_of_seq in Hi.
    destruct (IH i ltac:(lia)) as [paths ->]. by eexists. }
  cbn [mbind option_bind].
  assert (match ignore with
          | [] => LinkState.getSpfResult ls src true
          | _ :: _ => LinkState.runSpf ls src true ignore
          end = LinkState.runSpf ls src true ignore) as -> by by destruct ignore.
  destruct (runSpf_total ls src true ignore Hwf) as [res Hres].
  rewrite Hres. cbn [mbind option_bind].
  case_bool_decide as Hd; [|by eexists].
  apply (tracePaths_total res src).
  - by eapply runSpf_source.
  - by eapply runSpf_traceable.
  - apply unvisited_bound.
  - done.
Qed.

(** X21: on a well-formed link map [getKthPaths] returns for every order
    [k >= 1]: the SPF run, the recursion of [traceOnePath] and the tracing
    loop all end within their budgets and [result.at] never throws; for
    [k = 0] the [CHECK] fails.  From a node to itself there is no path of any
    order. *)
Theorem X21_getKthPaths_returns
    (ls : LinkState.t) (src dest : string) (k : nat) :
  LinkState.wfLinkMap ls ->
  LinkState.getKthPaths ls src dest 0 = None /\
  ((1 <= k)%nat ->
   exists pk, LinkState.getKthPaths ls src dest k = Some pk /\
              (src = dest -> pk = [])).
Proof.
  intros Hwf. split; [done|]. intros Hk.
  destruct (getKthPathsRec_total ls src dest Hwf (S k) k ltac:(lia))
    as [pk Hpk].
  exists pk. split; [done|]. intros Heq.
  destruct (getKthPaths_traced ls src dest k pk Hpk)
    as (ignore & res & _ & Hwalk & _).
  destruct pk as [|path pk]; [done|].
  by destruct (Hwalk path ltac:(left)) as (_ & Hne & _).
Qed.

Lemma sampleKthTopology_wf : LinkState.wfLinkMap sampleKthTopology.
Proof.
  apply (buildLinkState_wfLinkMap
           [sampleLink "1" "2" 10 10; sampleLink "1" "3" 5 5;
            sampleLink "2" "4" 15 15; sampleLink "3" "4" 20 20;
            LinkState.mkLink "0" "2" "4" "to-4-b" "to-2-b" 35 35 false false
              0 0 "10.0.0.1" "10.0.0.2" "fe80::1" "fe80::2" 1 1 0]).
  vm_compute. reflexivity.
Qed.

Lemma X21_getKthPaths_returns_witness :
  exists pk, LinkState.getKthPaths sampleKthTopology "2" "4" 3 = Some pk /\
             ("2" = "4" -> pk = []).
Proof.
  exact (proj2 (X21_getKthPaths_returns sampleKthTopology "2" "4" 3
                  sampleKthTopology_wf) ltac:(lia)).
Defined.

(** ** Next hops towards the closest destinations *)

Section ClosestNodes.
Import LinkState SpfSolver.
Variable R : SpfResult.
Hypothesis Hmetric : forall n r, R !! n = Some r -> metric r <= METRIC_MAX.

Abbreviation closestStep :=
  (fun (st : Z * gset string) (dst : NodeAndArea) =>
     match R !! dst.1 with
     | None => st
     | Some r =>
         let nodeDistance := metric r in
         if nodeDistance <=? st.1
         then ((if nodeDistance <? st.1 then nodeDistance else st.1),
               (if nodeDistance <? st.1 then ∅ else st.2) ∪ {[dst.1]})
         else st
     end).

(** The first loop of [getNextHopsWithMetric] finds the least distance of a
    recorded destination and the destinations at that distance. *)
Lemma closestLoop_spec (dsts : list NodeAndArea) :
  forall best nodes,
    foldl closestStep (METRIC_MAX, ∅) dsts = (best, nodes) ->
    best <= METRIC_MAX /\
    (forall dst r, dst ∈ dsts -> R !! dst.1 = Some r -> best <= metric r) /\
    (forall n, n ∈ nodes <->
       exists dst r, dst ∈ dsts /\ dst.1 = n /\ R !! n = Some r /\
                     metric r = best) /\
    (nodes = ∅ ->
       best = METRIC_MAX /\ forall dst, dst ∈ dsts -> R !! dst.1 = None).
Proof.
  induction dsts as [|dst dsts IH] using rev_ind; intros best nodes.
  - cbn [foldl]. intros [= <- <-]. split; [done|]. split.
    { intros dst r Hd. by apply elem_of_nil in Hd. }
    split.
    { intros n. split; [set_solver|]. intros (dst & r & Hd & _).
      by apply elem_of_nil in Hd. }
    intros _. split; [done|]. intros dst Hd. by apply elem_of_nil in Hd.
  - rewrite foldl_app. cbn [foldl].
    destruct (foldl closestStep (METRIC_MAX, ∅) dsts) as [b0 s0] eqn:Hfold.
    destruct (IH b0 s0 eq_refl) as (Hb & Hlow & Hnodes & Hnone).
    cbn [fst snd].
    destruct (R !! dst.1) as [r|] eqn:Hr.
    2:{ intros [= <- <-]. split; [done|]. split.
        { intros d r' [Hd| ->%list_elem_of_singleton]%elem_of_app;
            [by apply (Hlow d)|congruence]. }
        split.
        { intros n. rewrite Hnodes. split.
          - intros (d & r' & Hd & Hrest). exists d, r'.
            split; [apply elem_of_app; by left|done].
          - intros (d & r' & [Hd| ->%list_elem_of_singleton]%elem_of_app
                    & Hdn & Hrn & Hm); [by exists d, r'|].
            subst n. congruence. }
        intros Hs. destruct (Hnone Hs) as [-> Hall]. split; [done|].
        intros d [Hd| ->%list_elem_of_singleton]%elem_of_app;
          [by apply Hall|done]. }
    cbv zeta. pose proof (Hmetric _ _ Hr) as Hrm.
    destruct (Z.leb_spec (metric r) b0) as [Hle|Hgt].
    + destruct (Z.ltb_spec (metric r) b0) as [Hlt|Hge].
      * (* strictly closer *)
        intros [= <- <-]. split; [done|]. split.
        { intros d r' [Hd| ->%list_elem_of_singleton]%elem_of_app Hr'.
          - specialize (Hlow d r' Hd Hr'). lia.
          - rewrite Hr in Hr'. injection Hr' as <-. lia. }
        split.
        { intros n. split.
          - intros Hn. assert (n = dst.1) as -> by set_solver.
            exists dst, r. split; [|done]. apply elem_of_app. right.
            by apply list_elem_of_singleton.
          - intros (d & r' & [Hd| ->%list_elem_of_singleton]%elem_of_app
                    & Hdn & Hrn & Hm); [|set_solver].
            subst n. specialize (Hlow d r' Hd Hrn). lia. }
        intros Hs. exfalso.
        assert (dst.1 ∈ (∅ ∪ {[dst.1]} : gset string)) as Hd
          by (apply elem_of_union; right; by apply elem_of_singleton).
        rewrite Hs in Hd. by apply not_elem_of_empty in Hd.
      * (* as close *)
        assert (metric r = b0) as Heq by lia.
        intros [= <- <-]. split; [done|]. split.
        { intros d r' [Hd| ->%list_elem_of_singleton]%elem_of_app Hr'.
          - by apply (Hlow d).
          - rewrite Hr in Hr'. injection Hr' as <-. lia. }
        split.
        { intros n. rewrite elem_of_union, Hnodes. split.
          - intros [(d & r' & Hd & Hrest)|Hn].
            + exists d, r'. split; [apply elem_of_app; by left|done].
            + assert (n = dst.1) as -> by set_solver.
              exists dst, r. split; [|done]. apply elem_of_app. right.
              by apply list_elem_of_singleton.
          - intros (d & r' & [Hd| ->%list_elem_of_singleton]%elem_of_app
                    & Hdn & Hrn & Hm).
            + left. by exists d, r'.
            + right. set_solver. }
        intros Hs. exfalso.
        assert (dst.1 ∈ (s0 ∪ {[dst.1]} : gset string)) as Hd
          by (apply elem_of_union; right; by apply elem_of_singleton).
        rewrite Hs in Hd. by apply not_elem_of_empty in Hd.
    + (* farther *)
      intros [= <- <-]. split; [done|]. split.
      { intros d r' [Hd| ->%list_elem_of_singleton]%elem_of_app Hr'.
        - by apply (Hlow d).
        - rewrite Hr in Hr'. injection Hr' as <-. lia. }
      split.
      { intros n. rewrite Hnodes. split.
        - intros (d & r' & Hd & Hrest). exists d, r'.
          split; [apply elem_of_app; by left|done].
        - intros (d & r' & [Hd| ->%list_elem_of_singleton]%elem_of_app
                  & Hdn & Hrn & Hm); [by exists d, r'|].
          subst n. rewrite Hr in Hrn. injection Hrn as <-. lia. }
      intros Hs. destruct (Hnone Hs) as [-> _]. lia.
Qed.

End ClosestNodes.

Section NextHopNodes.
Import LinkState SpfSolver.
Variable ls : LinkState.t.
Variable myNodeName : string.
Variable R : SpfResult.
Variable shortestMetric : Z.

Abbreviation nextHopDistance :=
  (SpfSolverOps.nextHopDistance ls myNodeName shortestMetric).

Abbreviation hopStep :=
  (fun (acc : gmap string Z) (nhName : string) =>
     d ← getMetricFromAToB ls myNodeName nhName;
     d' ← d;
     Some (<[nhName := to_uint64 (shortestMetric - d')]> acc)).

Abbreviation nodeStep :=
  (fun (acc : gmap string Z) (dstNode : string) =>
     r ← R !! dstNode;
     foldlM hopStep acc (elements (nextHops r))).

Lemma hopStep_Some (acc acc' : gmap string Z) (h : string) :
  hopStep acc h = Some acc' <->
  exists v, nextHopDistance h = Some v /\ acc' = <[h := v]> acc.
Proof.
  unfold SpfSolverOps.nextHopDistance.
  destruct (getMetricFromAToB ls myNodeName h) as [[d|]|];
    cbn [mbind option_bind]; split; try done.
  - intros [= <-]. by eexists.
  - by intros (v & [= <-] & ->).
  - by intros (v & ? & _).
  - by intros (v & ? & _).
Qed.

Lemma hopLoop_spec (hs : list string) :
  forall acc acc',
    foldlM hopStep acc hs = Some acc' ->
    (forall h, h ∈ hs -> is_Some (nextHopDistance h)) /\
    forall h, acc' !! h = if bool_decide (h ∈ hs) then nextHopDistance h
                          else acc !! h.
Proof.
  induction hs as [|x hs IH]; intros acc acc'; cbn [foldlM].
  - intros [= <-]. split; [intros h Hh; by apply elem_of_nil in Hh|].
    intros h. rewrite bool_decide_false; [done|]. apply not_elem_of_nil.
  - destruct (nextHopDistance x) as [v|] eqn:Hv.
    2:{ destruct (hopStep acc x) as [acc1|] eqn:Hstep; [|by rewrite Hstep].
        apply hopStep_Some in Hstep as (v & Hv' & _). congruence. }
    rewrite (proj2 (hopStep_Some acc (<[x := v]> acc) x)); [|by exists v].
    intros Hrest.
    destruct (IH _ _ Hrest) as [Hall Hlook]. split.
    + intros h [->|Hh]%elem_of_cons; [by exists v|by apply Hall].
    + intros h. rewrite Hlook. repeat case_bool_decide; try done.
      * set_solver.
      * destruct (decide (h = x)) as [->|Hne].
        -- by rewrite lookup_insert_eq.
        -- set_solver.
      * rewrite lookup_insert_ne; [done|]. set_solver.
Qed.

Lemma hopLoop_total (hs : list string) :
  (forall h, h ∈ hs -> is_Some (nextHopDistance h)) ->
  forall acc, is_Some (foldlM hopStep acc hs).
Proof.
  induction hs as [|x hs IH]; intros Hall acc; cbn [foldlM]; [by eexists|].
  destruct (Hall x) as [v Hv]; [by left|].
  rewrite (proj2 (hopStep_Some acc (<[x := v]> acc) x)); [|by exists v].
  apply IH. intros h Hh. apply Hall. by right.
Qed.

(** The second loop of [getNextHopsWithMetric]: the next hops of the given
    nodes, each with its distance. *)
Lemma nodeLoop_spec (ns : list string) :
  forall acc acc',
    foldlM nodeStep acc ns = Some acc' ->
    forall h,
      ((exists n r, n ∈ ns /\ R !! n = Some r /\ h ∈ nextHops r) ->
       is_Some (nextHopDistance h) /\ acc' !! h = nextHopDistance h) /\
      (is_Some (acc' !! h) ->
       is_Some (acc !! h) \/
       exists n r, n ∈ ns /\ R !! n = Some r /\ h ∈ nextHops r) /\
      (acc !! h = nextHopDistance h -> acc' !! h = nextHopDistance h).
Proof.
  induction ns as [|x ns IH]; intros acc acc'; cbn [foldlM].
  - intros [= <-] h. split; [|split; [by left|done]].
    intros (n & r & Hn & _). by apply elem_of_nil in Hn.
  - destruct (R !! x) as [rx|] eqn:Hx; cbn [mbind option_bind]; [|done].
    destruct (foldlM hopStep acc (elements (nextHops rx))) as [acc1|]
      eqn:Hstep; [|done].
    destruct (hopLoop_spec _ _ _ Hstep) as [Hall Hlook].
    intros Hrest h. destruct (IH _ _ Hrest h) as (Hin & Hout & Hkeep).
    assert (acc !! h = nextHopDistance h -> acc1 !! h = nextHopDistance h)
      as Hkeep1.
    { intros Hacc. rewrite Hlook. by case_bool_decide. }
    split; [|split].
    + intros (n & r & [->|Hn]%elem_of_cons & Hr & Hh).
      * rewrite Hx in Hr. injection Hr as <-.
        assert (h ∈ elements (nextHops rx)) as Hel by by apply elem_of_elements.
        split; [by apply Hall|]. apply Hkeep. rewrite Hlook.
        by rewrite bool_decide_true.
      * apply Hin. by exists n, r.
    + intros Hsome. destruct (Hout Hsome) as [Hacc1|(n & r & Hn & Hrest')].
      * rewrite Hlook in Hacc1. case_bool_decide as Hel; [|by left].
        right. exists x, rx. split; [by left|]. split; [done|].
        by apply elem_of_elements.
      * right. exists n, r. split; [by right|done].
    + intros Hacc. by apply Hkeep, Hkeep1.
Qed.

Lemma nodeLoop_total (ns : list string) :
  (forall n, n ∈ ns ->
     exists r, R !! n = Some r /\
               forall h, h ∈ nextHops r -> is_Some (nextHopDistance h)) ->
  forall acc, is_Some (foldlM nodeStep acc ns).
Proof.
  induction ns as [|x ns IH]; intros Hall acc; cbn [foldlM]; [by eexists|].
  destruct (Hall x) as (r & Hr & Hh); [by left|].
  rewrite Hr. cbn [mbind option_bind].
  destruct (hopLoop_total (elements (nextHops r))) with (acc := acc)
    as [acc1 ->].
  { intros h Hel%elem_of_elements. by apply Hh. }
  apply IH. intros n Hn. apply Hall. by right.
Qed.

End NextHopNodes.

Section BestNextHops.
Import LinkState SpfSolver.
Variable ls : LinkState.t.
Variable myNodeName : string.
Hypothesis Hwf : wfLinkMap ls.

Lemma nextHopDistance_recorded (R : SpfResult) (best : Z) (h : string)
    (rh : NodeSpfResult) :
  getSpfResult ls myNodeName true = Some R ->
  R !! h = Some rh -> h ∈ nextHops rh ->
  SpfSolverOps.nextHopDistance ls myNodeName best h
  = Some (to_uint64 (best - metric rh)).
Proof.
  intros HR Hrh Hself.
  unfold SpfSolverOps.nextHopDistance, getMetricFromAToB.
  pose proof (runSpf_source ls myNodeName true [] R HR) as Hsrc.
  rewrite bool_decide_false.
  2:{ intros <-. rewrite Hsrc in Hrh. injection Hrh as <-.
      cbn in Hself. by apply not_elem_of_empty in Hself. }
  rewrite HR. cbn [mbind option_bind]. by rewrite Hrh.
Qed.

(** [getNextHopsWithMetric] returns the least distance of a recorded
    destination, and the next hops of the destinations at that distance,
    each with the least distance minus its own. *)
Lemma getNextHopsWithMetric_spec (dstNodeAreas : list NodeAndArea) :
  exists R best nhs,
    getSpfResult ls myNodeName true = Some R /\
    getNextHopsWithMetric myNodeName dstNodeAreas ls = Some (best, nhs) /\
    0 <= best <= METRIC_MAX /\
    (forall dst r, dst ∈ dstNodeAreas -> R !! dst.1 = Some r ->
       best <= metric r) /\
    (forall dst, dst ∈ dstNodeAreas -> is_Some (R !! dst.1) ->
       exists dst' r', dst' ∈ dstNodeAreas /\ R !! dst'.1 = Some r' /\
                       metric r' = best) /\
    ((forall dst, dst ∈ dstNodeAreas -> R !! dst.1 = None) ->
     best = METRIC_MAX) /\
    forall h d,
      nhs !! h = Some d <->
      exists rh, R !! h = Some rh /\ d = to_uint64 (best - metric rh) /\
        exists dst r, dst ∈ dstNodeAreas /\ R !! dst.1 = Some r /\
                      metric r = best /\ h ∈ nextHops r.
Proof.
  destruct (runSpf_total ls myNodeName true [] Hwf) as [R HR]. exists R.
  assert (forall n r, R !! n = Some r -> 0 <= metric r <= METRIC_MAX) as Hm.
  { intros n r Hn.
    destruct (runSpf_entries ls myNodeName true [] R HR n r Hn) as [Hok _].
    pose proof (LinkStateOps.se_metric _ _ _ Hok). unfold METRIC_MAX. lia. }
  assert (forall n r h, R !! n = Some r -> h ∈ nextHops r ->
            exists rh, R !! h = Some rh /\
              forall best, SpfSolverOps.nextHopDistance ls myNodeName best h
                           = Some (to_uint64 (best - metric rh))) as Hdist.
  { intros n r h Hn Hh.
    destruct (runSpf_entries ls myNodeName true [] R HR n r Hn) as [_ Hres].
    destruct (Hres h Hh) as (rh & Hrh & Hself). exists rh. split; [done|].
    intros best. by apply (nextHopDistance_recorded R). }
  unfold getNextHopsWithMetric. unfold getSpfResult in *. rewrite HR.
  cbn [mbind option_bind].
  destruct (foldl _ _ dstNodeAreas) as [best nodes] eqn:Hfold.
  apply closestLoop_spec in Hfold as (Hb & Hlow & Hnodes & Hnone).
  2:{ intros n r Hn. by apply (Hm n). }
  destruct (nodeLoop_total ls myNodeName R best (elements nodes))
    with (acc := (∅ : gmap string Z)) as [nhs Hnhs].
  { intros n Hn%elem_of_elements.
    apply Hnodes in Hn as (dst & r & Hd & Hdn & Hr & Hmr). exists r.
    split; [done|]. intros h Hh.
    destruct (Hdist n r h Hr Hh) as (rh & _ & ->). by eexists. }
  rewrite Hnhs. cbn [mbind option_bind]. exists best, nhs.
  split; [done|]. split; [done|].
  assert (forall dst, dst ∈ dstNodeAreas -> is_Some (R !! dst.1) ->
            exists dst' r', dst' ∈ dstNodeAreas /\ R !! dst'.1 = Some r' /\
                            metric r' = best) as Hattained.
  { intros dst Hd [r Hr].
    destruct (set_choose_or_empty nodes) as [[n Hn]|Hempty].
    - apply Hnodes in Hn as (dst' & r' & Hd' & Hdn & Hr' & Hmr).
      exists dst', r'. subst n. done.
    - apply leibniz_equiv in Hempty.
      destruct (Hnone Hempty) as [_ Hall]. rewrite (Hall dst Hd) in Hr.
      done. }
  split.
  { split; [|done]. destruct (set_choose_or_empty nodes) as [[n Hn]|Hempty].
    - apply Hnodes in Hn as (dst' & r' & _ & _ & Hr' & <-).
      by apply (Hm n).
    - apply leibniz_equiv in Hempty.
      destruct (Hnone Hempty) as [-> _]. done. }
  split; [done|]. split; [done|]. split.
  { intros Hall. destruct (set_choose_or_empty nodes) as [[n Hn]|Hempty].
    - apply Hnodes in Hn as (dst' & r' & Hd' & Hdn & Hr' & _). subst n.
      rewrite (Hall dst' Hd') in Hr'. done.
    - apply leibniz_equiv in Hempty. by apply Hnone. }
  intros h d.
  destruct (nodeLoop_spec ls myNodeName R best _ _ _ Hnhs h)
    as (Hin & Hout & _).
  assert ((exists n r, n ∈ elements nodes /\ R !! n = Some r /\
                       h ∈ nextHops r) <->
          exists dst r, dst ∈ dstNodeAreas /\ R !! dst.1 = Some r /\
                        metric r = best /\ h ∈ nextHops r) as Hsame.
  { split.
    - intros (n & r & Hn%elem_of_elements & Hr & Hh).
      apply Hnodes in Hn as (dst & r' & Hd & Hdn & Hr' & Hmr). subst n.
      rewrite Hr in Hr'. injection Hr' as <-. by exists dst, r.
    - intros (dst & r & Hd & Hr & Hmr & Hh). exists dst.1, r.
      split; [|done]. apply elem_of_elements, Hnodes. by exists dst, r. }
  setoid_rewrite <- Hsame. split.
  - intros Hlook.
    destruct Hout as [[? Hempty]|Hex]; [by eexists| |].
    { by rewrite lookup_empty in Hempty. }
    destruct (Hin Hex) as [_ Hval]. destruct Hex as (n & r & Hn & Hr & Hh).
    destruct (Hdist n r h Hr Hh) as (rh & Hrh & Hd). exists rh.
    split; [done|]. split; [|by exists n, r].
    rewrite Hval, Hd in Hlook. by injection Hlook as <-.
  - intros (rh & Hrh & -> & Hex). destruct (Hin Hex) as [_ Hval].
    destruct Hex as (n & r & Hn & Hr & Hh).
    destruct (Hdist n r h Hr Hh) as (rh' & Hrh' & Hd).
    rewrite Hrh in Hrh'. injection Hrh' as <-. by rewrite Hval, Hd.
Qed.

End BestNextHops.

Lemma fromNode_is_Some {T : Type} (l : LinkState.Link) (n : string)
    (v1 v2 : T) :
  is_Some (LinkState.getOtherNodeName l n) ->
  is_Some (LinkState.fromNode l n v1 v2).
Proof.
  unfold LinkState.getOtherNodeName, LinkState.fromNode.
  repeat case_bool_decide; intros [? ?]; by eauto.
Qed.

Lemma metricAdd_back (c best : Z) :
  0 <= best < 2 ^ 64 ->
  LinkState.metricAdd c (to_uint64 (best - to_uint64 c)) = best.
Proof.
  intros Hb. unfold LinkState.metricAdd, to_uint64.
  rewrite Zplus_mod_idemp_r.
  replace (c + (best - c mod 2 ^ 64)) with (c + best - c mod 2 ^ 64) by lia.
  rewrite Zminus_mod_idemp_r.
  replace (c + best - c) with best by lia. by apply Z.mod_small.
Qed.

Lemma foldlM_cons_Some {A B : Type} (f : B -> A -> option B) (b b' : B)
    (x : A) (l : list A) :
  f b x = Some b' -> foldlM f b (x :: l) = foldlM f b' l.
Proof. intros Hf. cbn [foldlM]. by rewrite Hf. Qed.

Section ThriftNextHops.
Import LinkState SpfSolver.
Variable solver : SpfSolver.t.
Variable ls : LinkState.t.
Variable myNodeName : string.
Variable dstNodeAreas : list NodeAndArea.
Variable isV4 : bool.
Variable minMetric : Z.
Variable nextHopNodes : gmap string Z.
Variable swapLabel : option Z.
Variable area : string.

Abbreviation nextHopOverLink :=
  (SpfSolverOps.nextHopOverLink solver myNodeName dstNodeAreas isV4 minMetric
     nextHopNodes swapLabel area).

Abbreviation thriftStep :=
  (fun (nhs : gset NextHopThrift) (l : Link) =>
     neighborNode ← getOtherNodeName l myNodeName;
     match nextHopNodes !! neighborNode with
     | None => Some nhs
     | Some dist =>
         if negb (isUp l) then Some nhs
         else
           m ← getMetricFromNode l myNodeName;
           let distOverLink := metricAdd m dist in
           if negb (bool_decide (distOverLink = minMetric))
           then Some nhs
           else
             let mplsAction :=
               match swapLabel with
               | None => None
               | Some lbl =>
                   if bool_decide ((neighborNode, area) ∈ dstNodeAreas)
                   then Some (createMplsAction PHP None None)
                   else Some (createMplsAction SWAP (Some lbl) None)
               end in
             addr ← (if isV4 && negb (v4OverV6Nexthop_ solver)
                     then getNhV4FromNode l myNodeName
                     else getNhV6FromNode l myNodeName);
             iface ← getIfaceFromNode l myNodeName;
             Some (nhs ∪ {[createNextHop addr (Some iface)
                             distOverLink mplsAction
                             (Some (area_ l)) (Some neighborNode) 0]})
     end).

Lemma thriftStep_spec (nhs : gset NextHopThrift) (l : Link) :
  is_Some (getOtherNodeName l myNodeName) ->
  exists nhs', thriftStep nhs l = Some nhs' /\
    forall nh, nh ∈ nhs' <-> nh ∈ nhs \/ nextHopOverLink l nh.
Proof.
  intros Hother.
  pose proof (fromNode_is_Some l myNodeName (metric1_ l) (metric2_ l) Hother)
    as [m Hm].
  pose proof (fromNode_is_Some l myNodeName (if1_ l) (if2_ l) Hother)
    as [iface Hif].
  assert (is_Some (if isV4 && negb (v4OverV6Nexthop_ solver)
                   then getNhV4FromNode l myNodeName
                   else getNhV6FromNode l myNodeName)) as [addr Haddr].
  { destruct (isV4 && negb (v4OverV6Nexthop_ solver));
      by apply fromNode_is_Some. }
  destruct Hother as [nb Hnb]. unfold SpfSolverOps.nextHopOverLink.
  fold (getMetricFromNode l myNodeName) in Hm.
  fold (getIfaceFromNode l myNodeName) in Hif.
  cbn beta. rewrite Hnb. cbn [mbind option_bind].
  destruct (nextHopNodes !! nb) as [dist|] eqn:Hdist.
  2:{ exists nhs. split; [done|]. intros nh. split; [by left|].
      intros [?|(? & ? & ? & ? & ? & [= <-] & ? & _)]; [done|congruence]. }
  destruct (isUp l) eqn:Hup; cbn [negb].
  2:{ exists nhs. split; [done|]. intros nh. split; [by left|].
      intros [?|(? & ? & ? & ? & ? & _ & _ & ? & _)]; [done|congruence]. }
  rewrite Hm. cbn [mbind option_bind]. cbv zeta.
  case_bool_decide as Hbest; cbn [negb].
  2:{ exists nhs. split; [done|]. intros nh. split; [by left|].
      intros [?|(? & ? & ? & ? & ? & [= <-] & ? & _ & [= <-] & ? & _)];
        [done|congruence]. }
  rewrite Haddr, Hif. cbn [mbind option_bind]. eexists. split; [done|].
  intros nh. rewrite elem_of_union, elem_of_singleton. split.
  - intros [?| ->]; [by left|right]. exists nb, dist, m, addr, iface.
    rewrite Hbest. done.
  - intros [?|(nb' & dist' & m' & addr' & iface' & [= <-] & Hd' & _ & [= <-]
               & _ & [= <-] & [= <-] & ->)]; [by left|right].
    rewrite Hbest. done.
Qed.

Lemma thriftLoop_spec (links : list Link) :
  (forall l, l ∈ links -> is_Some (getOtherNodeName l myNodeName)) ->
  forall nhs0, exists nhs,
    foldlM thriftStep nhs0 links = Some nhs /\
    forall nh, nh ∈ nhs <->
      nh ∈ nhs0 \/ exists l, l ∈ links /\ nextHopOverLink l nh.
Proof.
  induction links as [|l links IH]; intros Hall nhs0.
  - exists nhs0. split; [done|]. intros nh. split; [by left|].
    intros [?|(l & Hl & _)]; [done|]. by apply elem_of_nil in Hl.
  - destruct (thriftStep_spec nhs0 l) as (nhs1 & Hs1 & H1);
      [apply Hall; by left|].
    erewrite foldlM_cons_Some by exact Hs1.
    destruct (IH (fun l' Hl' => Hall l' (list_elem_of_further _ _ _ Hl')) nhs1)
      as (nhs & -> & H2).
    exists nhs. split; [done|]. intros nh. rewrite H2, H1. split.
    + intros [[?|?]|(l' & Hl' & ?)]; [by left|right..].
      * exists l. split; [by left|done].
      * exists l'. split; [by right|done].
    + intros [?|(l' & [->|Hl']%elem_of_cons & ?)].
      * by left; left.
      * by left; right.
      * right. by exists l'.
Qed.

(** [getNextHopsThrift] on a well-formed link map and a non-empty map of
    next-hop nodes. *)
Lemma getNextHopsThrift_spec :
  wfLinkMap ls -> nextHopNodes <> ∅ ->
  exists nhs,
    getNextHopsThrift solver myNodeName dstNodeAreas isV4
      (minMetric, nextHopNodes) swapLabel area ls = Some nhs /\
    forall nh, nh ∈ nhs <->
      exists l, l ∈ linksFromNode ls myNodeName /\ nextHopOverLink l nh.
Proof.
  intros Hwf Hne. unfold getNextHopsThrift. cbn [fst snd].
  rewrite bool_decide_false by done.
  destruct (thriftLoop_spec (linksFromNode ls myNodeName))
    with (nhs0 := (∅ : gset NextHopThrift)) as (nhs & Hrun & Hnhs).
  { intros l Hl. unfold linksFromNode in Hl.
    destruct (linkMap_ ls !! myNodeName) as [links|] eqn:Hlinks;
      [by eapply Hwf|by apply elem_of_nil in Hl]. }
  exists nhs. split; [exact Hrun|]. intros nh. rewrite Hnhs.
  split; [|by right]. intros [Hin|?]; [|done].
  by apply not_elem_of_empty in Hin.
Qed.

End ThriftNextHops.

(** X22: on a well-formed link map [getNextHopsWithMetric] returns.  Its
    metric is the least SPF distance of a destination that SPF reached (and
    the greatest metric when it reached none); a node is among the next-hop
    nodes exactly when it is an SPF next hop of a destination at that least
    distance, and it comes with that distance minus its own. *)
Theorem X22_getNextHopsWithMetric_closest
    (ls : LinkState.t) (myNodeName : string)
    (dstNodeAreas : list SpfSolver.NodeAndArea) :
  LinkState.wfLinkMap ls ->
  exists R best nhs,
    LinkState.getSpfResult ls myNodeName true = Some R /\
    SpfSolver.getNextHopsWithMetric myNodeName dstNodeAreas ls
    = Some (best, nhs) /\
    0 <= best <= SpfSolver.METRIC_MAX /\
    (forall dst r, dst ∈ dstNodeAreas -> R !! dst.1 = Some r ->
       best <= LinkState.metric r) /\
    (forall dst, dst ∈ dstNodeAreas -> is_Some (R !! dst.1) ->
       exists dst' r', dst' ∈ dstNodeAreas /\ R !! dst'.1 = Some r' /\
                       LinkState.metric r' = best) /\
    ((forall dst, dst ∈ dstNodeAreas -> R !! dst.1 = None) ->
     best = SpfSolver.METRIC_MAX) /\
    forall h d,
      nhs !! h = Some d <->
      exists rh, R !! h = Some rh /\
        d = to_uint64 (best - LinkState.metric rh) /\
        exists dst r, dst ∈ dstNodeAreas /\ R !! dst.1 = Some r /\
                      LinkState.metric r = best /\
                      h ∈ LinkState.nextHops r.
Proof. intros Hwf. by apply getNextHopsWithMetric_spec. Qed.

Lemma X22_getNextHopsWithMetric_closest_witness :
  exists R best nhs,
    LinkState.getSpfResult sampleKthTopology "1" true = Some R /\
    SpfSolver.getNextHopsWithMetric "1" [("4", "0"); ("9", "0")]
      sampleKthTopology = Some (best, nhs) /\
    0 <= best <= SpfSolver.METRIC_MAX /\
    (forall dst r, dst ∈ [("4", "0"); ("9", "0")] -> R !! dst.1 = Some r ->
       best <= LinkState.metric r) /\
    (forall dst, dst ∈ [("4", "0"); ("9", "0")] -> is_Some (R !! dst.1) ->
       exists dst' r', dst' ∈ [("4", "0"); ("9", "0")] /\
                       R !! dst'.1 = Some r' /\
                       LinkState.metric r' = best) /\
    ((forall dst, dst ∈ [("4", "0"); ("9", "0")] -> R !! dst.1 = None) ->
     best = SpfSolver.METRIC_MAX) /\
    forall h d,
      nhs !! h = Some d <->
      exists rh, R !! h = Some rh /\
        d = to_uint64 (best - LinkState.metric rh) /\
        exists dst r, dst ∈ [("4", "0"); ("9", "0")] /\
                      R !! dst.1 = Some r /\
                      LinkState.metric r = best /\
                      h ∈ LinkState.nextHops r.
Proof.
  exact (X22_getNextHopsWithMetric_closest sampleKthTopology "1"
           [("4", "0"); ("9", "0")] sampleKthTopology_wf).
Defined.

(** X23: [getNextHopsThrift] fails on an empty map of next-hop nodes.  On a
    non-empty one and a well-formed link map it returns exactly the next
    hops over the links of the node that are up, lead to a next-hop node,
    and whose metric plus the distance of that node is the least metric;
    each carries that metric, the interface, area and far end of its link,
    weight 0, and with a swap label the action PHP towards a destination
    and SWAP otherwise. *)
Theorem X23_getNextHopsThrift_links
    (solver : SpfSolver.t) (ls : LinkState.t) (myNodeName : string)
    (dstNodeAreas : list SpfSolver.NodeAndArea) (isV4 : bool) (minMetric : Z)
    (nextHopNodes : gmap string Z) (swapLabel : option Z) (area : string) :
  (nextHopNodes = ∅ ->
   SpfSolver.getNextHopsThrift solver myNodeName dstNodeAreas isV4
     (minMetric, nextHopNodes) swapLabel area ls = None) /\
  (LinkState.wfLinkMap ls -> nextHopNodes <> ∅ ->
   exists nhs,
     SpfSolver.getNextHopsThrift solver myNodeName dstNodeAreas isV4
       (minMetric, nextHopNodes) swapLabel area ls = Some nhs /\
     forall nh, nh ∈ nhs <->
       exists l, l ∈ LinkState.linksFromNode ls myNodeName /\
                 SpfSolverOps.nextHopOverLink solver myNodeName dstNodeAreas isV4
                   minMetric nextHopNodes swapLabel area l nh).
Proof.
  split.
  - intros ->. unfold SpfSolver.getNextHopsThrift. cbn [fst snd].
    by rewrite bool_decide_true.
  - apply getNextHopsThrift_spec.
Qed.

Lemma X23_getNextHopsThrift_links_witness :
  ((∅ : gmap string Z) = ∅ ->
   SpfSolver.getNextHopsThrift sampleSolver "1" [("4", "0")]
     true (2, ∅) None "0" sampleKthTopology = None) /\
  exists nhs,
    SpfSolver.getNextHopsThrift sampleSolver "1" [("4", "0")]
      true (2, {["2" := 1]}) None "0" sampleKthTopology = Some nhs /\
    forall nh, nh ∈ nhs <->
      exists l, l ∈ LinkState.linksFromNode sampleKthTopology "1" /\
                SpfSolverOps.nextHopOverLink sampleSolver "1" [("4", "0")]
                  true 2 {["2" := 1]} None "0" l nh.
Proof.
  split.
  - apply (X23_getNextHopsThrift_links sampleSolver
             sampleKthTopology "1" [("4", "0")] true 2 ∅ None "0").
  - apply (X23_getNextHopsThrift_links sampleSolver
             sampleKthTopology "1" [("4", "0")] true 2 {["2" := 1]} None "0").
    + exact sampleKthTopology_wf.
    + apply map_non_empty_singleton.
Defined.

(** X24: on a well-formed link map [selectBestPathsSpf] returns.  Its metric
    is at most the SPF distance of every destination reached.  It has a next
    hop exactly when a destination at the least distance is another node
    than this one.  Every next hop carries the least metric, no MPLS action
    and weight 0, and goes over a link of this node that is up to a neighbor
    which is an SPF next hop of a destination at the least distance. *)
Theorem X24_selectBestPathsSpf_next_hops
    (solver : SpfSolver.t) (myNodeName : string) (prefixIsV4 : bool)
    (routeSelectionResult : SpfSolverOps.RouteSelectionResult)
    (area : string) (ls : LinkState.t) :
  LinkState.wfLinkMap ls ->
  exists R best nhs,
    LinkState.getSpfResult ls myNodeName true = Some R /\
    SpfSolverOps.selectBestPathsSpf solver myNodeName prefixIsV4
      routeSelectionResult area ls = Some (best, nhs) /\
    (forall dst r,
       dst ∈ SpfSolverOps.allNodeAreas routeSelectionResult ->
       R !! dst.1 = Some r -> best <= LinkState.metric r) /\
    (nhs <> ∅ <->
     exists dst r,
       dst ∈ SpfSolverOps.allNodeAreas routeSelectionResult /\
       R !! dst.1 = Some r /\ LinkState.metric r = best /\
       dst.1 <> myNodeName) /\
    forall nh, nh ∈ nhs ->
      nh_metric nh = best /\ nh_mplsAction nh = None /\ nh_weight nh = 0 /\
      exists l nb dst r,
        l ∈ LinkState.linksFromNode ls myNodeName /\
        LinkState.isUp l = true /\
        LinkState.getOtherNodeName l myNodeName = Some nb /\
        nh_neighborNodeName nh = Some nb /\
        nh_ifName nh = LinkState.getIfaceFromNode l myNodeName /\
        nh_area nh = Some (LinkState.area_ l) /\
        dst ∈ SpfSolverOps.allNodeAreas routeSelectionResult /\
        R !! dst.1 = Some r /\ LinkState.metric r = best /\
        nb ∈ LinkState.nextHops r.
Proof.
  intros Hwf.
  destruct (getNextHopsWithMetric_spec ls myNodeName Hwf
              (SpfSolverOps.allNodeAreas routeSelectionResult))
    as (R & best & nhNodes & HR & Hrun & Hbest & Hlow & _ & _ & Hnh).
  pose proof (runSpf_source ls myNodeName true [] R HR) as Hsrc.
  (* a closest destination other than this node gives a next-hop node *)
  assert ((exists dst r,
             dst ∈ SpfSolverOps.allNodeAreas routeSelectionResult /\
             R !! dst.1 = Some r /\ LinkState.metric r = best /\
             dst.1 <> myNodeName) <-> nhNodes <> ∅) as Hsome.
  { split.
    - intros (dst & r & Hd & Hr & Hm & Hne) Hempty.
      destruct (runSpf_entries ls myNodeName true [] R HR _ r Hr)
        as [Hok Hres].
      destruct (set_choose_L _ (LinkStateOps.se_hops _ _ _ Hok Hne))
        as [h Hh].
      destruct (Hres h Hh) as (rh & Hrh & _).
      assert (nhNodes !! h
              = Some (to_uint64 (best - LinkState.metric rh))) as Hlook.
      { apply Hnh. exists rh. split; [done|]. split; [done|].
        by exists dst, r. }
      rewrite Hempty, lookup_empty in Hlook. done.
    - intros Hne. destruct (map_choose _ Hne) as (h & d & Hlook).
      apply Hnh in Hlook as (rh & _ & _ & dst & r & Hd & Hr & Hm & Hh).
      exists dst, r. split; [done|]. split; [done|]. split; [done|].
      intros Hme. rewrite Hme, Hsrc in Hr. injection Hr as <-.
      cbn in Hh. by apply not_elem_of_empty in Hh. }
  unfold SpfSolverOps.selectBestPathsSpf. rewrite Hrun.
  cbn [mbind option_bind fst snd].
  case_bool_decide as Hempty.
  - exists R, best, ∅. split; [done|]. split; [done|]. split; [done|].
    split.
    + rewrite Hsome. split; [done|]. intros Hne _. done.
    + intros nh Hin. by apply not_elem_of_empty in Hin.
  - destruct (getNextHopsThrift_spec solver ls myNodeName
                (SpfSolverOps.allNodeAreas routeSelectionResult) prefixIsV4
                best nhNodes None area Hwf Hempty) as (nhs & Hth & Hset).
    rewrite Hth. cbn [mbind option_bind].
    exists R, best, nhs. split; [done|]. split; [done|]. split; [done|].
    split.
    + rewrite Hsome. split; [done|]. intros _.
      destruct (map_choose _ Hempty) as (h & d & Hlook).
      pose proof Hlook as Hlook'.
      apply Hnh in Hlook' as (rh & Hrh & Hd & dst & r & Hdst & Hr & Hm & Hh).
      destruct (runSpf_next_hop ls myNodeName true [] R _ r h HR Hr Hh)
        as (rh' & l & c & Hrh' & Hl & Hup & _ & Hother & Hc & Hmc).
      rewrite Hrh in Hrh'. injection Hrh' as <-.
      cbn [LinkState.linkCost] in Hc.
      assert (is_Some (LinkState.getOtherNodeName l myNodeName)) as Hsomeo
        by by eexists.
      pose proof (fromNode_is_Some l myNodeName (LinkState.if1_ l)
                    (LinkState.if2_ l) Hsomeo) as [iface Hif].
      assert (is_Some (if prefixIsV4
                          && negb (SpfSolver.v4OverV6Nexthop_ solver)
                       then LinkState.getNhV4FromNode l myNodeName
                       else LinkState.getNhV6FromNode l myNodeName))
        as [addr Haddr].
      { destruct (prefixIsV4 && negb (SpfSolver.v4OverV6Nexthop_ solver));
          by apply fromNode_is_Some. }
      apply (non_empty_inhabited_L
               (SpfSolver.createNextHop addr (Some iface) best None
                  (Some (LinkState.area_ l)) (Some h) 0)).
      apply Hset. exists l. split; [done|].
      exists h, d, c, addr, iface. split; [done|]. split; [done|].
      split; [done|]. split; [done|]. split; [|done].
      rewrite Hd, Hmc. apply metricAdd_back. unfold SpfSolver.METRIC_MAX in *.
      lia.
    + intros nh Hin. apply Hset in Hin
        as (l & Hl & nb & dist & m & addr & iface & Hother & Hdist & Hup
            & Hm & Hsum & Haddr & Hif & ->).
      cbn [nh_metric nh_mplsAction nh_weight nh_neighborNodeName nh_ifName
           nh_area SpfSolver.createNextHop].
      split; [done|]. split; [done|]. split; [done|].
      apply Hnh in Hdist as (rn & _ & _ & dst & r & Hdst & Hr & Hmr & Hh).
      exists l, nb, dst, r. by rewrite Hif.
Qed.

Lemma X24_selectBestPathsSpf_next_hops_witness :
  exists R best nhs,
    LinkState.getSpfResult sampleKthTopology "1" true = Some R /\
    SpfSolverOps.selectBestPathsSpf sampleSolver "1" true
      (SpfSolverOps.mkRouteSelectionResult [("4", "0"); ("9", "0")]
         ("4", "0") false) "0" sampleKthTopology = Some (best, nhs) /\
    (forall dst r,
       dst ∈ [("4", "0"); ("9", "0")] ->
       R !! dst.1 = Some r -> best <= LinkState.metric r) /\
    (nhs <> ∅ <->
     exists dst r,
       dst ∈ [("4", "0"); ("9", "0")] /\
       R !! dst.1 = Some r /\ LinkState.metric r = best /\
       dst.1 <> "1") /\
    forall nh, nh ∈ nhs ->
      nh_metric nh = best /\ nh_mplsAction nh = None /\ nh_weight nh = 0 /\
      exists l nb dst r,
        l ∈ LinkState.linksFromNode sampleKthTopology "1" /\
        LinkState.isUp l = true /\
        LinkState.getOtherNodeName l "1" = Some nb /\
        nh_neighborNodeName nh = Some nb /\
        nh_ifName nh = LinkState.getIfaceFromNode l "1" /\
        nh_area nh = Some (LinkState.area_ l) /\
        dst ∈ [("4", "0"); ("9", "0")] /\
        R !! dst.1 = Some r /\ LinkState.metric r = best /\
        nb ∈ LinkState.nextHops r.
Proof.
  exact (X24_selectBestPathsSpf_next_hops sampleSolver "1" true
           (SpfSolverOps.mkRouteSelectionResult [("4", "0"); ("9", "0")]
              ("4", "0") false) "0" sampleKthTopology sampleKthTopology_wf).
Defined.

(** ** Prefix entries of reachable nodes *)

Section Reachable.
Import LinkState RouteDb SpfSolver SpfSolverOps.
Variable myNodeName : string.

Section OneArea.
Variable area : string.
Variable mySpfResult : SpfResult.

Abbreviation retainStep :=
  (fun (st' : gmap NodeAndArea PrefixEntry * bool)
       (kv : NodeAndArea * PrefixEntry) =>
     let considered := st'.2 || bool_decide (myNodeName = kv.1.1) in
     if negb (bool_decide (area = kv.1.2))
        || bool_decide (is_Some (mySpfResult !! kv.1.1))
     then (st'.1, considered)
     else (delete kv.1 st'.1, considered)).

(** The loop over the entries of one area: it erases the entries of that
    area whose node SPF did not reach, and notes an entry of this node. *)
Lemma retainLoop_spec (l : list (NodeAndArea * PrefixEntry)) :
  forall m b,
    (forall na pe,
       (foldl retainStep (m, b) l).1 !! na = Some pe <->
       m !! na = Some pe /\
       ~ (na ∈ l.*1 /\ area = na.2 /\ mySpfResult !! na.1 = None)) /\
    ((foldl retainStep (m, b) l).2 = true <->
     b = true \/ exists kv, kv ∈ l /\ kv.1.1 = myNodeName).
Proof.
  induction l as [|kv l IH]; intros m b; cbn [foldl].
  - split.
    + intros na pe. cbn [fst]. split; [|by intros [? _]].
      intros Hl. split; [done|]. intros [Hin _].
      by apply elem_of_nil in Hin.
    + cbn [snd]. split; [by left|]. intros [?|(kv & Hin & _)]; [done|].
      by apply elem_of_nil in Hin.
  - cbv zeta. cbn [fst snd].
    set (considered := b || bool_decide (myNodeName = kv.1.1)).
    assert (considered = true <-> b = true \/ kv.1.1 = myNodeName) as Hcons.
    { unfold considered. rewrite orb_true_iff, bool_decide_eq_true.
      split; intros [?|?]; by eauto. }
    destruct (negb (bool_decide (area = kv.1.2))
              || bool_decide (is_Some (mySpfResult !! kv.1.1))) eqn:Hkeep.
    + destruct (IH m considered) as [Hmap Hflag]. split.
      * intros na pe. rewrite Hmap. split; intros [Hm Hno]; (split; [done|]).
        -- intros ([->|Hin]%elem_of_cons & Ha & Hr); [|by apply Hno].
           apply orb_true_iff in Hkeep as [Hk|Hk].
           ++ apply negb_true_iff, bool_decide_eq_false in Hk. done.
           ++ apply bool_decide_eq_true in Hk as [? Hk]. congruence.
        -- intros (Hin & Hrest). apply Hno. split; [by right|done].
      * rewrite Hflag, Hcons. split.
        -- intros [[?|?]|(kv' & Hin & ?)]; [by left|right..].
           ++ exists kv. split; [by left|done].
           ++ exists kv'. split; [by right|done].
        -- intros [?|(kv' & [->|Hin]%elem_of_cons & ?)].
           ++ by left; left.
           ++ by left; right.
           ++ right. by exists kv'.
    + apply orb_false_iff in Hkeep as [Ha Hr].
      apply negb_false_iff, bool_decide_eq_true in Ha.
      apply bool_decide_eq_false in Hr.
      assert (mySpfResult !! kv.1.1 = None) as Hnone.
      { destruct (mySpfResult !! kv.1.1); [|done]. destruct Hr. by eexists. }
      destruct (IH (delete kv.1 m) considered) as [Hmap Hflag]. split.
      * intros na pe. rewrite Hmap, lookup_delete_Some. split.
        -- intros [[Hne Hm] Hno]. split; [done|].
           intros ([Heq|Hin]%elem_of_cons & Hrest); [|by apply Hno].
           cbn [fmap list_fmap] in Hne. congruence.
        -- intros [Hm Hno]. split; [split; [|done]|].
           ++ intros <-. apply Hno. split; [by left|done].
           ++ intros (Hin & Hrest). apply Hno. split; [by right|done].
      * rewrite Hflag, Hcons. split.
        -- intros [[?|?]|(kv' & Hin & ?)]; [by left|right..].
           ++ exists kv. split; [by left|done].
           ++ exists kv'. split; [by right|done].
        -- intros [?|(kv' & [->|Hin]%elem_of_cons & ?)].
           ++ by left; left.
           ++ by left; right.
           ++ right. by exists kv'.
Qed.

End OneArea.

Lemma reachableInArea_spec (a : string) (ls : LinkState.t)
    (cur : gmap NodeAndArea PrefixEntry) (b : bool) :
  wfLinkMap ls ->
  exists R cur1 b1,
    getSpfResult ls myNodeName true = Some R /\
    reachableInArea myNodeName (cur, b) (a, ls) = Some (cur1, b1) /\
    (forall na pe,
       cur1 !! na = Some pe <->
       cur !! na = Some pe /\ (a = na.2 -> is_Some (R !! na.1))) /\
    (b1 = true <->
     b = true \/ exists area, is_Some (cur !! (myNodeName, area))).
Proof.
  intros Hwf. destruct (runSpf_total ls myNodeName true [] Hwf) as [R HR].
  exists R. unfold reachableInArea. cbn [fst snd].
  unfold getSpfResult in *. rewrite HR. cbn [mbind option_bind].
  destruct (retainLoop_spec a R (map_to_list cur) cur b) as [Hmap Hflag].
  destruct (foldl _ (cur, b) (map_to_list cur)) as [cur1 b1] eqn:Hfold.
  cbn [fst snd] in Hmap, Hflag.
  exists cur1, b1. split; [done|]. split; [done|]. split.
  - intros na pe. rewrite Hmap. split; intros [Hm Hno]; (split; [done|]).
    + intros Ha. destruct (R !! na.1) eqn:Hr; [by eexists|].
      destruct Hno. split; [|done]. apply list_elem_of_fmap.
      exists (na, pe). split; [done|]. by apply elem_of_map_to_list.
    + intros (_ & Ha & Hr). destruct (Hno Ha) as [? ?]. congruence.
  - rewrite Hflag. split; (intros [?|Hex]; [by left|right]).
    + destruct Hex as ([[n ar] pe] & Hin%elem_of_map_to_list & Hn).
      cbn [fst] in Hn. subst n. exists ar. by eexists.
    + destruct Hex as (ar & pe & Hpe). exists (myNodeName, ar, pe).
      split; [by apply elem_of_map_to_list|done].
Qed.

(** The loop of [createRouteForPrefix] over the areas. *)
Lemma reachableLoop_spec (areaLinkStates : list (string * LinkState.t)) :
  (forall a, a ∈ areaLinkStates -> wfLinkMap a.2) ->
  forall cur b,
    exists pes flag,
      foldlM (reachableInArea myNodeName) (cur, b) areaLinkStates
      = Some (pes, flag) /\
      (forall na pe,
         pes !! na = Some pe <->
         cur !! na = Some pe /\
         forall ls R, (na.2, ls) ∈ areaLinkStates ->
           getSpfResult ls myNodeName true = Some R -> is_Some (R !! na.1)) /\
      (flag = true <->
       b = true \/
       (areaLinkStates <> [] /\
        exists area, is_Some (cur !! (myNodeName, area)))).
Proof.
  induction areaLinkStates as [|[a ls] areas IH]; intros Hwf cur b.
  - exists cur, b. split; [done|]. split.
    + intros na pe. split; [|by intros [? _]]. intros Hl. split; [done|].
      intros ls R Hin. by apply elem_of_nil in Hin.
    + split; [by left|]. by intros [?|[? _]].
  - destruct (reachableInArea_spec a ls cur b) as
      (R & cur1 & b1 & HR & Hstep & Hmap1 & Hflag1).
    { apply (Hwf (a, ls)). by left. }
    erewrite foldlM_cons_Some by exact Hstep.
    destruct (IH (fun x Hx => Hwf x (list_elem_of_further _ _ _ Hx)) cur1 b1)
      as (pes & flag & Hrun & Hmap & Hflag).
    exists pes, flag. split; [done|]. split.
    + intros na pe. rewrite Hmap, Hmap1. split.
      * intros [[Hc Ha] Hrest]. split; [done|].
        intros ls' R' [[= <- <-]|Hin]%elem_of_cons HR'.
        -- rewrite HR in HR'. injection HR' as <-. by apply Ha.
        -- by eapply Hrest.
      * intros [Hc Hall]. split; [split; [done|]|].
        -- intros ->. eapply Hall; [by left|done].
        -- intros ls' R' Hin. apply Hall. by right.
    + assert (forall area, is_Some (cur1 !! (myNodeName, area)) <->
                           is_Some (cur !! (myNodeName, area))) as Hme.
      { intros area. split; intros [pe Hpe]; exists pe.
        - by apply Hmap1 in Hpe as [? _].
        - apply Hmap1. split; [done|]. intros _. cbn [fst].
          rewrite (runSpf_source ls myNodeName true [] R HR). by eexists. }
      rewrite Hflag, Hflag1. split.
      * intros [[?|Hex]|[_ (area & Hex)]]; [by left|right..]; (split; [done|]).
        -- done.
        -- exists area. by apply Hme.
      * intros [?|[_ Hex]]; [by left; left|]. left. by right.
Qed.

End Reachable.

(** X25: the reachability loop of [createRouteForPrefix], on well-formed
    link maps, keeps a prefix entry exactly when SPF from this node reaches
    the entry's node in every link state given for the entry's area; entries
    of this node itself are therefore never dropped.  The flag
    [localPrefixConsidered] is set exactly when there is some area and this
    node has an entry. *)
Theorem X25_reachable_prefix_entries
    (myNodeName : string) (areaLinkStates : list (string * LinkState.t))
    (allPrefixEntries : gmap SpfSolver.NodeAndArea RouteDb.PrefixEntry) :
  (forall a, a ∈ areaLinkStates -> LinkState.wfLinkMap a.2) ->
  exists prefixEntries localPrefixConsidered,
    SpfSolverOps.reachablePrefixEntries myNodeName areaLinkStates
      allPrefixEntries = Some (prefixEntries, localPrefixConsidered) /\
    (forall na pe,
       prefixEntries !! na = Some pe <->
       allPrefixEntries !! na = Some pe /\
       forall ls R, (na.2, ls) ∈ areaLinkStates ->
         LinkState.getSpfResult ls myNodeName true = Some R ->
         is_Some (R !! na.1)) /\
    (forall area pe,
       allPrefixEntries !! (myNodeName, area) = Some pe ->
       prefixEntries !! (myNodeName, area) = Some pe) /\
    (localPrefixConsidered = true <->
     areaLinkStates <> [] /\
     exists area, is_Some (allPrefixEntries !! (myNodeName, area))).
Proof.
  intros Hwf.
  destruct (reachableLoop_spec myNodeName areaLinkStates Hwf allPrefixEntries
              false) as (pes & flag & Hrun & Hmap & Hflag).
  exists pes, flag. split; [exact Hrun|]. split; [done|]. split.
  - intros area pe Hpe. apply Hmap. split; [done|]. intros ls R _ HR.
    cbn [fst]. rewrite (runSpf_source ls myNodeName true [] R HR).
    by eexists.
  - rewrite Hflag. split; [by intros [?|?]|by right].
Qed.

Lemma X25_reachable_prefix_entries_witness :
  exists prefixEntries localPrefixConsidered,
    SpfSolverOps.reachablePrefixEntries "1" [("0", sampleKthTopology)]
      samplePrefixEntries = Some (prefixEntries, localPrefixConsidered) /\
    (forall na pe,
       prefixEntries !! na = Some pe <->
       samplePrefixEntries !! na = Some pe /\
       forall ls R, (na.2, ls) ∈ [("0", sampleKthTopology)] ->
         LinkState.getSpfResult ls "1" true = Some R ->
         is_Some (R !! na.1)) /\
    (forall area pe,
       samplePrefixEntries !! ("1", area) = Some pe ->
       prefixEntries !! ("1", area) = Some pe) /\
    (localPrefixConsidered = true <->
     [("0", sampleKthTopology)] <> [] /\
     exists area, is_Some (samplePrefixEntries !! ("1", area))).
Proof.
  apply (X25_reachable_prefix_entries "1" [("0", sampleKthTopology)]
           samplePrefixEntries).
  intros a Ha. apply list_elem_of_singleton in Ha as ->.
  exact sampleKthTopology_wf.
Defined.

(** ** LinkState: [addLink] keeps the link sets consistent *)

(** X26: [addLink] fails exactly when the link joins a node to itself or an
    equal link is already in one of the three sets it is inserted into.
    When it succeeds on a consistent link state, the new state is consistent
    again, the link is appended to the sets of its two ends and to the set
    of all links, no other set changes, and adding the link once more
    fails. *)
Theorem X26_addLink_keeps_consistency (l : LinkState.Link) (ls : LinkState.t) :
  LinkStateOps.consistent ls ->
  match LinkState.addLink l ls with
  | Some ls' =>
      LinkState.firstNodeName l <> LinkState.secondNodeName l /\
      LinkState.linkSetCount (LinkState.allLinks_ ls) l = false /\
      LinkStateOps.consistent ls' /\
      (forall n,
         LinkState.linksFromNode ls' n =
         if bool_decide (n = LinkState.firstNodeName l
                         \/ n = LinkState.secondNodeName l)
         then LinkState.linksFromNode ls n ++ [l]
         else LinkState.linksFromNode ls n) /\
      LinkState.allLinks_ ls' = LinkState.allLinks_ ls ++ [l] /\
      LinkState.addLink l ls' = None
  | None =>
      LinkState.firstNodeName l = LinkState.secondNodeName l \/
      LinkState.linkSetCount
        (LinkState.linksFromNode ls (LinkState.firstNodeName l)) l = true \/
      LinkState.linkSetCount
        (LinkState.linksFromNode ls (LinkState.secondNodeName l)) l = true \/
      LinkState.linkSetCount (LinkState.allLinks_ ls) l = true
  end.
Proof.
  intros Hc. destruct (LinkState.addLink l ls) as [ls'|] eqn:Hadd.
  - pose proof Hadd as (Hne & Hf & Hs & Ha & Hls')%addLink_Some.
    split; [done|]. split; [done|].
    split; [by eapply addLink_consistent|]. split; [|split].
    + intros n. rewrite (linksFromNode_addLink l ls ls' n Hadd).
      repeat case_bool_decide; try done; naive_solver.
    + by rewrite Hls'.
    + destruct (LinkState.addLink l ls') as [ls2|] eqn:Hadd2; [|done].
      apply addLink_Some in Hadd2 as (_ & _ & _ & Ha2 & _).
      rewrite Hls' in Ha2. cbn [LinkState.allLinks_] in Ha2.
      by rewrite linkSetCount_added in Ha2.
  - destruct (decide (LinkState.firstNodeName l = LinkState.secondNodeName l))
      as [?|Hne]; [by left|right].
    destruct (LinkState.linkSetCount
                (LinkState.linksFromNode ls (LinkState.firstNodeName l)) l)
      eqn:Hf; [by left|right].
    destruct (LinkState.linkSetCount
                (LinkState.linksFromNode ls (LinkState.secondNodeName l)) l)
      eqn:Hs; [by left|right].
    destruct (LinkState.linkSetCount (LinkState.allLinks_ ls) l) eqn:Ha;
      [done|].
    assert (is_Some (LinkState.addLink l ls)) as [ls' Hls'];
      [|by rewrite Hadd in Hls'].
    eexists. apply addLink_Some. done.
Qed.

Lemma X26_addLink_keeps_consistency_witness :
  match LinkState.addLink (sampleLink "A" "B" 10 10) (LinkState.empty "0") with
  | Some ls' =>
      LinkState.firstNodeName (sampleLink "A" "B" 10 10)
      <> LinkState.secondNodeName (sampleLink "A" "B" 10 10) /\
      LinkState.linkSetCount (LinkState.allLinks_ (LinkState.empty "0"))
        (sampleLink "A" "B" 10 10) = false /\
      LinkStateOps.consistent ls' /\
      (forall n,
         LinkState.linksFromNode ls' n =
         if bool_decide
              (n = LinkState.firstNodeName (sampleLink "A" "B" 10 10)
               \/ n = LinkState.secondNodeName (sampleLink "A" "B" 10 10))
         then LinkState.linksFromNode (LinkState.empty "0") n
                ++ [sampleLink "A" "B" 10 10]
         else LinkState.linksFromNode (LinkState.empty "0") n) /\
      LinkState.allLinks_ ls'
      = LinkState.allLinks_ (LinkState.empty "0")
          ++ [sampleLink "A" "B" 10 10] /\
      LinkState.addLink (sampleLink "A" "B" 10 10) ls' = None
  | None =>
      LinkState.firstNodeName (sampleLink "A" "B" 10 10)
      = LinkState.secondNodeName (sampleLink "A" "B" 10 10) \/
      LinkState.linkSetCount
        (LinkState.linksFromNode (LinkState.empty "0")
           (LinkState.firstNodeName (sampleLink "A" "B" 10 10)))
        (sampleLink "A" "B" 10 10) = true \/
      LinkState.linkSetCount
        (LinkState.linksFromNode (LinkState.empty "0")
           (LinkState.secondNodeName (sampleLink "A" "B" 10 10)))
        (sampleLink "A" "B" 10 10) = true \/
      LinkState.linkSetCount (LinkState.allLinks_ (LinkState.empty "0"))
        (sampleLink "A" "B" 10 10) = true
  end.
Proof.
  exact (X26_addLink_keeps_consistency (sampleLink "A" "B" 10 10)
           (LinkState.empty "0") (empty_consistent "0")).
Defined.

(** ** The hold of a link *)

Lemma decrementHolds_held (l : LinkState.Link) (n : nat) :
  LinkState.holdUpTtl_ l = Z.of_nat (S n) -> Z.of_nat (S n) < 2 ^ 64 ->
  LinkOps.decrementHolds l
  = (LinkOps.setHoldUpTtl (Z.of_nat n) l, bool_decide (n = 0%nat)).
Proof.
  intros Httl Hlt. unfold LinkOps.decrementHolds. rewrite Httl.
  rewrite bool_decide_false by lia. cbv zeta.
  replace (to_uint64 (Z.of_nat (S n) - 1)) with (Z.of_nat n).
  2:{ unfold to_uint64. rewrite Z.mod_small; lia. }
  f_equal. apply bool_decide_ext. lia.
Qed.

(** X27: a link whose hold-up TTL is [n + 1] is down and has a hold during
    the first [n + 1] calls of [decrementHolds], of which only the last
    returns true; after them the hold is gone, and the link is up exactly
    when neither end is overloaded.  Without a hold [decrementHolds] changes
    nothing and returns false. *)
Theorem X27_link_hold_expires_after_ttl_decrements
    (l : LinkState.Link) (n : nat) :
  (LinkState.holdUpTtl_ l = 0 ->
   LinkOps.decrementHolds l = (l, false) /\ LinkOps.hasHolds l = false) /\
  (LinkState.holdUpTtl_ l = Z.of_nat (S n) -> Z.of_nat (S n) < 2 ^ 64 ->
   (forall k, (k <= n)%nat ->
      LinkState.isUp (LinkOps.decrementHoldsTimes k l) = false /\
      LinkOps.hasHolds (LinkOps.decrementHoldsTimes k l) = true /\
      (LinkOps.decrementHolds (LinkOps.decrementHoldsTimes k l)).2
      = bool_decide (k = n)) /\
   LinkOps.decrementHoldsTimes (S n) l = LinkOps.setHoldUpTtl 0 l /\
   LinkOps.hasHolds (LinkOps.decrementHoldsTimes (S n) l) = false /\
   LinkState.isUp (LinkOps.decrementHoldsTimes (S n) l)
   = negb (LinkState.overload1_ l) && negb (LinkState.overload2_ l)).
Proof.
  split.
  { intros H0. unfold LinkOps.decrementHolds, LinkOps.hasHolds. rewrite H0.
    by rewrite bool_decide_true. }
  revert l. induction n as [|n IH]; intros l Httl Hlt.
  - pose proof (decrementHolds_held l 0 Httl Hlt) as Hstep. split.
    + intros k Hk. assert (k = 0%nat) as -> by lia.
      cbn [LinkOps.decrementHoldsTimes]. rewrite Hstep.
      unfold LinkState.isUp, LinkOps.hasHolds. rewrite Httl. done.
    + cbn [LinkOps.decrementHoldsTimes]. rewrite Hstep. done.
  - pose proof (decrementHolds_held l (S n) Httl Hlt) as Hstep.
    destruct (IH (LinkOps.decrementHolds l).1) as (Hbefore & Hafter & Hh & Hu).
    { by rewrite Hstep. } { lia. }
    split; [|split; [|split]].
    + intros [|k] Hk.
      * cbn [LinkOps.decrementHoldsTimes]. rewrite Hstep.
        unfold LinkState.isUp, LinkOps.hasHolds. rewrite Httl. done.
      * cbn [LinkOps.decrementHoldsTimes].
        destruct (Hbefore k ltac:(lia)) as (Hv & Hh' & Hr).
        split; [done|]. split; [done|]. rewrite Hr.
        apply bool_decide_ext. lia.
    + cbn [LinkOps.decrementHoldsTimes] in *. rewrite Hafter.
      by rewrite Hstep.
    + cbn [LinkOps.decrementHoldsTimes] in *. done.
    + cbn [LinkOps.decrementHoldsTimes] in *. rewrite Hu.
      by rewrite Hstep.
Qed.

Lemma X27_link_hold_expires_after_ttl_decrements_witness :
  LinkState.isUp
    (LinkOps.decrementHoldsTimes 2
       (LinkOps.setHoldUpTtl 3 (sampleLink "A" "B" 10 10))) = false /\
  LinkState.isUp
    (LinkOps.decrementHoldsTimes 3
       (LinkOps.setHoldUpTtl 3 (sampleLink "A" "B" 10 10))) = true.
Proof.
  pose proof (proj2 (X27_link_hold_expires_after_ttl_decrements
                       (LinkOps.setHoldUpTtl 3 (sampleLink "A" "B" 10 10)) 2)
                eq_refl eq_refl) as (Hbefore & _ & _ & Hup).
  split; [|exact Hup].
  exact (proj1 (Hbefore 2%nat (le_n 2))).
Defined.
